(** * Authorization core of the Community Solid Server

    A shallow embedding of the permission readers
    ([AllStaticReader], [UnionPermissionReader], [PathBasedReader],
    [AuxiliaryReader], [WebAclAuxiliaryReader], [ParentContainerReader],
    [WebAclReader]) and of the [IntermediateModesExtractor], followed by
    the properties proved about them.

    JavaScript objects that are shared and mutated ([Permission] objects)
    live in an explicit heap; everything else is a value.

    A JavaScript string is a sequence of UTF-16 code units, and [length],
    [includes], [startsWith] and [slice] count and compare code units. A
    [string] of the model is such a sequence, one character for one code
    unit (not the bytes of an encoding of the text), so that
    [String.length] is the [length] of the code. *)

From Stdlib Require Import String Ascii List Bool Arith Lia Permutation.
From stdpp Require Import base list strings option.
Import ListNotations.

Set Default Proof Using "Type".

(* ================================================================== *)
(** * Part I. The embedding                                            *)
(* ================================================================== *)

(** ** Identifiers and modes *)

(** [ResourceIdentifier]: an object with a single field [path]. *)
Record ResourceIdentifier := mkId { path : string }.

#[global] Instance ResourceIdentifier_eq_dec : EqDecision ResourceIdentifier.
Proof. solve_decision. Defined.

(** [AccessMode] together with [AclMode.control]: the source casts
    [AclMode.control] to [AccessMode] ("there is no enum inheritance"),
    so one enumeration carries the six keys of an [AclPermission]. *)
Module AccessMode.
Inductive t := read | append | write | create | delete | control.

#[global] Instance eq_dec : EqDecision t.
Proof. solve_decision. Defined.

Definition all : list t := [read; append; write; create; delete; control].
End AccessMode.

Module CredentialGroup.
Inductive t := public | agent.

#[global] Instance eq_dec : EqDecision t.
Proof. solve_decision. Defined.
End CredentialGroup.

Record Credential := { webId : option string }.

(** A [CredentialSet] is a JS object keyed by credential group:
    an insertion-ordered association list with distinct keys. *)
Definition CredentialSet := list (CredentialGroup.t * Credential).

Fixpoint assoc_get {K V} `{EqDecision K} (k : K) (l : list (K * V)) : option V :=
  match l with
  | [] => None
  | (k', v) :: r => if decide (k = k') then Some v else assoc_get k r
  end.

(** Assignment [o[k] = v] on an insertion-ordered object or [Map]:
    an existing key keeps its position, a new key goes last. *)
Fixpoint assoc_set {K V} `{EqDecision K} (k : K) (v : V) (l : list (K * V)) : list (K * V) :=
  match l with
  | [] => [(k, v)]
  | (k', v') :: r => if decide (k = k') then (k, v) :: r else (k', v') :: assoc_set k v r
  end.

(** ** Errors and the effect monad *)

Inductive Error :=
| NotFoundHttpError (message : string)
| ForbiddenHttpError (message : string)
| InternalServerError (message : string) (cause : Error)
| TypeError (message : string)
| OtherError (message : string).

Definition isNotFound (e : Error) : bool :=
  match e with NotFoundHttpError _ => true | _ => false end.

(** Modelled from the spec: [createErrorMessage] of [ErrorUtil] is not part
    of the sources at hand; the spec prints it as the [{cause}] of the
    message, and the unit test expects the message of the thrown error. *)
Definition createErrorMessage (e : Error) : string :=
  match e with
  | NotFoundHttpError m | ForbiddenHttpError m | InternalServerError m _
  | TypeError m | OtherError m => m
  end.

(** The tri-state value of one mode of a [Permission]:
    [None] is [undefined], [Some b] is the boolean [b]. *)
Definition Tri := option bool.

(** The content of a [Permission] (or [AclPermission]) object. *)
Record Permission := mkPermission {
  p_read : Tri; p_append : Tri; p_write : Tri;
  p_create : Tri; p_delete : Tri; p_control : Tri }.

Definition emptyPermission : Permission :=
  mkPermission None None None None None None.

Definition field (m : AccessMode.t) (p : Permission) : Tri :=
  match m with
  | AccessMode.read => p_read p
  | AccessMode.append => p_append p
  | AccessMode.write => p_write p
  | AccessMode.create => p_create p
  | AccessMode.delete => p_delete p
  | AccessMode.control => p_control p
  end.

Definition set_field (m : AccessMode.t) (v : Tri) (p : Permission) : Permission :=
  match m with
  | AccessMode.read => mkPermission v (p_append p) (p_write p) (p_create p) (p_delete p) (p_control p)
  | AccessMode.append => mkPermission (p_read p) v (p_write p) (p_create p) (p_delete p) (p_control p)
  | AccessMode.write => mkPermission (p_read p) (p_append p) v (p_create p) (p_delete p) (p_control p)
  | AccessMode.create => mkPermission (p_read p) (p_append p) (p_write p) v (p_delete p) (p_control p)
  | AccessMode.delete => mkPermission (p_read p) (p_append p) (p_write p) (p_create p) v (p_control p)
  | AccessMode.control => mkPermission (p_read p) (p_append p) (p_write p) (p_create p) (p_delete p) v
  end.

(** A heap cell: a [Permission] object, possibly frozen by [Object.freeze]. *)
Record Cell := mkCell { frozen : bool; content : Permission }.

Abbreviation loc := nat.

(** What a call can change: the heap of [Permission] objects and the log of
    the ACL documents requested from the [ResourceStore]. *)
Record World := mkWorld { heap : list Cell; fetched : list string }.

(** A call returns, throws, or (in the fuel-bounded loops) runs out of fuel. *)
Inductive Outcome (A : Type) :=
| Ok (a : A)
| Throw (e : Error)
| OutOfFuel.
Arguments Ok {A} a.
Arguments Throw {A} e.
Arguments OutOfFuel {A}.

Definition M (A : Type) := World -> Outcome A * World.

Definition ret {A} (a : A) : M A := fun w => (Ok a, w).

Definition bind {A B} (m : M A) (k : A -> M B) : M B :=
  fun w => match m w with
           | (Ok a, w') => k a w'
           | (Throw e, w') => (Throw e, w')
           | (OutOfFuel, w') => (OutOfFuel, w')
           end.

Definition throw {A} (e : Error) : M A := fun w => (Throw e, w).

Notation "'let*' x ':=' m 'in' k" := (bind m (fun x => k))
  (at level 10, x pattern, m at level 100, k at level 200).

(** [for (const x of l) body(x)] with an accumulator. *)
Fixpoint foldM {A S} (body : S -> A -> M S) (l : list A) (s : S) : M S :=
  match l with
  | [] => ret s
  | x :: r => let* s' := body s x in foldM body r s'
  end.

Fixpoint mapM {A B} (f : A -> M B) (l : list A) : M (list B) :=
  match l with
  | [] => ret []
  | x :: r => let* y := f x in let* ys := mapM f r in ret (y :: ys)
  end.

(** Reading an object. *)
Definition deref (h : list Cell) (l : loc) : Permission :=
  match h !! l with
  | Some c => content c
  | None => emptyPermission
  end.

(** [new] object: a fresh location at the end of the heap. *)
Definition alloc (fz : bool) (p : Permission) : M loc :=
  fun w => (Ok (length (heap w)),
            mkWorld (heap w ++ [mkCell fz p]) (fetched w)).

(** [o[m] = v] in strict mode: throws a [TypeError] on a frozen object. *)
Definition assign (l : loc) (m : AccessMode.t) (v : Tri) : M unit :=
  fun w => match heap w !! l with
           | Some c =>
               if frozen c
               then (Throw (TypeError "Cannot assign to read only property"), w)
               else (Ok tt, mkWorld (<[l := mkCell false (set_field m v (content c))]> (heap w))
                                    (fetched w))
           | None => (Ok tt, w)
           end.

Definition read_field (l : loc) (m : AccessMode.t) : M Tri :=
  fun w => (Ok (field m (deref (heap w) l)), w).

(** ** Permissions.ts *)

(** Modelled from the spec: [HashMap] is not part of the sources at hand.
    The spec describes identifier-keyed maps as hash maps keyed by the
    [path] string with ordered-insertion iteration. An [IdentifierMap] is
    therefore an association list in insertion order, keyed by [path];
    [set] on a present key replaces the entry in place. *)
Definition IdentifierMap (V : Type) := list (ResourceIdentifier * V).

Module IdentifierMap.
Fixpoint get {V} (k : ResourceIdentifier) (m : IdentifierMap V) : option V :=
  match m with
  | [] => None
  | (k', v) :: r => if decide (path k = path k') then Some v else get k r
  end.

Fixpoint set {V} (k : ResourceIdentifier) (v : V) (m : IdentifierMap V) : IdentifierMap V :=
  match m with
  | [] => [(k, v)]
  | (k', v') :: r =>
      if decide (path k = path k') then (k, v) :: r else (k', v') :: set k v r
  end.

Definition keys {V} (m : IdentifierMap V) : list ResourceIdentifier := map fst m.

Definition has {V} (k : ResourceIdentifier) (m : IdentifierMap V) : bool :=
  match get k m with Some _ => true | None => false end.

(** [new IdentifierMap(iterable)]. *)
Definition from {V} (entries : list (ResourceIdentifier * V)) : IdentifierMap V :=
  fold_left (fun m kv => set (fst kv) (snd kv) m) entries [].
End IdentifierMap.

(** A [Set<AccessMode>] in insertion order. *)
Abbreviation ModeSet := (list AccessMode.t).

Definition mode_has (m : AccessMode.t) (s : ModeSet) : bool :=
  bool_decide (m ∈ s).

(** [new Set(iterable)]: keeps the first occurrence of every element. *)
Fixpoint newSet (l : list AccessMode.t) : ModeSet :=
  match l with
  | [] => []
  | x :: r => x :: filter (fun y => y ≠ x) (newSet r)
  end.

Abbreviation AccessMap := (IdentifierMap ModeSet).

(** A [PermissionSet] object: per credential group a reference to a
    [Permission] object. *)
Abbreviation PermissionSet := (list (CredentialGroup.t * loc)).

Abbreviation PermissionMap := (IdentifierMap PermissionSet).

Record PermissionReaderInput := mkInput {
  credentials : CredentialSet;
  accessMap : AccessMap }.

(** A [PermissionReader], seen through [handleSafe]. *)
Definition PermissionReader := PermissionReaderInput -> M PermissionMap.

(** The value of mode [m] for group [g] of identifier [id], as a caller
    reads it from a returned map. *)
Definition view (h : list Cell) (pm : PermissionMap)
    (id : ResourceIdentifier) (g : CredentialGroup.t) (m : AccessMode.t) : Tri :=
  match IdentifierMap.get id pm with
  | None => None
  | Some ps =>
      match assoc_get g ps with
      | None => None
      | Some l => field m (deref h l)
      end
  end.

(** ** PermissionUtil.ts *)

Definition addAccessModes (identifier : ResourceIdentifier) (modes : ModeSet)
    (accessMap : AccessMap) : AccessMap :=
  match IdentifierMap.get identifier accessMap with
  | Some storedModes =>
      IdentifierMap.set identifier (newSet (modes ++ storedModes)) accessMap
  | None => IdentifierMap.set identifier modes accessMap
  end.

(** [remove] is a [Set] of identifier objects, and [remove.has] compares
    objects. Its callers fill it with key objects of [mapEntries] itself
    (or leave it empty), and for the keys of a map, which have distinct
    paths, being the same object and having the same path agree: this is
    what the model covers. A set that holds another object with the path
    of a key is outside the model: the code keeps the entry of that key. *)
Definition updateAccessMap (add : list (ResourceIdentifier * ModeSet))
    (remove : list ResourceIdentifier) (mapEntries : AccessMap) : AccessMap :=
  let result :=
    fold_left (fun (result : AccessMap) '(identifier, modes) =>
                 if bool_decide (identifier ∈ remove) then result
                 else IdentifierMap.set identifier modes result)
              mapEntries [] in
  fold_left (fun (result : AccessMap) '(identifier, modes) =>
               addAccessModes identifier modes result)
            add result.

(** ** External collaborators, by interface *)

(** [IdentifierStrategy]. The implementations are not part of the sources
    at hand; both operations are deterministic functions of the identifier.
    An implementation may reject the parent of a root container: the model
    covers the identifiers on which [getParentContainer] answers. *)
Record IdentifierStrategy := {
  getParentContainer : ResourceIdentifier -> ResourceIdentifier;
  isRootContainer : ResourceIdentifier -> bool }.

(** [AuxiliaryStrategy] (and its supertype [AuxiliaryIdentifierStrategy]). *)
Record AuxiliaryStrategy := {
  getAuxiliaryIdentifier : ResourceIdentifier -> ResourceIdentifier;
  isAuxiliaryIdentifier : ResourceIdentifier -> bool;
  getSubjectIdentifier : ResourceIdentifier -> ResourceIdentifier;
  usesOwnAuthorization : ResourceIdentifier -> bool }.

(** [ResourceSet.hasResource]. *)
Record ResourceSet := { hasResource : ResourceIdentifier -> bool }.

(** ** AllStaticReader.ts *)

Module AllStaticReader.
Record t := { permissions : loc }.

(** The constructor: one frozen [Permission] object for the reader. *)
Definition new (allow : bool) : M t :=
  let* l := alloc true (mkPermission (Some allow) (Some allow) (Some allow)
                                      (Some allow) (Some allow) None) in
  ret {| permissions := l |}.

Definition mapCredentials (this : t) (credentials : CredentialSet) : PermissionSet :=
  fold_left (fun (result : PermissionSet) '(group, _) =>
               assoc_set group (permissions this) result)
            credentials [].

Definition handle (this : t) : PermissionReader :=
  fun input =>
    let entries :=
      map (fun identifier => (identifier, mapCredentials this (credentials input)))
          (IdentifierMap.keys (accessMap input)) in
    ret (IdentifierMap.from entries).
End AllStaticReader.

(** ** UnionPermissionReader.ts *)

Module UnionPermissionReader.
Record t := { readers : list PermissionReader }.

(** One key of [applyPermissions]:
    [if (typeof value !== 'undefined' && result[key] !== false) result[key] = value]. *)
Definition applyValue (value : Tri) (result : Tri) : Tri :=
  match value with
  | None => result
  | Some v => match result with
              | Some false => result
              | _ => Some v
              end
  end.

Definition applyPermissions (permissions : Permission) (result : Permission) : Permission :=
  fold_left (fun result key =>
               set_field key (applyValue (field key permissions) (field key result)) result)
            AccessMode.all result.

(** The map under construction in [combine]. Every [resultSet] and every
    [Permission] in it is an object created by [combine] itself (the
    [{}] of [applyPermissionMap] and the default [result = {}] of
    [applyPermissions]), so it is built as a value and allocated on
    return. *)
Definition Building := IdentifierMap (list (CredentialGroup.t * Permission)).

Definition applyPermissionMap (h : list Cell) (permissionMap : PermissionMap)
    (result : Building) : Building :=
  fold_left
    (fun (result : Building) '(identifier, permissionSet) =>
       fold_left
         (fun (result : Building) '(credential, permission) =>
            let resultSet := default [] (IdentifierMap.get identifier result) in
            let old := default emptyPermission (assoc_get credential resultSet) in
            IdentifierMap.set identifier
              (assoc_set credential (applyPermissions (deref h permission) old) resultSet)
              result)
         (permissionSet : PermissionSet) result)
    permissionMap result.

Definition allocSet (s : list (CredentialGroup.t * Permission)) : M PermissionSet :=
  mapM (fun '(g, p) => let* l := alloc false p in ret (g, l)) s.

Definition allocMap (b : Building) : M PermissionMap :=
  mapM (fun '(identifier, s) => let* ps := allocSet s in ret (identifier, ps)) b.

Definition combine (results : list PermissionMap) : M PermissionMap :=
  fun w =>
    allocMap (fold_left (fun result permissionMap =>
                           applyPermissionMap (heap w) permissionMap result)
                        results []) w.

(** Modelled from the spec: [UnionHandler.handle] is not part of the
    sources at hand. The spec: all child readers are invoked, a reader's
    failure is surfaced, and the results are merged by [combine]. *)
Definition handle (this : t) : PermissionReader :=
  fun input =>
    let* results := mapM (fun reader : PermissionReader => reader input) (readers this) in
    combine results.
End UnionPermissionReader.

(** ** PathUtil (used by PathBasedReader) *)

(** Modelled from the spec: [PathUtil] is not part of the sources at hand.
    [trimTrailingSlashes] removes every trailing slash, and
    [ensureTrailingSlash] makes the path end in exactly one slash. *)
Fixpoint trimTrailingSlashes (s : string) : string :=
  match s with
  | EmptyString => EmptyString
  | String c r =>
      match trimTrailingSlashes r with
      | EmptyString => if Ascii.eqb c "/" then EmptyString else String c EmptyString
      | r' => String c r'
      end
  end.

Definition ensureTrailingSlash (s : string) : string :=
  trimTrailingSlashes s +:+ "/".

(** [s.slice(n)]. *)
Definition slice (s : string) (n : nat) : string :=
  String.substring n (String.length s - n) s.

(** ** PathBasedReader.ts *)

Module PathBasedReader.
(** A [RegExp] with the [u] flag only, seen through [test]. *)
Definition RegExp := string -> bool.

(** A reference to a reader object: [paths] is turned into a [Map]
    keyed by reader objects, so their identity [rid] matters. *)
Record ReaderRef := { rid : nat; rhandle : PermissionReader }.

Record t := { baseUrl : string; paths : list (RegExp * ReaderRef) }.

Definition new (baseUrl : string) (paths : list (RegExp * ReaderRef)) : t :=
  {| baseUrl := ensureTrailingSlash baseUrl; paths := paths |}.

Definition findReader (this : t) (path : string) : option ReaderRef :=
  if String.prefix (baseUrl this) path then
    let relative := slice path (String.length (trimTrailingSlashes (baseUrl this))) in
    match List.find (fun '(regex, _) => (regex : RegExp) relative) (paths this) with
    | Some (_, reader) => Some reader
    | None => None
    end
  else None.

Fixpoint rget (r : ReaderRef) (l : list (ReaderRef * AccessMap)) : option AccessMap :=
  match l with
  | [] => None
  | (r', v) :: rest => if decide (rid r = rid r') then Some v else rget r rest
  end.

Fixpoint rset (r : ReaderRef) (v : AccessMap) (l : list (ReaderRef * AccessMap))
    : list (ReaderRef * AccessMap) :=
  match l with
  | [] => [(r, v)]
  | (r', v') :: rest =>
      if decide (rid r = rid r') then (r, v) :: rest else (r', v') :: rset r v rest
  end.

Definition matchReaders (this : t) (accessMap : AccessMap) : list (ReaderRef * AccessMap) :=
  fold_left
    (fun result '(identifier, modes) =>
       match findReader this (path identifier) with
       | Some reader =>
           let matches := default [] (rget reader result) in
           rset reader (IdentifierMap.set identifier modes matches) result
       | None => result
       end)
    accessMap [].

Definition handle (this : t) : PermissionReader :=
  fun input =>
    let* results :=
      mapM (fun '(reader, accessMap) =>
              rhandle reader (mkInput (credentials input) accessMap))
           (matchReaders this (accessMap input)) in
    ret (IdentifierMap.from (concat results)).
End PathBasedReader.

(** ** AuxiliaryReader.ts *)

Module AuxiliaryReader.
Record t := { reader : PermissionReader; auxiliaryStrategy : AuxiliaryStrategy }.

Definition findAuxiliary (this : t) (accessMap : AccessMap)
    : list (ResourceIdentifier * (ResourceIdentifier * ModeSet)) :=
  flat_map
    (fun '(identifier, modes) =>
       if isAuxiliaryIdentifier (auxiliaryStrategy this) identifier
          && negb (usesOwnAuthorization (auxiliaryStrategy this) identifier)
       then [(identifier, (getSubjectIdentifier (auxiliaryStrategy this) identifier, modes))]
       else [])
    accessMap.

Definition handle (this : t) : PermissionReader :=
  fun input =>
    let auxMap := findAuxiliary this (accessMap input) in
    if (length auxMap =? 0)%nat then reader this input
    else
      let updatedMap := updateAccessMap (map snd auxMap) (map fst auxMap) (accessMap input) in
      let* result := reader this (mkInput (credentials input) updatedMap) in
      ret (fold_left
             (fun (result : PermissionMap) '(identifier, (subject, _)) =>
                IdentifierMap.set identifier
                  (default [] (IdentifierMap.get subject result)) result)
             auxMap result).
End AuxiliaryReader.

(** ** WebAclAuxiliaryReader.ts *)

Module WebAclAuxiliaryReader.
Record t := { reader : PermissionReader; aclStrategy : AuxiliaryStrategy }.

Definition findAcl (this : t) (accessMap : AccessMap)
    : list (ResourceIdentifier * (ResourceIdentifier * ModeSet)) :=
  flat_map
    (fun '(identifier, _) =>
       if isAuxiliaryIdentifier (aclStrategy this) identifier
       then [(identifier,
              (getSubjectIdentifier (aclStrategy this) identifier, [AccessMode.control]))]
       else [])
    accessMap.

(** The body of the loop of [updatePermission]. *)
Definition controlGroup (aclSet : PermissionSet)
    (entry : CredentialGroup.t * loc) : M PermissionSet :=
  let '(group, permissions) := entry in
  let* control := read_field permissions AccessMode.control in
  let* l := alloc false (mkPermission control control control None None control) in
  ret (assoc_set group l aclSet).

Definition updatePermission (identifier : ResourceIdentifier)
    (permissionSet : option PermissionSet) : M PermissionSet :=
  foldM controlGroup (default [] permissionSet) [].

Definition handle (this : t) : PermissionReader :=
  fun input =>
    let aclMap := findAcl this (accessMap input) in
    if (length aclMap =? 0)%nat then reader this input
    else
      let updatedMap := updateAccessMap (map snd aclMap) (map fst aclMap) (accessMap input) in
      let* result := reader this (mkInput (credentials input) updatedMap) in
      foldM
        (fun (result : PermissionMap) '(identifier, (subject, _)) =>
           let* aclSet := updatePermission identifier (IdentifierMap.get subject result) in
           ret (IdentifierMap.set identifier aclSet result))
        aclMap result.
End WebAclAuxiliaryReader.

(** ** ParentContainerReader.ts *)

(** JavaScript [a && b] on tri-state values: a falsy [a] is the result. *)
Definition js_and (a b : Tri) : Tri :=
  match a with
  | Some true => b
  | _ => a
  end.

(** [x !== false]. *)
Definition not_false (x : Tri) : Tri :=
  match x with
  | Some false => Some false
  | _ => Some true
  end.

Module ParentContainerReader.
Record t := { reader : PermissionReader; identifierStrategy : IdentifierStrategy }.

Definition findParents (this : t) (accessMap : AccessMap)
    : list (ResourceIdentifier * (ResourceIdentifier * ModeSet)) :=
  flat_map
    (fun '(identifier, modes) =>
       if mode_has AccessMode.create modes || mode_has AccessMode.delete modes
       then
         let containerModes :=
           (if mode_has AccessMode.create modes then [AccessMode.append] else [])
           ++ (if mode_has AccessMode.delete modes then [AccessMode.write] else []) in
         let container := getParentContainer (identifierStrategy this) identifier in
         [(identifier, (container, containerModes))]
       else [])
    accessMap.

(** The body of the loop of [updatePermission]. [permissionSet] is a
    copy ([{ ...permissionSet }]), but the [Permission] objects it refers
    to are the ones of the source result: they are updated in place. *)
Definition updateGroup (permissionSet : PermissionSet)
    (entry : CredentialGroup.t * loc) : M PermissionSet :=
  let '(group, containerPermissions) := entry in
  let* permissions :=
    match assoc_get group permissionSet with
    | Some l => ret l
    | None => alloc false emptyPermission
    end in
  let permissionSet := assoc_set group permissions permissionSet in
  let* c_append := read_field containerPermissions AccessMode.append in
  let* p_create := read_field permissions AccessMode.create in
  let* _ := assign permissions AccessMode.create
              (js_and c_append (not_false p_create)) in
  let* p_write := read_field permissions AccessMode.write in
  let* c_write := read_field containerPermissions AccessMode.write in
  let* p_delete := read_field permissions AccessMode.delete in
  let* _ := assign permissions AccessMode.delete
              (js_and (js_and p_write c_write) (not_false p_delete)) in
  ret permissionSet.

Definition updatePermission (permissionSet containerSet : option PermissionSet)
    : M PermissionSet :=
  foldM updateGroup (default [] containerSet) (default [] permissionSet).

Definition handle (this : t) : PermissionReader :=
  fun input =>
    let containerMap := findParents this (accessMap input) in
    if (length containerMap =? 0)%nat then reader this input
    else
      let updatedMap := updateAccessMap (map snd containerMap) [] (accessMap input) in
      let* result := reader this (mkInput (credentials input) updatedMap) in
      foldM
        (fun (result : PermissionMap) '(identifier, (container, _)) =>
           let* permissionSet :=
             updatePermission (IdentifierMap.get identifier result)
                              (IdentifierMap.get container result) in
           ret (IdentifierMap.set identifier permissionSet result))
        containerMap result.
End ParentContainerReader.

(** ** RDF data, as WebAclReader uses the [n3] store *)

Inductive Term :=
| NamedNode (value : string)
| Literal (value : string)
| BlankNode (value : string).

#[global] Instance Term_eq_dec : EqDecision Term.
Proof. solve_decision. Defined.

Definition term_value (t : Term) : string :=
  match t with NamedNode v | Literal v | BlankNode v => v end.

Record Quad := mkQuad { subject : Term; predicate : Term; object : Term }.

#[global] Instance Quad_eq_dec : EqDecision Quad.
Proof. solve_decision. Defined.

(** An [n3] [Store]: a set of quads. *)
Definition Store := list Quad.

Definition getSubjects (store : Store) (p o : Term) : list Term :=
  remove_dups (map subject
    (filter (fun q => predicate q = p ∧ object q = o) store)).

Definition getObjects (store : Store) (s p : Term) : list Term :=
  remove_dups (map object
    (filter (fun q => subject q = s ∧ predicate q = p) store)).

Definition getQuads (store : Store) (s : Term) : list Quad :=
  filter (fun q => subject q = s) store.

Definition addQuads (store : Store) (quads : list Quad) : Store :=
  remove_dups (store ++ quads).

(** Vocabularies.ts is not part of the sources at hand; the namespaces are
    the ones the unit tests spell out. *)
Module ACL.
Definition namespace : string := "http://www.w3.org/ns/auth/acl#".
Definition accessTo : string := namespace +:+ "accessTo".
Definition default : string := namespace +:+ "default".
Definition mode : string := namespace +:+ "mode".
Definition Authorization : string := namespace +:+ "Authorization".
Definition Read : string := namespace +:+ "Read".
Definition Write : string := namespace +:+ "Write".
Definition Append : string := namespace +:+ "Append".
Definition Control : string := namespace +:+ "Control".
End ACL.

Module RDF.
Definition type : string := "http://www.w3.org/1999/02/22-rdf-syntax-ns#type".
End RDF.

(** [ResourceStore.getRepresentation] followed by [readableToQuads]:
    the quads of the document, or the error thrown on the way. *)
Record ResourceStore := { getRepresentation : ResourceIdentifier -> Error + Store }.

(** [AccessChecker.handleSafe]: a pure predicate. *)
Definition AccessChecker := Store -> Term -> Credential -> bool.

Definition try_catch {A} (m : M A) (handler : Error -> M A) : M A :=
  fun w => match m w with
           | (Throw e, w') => handler e w'
           | r => r
           end.

Definition out_of_fuel {A} : M A := fun w => (OutOfFuel, w).

(** [s.includes(t)]: [t] occurs in [s] as a substring. *)
Fixpoint includes (s t : string) : bool :=
  String.prefix t s
  || match s with
     | EmptyString => false
     | String _ s' => includes s' t
     end.

(** ** WebAclReader.ts *)

Module WebAclReader.
Record t := {
  aclStrategy : AuxiliaryStrategy;
  aclStore : ResourceStore;
  identifierStrategy : IdentifierStrategy;
  accessChecker : AccessChecker }.

(** The own keys of [modesMap]. *)
Definition modesMap (aclMode : string) : option (list AccessMode.t) :=
  if decide (aclMode = ACL.Read) then Some [AccessMode.read]
  else if decide (aclMode = ACL.Write) then Some [AccessMode.append; AccessMode.write]
  else if decide (aclMode = ACL.Append) then Some [AccessMode.append]
  else if decide (aclMode = ACL.Control) then Some [AccessMode.control]
  else None.

(** [modesMap] is an object literal, so [aclMode in modesMap] also holds
    for the property names it inherits from [Object.prototype]; what is
    found under such a name is not iterable. *)
Definition objectPrototypeKeys : list string :=
  [ "constructor"; "__defineGetter__"; "__defineSetter__"; "hasOwnProperty";
    "__lookupGetter__"; "__lookupSetter__"; "isPrototypeOf";
    "propertyIsEnumerable"; "toString"; "valueOf"; "__proto__";
    "toLocaleString" ].

Record AclMatch := { store : Store; identifier : ResourceIdentifier }.

(** The body of the loop over the [acl:mode] objects of one rule. *)
Definition applyAclMode (aclPermissions : Permission) (aclMode : string) : M Permission :=
  match modesMap aclMode with
  | Some modes =>
      ret (fold_left (fun p mode => set_field mode (Some true) p) modes aclPermissions)
  | None =>
      if bool_decide (aclMode ∈ objectPrototypeKeys)
      then throw (TypeError "modesMap[aclMode] is not iterable")
      else ret aclPermissions
  end.

(** [aclPermissions] is local to the call until it is returned: it is
    built as a value and allocated on return. *)
Definition determinePermissions (this : t) (acl : Store) (credential : option Credential)
    : M loc :=
  let aclPermissions := emptyPermission in
  match credential with
  | None => alloc false aclPermissions
  | Some credential =>
      let aclRules :=
        getSubjects acl (NamedNode RDF.type) (NamedNode ACL.Authorization) in
      let* aclPermissions :=
        foldM (fun aclPermissions rule =>
                 if accessChecker this acl rule credential then
                   let modes := getObjects acl rule (NamedNode ACL.mode) in
                   foldM applyAclMode (map term_value modes) aclPermissions
                 else ret aclPermissions)
              aclRules aclPermissions in
      alloc false aclPermissions
  end.

Definition findPermissions (this : t) (aclMap : list (Store * list ResourceIdentifier))
    (credentials : CredentialSet) : M PermissionMap :=
  foldM
    (fun (result : PermissionMap) '(store, aclIdentifiers) =>
       let* publicPermissions :=
         determinePermissions this store (assoc_get CredentialGroup.public credentials) in
       let* agentPermissions :=
         determinePermissions this store (assoc_get CredentialGroup.agent credentials) in
       ret (fold_left
              (fun (result : PermissionMap) identifier =>
                 IdentifierMap.set identifier
                   [(CredentialGroup.public, publicPermissions);
                    (CredentialGroup.agent, agentPermissions)] result)
              aclIdentifiers result))
    aclMap [].

(** The request to the store, logged in [fetched]. *)
Definition readAcl (this : t) (acl : ResourceIdentifier) : M Store :=
  fun w =>
    let w' := mkWorld (heap w) (fetched w ++ [path acl]) in
    match getRepresentation (aclStore this) acl with
    | inr quads => (Ok quads, w')
    | inl error => (Throw error, w')
    end.

Fixpoint getAclRecursive (this : t) (fuel : nat) (identifier : ResourceIdentifier)
    : M AclMatch :=
  match fuel with
  | 0 => out_of_fuel
  | S fuel =>
      let* found :=
        try_catch
          (let acl := getAuxiliaryIdentifier (aclStrategy this) identifier in
           let* store := readAcl this acl in
           ret (Some {| store := store; identifier := identifier |}))
          (fun error =>
             if isNotFound error then ret None
             else
               let message := "Error reading ACL for " +:+ path identifier +:+ ": "
                              +:+ createErrorMessage error in
               throw (InternalServerError message error)) in
      match found with
      | Some aclMatch => ret aclMatch
      | None =>
          if isRootContainer (identifierStrategy this) identifier
          then throw (ForbiddenHttpError "No ACL document found for root container")
          else
            let parent := getParentContainer (identifierStrategy this) identifier in
            getAclRecursive this fuel parent
      end
  end.

(** [reduceIterable] picking the longest identifier (the first one among
    equally long ones), starting from [{ path: '' }]. *)
Definition longestOf (targets : list ResourceIdentifier) : ResourceIdentifier :=
  fold_left (fun long identifier =>
               if (String.length (path long) <? String.length (path identifier))%nat
               then identifier else long)
            targets (mkId "").

(** The test of the inner loop: the target is claimed. *)
Definition claimed (longest : ResourceIdentifier) (aclMatch : AclMatch)
    (target : ResourceIdentifier) : bool :=
  includes (path longest) (path target)
  && (String.length (path (identifier aclMatch)) <=? String.length (path target))%nat.

Fixpoint getAclMatches (this : t) (fuel : nat) (targets : list ResourceIdentifier)
    (storeMap : list (AclMatch * list ResourceIdentifier))
    : M (list (AclMatch * list ResourceIdentifier)) :=
  match targets with
  | [] => ret storeMap
  | _ =>
      match fuel with
      | 0 => out_of_fuel
      | S fuel' =>
          let longest := longestOf targets in
          let* aclMatch := getAclRecursive this fuel longest in
          let matchingIdentifiers := filter (fun target => claimed longest aclMatch target) targets in
          let targets := filter (fun target => ¬ claimed longest aclMatch target) targets in
          getAclMatches this fuel' targets (storeMap ++ [(aclMatch, matchingIdentifiers)])
      end
  end.

Definition filterStore (store : Store) (target : string) (directAcl : bool) : Store :=
  let subjects :=
    getSubjects store (NamedNode (if directAcl then ACL.accessTo else ACL.default))
                (NamedNode target) in
  fold_left (fun subjectData subject => addQuads subjectData (getQuads store subject))
            subjects [].

Definition filterAclMap (map : list (AclMatch * list ResourceIdentifier))
    : list (Store * list ResourceIdentifier) :=
  flat_map
    (fun '(aclMatch, matchedTargets) =>
       let directIdentifiers :=
         filter (fun target => path target = path (identifier aclMatch)) matchedTargets in
       let indirectIdentifiers :=
         filter (fun target => path target ≠ path (identifier aclMatch)) matchedTargets in
       (if (0 <? length directIdentifiers)%nat
        then [(filterStore (store aclMatch) (path (identifier aclMatch)) true,
               directIdentifiers)]
        else [])
       ++ (if (0 <? length indirectIdentifiers)%nat
           then [(filterStore (store aclMatch) (path (identifier aclMatch)) false,
                  indirectIdentifiers)]
           else []))
    map.

(** [fuel] bounds the two loops of the ACL discovery. *)
Definition handle (this : t) (fuel : nat) : PermissionReader :=
  fun input =>
    let* aclMap := getAclMatches this fuel (IdentifierMap.keys (accessMap input)) [] in
    let storeMap := filterAclMap aclMap in
    findPermissions this storeMap (credentials input).
End WebAclReader.

(** ** IntermediateModesExtractor.ts *)

Record Operation := { target : ResourceIdentifier; method : string }.

Definition ModesExtractor := Operation -> M AccessMap.

Module IntermediateModesExtractor.
Record t := {
  resourceSet : ResourceSet;
  strategy : IdentifierStrategy;
  source : ModesExtractor }.

(** [for (const [ key, modes ] of accessMap)] while the body adds to
    [accessMap]: the iterator of the map is live, so it visits the
    position [i] of the map as it is when it gets there, entries appended
    meanwhile included. *)
Fixpoint iterate (this : t) (fuel : nat) (i : nat) (accessMap : AccessMap) : M AccessMap :=
  match accessMap !! i with
  | None => ret accessMap
  | Some (key, modes) =>
      match fuel with
      | 0 => out_of_fuel
      | S fuel =>
          let accessMap :=
            if mode_has AccessMode.create modes then
              let parent := getParentContainer (strategy this) key in
              if negb (hasResource (resourceSet this) parent)
              then addAccessModes parent [AccessMode.create] accessMap
              else accessMap
            else accessMap in
          iterate this fuel (S i) accessMap
      end
  end.

Definition handle (this : t) (fuel : nat) (input : Operation) : M AccessMap :=
  let* accessMap := source this input in
  iterate this fuel 0 accessMap.
End IntermediateModesExtractor.

(** ** Notions used in the statements *)

(** A map is a map: the keys of an [IdentifierMap] are pairwise distinct
    paths, the keys of a JS object pairwise distinct. *)
Definition wf_keys {V} (m : IdentifierMap V) : Prop :=
  NoDup (map (fun kv => path (fst kv)) m).

Definition wf_object {K V} (o : list (K * V)) : Prop := NoDup (map fst o).

Definition wf_map {K V} (m : IdentifierMap (list (K * V))) : Prop :=
  wf_keys m ∧ Forall (fun kv => wf_object (snd kv)) m.

(** Reading a map whose [Permission] objects are given by value. *)
Definition bview (b : UnionPermissionReader.Building)
    (id : ResourceIdentifier) (g : CredentialGroup.t) (m : AccessMode.t) : Tri :=
  match IdentifierMap.get id b with
  | None => None
  | Some s =>
      match assoc_get g s with
      | None => None
      | Some p => field m p
      end
  end.

(** The content of a [PermissionMap] in a heap. *)
Definition snapshot (h : list Cell) (pm : PermissionMap) : UnionPermissionReader.Building :=
  map (fun '(id, ps) => (id, map (fun '(g, l) => (g, deref h l)) (ps : PermissionSet))) pm.

(** The merge rule in the words of the specification: one [false] among
    the inputs yields [false]; otherwise any [true] yields [true];
    otherwise [undefined]. *)
Definition mergeRule (inputs : list Tri) : Tri :=
  if existsb (fun v => bool_decide (v = Some false)) inputs then Some false
  else if existsb (fun v => bool_decide (v = Some true)) inputs then Some true
  else None.

(** The merge as a binary operation on tri-state values. *)
Definition merge (a b : Tri) : Tri := UnionPermissionReader.applyValue b a.

(** The objects of a map given by value have been allocated, at or above
    [base], in the heap [h]. *)
Definition set_allocated (h : list Cell) (base : nat)
    (s : list (CredentialGroup.t * Permission)) (ps : PermissionSet) : Prop :=
  Forall2 (fun gp gl => fst gp = fst gl /\ base <= snd gl
                        /\ h !! snd gl = Some (mkCell false (snd gp))) s ps.

Definition map_allocated (h : list Cell) (base : nat)
    (b : UnionPermissionReader.Building) (pm : PermissionMap) : Prop :=
  Forall2 (fun e1 e2 => fst e1 = fst e2 /\ set_allocated h base (snd e1) (snd e2)) b pm.

(** Some rule of [acl] that the access checker accepts for [credential]
    lists a mode whose value is [aclMode]. *)
Definition granted (this : WebAclReader.t) (acl : Store) (credential : Credential)
    (aclMode : string) : Prop :=
  exists rule o,
    rule ∈ getSubjects acl (NamedNode RDF.type) (NamedNode ACL.Authorization)
    /\ WebAclReader.accessChecker this acl rule credential = true
    /\ o ∈ getObjects acl rule (NamedNode ACL.mode)
    /\ term_value o = aclMode.

(** No mode of an accepted rule is named like a member of
    [Object.prototype]. Every IRI qualifies: it contains a colon. *)
Definition plain_modes (this : WebAclReader.t) (acl : Store) (credential : Credential)
    : Prop :=
  forall rule o,
    rule ∈ getSubjects acl (NamedNode RDF.type) (NamedNode ACL.Authorization) ->
    WebAclReader.accessChecker this acl rule credential = true ->
    o ∈ getObjects acl rule (NamedNode ACL.mode) ->
    term_value o ∉ WebAclReader.objectPrototypeKeys.

(** The key [s] of [modesMap] lists the mode [m]. *)
Definition sets (s : string) (m : AccessMode.t) : bool :=
  match WebAclReader.modesMap s with
  | Some modes => bool_decide (m ∈ modes)
  | None => false
  end.

(** ** Collaborators of the unit tests, for the concrete runs *)

Module Sample.
Definition emptyWorld : World := mkWorld [] [].

Definition baseUrl : string := "http://example.com/".

(** The path up to and including the last slash before the final segment. *)
Fixpoint parentPath (s acc cur : string) : string :=
  match s with
  | EmptyString => acc
  | String c r =>
      if Ascii.eqb c "/" then
        match r with
        | EmptyString => acc
        | _ => parentPath r (acc +:+ cur +:+ "/") ""
        end
      else parentPath r acc (cur +:+ String c "")
  end.

(** The strategy of the unit tests: a single root at [baseUrl]
    (the empty path has no parent either). *)
Definition identifierStrategy : IdentifierStrategy := {|
  getParentContainer := fun id => mkId (parentPath (path id) "" "");
  isRootContainer := fun id =>
    bool_decide (path id = baseUrl) || bool_decide (path id = "") |}.

Definition endsWith (s suffix : string) : bool :=
  String.prefix (String.rev suffix) (String.rev s).

(** The [.acl] strategy of the unit tests. *)
Definition aclStrategy : AuxiliaryStrategy := {|
  getAuxiliaryIdentifier := fun id => mkId (path id +:+ ".acl");
  isAuxiliaryIdentifier := fun id => endsWith (path id) ".acl";
  getSubjectIdentifier := fun id =>
    mkId (String.substring 0 (String.length (path id) - 4) (path id));
  usesOwnAuthorization := fun _ => false |}.

Definition quad (s p o : string) : Quad :=
  mkQuad (NamedNode s) (NamedNode p) (NamedNode o).

(** An access checker that accepts every rule. *)
Definition acceptAll : AccessChecker := fun _ _ _ => true.

Definition anyone : Credential := {| webId := None |}.

Definition bothGroups : CredentialSet :=
  [(CredentialGroup.public, anyone); (CredentialGroup.agent, anyone)].

Definition id (s : string) : ResourceIdentifier := mkId (baseUrl +:+ s).

(** A store without any document. *)
Definition noStore : ResourceStore :=
  {| getRepresentation := fun _ => inl (NotFoundHttpError "") |}.

Definition webAclReader (store : ResourceStore) : WebAclReader.t := {|
  WebAclReader.aclStrategy := aclStrategy;
  WebAclReader.aclStore := store;
  WebAclReader.identifierStrategy := identifierStrategy;
  WebAclReader.accessChecker := acceptAll |}.

(** A rule with the mode [acl:Read] and a mode of the given name, as in
    the unit test "handles all valid modes and ignores other ones". *)
Definition aclWithMode (other : Term) : Store :=
  [ quad "auth" RDF.type ACL.Authorization;
    quad "auth" ACL.mode ACL.Read;
    mkQuad (NamedNode "auth") (NamedNode ACL.mode) other ].

(** A store whose only document is the ACL of the root container,
    granting [acl:Read] to everything below. *)
Definition rootAclStore : ResourceStore :=
  {| getRepresentation := fun acl =>
       if bool_decide (path acl = baseUrl +:+ ".acl")
       then inr [ quad "auth" RDF.type ACL.Authorization;
                  quad "auth" ACL.accessTo baseUrl;
                  quad "auth" ACL.default baseUrl;
                  quad "auth" ACL.mode ACL.Read ]
       else inl (NotFoundHttpError "") |}.

(** The same, with a second [acl:mode] of the rule that is named like a
    member of [Object.prototype]. *)
Definition constructorStore : ResourceStore :=
  {| getRepresentation := fun acl =>
       if bool_decide (path acl = baseUrl +:+ ".acl")
       then inr [ quad "auth" RDF.type ACL.Authorization;
                  quad "auth" ACL.accessTo baseUrl;
                  quad "auth" ACL.default baseUrl;
                  quad "auth" ACL.mode ACL.Read;
                  mkQuad (NamedNode "auth") (NamedNode ACL.mode) (Literal "constructor") ]
       else inl (NotFoundHttpError "") |}.

(** The store of the unit test "combines ACL requests for resources when
    possible": the root container and [bar/] have an ACL document. *)
Definition twoAclStore : ResourceStore :=
  {| getRepresentation := fun acl =>
       if bool_decide (path acl = baseUrl +:+ ".acl")
       then inr [ quad "auth" RDF.type ACL.Authorization;
                  quad "auth" ACL.default baseUrl;
                  quad "auth" ACL.mode ACL.Read ]
       else if bool_decide (path acl = baseUrl +:+ "bar/.acl")
       then inr [ quad "auth" RDF.type ACL.Authorization;
                  quad "auth" ACL.default (baseUrl +:+ "bar/");
                  quad "auth" ACL.mode ACL.Append;
                  quad "auth2" RDF.type ACL.Authorization;
                  quad "auth2" ACL.accessTo (baseUrl +:+ "bar/");
                  quad "auth2" ACL.mode ACL.Read ]
       else inl (NotFoundHttpError "") |}.

(** Its access map: [foo], then [bar/baz], then [bar/]. *)
Definition threeTargets : PermissionReaderInput :=
  mkInput bothGroups [(id "foo", []); (id "bar/baz", []); (id "bar/", [])].

(** Two results for one resource: the first grants [read] and [write]
    to the public, the second denies [write]. *)
Definition twoResults : list PermissionMap :=
  [ [(id "foo", [(CredentialGroup.public, 0)])];
    [(id "foo", [(CredentialGroup.public, 1)])] ].

Definition twoObjects : World :=
  mkWorld [ mkCell false (mkPermission (Some true) None (Some true) None None None);
            mkCell false (mkPermission None None (Some false) None None None) ] [].

(** The resource set of the unit test of the extractor: only the root
    container exists. *)
Definition onlyRoot : ResourceSet :=
  {| hasResource := fun id => bool_decide (path id = baseUrl) |}.

Definition put : Operation := {| target := id "a/b/c/"; method := "PUT" |}.

(** An extractor over a source that returns the given map. *)
Definition extractor (sourceMap : AccessMap) : IntermediateModesExtractor.t := {|
  IntermediateModesExtractor.resourceSet := onlyRoot;
  IntermediateModesExtractor.strategy := identifierStrategy;
  IntermediateModesExtractor.source := fun _ => ret sourceMap |}.

(** A resource set in which exactly the root containers exist. *)
Definition roots : ResourceSet :=
  {| hasResource := isRootContainer identifierStrategy |}.

Definition extractorOver (rs : ResourceSet) (sourceMap : AccessMap)
  : IntermediateModesExtractor.t := {|
  IntermediateModesExtractor.resourceSet := rs;
  IntermediateModesExtractor.strategy := identifierStrategy;
  IntermediateModesExtractor.source := fun _ => ret sourceMap |}.

(** [new AllStaticReader(true)]: the reader and the world with its
    frozen permission object. *)
Definition allowAll : AllStaticReader.t := {| AllStaticReader.permissions := 0 |}.

Definition allowAllWorld : World :=
  mkWorld [ mkCell true (mkPermission (Some true) (Some true) (Some true)
                                      (Some true) (Some true) None) ] [].

Definition publicOnly : CredentialSet := [(CredentialGroup.public, anyone)].

(** A [ParentContainerReader] over a union of that static reader. *)
Definition parentPipeline : PermissionReader :=
  ParentContainerReader.handle {|
    ParentContainerReader.reader :=
      UnionPermissionReader.handle
        {| UnionPermissionReader.readers := [AllStaticReader.handle allowAll] |};
    ParentContainerReader.identifierStrategy := identifierStrategy |}.

(** A [PathBasedReader] for [baseUrl + "foo/"] whose only expression
    matches every relative path. *)
Definition pathBased (reader : PermissionReader) : PathBasedReader.t :=
  PathBasedReader.new (baseUrl +:+ "foo")
    [ (fun relative => String.prefix "/" relative,
       {| PathBasedReader.rid := 0; PathBasedReader.rhandle := reader |}) ].


(** A source that always resolves to the same result, like the mocked
    sources of the unit tests. *)
Definition constReader (result : PermissionMap) : PermissionReader :=
  fun _ => ret result.

(** One object that grants [control], nothing else. *)
Definition controlWorld : World :=
  mkWorld [ mkCell false (mkPermission None None None None None (Some true)) ] [].

(** A [WebAclAuxiliaryReader] over a source that knows [foo] only. *)
Definition aclOverFoo : WebAclAuxiliaryReader.t := {|
  WebAclAuxiliaryReader.reader := constReader [(id "foo", [(CredentialGroup.public, 0)])];
  WebAclAuxiliaryReader.aclStrategy := aclStrategy |}.

(** The object of [foo] denies [create]; the object of its container
    says nothing. *)
Definition denyWorld : World :=
  mkWorld [ mkCell false (mkPermission None None None (Some false) None None);
            mkCell false emptyPermission ] [].

(** A [ParentContainerReader] over a source that knows [foo] and the root. *)
Definition parentOverFoo : ParentContainerReader.t := {|
  ParentContainerReader.reader :=
    constReader [(id "foo", [(CredentialGroup.public, 0)]);
                 (id "", [(CredentialGroup.public, 1)])];
  ParentContainerReader.identifierStrategy := identifierStrategy |}.

(** A [ParentContainerReader] directly over the static reader. *)
Definition parentOverStatic : ParentContainerReader.t := {|
  ParentContainerReader.reader := AllStaticReader.handle allowAll;
  ParentContainerReader.identifierStrategy := identifierStrategy |}.

(** A store whose only document is the ACL of the container [x/]: it
    grants [acl:Append] on [x/] itself and has no [acl:default] rule. *)
Definition appendOnX : ResourceStore :=
  {| getRepresentation := fun acl =>
       if bool_decide (path acl = baseUrl +:+ "x/.acl")
       then inr [ quad "auth" RDF.type ACL.Authorization;
                  quad "auth" ACL.accessTo (baseUrl +:+ "x/");
                  quad "auth" ACL.mode ACL.Append ]
       else inl (NotFoundHttpError "") |}.

(** A [ParentContainerReader] over the [WebAclReader] of that store. *)
Definition parentOverAcl : ParentContainerReader.t := {|
  ParentContainerReader.reader := WebAclReader.handle (webAclReader appendOnX) 64;
  ParentContainerReader.identifierStrategy := identifierStrategy |}.

(** Two resources of the root container. *)
Definition siblings : PermissionReaderInput :=
  mkInput bothGroups [(id "foo", [AccessMode.read]); (id "bar", [AccessMode.read])].
End Sample.

(** ** Contracts of the collaborators *)

(** [IdentifierStrategy]: the parent of a container that is not a root has
    a strictly shorter path. *)
Definition parent_shorter (s : IdentifierStrategy) : Prop :=
  forall id, isRootContainer s id = false ->
             String.length (path (getParentContainer s id)) < String.length (path id).

(** [AuxiliaryIdentifierStrategy]: different identifiers have different
    ACL identifiers. *)
Definition acl_injective (s : AuxiliaryStrategy) : Prop :=
  forall id id', path (getAuxiliaryIdentifier s id) = path (getAuxiliaryIdentifier s id') ->
                 path id = path id'.

(** The errors [getAclRecursive] can raise while it looks for the ACL of
    [identifier] in the store. *)
Definition discovery_error (this : WebAclReader.t) (e : Error) : Prop :=
  (e = ForbiddenHttpError "No ACL document found for root container"
   /\ exists id cause,
        isRootContainer (WebAclReader.identifierStrategy this) id = true
        /\ isNotFound cause = true
        /\ getRepresentation (WebAclReader.aclStore this)
             (getAuxiliaryIdentifier (WebAclReader.aclStrategy this) id) = inl cause)
  \/ exists id cause,
       e = InternalServerError
             ("Error reading ACL for " +:+ path id +:+ ": " +:+ createErrorMessage cause)
             cause
       /\ isNotFound cause = false
       /\ getRepresentation (WebAclReader.aclStore this)
            (getAuxiliaryIdentifier (WebAclReader.aclStrategy this) id) = inl cause.

(** The world after a request for the document [acl]. *)
Definition requested (w : World) (acl : ResourceIdentifier) : World :=
  mkWorld (heap w) (fetched w ++ [path acl]).

(** The identifiers filed in a map from ACL data to identifiers. *)
Definition filed {A} (m : list (A * list ResourceIdentifier)) : list ResourceIdentifier :=
  flat_map snd m.

(** The document of an [AclMatch] is the one the store holds for the ACL
    of its identifier. *)
Definition found_in_store (this : WebAclReader.t) (m : WebAclReader.AclMatch) : Prop :=
  getRepresentation (WebAclReader.aclStore this)
    (getAuxiliaryIdentifier (WebAclReader.aclStrategy this) (WebAclReader.identifier m))
  = inr (WebAclReader.store m).

(** The requests of a call split into walks; each walk asks for a
    document at most once when ACL identifiers are injective. *)
Definition walks (this : WebAclReader.t) (traces : list (list string)) : Prop :=
  Forall (fun trace => acl_injective (WebAclReader.aclStrategy this) -> NoDup trace) traces.

(** A verdict for both credential groups. *)
Definition both_groups (ps : PermissionSet) : Prop :=
  exists lp la, ps = [(CredentialGroup.public, lp); (CredentialGroup.agent, la)].

(** A reader reports on identifiers of its access map only. *)
Definition keys_within (r : PermissionReader) : Prop :=
  forall input w pm w',
    r input w = (Ok pm, w') ->
    forall id, id ∈ IdentifierMap.keys pm -> id ∈ IdentifierMap.keys (accessMap input).

(** What [PathBasedReader] hands to a reader: identifiers of the input
    below the base URL, and the reader is one of the configured ones. *)
Definition dispatched (this : PathBasedReader.t) (accessMap : AccessMap)
    (x : PathBasedReader.ReaderRef * AccessMap) : Prop :=
  (exists regex, (regex, fst x) ∈ PathBasedReader.paths this)
  /\ forall k, k ∈ IdentifierMap.keys (snd x) ->
               k ∈ IdentifierMap.keys accessMap
               /\ String.prefix (PathBasedReader.baseUrl this) (path k) = true.

(** No reference of the set, or of the map, dangles in the heap. *)
Definition valid_set (h : list Cell) (ps : PermissionSet) : Prop :=
  Forall (fun gl => snd gl < length h) ps.

Definition valid_map (h : list Cell) (pm : PermissionMap) : Prop :=
  Forall (fun e => valid_set h (snd e)) pm.

(** The permission [WebAclAuxiliaryReader] derives from a [control] value. *)
Definition aclPermission (control : Tri) : Permission :=
  mkPermission control control control None None control.

(** What a result [R], read in the heap [h], derives for the ACL resource
    of [subject]. *)
Definition derived (h : list Cell) (R : PermissionMap) (subject : ResourceIdentifier)
    : list (CredentialGroup.t * Permission) :=
  map (fun gl => (fst gl, aclPermission (p_control (deref h (snd gl)))))
      (default [] (IdentifierMap.get subject R)).

(** The state of the loop of [WebAclAuxiliaryReader.handle] after the
    entries [done]: the heap has only grown since the source answered [R]
    in [w1], the other keys are those of [R], and every entry done holds
    what its subject derives. *)
Definition acl_loop_inv (R : PermissionMap) (w1 : World)
    (done : list (ResourceIdentifier * (ResourceIdentifier * ModeSet)))
    (res : PermissionMap) (w : World) : Prop :=
  (exists ext, heap w = heap w1 ++ ext)
  /\ fetched w = fetched w1
  /\ (forall id, path id ∉ map (fun e => path (fst e)) done ->
                 IdentifierMap.get id res = IdentifierMap.get id R)
  /\ (forall e, e ∈ done ->
        exists aclSet,
          IdentifierMap.get (fst e) res = Some aclSet
          /\ set_allocated (heap w) (length (heap w1)) (derived (heap w1) R (fst (snd e)))
               aclSet).

(** An object that exists and is not frozen. *)
Definition live (h : list Cell) (l : loc) : Prop :=
  exists c, h !! l = Some c /\ frozen c = false.

(** The objects a map refers to, entry by entry and group by group. *)
Definition locs_of (pm : PermissionMap) : list loc :=
  flat_map (fun e => map snd (snd e)) pm.

(** No sharing: every [Permission] object of the map is referred to once,
    and it can be assigned to. *)
Definition separated (h : list Cell) (pm : PermissionMap) : Prop :=
  NoDup (locs_of pm) /\ Forall (live h) (locs_of pm).

(** The two assignments of [ParentContainerReader.updatePermission] on the
    object [p] of the resource, given [append] and [write] of the container. *)
Definition derive (c_append c_write : Tri) (p : Permission) : Permission :=
  set_field AccessMode.delete
    (js_and (js_and (p_write p) c_write) (not_false (p_delete p)))
    (set_field AccessMode.create (js_and c_append (not_false (p_create p))) p).

(** The object of [group] in a set, the empty object if there is none. *)
Definition object_of (h : list Cell) (ps : PermissionSet) (group : CredentialGroup.t)
    : Permission :=
  match assoc_get group ps with
  | Some l => deref h l
  | None => emptyPermission
  end.

(** What the loop of [ParentContainerReader.updatePermission] over the
    container's set [cs] makes of the set [ps] of the resource: [ps'] in
    the heap [h'], from [ps] in the heap [h]. *)
Record updated_set (h : list Cell) (cs ps : PermissionSet)
    (h' : list Cell) (ps' : PermissionSet) : Prop := {
  us_length : length h <= length h';
  us_wf : wf_object ps';
  us_inj : forall g g' l, assoc_get g ps' = Some l -> assoc_get g' ps' = Some l -> g = g';
  us_kept : forall g l, assoc_get g ps = Some l -> assoc_get g ps' = Some l;
  us_origin : forall g l,
      assoc_get g ps' = Some l ->
      assoc_get g ps = Some l
      \/ (assoc_get g ps = None /\ g ∈ map fst cs /\ length h <= l < length h');
  us_frame : forall l,
      l < length h ->
      (forall g, g ∈ map fst cs -> assoc_get g ps <> Some l) ->
      h' !! l = h !! l;
  us_fields : forall l c,
      h !! l = Some c ->
      exists c', h' !! l = Some c' /\ frozen c' = frozen c
                 /\ forall m, m <> AccessMode.create -> m <> AccessMode.delete ->
                              field m (content c') = field m (content c);
  us_values : forall g lc,
      (g, lc) ∈ cs ->
      exists l, assoc_get g ps' = Some l
                /\ h' !! l = Some (mkCell false
                                     (derive (p_append (deref h lc)) (p_write (deref h lc))
                                             (object_of h ps g))) }.

(** The state of the loop of [ParentContainerReader.handle] after the
    entries [done], the source having answered [R] in [w1]: objects are
    only added, only [create] and [delete] are ever assigned, only the
    objects of the entries done have been assigned to, the other keys are
    those of [R], and every entry done holds what its container derives. *)
Record parent_loop_inv (R : PermissionMap) (w1 : World)
    (done : list (ResourceIdentifier * (ResourceIdentifier * ModeSet)))
    (res : PermissionMap) (w : World) : Prop := {
  pl_length : length (heap w1) <= length (heap w);
  pl_fetched : fetched w = fetched w1;
  pl_fields : forall l c,
      heap w1 !! l = Some c ->
      exists c', heap w !! l = Some c' /\ frozen c' = frozen c
                 /\ forall m, m <> AccessMode.create -> m <> AccessMode.delete ->
                              field m (content c') = field m (content c);
  pl_frame : forall l,
      l < length (heap w1) ->
      (forall e g, e ∈ done ->
                   assoc_get g (default [] (IdentifierMap.get (fst e) R)) <> Some l) ->
      heap w !! l = heap w1 !! l;
  pl_other : forall id,
      path id ∉ map (fun e => path (fst e)) done ->
      IdentifierMap.get id res = IdentifierMap.get id R;
  pl_wf : forall id s,
      IdentifierMap.get id res = Some s ->
      wf_object s /\ forall g l, assoc_get g s = Some l -> l < length (heap w);
  pl_done : forall e,
      e ∈ done ->
      exists s,
        IdentifierMap.get (fst e) res = Some s
        /\ (forall g l, assoc_get g (default [] (IdentifierMap.get (fst e) R)) = Some l ->
                        assoc_get g s = Some l)
        /\ (forall g l, assoc_get g s = Some l ->
                        assoc_get g (default [] (IdentifierMap.get (fst e) R)) = Some l
                        \/ length (heap w1) <= l)
        /\ (forall g lc,
              assoc_get g (default [] (IdentifierMap.get (fst (snd e)) R)) = Some lc ->
              exists l,
                assoc_get g s = Some l
                /\ heap w !! l
                   = Some (mkCell false
                             (derive (p_append (deref (heap w1) lc))
                                     (p_write (deref (heap w1) lc))
                                     (object_of (heap w1)
                                        (default [] (IdentifierMap.get (fst e) R)) g)))) }.

(** Well-formedness of a concrete map, by evaluation. *)
Ltac solve_wf :=
  unfold wf_map, wf_keys, wf_object; apply (bool_decide_unpack _); vm_compute; exact I.

(** The container [n] levels above [id]. *)
Definition ancestor (s : IdentifierStrategy) (n : nat) (id : ResourceIdentifier)
    : ResourceIdentifier :=
  Nat.iter n (getParentContainer s) id.

(** A permission as [WebAclReader] makes them: no mode is [false], and
    [create] and [delete] are not set. *)
Definition grants_only (p : Permission) : Prop :=
  (forall m, field m p <> Some false) /\ p_create p = None /\ p_delete p = None.

(** The state of the loop of [findPermissions] over the entries [done],
    started in the heap [h]: nothing of [h] has changed, and every set of
    the map has two objects of its own making; the identifiers of an
    entry done share their two objects. *)
Record permissions_found (h : list Cell)
    (done : list (Store * list ResourceIdentifier))
    (result : PermissionMap) (w : World) : Prop := {
  pf_heap : exists ext, heap w = h ++ ext;
  pf_sets : forall id ps,
      IdentifierMap.get id result = Some ps ->
      exists lp la pp pa,
        ps = [(CredentialGroup.public, lp); (CredentialGroup.agent, la)]
        /\ length h <= lp /\ length h <= la
        /\ heap w !! lp = Some (mkCell false pp) /\ grants_only pp
        /\ heap w !! la = Some (mkCell false pa) /\ grants_only pa;
  pf_shared : forall e,
      e ∈ done ->
      exists ps, forall id, id ∈ snd e -> IdentifierMap.get id result = Some ps }.

(** [IntermediateModesExtractor]: what is left to visit from position [i]
    of a map with the given paths, counted with the length of the paths. *)
Definition weight (paths : list string) (i : nat) : nat :=
  list_sum (map (fun p => S (String.length p)) (drop i paths)).

(** The root containers exist. *)
Definition roots_exist (this : IntermediateModesExtractor.t) : Prop :=
  forall id,
    isRootContainer (IntermediateModesExtractor.strategy this) id = true ->
    hasResource (IntermediateModesExtractor.resourceSet this) id = true.

(** No entry of the map asks for [create] on a root container: the parent
    of a root container is not asked for. *)
Definition create_below_root (s : IdentifierStrategy) (m : AccessMap) : Prop :=
  forall id modes,
    (id, modes) ∈ m -> AccessMode.create ∈ modes -> isRootContainer s id = false.

(** The map [r] extends the map [m] by [create] on containers that do not
    exist: the identifiers of [m] keep their modes and gain at most
    [create], and a new identifier is a missing container with [create]
    alone. *)
Definition extends_with_create (rs : ResourceSet) (m r : AccessMap) : Prop :=
  (forall id modes,
      IdentifierMap.get id m = Some modes ->
      exists modes',
        IdentifierMap.get id r = Some modes'
        /\ (forall x, x ∈ modes -> x ∈ modes')
        /\ (forall x, x ∈ modes' -> x ∈ modes \/ x = AccessMode.create))
  /\ (forall id modes',
        IdentifierMap.get id m = None -> IdentifierMap.get id r = Some modes' ->
        hasResource rs id = false /\ forall x, x ∈ modes' <-> x = AccessMode.create).

(** The paths of the keys of a map, in its order. *)
Definition key_paths {V} (m : IdentifierMap V) : list string :=
  map (fun kv => path (fst kv)) m.

(** The type of an access map as the list it is. *)
Ltac as_list :=
  change (IdentifierMap ModeSet) with (list (ResourceIdentifier * ModeSet)) in *.

(** ** The ACL discovery of [WebAclReader], round by round *)

(** [t] occurs in [s] as a substring. *)
Definition substring_of (t s : string) : Prop := exists a b, s = a +:+ t +:+ b.

(** The claiming rule: the path of the target is a substring of the path
    of the longest target, and it is at least as long as the path of the
    identifier at which the ACL document was found. *)
Definition claims (longest : ResourceIdentifier) (found : WebAclReader.AclMatch)
    (target : ResourceIdentifier) : Prop :=
  substring_of (path target) (path longest)
  /\ String.length (path (WebAclReader.identifier found)) <= String.length (path target).

(** [longest] is the first of the targets among those with the longest path. *)
Definition is_longest (longest : ResourceIdentifier) (targets : list ResourceIdentifier)
    : Prop :=
  exists before after,
    targets = before ++ longest :: after
    /\ (forall t, t ∈ before -> String.length (path t) < String.length (path longest))
    /\ (forall t, t ∈ after -> String.length (path t) <= String.length (path longest)).

(** The elements of a list that satisfy [P], and the others, both in the
    order of the list. *)
Inductive split_by {A} (P : A -> Prop) : list A -> list A -> list A -> Prop :=
| split_nil : split_by P [] [] []
| split_yes x l yes no : P x -> split_by P l yes no -> split_by P (x :: l) (x :: yes) no
| split_no x l yes no : ~ P x -> split_by P l yes no -> split_by P (x :: l) yes (x :: no).

(** The ACL identifier of the container [k] levels above [start]. *)
Definition aclAbove (this : WebAclReader.t) (start : ResourceIdentifier) (k : nat)
    : ResourceIdentifier :=
  getAuxiliaryIdentifier (WebAclReader.aclStrategy this)
    (ancestor (WebAclReader.identifierStrategy this) k start).

(** The requests of a walk that starts at [start] and ends [n] levels
    above it: the ACL of [start], then the ACL of each container above, in
    this order. *)
Definition walk (this : WebAclReader.t) (start : ResourceIdentifier) (n : nat)
    : list string :=
  map (fun k => path (aclAbove this start k)) (seq 0 (S n)).

(** The walk gets past the first [n] levels: none of them is a root
    container and none has an ACL document. *)
Definition climbs (this : WebAclReader.t) (start : ResourceIdentifier) (n : nat) : Prop :=
  forall k, k < n ->
    isRootContainer (WebAclReader.identifierStrategy this)
      (ancestor (WebAclReader.identifierStrategy this) k start) = false
    /\ exists e, getRepresentation (WebAclReader.aclStore this) (aclAbove this start k) = inl e
                 /\ isNotFound e = true.

(** [found] is the nearest ACL document of [start]: the one of the
    container [n] levels above it, the first on the way up that exists. *)
Definition nearest_acl (this : WebAclReader.t) (start : ResourceIdentifier) (n : nat)
    (found : WebAclReader.AclMatch) : Prop :=
  climbs this start n
  /\ WebAclReader.identifier found = ancestor (WebAclReader.identifierStrategy this) n start
  /\ getRepresentation (WebAclReader.aclStore this) (aclAbove this start n)
     = inr (WebAclReader.store found).

(** The walk from [start] fails [n] levels up with the error [e]: a root
    container without ACL document, or a failure of the store that is not
    a [NotFoundHttpError]. *)
Definition walk_fails (this : WebAclReader.t) (start : ResourceIdentifier) (n : nat)
    (e : Error) : Prop :=
  climbs this start n
  /\ exists cause,
       getRepresentation (WebAclReader.aclStore this) (aclAbove this start n) = inl cause
       /\ if isNotFound cause
          then isRootContainer (WebAclReader.identifierStrategy this)
                 (ancestor (WebAclReader.identifierStrategy this) n start) = true
               /\ e = ForbiddenHttpError "No ACL document found for root container"
          else e = InternalServerError
                     ("Error reading ACL for "
                      +:+ path (ancestor (WebAclReader.identifierStrategy this) n start)
                      +:+ ": " +:+ createErrorMessage cause) cause.

(** The rounds of the discovery, in the words of the specification: a
    round picks the longest of the targets that are left, walks up from it
    to its nearest ACL document, and claims the targets that the claiming
    rule selects; the others are left for the next round.
    [rounds this targets groups walks remaining]: starting from [targets],
    the rounds made file [groups] (the ACL found and the targets claimed,
    round by round), request [walks] and leave [remaining]. *)
Inductive rounds (this : WebAclReader.t)
  : list ResourceIdentifier -> list (WebAclReader.AclMatch * list ResourceIdentifier)
    -> list (list string) -> list ResourceIdentifier -> Prop :=
| rounds_stop targets : rounds this targets [] [] targets
| rounds_next targets longest n found ids rest groups walks remaining :
    is_longest longest targets ->
    nearest_acl this longest n found ->
    split_by (claims longest found) targets ids rest ->
    rounds this rest groups walks remaining ->
    rounds this targets ((found, ids) :: groups) (walk this longest n :: walks) remaining.

(** The verdict of an ACL document for a credential, as a [Permission]:
    nothing without a credential; with one, [read] for [acl:Read],
    [append] for [acl:Write] or [acl:Append], [write] for [acl:Write],
    [control] for [acl:Control] in a rule the access checker accepts, and
    nothing else. *)
Definition acl_verdict (this : WebAclReader.t) (acl : Store) (credential : option Credential)
    (p : Permission) : Prop :=
  match credential with
  | None => p = emptyPermission
  | Some c =>
      (p_read p = Some true <-> granted this acl c ACL.Read)
      /\ (p_append p = Some true <->
            granted this acl c ACL.Write \/ granted this acl c ACL.Append)
      /\ (p_write p = Some true <-> granted this acl c ACL.Write)
      /\ (p_control p = Some true <-> granted this acl c ACL.Control)
      /\ p_create p = None /\ p_delete p = None
      /\ forall m, field m p <> Some false
  end.

(** The rules of the ACL found that apply to a claimed target: those that
    name the identifier of the ACL by [acl:accessTo] when the target is
    that identifier, by [acl:default] otherwise. *)
Definition rules_for (found : WebAclReader.AclMatch) (target : ResourceIdentifier) : Store :=
  WebAclReader.filterStore (WebAclReader.store found)
    (path (WebAclReader.identifier found))
    (bool_decide (path target = path (WebAclReader.identifier found))).

(** The walk up from [target] meets an ACL document. *)
Definition finds_acl (this : WebAclReader.t) (target : ResourceIdentifier) : Prop :=
  exists n found, nearest_acl this target n found.

(** No [acl:mode] object of a document of the store is named like a member
    of [Object.prototype]. *)
Definition documents_plain (this : WebAclReader.t) : Prop :=
  forall id quads q,
    getRepresentation (WebAclReader.aclStore this) id = inr quads ->
    q ∈ quads -> predicate q = NamedNode ACL.mode ->
    term_value (object q) ∉ WebAclReader.objectPrototypeKeys.

(* ================================================================== *)
(** * Part II. Properties                                              *)
(* ================================================================== *)

(** ** Association lists and identifier maps *)

Lemma assoc_get_set {K V} `{EqDecision K} (k k' : K) (v : V) (l : list (K * V)) :
  assoc_get k (assoc_set k' v l) = if decide (k = k') then Some v else assoc_get k l.
Proof.
  induction l as [|[k0 v0] l IH]; simpl.
  - destruct (decide (k = k')); reflexivity.
  - destruct (decide (k' = k0)) as [->|Hne]; simpl.
    + destruct (decide (k = k0)); reflexivity.
    + destruct (decide (k = k0)) as [->|Hne'].
      * destruct (decide (k0 = k')); congruence.
      * apply IH.
Qed.

Lemma assoc_set_keys {K V} `{EqDecision K} (k : K) (v : V) (l : list (K * V)) :
  map fst (assoc_set k v l)
  = if bool_decide (k ∈ map fst l) then map fst l else map fst l ++ [k].
Proof.
  induction l as [|[k0 v0] l IH]; cbn [assoc_set map fst].
  - rewrite bool_decide_eq_false_2; [reflexivity | apply not_elem_of_nil].
  - destruct (decide (k = k0)) as [->|Hne]; cbn [map fst].
    + rewrite bool_decide_eq_true_2; [reflexivity | apply elem_of_cons; auto].
    + rewrite IH. destruct (bool_decide (k ∈ map fst l)) eqn:E.
      * apply bool_decide_eq_true_1 in E.
        rewrite bool_decide_eq_true_2; [reflexivity | apply elem_of_cons; auto].
      * apply bool_decide_eq_false_1 in E.
        rewrite bool_decide_eq_false_2; [reflexivity |].
        rewrite elem_of_cons. intros [?|?]; auto.
Qed.

Lemma assoc_set_wf {K V} `{EqDecision K} (k : K) (v : V) (l : list (K * V)) :
  wf_object l -> wf_object (assoc_set k v l).
Proof.
  unfold wf_object. intros Hnd. rewrite assoc_set_keys.
  destruct (bool_decide (k ∈ map fst l)) eqn:E; [exact Hnd|].
  apply bool_decide_eq_false_1 in E.
  apply list.NoDup_app. split; [exact Hnd|]. split.
  - intros x Hx Hx'. apply list_elem_of_singleton in Hx'. subst. contradiction.
  - apply NoDup_singleton.
Qed.

Lemma assoc_get_None {K V} `{EqDecision K} (k : K) (l : list (K * V)) :
  assoc_get k l = None <-> k ∉ map fst l.
Proof.
  induction l as [|[k0 v0] l IH]; simpl.
  - split; [intros _; apply not_elem_of_nil | reflexivity].
  - destruct (decide (k = k0)) as [->|Hne].
    + split; [discriminate|]. intros Hn. exfalso. apply Hn, elem_of_cons. auto.
    + rewrite IH, elem_of_cons. tauto.
Qed.

Lemma assoc_get_Some_elem {K V} `{EqDecision K} (k : K) (v : V) (l : list (K * V)) :
  assoc_get k l = Some v -> (k, v) ∈ l.
Proof.
  induction l as [|[k0 v0] l IH]; simpl; [discriminate|].
  destruct (decide (k = k0)) as [->|Hne].
  - intros [= ->]. apply elem_of_cons. auto.
  - intros Hg. apply elem_of_cons. right. auto.
Qed.

Lemma assoc_get_elem {K V} `{EqDecision K} (k : K) (v : V) (l : list (K * V)) :
  wf_object l -> (k, v) ∈ l -> assoc_get k l = Some v.
Proof.
  unfold wf_object. induction l as [|[k0 v0] l IH]; simpl; intros Hnd Hin.
  - apply elem_of_nil in Hin. contradiction.
  - apply list.NoDup_cons in Hnd as [Hn Hnd].
    apply elem_of_cons in Hin as [[= -> ->]|Hin].
    + destruct (decide (k0 = k0)); congruence.
    + destruct (decide (k = k0)) as [->|Hne]; [|auto].
      exfalso. apply Hn. apply list_elem_of_fmap. exists (k0, v). auto.
Qed.

Module IdentifierMapFacts.
Import IdentifierMap.

Lemma get_set {V} (k k' : ResourceIdentifier) (v : V) (m : IdentifierMap V) :
  get k (set k' v m) = if decide (path k = path k') then Some v else get k m.
Proof.
  induction m as [|[k0 v0] m IH]; simpl.
  - destruct (decide (path k = path k')); reflexivity.
  - destruct (decide (path k' = path k0)) as [E|Hne]; simpl.
    + destruct (decide (path k = path k')), (decide (path k = path k0)); congruence.
    + destruct (decide (path k = path k0)) as [E|Hne'].
      * destruct (decide (path k = path k')); congruence.
      * apply IH.
Qed.

Lemma get_None {V} (k : ResourceIdentifier) (m : IdentifierMap V) :
  get k m = None <-> path k ∉ map (fun kv => path (fst kv)) m.
Proof.
  induction m as [|[k0 v0] m IH]; simpl.
  - split; [intros _; apply not_elem_of_nil | reflexivity].
  - destruct (decide (path k = path k0)) as [E|Hne].
    + split; [discriminate|]. intros Hn. exfalso. apply Hn, elem_of_cons. auto.
    + rewrite IH, elem_of_cons. tauto.
Qed.

Lemma get_Some_elem {V} (k : ResourceIdentifier) (v : V) (m : IdentifierMap V) :
  get k m = Some v -> exists k', path k' = path k /\ (k', v) ∈ m.
Proof.
  induction m as [|[k0 v0] m IH]; simpl; [discriminate|].
  destruct (decide (path k = path k0)) as [E|Hne].
  - intros [= ->]. exists k0. split; [auto|]. apply elem_of_cons. auto.
  - intros Hg. destruct (IH Hg) as (k' & ? & ?). exists k'. split; [auto|].
    apply elem_of_cons. auto.
Qed.

Lemma get_elem {V} (k : ResourceIdentifier) (v : V) (m : IdentifierMap V) :
  wf_keys m -> (k, v) ∈ m -> get k m = Some v.
Proof.
  unfold wf_keys. induction m as [|[k0 v0] m IH]; simpl; intros Hnd Hin.
  - apply elem_of_nil in Hin. contradiction.
  - apply list.NoDup_cons in Hnd as [Hn Hnd].
    apply elem_of_cons in Hin as [[= -> ->]|Hin].
    + destruct (decide (path k0 = path k0)); congruence.
    + destruct (decide (path k = path k0)) as [E|Hne]; [|auto].
      exfalso. apply Hn. apply list_elem_of_fmap. exists (k, v). auto.
Qed.

(** The paths of the keys after [set]. *)
Lemma set_paths {V} (k : ResourceIdentifier) (v : V) (m : IdentifierMap V) :
  map (fun kv => path (fst kv)) (set k v m)
  = if bool_decide (path k ∈ map (fun kv => path (fst kv)) m)
    then map (fun kv => path (fst kv)) m
    else map (fun kv => path (fst kv)) m ++ [path k].
Proof.
  induction m as [|[k0 v0] m IH]; cbn [set map fst].
  - rewrite bool_decide_eq_false_2; [reflexivity | apply not_elem_of_nil].
  - destruct (decide (path k = path k0)) as [E|Hne]; cbn [map fst].
    + rewrite bool_decide_eq_true_2; [congruence | apply elem_of_cons; auto].
    + rewrite IH. destruct (bool_decide (path k ∈ map _ m)) eqn:E.
      * apply bool_decide_eq_true_1 in E.
        rewrite bool_decide_eq_true_2; [reflexivity | apply elem_of_cons; auto].
      * apply bool_decide_eq_false_1 in E.
        rewrite bool_decide_eq_false_2; [reflexivity |].
        rewrite elem_of_cons. intros [?|?]; auto.
Qed.

Lemma set_wf {V} (k : ResourceIdentifier) (v : V) (m : IdentifierMap V) :
  wf_keys m -> wf_keys (set k v m).
Proof.
  unfold wf_keys. intros Hnd. rewrite set_paths.
  destruct (bool_decide _) eqn:E; [exact Hnd|].
  apply bool_decide_eq_false_1 in E.
  apply list.NoDup_app. split; [exact Hnd|]. split.
  - intros x Hx Hx'. apply list_elem_of_singleton in Hx'. subst. contradiction.
  - apply NoDup_singleton.
Qed.

(** Membership of a path among the keys after [set]. *)
Lemma set_path_elem {V} (k : ResourceIdentifier) (v : V) (m : IdentifierMap V) (s : string) :
  s ∈ map (fun kv => path (fst kv)) (set k v m)
  <-> s = path k \/ s ∈ map (fun kv => path (fst kv)) m.
Proof.
  rewrite set_paths. destruct (bool_decide _) eqn:E.
  - apply bool_decide_eq_true_1 in E. split; [auto|]. intros [->|?]; auto.
  - rewrite elem_of_app, list_elem_of_singleton. tauto.
Qed.
End IdentifierMapFacts.

(** ** Permission objects and the heap *)

Lemma field_set_field (k k' : AccessMode.t) (v : Tri) (p : Permission) :
  field k (set_field k' v p) = if decide (k = k') then v else field k p.
Proof. destruct k, k'; reflexivity. Qed.

Lemma deref_app_l (h ext : list Cell) (l : loc) :
  l < length h -> deref (h ++ ext) l = deref h l.
Proof. intros Hl. unfold deref. rewrite lookup_app_l by exact Hl. reflexivity. Qed.

Lemma deref_alloc (h : list Cell) (fz : bool) (p : Permission) :
  deref (h ++ [mkCell fz p]) (length h) = p.
Proof.
  unfold deref. rewrite lookup_app_r by lia.
  replace (length h - length h) with 0 by lia. reflexivity.
Qed.

Lemma bind_Ok {A B} (m : M A) (k : A -> M B) (w w' : World) (a : A) :
  m w = (Ok a, w') -> bind m k w = k a w'.
Proof. intros H. unfold bind. rewrite H. reflexivity. Qed.

Lemma bind_inv_Ok {A B} (m : M A) (k : A -> M B) (w w2 : World) (b : B) :
  bind m k w = (Ok b, w2) ->
  exists a w1, m w = (Ok a, w1) /\ k a w1 = (Ok b, w2).
Proof.
  unfold bind. destruct (m w) as [[a| |] w1]; intros H; try discriminate.
  exists a, w1. auto.
Qed.

(** ** UnionPermissionReader: the merge *)

Section UnionMerge.
Import UnionPermissionReader.

Lemma applyPermissions_field (k : AccessMode.t) (p r : Permission) :
  field k (applyPermissions p r) = applyValue (field k p) (field k r).
Proof. destruct k, p, r; reflexivity. Qed.

Lemma applyValue_None_r (v : Tri) : applyValue v None = v.
Proof. destruct v; reflexivity. Qed.

Lemma get_path_eq {V} (id id' : ResourceIdentifier) (b : IdentifierMap V) :
  path id = path id' -> IdentifierMap.get id b = IdentifierMap.get id' b.
Proof.
  intros E. induction b as [|[k0 v0] b IHb]; simpl; [reflexivity|].
  rewrite E. destruct (decide (path id' = path k0)); auto.
Qed.

Lemma bview_set (k : ResourceIdentifier) s (b : Building) id g m :
  bview (IdentifierMap.set k s b) id g m
  = if decide (path id = path k)
    then match assoc_get g s with Some p => field m p | None => None end
    else bview b id g m.
Proof.
  unfold bview. rewrite IdentifierMapFacts.get_set.
  destruct (decide (path id = path k)); reflexivity.
Qed.

Lemma bview_resultSet (identifier : ResourceIdentifier) (b : Building) id g m :
  path id = path identifier ->
  match assoc_get g (default [] (IdentifierMap.get identifier b)) with
  | Some p => field m p
  | None => None
  end = bview b id g m.
Proof.
  intros E. unfold bview. rewrite (get_path_eq id identifier b E).
  destruct (IdentifierMap.get identifier b); reflexivity.
Qed.

Lemma bview_old (identifier : ResourceIdentifier) (b : Building) id g m :
  path id = path identifier ->
  field m (default emptyPermission
             (assoc_get g (default [] (IdentifierMap.get identifier b))))
  = bview b id g m.
Proof.
  intros E. rewrite <- (bview_resultSet identifier b id g m E).
  destruct (assoc_get g _); [reflexivity|]. destruct m; reflexivity.
Qed.

(** The loop over the credential groups of one [permissionSet]. *)
Lemma apply_set_bview (h : list Cell) (identifier : ResourceIdentifier)
    (permissionSet : PermissionSet) (b : Building) id g m :
  wf_object permissionSet ->
  bview
    (fold_left
       (fun (result : Building) '(credential, permission) =>
          let resultSet := default [] (IdentifierMap.get identifier result) in
          let old := default emptyPermission (assoc_get credential resultSet) in
          IdentifierMap.set identifier
            (assoc_set credential (applyPermissions (deref h permission) old) resultSet)
            result)
       permissionSet b) id g m
  = if decide (path id = path identifier)
    then applyValue
           (match assoc_get g permissionSet with
            | Some l => field m (deref h l)
            | None => None
            end) (bview b id g m)
    else bview b id g m.
Proof.
  revert b. induction permissionSet as [|[c l] ps IH]; intros b Hwf.
  - simpl. destruct (decide (path id = path identifier)); reflexivity.
  - unfold wf_object in Hwf. cbn [map fst] in Hwf.
    apply list.NoDup_cons in Hwf as [Hc Hwf]. cbn [fold_left].
    rewrite IH by exact Hwf. cbv zeta. rewrite bview_set.
    destruct (decide (path id = path identifier)) as [E|Hne]; [|reflexivity].
    rewrite assoc_get_set. cbn [assoc_get].
    destruct (decide (g = c)) as [->|Hgc].
    + assert (assoc_get c ps = None) as -> by (apply assoc_get_None; exact Hc).
      rewrite applyPermissions_field, (bview_old identifier b id c m E). reflexivity.
    + rewrite (bview_resultSet identifier b id g m E). reflexivity.
Qed.

(** One input map applied to the map under construction. *)
Lemma applyPermissionMap_bview (h : list Cell) (pm : PermissionMap) (b : Building) id g m :
  wf_map pm ->
  bview (applyPermissionMap h pm b) id g m
  = applyValue (view h pm id g m) (bview b id g m).
Proof.
  unfold applyPermissionMap. revert b.
  induction pm as [|[identifier ps] pm IH]; intros b [Hk Hs].
  - reflexivity.
  - apply list.NoDup_cons in Hk as [Hn Hk].
    apply list.Forall_cons in Hs as [Hps Hs].
    cbn [fold_left]. rewrite IH by (split; assumption).
    rewrite apply_set_bview by exact Hps.
    unfold view. cbn [IdentifierMap.get].
    destruct (decide (path id = path identifier)) as [E|Hne].
    + assert (IdentifierMap.get id pm = None) as ->.
      { apply IdentifierMapFacts.get_None. rewrite E. exact Hn. }
      reflexivity.
    + reflexivity.
Qed.

Lemma fold_applyPermissionMap_bview (h : list Cell) (results : list PermissionMap)
    (b : Building) id g m :
  Forall wf_map results ->
  bview (fold_left (fun result permissionMap => applyPermissionMap h permissionMap result)
                   results b) id g m
  = fold_left merge (map (fun r => view h r id g m) results) (bview b id g m).
Proof.
  revert b. induction results as [|r rs IH]; intros b Hwf.
  - reflexivity.
  - apply list.Forall_cons in Hwf as [Hr Hrs]. cbn [fold_left map].
    rewrite IH by exact Hrs. rewrite applyPermissionMap_bview by exact Hr.
    reflexivity.
Qed.

Lemma set_allocated_mono h ext base s ps :
  set_allocated h base s ps -> set_allocated (h ++ ext) base s ps.
Proof.
  unfold set_allocated. intros H. eapply list.Forall2_impl; [exact H|].
  intros [g p] [g' l] (? & ? & Hl). repeat split; auto.
  simpl in *. apply lookup_app_l_Some. exact Hl.
Qed.

Lemma set_allocated_weaken h base base' s ps :
  base' <= base -> set_allocated h base s ps -> set_allocated h base' s ps.
Proof.
  unfold set_allocated. intros Hb H. eapply list.Forall2_impl; [exact H|].
  intros [g p] [g' l] (? & ? & Hl). repeat split; auto. simpl in *. lia.
Qed.

Lemma allocSet_spec (s : list (CredentialGroup.t * Permission)) (w : World) :
  exists ps ext,
    allocSet s w = (Ok ps, mkWorld (heap w ++ ext) (fetched w))
    /\ set_allocated (heap w ++ ext) (length (heap w)) s ps.
Proof.
  revert w. induction s as [|[g p] s IH]; intros w.
  - exists [], []. split.
    + unfold allocSet. simpl. unfold ret. rewrite app_nil_r. destruct w; reflexivity.
    + constructor.
  - destruct (IH (mkWorld (heap w ++ [mkCell false p]) (fetched w)))
      as (ps & ext & Hrun & Hal).
    exists ((g, length (heap w)) :: ps), (mkCell false p :: ext). split.
    + unfold allocSet in *. cbn [mapM]. unfold bind, alloc, ret in *.
      cbn [heap fetched] in *. rewrite Hrun.
      rewrite <- app_assoc. reflexivity.
    + cbn [heap] in Hal. rewrite <- app_assoc in Hal. cbn [app] in Hal.
      constructor.
      * cbn [fst snd]. repeat split; [lia|].
        rewrite lookup_app_r by lia.
        replace (length (heap w) - length (heap w)) with 0 by lia. reflexivity.
      * eapply set_allocated_weaken; [|exact Hal].
        rewrite length_app. simpl. lia.
Qed.

Lemma map_allocated_mono h ext base b pm :
  map_allocated h base b pm -> map_allocated (h ++ ext) base b pm.
Proof.
  unfold map_allocated. intros H. eapply list.Forall2_impl; [exact H|].
  intros [i s] [i' ps] (? & Hs). split; auto. apply set_allocated_mono. exact Hs.
Qed.

Lemma allocMap_spec (b : Building) (w : World) :
  exists pm ext,
    allocMap b w = (Ok pm, mkWorld (heap w ++ ext) (fetched w))
    /\ map_allocated (heap w ++ ext) (length (heap w)) b pm.
Proof.
  revert w. induction b as [|[i s] b IH]; intros w.
  - exists [], []. split.
    + unfold allocMap. simpl. unfold ret. rewrite app_nil_r. destruct w; reflexivity.
    + constructor.
  - destruct (allocSet_spec s w) as (ps & ext1 & Hrun1 & Hal1).
    destruct (IH (mkWorld (heap w ++ ext1) (fetched w))) as (pm & ext2 & Hrun2 & Hal2).
    exists ((i, ps) :: pm), (ext1 ++ ext2). split.
    + unfold allocMap in *. cbn [mapM]. unfold bind, ret in *.
      rewrite Hrun1. cbn [heap fetched] in *. rewrite Hrun2.
      rewrite <- app_assoc. reflexivity.
    + cbn [heap] in Hal2. rewrite <- app_assoc in Hal2.
      constructor.
      * cbn [fst snd]. split; [reflexivity|].
        rewrite app_assoc. apply set_allocated_mono. exact Hal1.
      * unfold map_allocated in *. eapply list.Forall2_impl; [exact Hal2|].
        intros [i0 s0] [i1 ps1] (? & Hs). split; auto.
        eapply set_allocated_weaken; [|exact Hs]. rewrite length_app. lia.
Qed.

Lemma set_allocated_get h base s ps g :
  set_allocated h base s ps ->
  match assoc_get g ps with
  | Some l => Some (deref h l)
  | None => None
  end = assoc_get g s.
Proof.
  induction 1 as [|[g1 p] [g2 l] s ps (Hg & _ & Hl) _ IH]; [reflexivity|].
  cbn [fst snd] in *. subst g2. cbn [assoc_get].
  destruct (decide (g = g1)); [|exact IH].
  unfold deref. simpl in Hl. rewrite Hl. reflexivity.
Qed.

Lemma map_allocated_view h base b pm id g m :
  map_allocated h base b pm -> view h pm id g m = bview b id g m.
Proof.
  unfold view, bview.
  induction 1 as [|[i1 s] [i2 ps] b pm (Hi & Hs) _ IH]; [reflexivity|].
  cbn [fst snd] in *. subst i2. cbn [IdentifierMap.get].
  destruct (decide (path id = path i1)); [|exact IH].
  pose proof (set_allocated_get _ _ _ _ g Hs) as Hg.
  destruct (assoc_get g ps) as [l|], (assoc_get g s) as [p|]; try discriminate.
  - injection Hg as ->. reflexivity.
  - reflexivity.
Qed.
End UnionMerge.

(** The fold of the binary merge is the rule of the specification. *)
Lemma fold_merge_rule (vs : list Tri) :
  fold_left merge vs None = mergeRule vs.
Proof.
  assert (forall acc, fold_left merge vs acc = mergeRule (acc :: vs)) as H.
  { induction vs as [|v vs IH]; intros acc.
    - destruct acc as [[]|]; reflexivity.
    - cbn [fold_left]. rewrite IH.
      destruct acc as [[]|], v as [[]|]; unfold mergeRule; simpl;
        repeat (destruct (existsb _ vs)); reflexivity. }
  rewrite H. unfold mergeRule. reflexivity.
Qed.

Lemma mergeRule_Permutation (vs vs' : list Tri) :
  Permutation vs vs' -> mergeRule vs = mergeRule vs'.
Proof.
  intros HP. unfold mergeRule.
  assert (forall f, existsb f vs = existsb f vs') as H.
  { intros f. induction HP; simpl; try congruence.
    - destruct (f x), (f y); reflexivity. }
  rewrite !H. reflexivity.
Qed.

(** C2. [UnionPermissionReader.combine] merges any list of (well-formed)
    permission maps per identifier, credential group and mode by the rule
    "one [false] yields [false]; otherwise any [true] yields [true];
    otherwise [undefined]". The merge of two tri-state values is
    commutative and associative, [undefined] is its identity and [false]
    is absorbing, so the merged values do not depend on the order of the
    child results. *)
Theorem union_combine_merge (results : list PermissionMap) (w : World) :
  Forall wf_map results ->
  (exists pm w',
      UnionPermissionReader.combine results w = (Ok pm, w')
      /\ forall id g m,
          view (heap w') pm id g m
          = fold_left merge (map (fun r => view (heap w) r id g m) results) None
          /\ view (heap w') pm id g m
             = mergeRule (map (fun r => view (heap w) r id g m) results))
  /\ (forall a b, merge a b = merge b a)
  /\ (forall a b c, merge (merge a b) c = merge a (merge b c))
  /\ (forall a, merge None a = a /\ merge a None = a)
  /\ (forall a, merge (Some false) a = Some false /\ merge a (Some false) = Some false)
  /\ (forall results' pm1 w1 pm2 w2,
        Permutation results results' ->
        UnionPermissionReader.combine results w = (Ok pm1, w1) ->
        UnionPermissionReader.combine results' w = (Ok pm2, w2) ->
        forall id g m, view (heap w1) pm1 id g m = view (heap w2) pm2 id g m).
Proof.
  intros Hwf.
  assert (forall rs, Forall wf_map rs ->
            exists pm w',
              UnionPermissionReader.combine rs w = (Ok pm, w')
              /\ forall id g m,
                  view (heap w') pm id g m
                  = fold_left merge (map (fun r => view (heap w) r id g m) rs) None)
    as Hcombine.
  { intros rs Hrs. unfold UnionPermissionReader.combine.
    destruct (allocMap_spec
                (fold_left (fun result permissionMap =>
                              UnionPermissionReader.applyPermissionMap (heap w)
                                permissionMap result) rs []) w)
      as (pm & ext & Hrun & Hal).
    exists pm, (mkWorld (heap w ++ ext) (fetched w)). split; [exact Hrun|].
    intros id g m. cbn [heap].
    rewrite (map_allocated_view _ _ _ _ id g m Hal).
    rewrite fold_applyPermissionMap_bview by exact Hrs. reflexivity. }
  split; [|split; [|split; [|split; [|split]]]].
  - destruct (Hcombine results Hwf) as (pm & w' & Hrun & Hview).
    exists pm, w'. split; [exact Hrun|]. intros id g m.
    split; [apply Hview|]. rewrite Hview. apply fold_merge_rule.
  - intros [[]|] [[]|]; reflexivity.
  - intros [[]|] [[]|] [[]|]; reflexivity.
  - intros [[]|]; split; reflexivity.
  - intros [[]|]; split; reflexivity.
  - intros results' pm1 w1 pm2 w2 HP H1 H2 id g m.
    assert (Forall wf_map results') as Hwf'.
    { rewrite list.Forall_forall in *. intros x Hx. apply Hwf.
      rewrite HP. exact Hx. }
    destruct (Hcombine results Hwf) as (pm1' & w1' & Hrun1 & Hview1).
    destruct (Hcombine results' Hwf') as (pm2' & w2' & Hrun2 & Hview2).
    rewrite H1 in Hrun1. injection Hrun1 as <- <-.
    rewrite H2 in Hrun2. injection Hrun2 as <- <-.
    rewrite Hview1, Hview2, !fold_merge_rule.
    apply mergeRule_Permutation. apply Permutation_map. exact HP.
Qed.

(** ** WebAclReader: permission evaluation *)

Lemma existsb_fmap {A B} (f : B -> bool) (g : A -> B) (l : list A) :
  existsb f (map g l) = existsb (fun x => f (g x)) l.
Proof. induction l as [|x l IH]; simpl; [reflexivity|]. rewrite IH. reflexivity. Qed.

Lemma existsb_true {A} (f : A -> bool) (l : list A) :
  existsb f l = true <-> exists x, x ∈ l /\ f x = true.
Proof.
  rewrite existsb_exists. split; intros (x & Hx & Hf); exists x; split; auto;
    apply list_elem_of_In; exact Hx.
Qed.

Section DeterminePermissions.
Import WebAclReader.

(** What [modesMap] holds, mode by mode. *)
Lemma modesMap_table (s : string) (modes : list AccessMode.t) (m : AccessMode.t) :
  modesMap s = Some modes -> m ∈ modes ->
  match m with
  | AccessMode.read => s = ACL.Read
  | AccessMode.append => s = ACL.Write \/ s = ACL.Append
  | AccessMode.write => s = ACL.Write
  | AccessMode.control => s = ACL.Control
  | AccessMode.create | AccessMode.delete => False
  end.
Proof.
  unfold modesMap. intros H Hin.
  repeat (destruct (decide _) as [->|?] in H);
    try discriminate; injection H as <-;
    repeat (apply elem_of_cons in Hin as [->|Hin]; [tauto|]);
    apply elem_of_nil in Hin; contradiction.
Qed.

Lemma modesMap_own :
  modesMap ACL.Read = Some [AccessMode.read]
  /\ modesMap ACL.Write = Some [AccessMode.append; AccessMode.write]
  /\ modesMap ACL.Append = Some [AccessMode.append]
  /\ modesMap ACL.Control = Some [AccessMode.control].
Proof. repeat split; vm_compute; reflexivity. Qed.

Lemma set_true_field (modes : list AccessMode.t) (p : Permission) (m : AccessMode.t) :
  field m (fold_left (fun p mode => set_field mode (Some true) p) modes p)
  = if bool_decide (m ∈ modes) then Some true else field m p.
Proof.
  revert p. induction modes as [|x modes IH]; intros p.
  - reflexivity.
  - cbn [fold_left]. rewrite IH, field_set_field.
    destruct (bool_decide (m ∈ modes)) eqn:E.
    + apply bool_decide_eq_true_1 in E.
      rewrite bool_decide_eq_true_2; [reflexivity | apply elem_of_cons; auto].
    + apply bool_decide_eq_false_1 in E.
      destruct (decide (m = x)) as [->|Hne].
      * rewrite bool_decide_eq_true_2; [reflexivity | apply elem_of_cons; auto].
      * rewrite bool_decide_eq_false_2; [reflexivity|].
        rewrite elem_of_cons. tauto.
Qed.

(** The loop over the modes of one rule. *)
Lemma apply_modes_spec (ms : list string) (p : Permission) (w : World) :
  (forall s, s ∈ ms -> s ∉ objectPrototypeKeys) ->
  exists p',
    foldM applyAclMode ms p w = (Ok p', w)
    /\ forall m, field m p'
                 = if existsb (fun s => sets s m) ms then Some true else field m p.
Proof.
  revert p. induction ms as [|s ms IH]; intros p Hplain.
  - exists p. split; reflexivity.
  - assert (exists p1, applyAclMode p s w = (Ok p1, w)
              /\ forall m, field m p1 = if sets s m then Some true else field m p)
      as (p1 & Hstep & Hp1).
    { unfold applyAclMode, sets. destruct (modesMap s) as [modes|] eqn:Emm.
      - eexists. split; [reflexivity|]. intros m. apply set_true_field.
      - rewrite bool_decide_eq_false_2
          by (apply Hplain, elem_of_cons; auto).
        exists p. split; reflexivity. }
    destruct (IH p1) as (p' & Hrun & Hp').
    { intros s' Hs'. apply Hplain, elem_of_cons. auto. }
    exists p'. split.
    + cbn [foldM]. unfold bind. rewrite Hstep. exact Hrun.
    + intros m. rewrite Hp', Hp1. cbn [existsb].
      destruct (sets s m), (existsb _ ms); reflexivity.
Qed.

(** The loop over the rules. *)
Lemma apply_rules_spec (this : t) (acl : Store) (credential : Credential)
    (rules : list Term) (p : Permission) (w : World) :
  (forall rule o, rule ∈ rules -> accessChecker this acl rule credential = true ->
                  o ∈ getObjects acl rule (NamedNode ACL.mode) ->
                  term_value o ∉ objectPrototypeKeys) ->
  exists p',
    foldM (fun aclPermissions rule =>
             if accessChecker this acl rule credential then
               let modes := getObjects acl rule (NamedNode ACL.mode) in
               foldM applyAclMode (map term_value modes) aclPermissions
             else ret aclPermissions) rules p w = (Ok p', w)
    /\ forall m, field m p'
                 = if existsb (fun rule =>
                                 accessChecker this acl rule credential
                                 && existsb (fun o => sets (term_value o) m)
                                      (getObjects acl rule (NamedNode ACL.mode)))
                              rules
                   then Some true else field m p.
Proof.
  revert p. induction rules as [|rule rules IH]; intros p Hplain.
  - exists p. split; reflexivity.
  - assert (exists p1,
               (if accessChecker this acl rule credential then
                  foldM applyAclMode
                    (map term_value (getObjects acl rule (NamedNode ACL.mode))) p
                else ret p) w = (Ok p1, w)
               /\ forall m, field m p1
                     = if accessChecker this acl rule credential
                          && existsb (fun o => sets (term_value o) m)
                               (getObjects acl rule (NamedNode ACL.mode))
                       then Some true else field m p)
      as (p1 & Hstep & Hp1).
    { destruct (accessChecker this acl rule credential) eqn:Eacc.
      - destruct (apply_modes_spec
                    (map term_value (getObjects acl rule (NamedNode ACL.mode))) p w)
          as (p1 & Hrun & Hp1).
        { intros s Hs. apply list_elem_of_fmap in Hs as (o & -> & Ho).
          apply (Hplain rule o); [apply elem_of_cons; auto | exact Eacc | exact Ho]. }
        exists p1. split; [exact Hrun|]. intros m. rewrite Hp1.
        cbn [andb]. rewrite existsb_fmap. reflexivity.
      - exists p. split; reflexivity. }
    destruct (IH p1) as (p' & Hrun & Hp').
    { intros r o Hr. apply Hplain, elem_of_cons. auto. }
    exists p'. split.
    + cbn [foldM]. unfold bind. cbv zeta in Hstep. rewrite Hstep. exact Hrun.
    + intros m. rewrite Hp', Hp1. cbn [existsb].
      destruct (_ && _), (existsb _ rules); reflexivity.
Qed.
End DeterminePermissions.

Section DeterminePermissionsSpec.
Import WebAclReader.

Lemma sets_table (s : string) (m : AccessMode.t) :
  sets s m = true <->
  match m with
  | AccessMode.read => s = ACL.Read
  | AccessMode.append => s = ACL.Write \/ s = ACL.Append
  | AccessMode.write => s = ACL.Write
  | AccessMode.control => s = ACL.Control
  | AccessMode.create | AccessMode.delete => False
  end.
Proof.
  split.
  - unfold sets. destruct (modesMap s) as [modes|] eqn:E; [|discriminate].
    intros H. apply bool_decide_eq_true_1 in H.
    exact (modesMap_table s modes m E H).
  - destruct m; try contradiction;
      repeat (intros [->| H]; [vm_compute; reflexivity | revert H]);
      intros ->; vm_compute; reflexivity.
Qed.

Lemma granted_sets (this : t) (acl : Store) (credential : Credential) (m : AccessMode.t) :
  existsb (fun rule =>
             accessChecker this acl rule credential
             && existsb (fun o => sets (term_value o) m)
                  (getObjects acl rule (NamedNode ACL.mode)))
          (getSubjects acl (NamedNode RDF.type) (NamedNode ACL.Authorization)) = true
  <-> exists s, granted this acl credential s /\ sets s m = true.
Proof.
  rewrite existsb_true. split.
  - intros (rule & Hrule & H). apply andb_true_iff in H as [Hacc H].
    apply existsb_true in H as (o & Ho & Hs).
    exists (term_value o). split; [|exact Hs]. exists rule, o. auto.
  - intros (s & (rule & o & Hrule & Hacc & Ho & <-) & Hs).
    exists rule. split; [exact Hrule|]. apply andb_true_iff. split; [exact Hacc|].
    apply existsb_true. exists o. auto.
Qed.

(** Without a credential the permission is empty. *)
Lemma determinePermissions_absent (this : t) (acl : Store) (w : World) :
  determinePermissions this acl None w
  = (Ok (length (heap w)),
     mkWorld (heap w ++ [mkCell false emptyPermission]) (fetched w)).
Proof. reflexivity. Qed.

(** With a credential, and as long as no mode of an accepted rule is
    named like a member of [Object.prototype], the permission is the one
    of the mode table, and no mode of it is [false]. *)
Lemma determinePermissions_plain (this : t) (acl : Store) (credential : Credential)
    (w : World) :
  plain_modes this acl credential ->
  exists p,
    determinePermissions this acl (Some credential) w
    = (Ok (length (heap w)), mkWorld (heap w ++ [mkCell false p]) (fetched w))
    /\ (p_read p = Some true <-> granted this acl credential ACL.Read)
    /\ (p_append p = Some true <->
          granted this acl credential ACL.Write \/ granted this acl credential ACL.Append)
    /\ (p_write p = Some true <-> granted this acl credential ACL.Write)
    /\ (p_control p = Some true <-> granted this acl credential ACL.Control)
    /\ p_create p = None /\ p_delete p = None
    /\ forall m, field m p <> Some false.
Proof.
  intros Hplain.
  destruct (apply_rules_spec this acl credential
              (getSubjects acl (NamedNode RDF.type) (NamedNode ACL.Authorization))
              emptyPermission w Hplain) as (p & Hrun & Hp).
  exists p. split.
  { unfold determinePermissions. cbv zeta in Hrun |- *. unfold bind. rewrite Hrun. reflexivity. }
  assert (forall m, field m p = Some true
                    <-> exists s, granted this acl credential s /\ sets s m = true) as Htrue.
  { intros m. rewrite <- granted_sets, Hp. destruct (existsb _ _).
    - tauto.
    - destruct m; split; discriminate. }
  assert (forall m, (forall s, sets s m = false) -> field m p = None) as Hnone.
  { intros m Hm. destruct (field m p) as [[]|] eqn:E; [| |reflexivity].
    - apply Htrue in E as (s & _ & Hs). rewrite Hm in Hs. discriminate.
    - rewrite Hp in E. destruct (existsb _ _), m; discriminate. }
  repeat split.
  - intros H. apply (Htrue AccessMode.read) in H as (s & Hg & Hs).
    apply sets_table in Hs. subst. exact Hg.
  - intros H. apply (Htrue AccessMode.read). exists ACL.Read. split; [exact H|].
    apply sets_table. reflexivity.
  - intros H. apply (Htrue AccessMode.append) in H as (s & Hg & Hs).
    apply sets_table in Hs as [->| ->]; auto.
  - intros H. apply (Htrue AccessMode.append).
    destruct H as [H|H]; [exists ACL.Write | exists ACL.Append];
      (split; [exact H|]); apply sets_table; auto.
  - intros H. apply (Htrue AccessMode.write) in H as (s & Hg & Hs).
    apply sets_table in Hs. subst. exact Hg.
  - intros H. apply (Htrue AccessMode.write). exists ACL.Write. split; [exact H|].
    apply sets_table. reflexivity.
  - intros H. apply (Htrue AccessMode.control) in H as (s & Hg & Hs).
    apply sets_table in Hs. subst. exact Hg.
  - intros H. apply (Htrue AccessMode.control). exists ACL.Control. split; [exact H|].
    apply sets_table. reflexivity.
  - apply (Hnone AccessMode.create). intros s.
    destruct (sets s AccessMode.create) eqn:E; [|reflexivity].
    apply sets_table in E. contradiction.
  - apply (Hnone AccessMode.delete). intros s.
    destruct (sets s AccessMode.delete) eqn:E; [|reflexivity].
    apply sets_table in E. contradiction.
  - intros m. rewrite Hp. destruct (existsb _ _), m; discriminate.
Qed.

(** Every IRI has a colon, no member of [Object.prototype] has one. *)
Lemma iri_is_plain (s : string) :
  includes s ":" = true -> s ∉ objectPrototypeKeys.
Proof.
  intros H Hin. unfold objectPrototypeKeys in Hin.
  repeat (apply elem_of_cons in Hin as [->|Hin]; [vm_compute in H; discriminate|]).
  apply elem_of_nil in Hin. exact Hin.
Qed.
End DeterminePermissionsSpec.

(** C1 (defect of the code). An unrecognized mode is to be ignored, and
    [determinePermissions] does ignore [acl:fakeMode1], as its unit test
    asks: the permission is [{ read: true }]. A mode named like a member
    of [Object.prototype] (here the literal ["constructor"]) passes the
    test [aclMode in modesMap], and the loop over [modesMap[aclMode]]
    throws a [TypeError] instead of returning that permission. *)
Theorem determinePermissions_inherited_mode :
  let this := Sample.webAclReader Sample.noStore in
  let permissionOf (acl : Store) :=
    match WebAclReader.determinePermissions this acl (Some Sample.anyone) Sample.emptyWorld with
    | (Ok l, w) => Ok (deref (heap w) l)
    | (Throw e, _) => Throw e
    | (OutOfFuel, _) => OutOfFuel
    end in
  permissionOf (Sample.aclWithMode (NamedNode (ACL.namespace +:+ "fakeMode1")))
  = Ok (mkPermission (Some true) None None None None None)
  /\ permissionOf (Sample.aclWithMode (Literal "constructor"))
     = Throw (TypeError "modesMap[aclMode] is not iterable").
Proof. split; vm_compute; reflexivity. Qed.

(** ** WebAclReader: ACL discovery *)

Section Discovery.
Import WebAclReader.
Variable this : t.

(** One step of [getAclRecursive]. *)
Lemma getAclRecursive_step (fuel : nat) (id : ResourceIdentifier) (w : World) :
  getAclRecursive this (S fuel) id w
  = let acl := getAuxiliaryIdentifier (aclStrategy this) id in
    match getRepresentation (aclStore this) acl with
    | inr quads => (Ok {| store := quads; identifier := id |}, requested w acl)
    | inl error =>
        if isNotFound error then
          if isRootContainer (identifierStrategy this) id
          then (Throw (ForbiddenHttpError "No ACL document found for root container"),
                requested w acl)
          else getAclRecursive this fuel
                 (getParentContainer (identifierStrategy this) id) (requested w acl)
        else (Throw (InternalServerError
                       ("Error reading ACL for " +:+ path id +:+ ": "
                        +:+ createErrorMessage error) error),
              requested w acl)
    end.
Proof.
  cbn [getAclRecursive]. unfold bind, try_catch, readAcl, ret, throw, requested.
  cbv zeta.
  destruct (getRepresentation _ _) as [error|quads]; [|reflexivity].
  destruct (isNotFound error); [|reflexivity].
  destruct (isRootContainer _ _); reflexivity.
Qed.

Hypothesis Hparent : parent_shorter (identifierStrategy this).

(** With fuel beyond the length of the path, the walk ends: it finds the
    document of the identifier or of an ancestor, or raises one of the
    two discovery errors. *)
Lemma getAclRecursive_outcome (fuel : nat) (id : ResourceIdentifier) (w : World) :
  String.length (path id) < fuel ->
  match fst (getAclRecursive this fuel id w) with
  | Ok found =>
      getRepresentation (aclStore this)
        (getAuxiliaryIdentifier (aclStrategy this) (identifier found))
      = inr (store found)
      /\ String.length (path (identifier found)) <= String.length (path id)
  | Throw e => discovery_error this e
  | OutOfFuel => False
  end.
Proof using Hparent.
  revert id w. induction fuel as [|fuel IH]; intros id w Hfuel; [lia|].
  rewrite getAclRecursive_step. cbv zeta.
  destruct (getRepresentation _ _) as [error|quads] eqn:Eget.
  - destruct (isNotFound error) eqn:Enf.
    + destruct (isRootContainer _ _) eqn:Eroot.
      * left. split; [reflexivity|]. exists id, error. auto.
      * pose proof (Hparent id Eroot) as Hlt.
        specialize (IH (getParentContainer (identifierStrategy this) id)
                       (requested w (getAuxiliaryIdentifier (aclStrategy this) id))).
        destruct (fst (getAclRecursive this fuel _ _)) as [found|e|].
        -- destruct IH as [Hg Hl]; [lia|]. split; [exact Hg|lia].
        -- apply IH. lia.
        -- apply IH. lia.
    + right. exists id, error. auto.
  - cbn [fst store identifier]. split; [exact Eget|lia].
Qed.

(** The heap is left alone, and the requests are added to the log. *)
Lemma getAclRecursive_world (fuel : nat) (id : ResourceIdentifier) (w : World) :
  exists trace,
    snd (getAclRecursive this fuel id w) = mkWorld (heap w) (fetched w ++ trace)
    /\ Forall (fun s => exists id', s = path (getAuxiliaryIdentifier (aclStrategy this) id')
                                /\ String.length (path id') <= String.length (path id))
              trace
    /\ (acl_injective (aclStrategy this) -> NoDup trace).
Proof using Hparent.
  revert id w. induction fuel as [|fuel IH]; intros id w.
  - exists []. cbn. rewrite app_nil_r. destruct w. repeat split; constructor.
  - rewrite getAclRecursive_step. cbv zeta.
    set (acl := getAuxiliaryIdentifier (aclStrategy this) id).
    assert (exists trace,
               requested w acl = mkWorld (heap w) (fetched w ++ trace)
               /\ Forall (fun s => exists id', s = path (getAuxiliaryIdentifier (aclStrategy this) id')
                                /\ String.length (path id') <= String.length (path id))
                         trace
               /\ (acl_injective (aclStrategy this) -> NoDup trace)) as Hone.
    { exists [path acl]. split; [reflexivity|]. split.
      - constructor; [|constructor]. exists id. split; [reflexivity|lia].
      - intros _. apply NoDup_singleton. }
    destruct (getRepresentation _ _) as [error|quads]; [|exact Hone].
    destruct (isNotFound error); [|exact Hone].
    destruct (isRootContainer _ _) eqn:Eroot; [exact Hone|].
    pose proof (Hparent id Eroot) as Hlt.
    destruct (IH (getParentContainer (identifierStrategy this) id) (requested w acl))
      as (trace & Hw & Hall & Hnd).
    exists (path acl :: trace). split; [|split].
    + rewrite Hw. cbn [requested heap fetched]. rewrite <- app_assoc. reflexivity.
    + constructor.
      * exists id. split; [reflexivity|lia].
      * eapply list.Forall_impl; [exact Hall|]. cbv beta.
        intros s (id' & -> & Hl). exists id'. split; [reflexivity|lia].
    + intros Hinj. apply list.NoDup_cons. split; [|auto].
      intros Hin. rewrite list.Forall_forall in Hall.
      destruct (Hall _ Hin) as (id' & Heq & Hl).
      apply Hinj in Heq. rewrite Heq in Hlt. lia.
Qed.
End Discovery.

(** C5. During the ACL discovery a [NotFoundHttpError] of the store is
    never surfaced: it makes [getAclRecursive] go on with the parent
    container; at a root container it becomes a [ForbiddenHttpError] with
    the message "No ACL document found for root container"; any other
    error of the store becomes an [InternalServerError] with the message
    "Error reading ACL for {path}: {cause}" and the error as its cause.
    The walk always ends, and these are the only errors it raises. *)
Theorem getAclRecursive_errors (this : WebAclReader.t) (fuel : nat)
    (id : ResourceIdentifier) (w : World) :
  parent_shorter (WebAclReader.identifierStrategy this) ->
  String.length (path id) < S fuel ->
  let acl := getAuxiliaryIdentifier (WebAclReader.aclStrategy this) id in
  (forall message,
      getRepresentation (WebAclReader.aclStore this) acl = inl (NotFoundHttpError message) ->
      if isRootContainer (WebAclReader.identifierStrategy this) id
      then WebAclReader.getAclRecursive this (S fuel) id w
           = (Throw (ForbiddenHttpError "No ACL document found for root container"),
              requested w acl)
      else WebAclReader.getAclRecursive this (S fuel) id w
           = WebAclReader.getAclRecursive this fuel
               (getParentContainer (WebAclReader.identifierStrategy this) id)
               (requested w acl))
  /\ (forall error,
        getRepresentation (WebAclReader.aclStore this) acl = inl error ->
        isNotFound error = false ->
        WebAclReader.getAclRecursive this (S fuel) id w
        = (Throw (InternalServerError
                    ("Error reading ACL for " +:+ path id +:+ ": "
                     +:+ createErrorMessage error) error),
           requested w acl))
  /\ (forall quads,
        getRepresentation (WebAclReader.aclStore this) acl = inr quads ->
        WebAclReader.getAclRecursive this (S fuel) id w
        = (Ok {| WebAclReader.store := quads; WebAclReader.identifier := id |},
           requested w acl))
  /\ match fst (WebAclReader.getAclRecursive this (S fuel) id w) with
     | Ok _ => True
     | Throw e =>
         isNotFound e = false
         /\ (e = ForbiddenHttpError "No ACL document found for root container"
             \/ exists id' cause,
                  e = InternalServerError
                        ("Error reading ACL for " +:+ path id' +:+ ": "
                         +:+ createErrorMessage cause) cause
                  /\ isNotFound cause = false)
     | OutOfFuel => False
     end.
Proof.
  intros Hparent Hfuel acl. repeat split.
  - intros message Hget. rewrite getAclRecursive_step. cbv zeta. fold acl.
    rewrite Hget. cbn [isNotFound].
    destruct (isRootContainer _ _); reflexivity.
  - intros error Hget Hnf. rewrite getAclRecursive_step. cbv zeta. fold acl.
    rewrite Hget, Hnf. reflexivity.
  - intros quads Hget. rewrite getAclRecursive_step. cbv zeta. fold acl.
    rewrite Hget. reflexivity.
  - pose proof (getAclRecursive_outcome this Hparent (S fuel) id w Hfuel) as H.
    destruct (fst (WebAclReader.getAclRecursive this (S fuel) id w)) as [found|e|];
      [exact I| |exact H].
    destruct H as [[-> _]|(id' & cause & -> & Hnf & _)].
    + split; [reflexivity|]. left. reflexivity.
    + split; [reflexivity|]. right. exists id', cause. auto.
Qed.

(** ** Loops *)

Lemma elem_of_flat_map {A B} (f : A -> list B) (l : list A) (x : B) :
  x ∈ flat_map f l <-> exists y, y ∈ l /\ x ∈ f y.
Proof.
  rewrite list_elem_of_In, in_flat_map. split; intros (y & Hy & Hx); exists y.
  - split; [apply list_elem_of_In, Hy | apply list_elem_of_In, Hx].
  - split; [apply list_elem_of_In, Hy | apply list_elem_of_In, Hx].
Qed.

(** An invariant of a loop that returns: it holds of the elements done. *)
Lemma foldM_invariant {A S} (body : S -> A -> M S) (P : list A -> S -> World -> Prop)
    (l : list A) (s : S) (w : World) (s' : S) (w' : World) :
  P [] s w ->
  (forall done x s1 w1 s2 w2,
      P done s1 w1 -> body s1 x w1 = (Ok s2, w2) -> P (done ++ [x]) s2 w2) ->
  foldM body l s w = (Ok s', w') ->
  P l s' w'.
Proof.
  intros Hinit Hstep.
  assert (forall done rest s1 w1,
            P done s1 w1 -> foldM body rest s1 w1 = (Ok s', w') -> P (done ++ rest) s' w') as H.
  { intros done rest. revert done. induction rest as [|x rest IH]; intros done s1 w1 HP Hrun.
    - cbn in Hrun. injection Hrun as <- <-. rewrite app_nil_r. exact HP.
    - cbn [foldM] in Hrun. apply bind_inv_Ok in Hrun as (s2 & w2 & Hb & Hrun).
      replace (done ++ x :: rest) with ((done ++ [x]) ++ rest)
        by (rewrite <- app_assoc; reflexivity).
      eapply IH; [|exact Hrun]. eapply Hstep; eauto. }
  intros Hrun. exact (H [] l s w Hinit Hrun).
Qed.

(** A property of the outcomes of the body is a property of the loop. *)
Lemma foldM_outcome {A S} (body : S -> A -> M S) (Q : Outcome S -> Prop)
    (l : list A) (s : S) (w : World) :
  (forall s0, Q (Ok s0)) ->
  (forall s1 x w1 e, x ∈ l -> fst (body s1 x w1) = Throw e -> Q (Throw e)) ->
  (forall s1 x w1, x ∈ l -> fst (body s1 x w1) = OutOfFuel -> Q OutOfFuel) ->
  Q (fst (foldM body l s w)).
Proof.
  intros Hok Hthrow Hfuel. revert s w.
  induction l as [|x l IH]; intros s w.
  - apply Hok.
  - cbn [foldM]. unfold bind.
    destruct (body s x w) as [[s2| e|] w2] eqn:Eb.
    + apply IH.
      * intros s1 y w1 e Hy. apply Hthrow, elem_of_cons. auto.
      * intros s1 y w1 Hy. apply Hfuel, elem_of_cons. auto.
    + cbn [fst]. apply (Hthrow s x w e); [apply elem_of_cons; auto|].
      rewrite Eb. reflexivity.
    + cbn [fst]. apply (Hfuel s x w); [apply elem_of_cons; auto|].
      rewrite Eb. reflexivity.
Qed.

(** ** WebAclReader: grouping the targets *)

Lemma prefix_refl (s : string) : String.prefix s s = true.
Proof.
  induction s as [|c s IH]; [reflexivity|]. cbn.
  destruct (ascii_dec c c); [exact IH|contradiction].
Qed.

Lemma includes_refl (s : string) : includes s s = true.
Proof. destruct s; cbn [includes]; rewrite prefix_refl; reflexivity. Qed.

Section Grouping.
Import WebAclReader.

Lemma longest_step (targets : list ResourceIdentifier) (long : ResourceIdentifier) :
  let r := fold_left (fun long identifier =>
               if (String.length (path long) <? String.length (path identifier))%nat
               then identifier else long) targets long in
  String.length (path long) <= String.length (path r)
  /\ (forall t, t ∈ targets -> String.length (path t) <= String.length (path r))
  /\ (r = long \/ r ∈ targets).
Proof.
  revert long. induction targets as [|x targets IH]; intros long; cbn [fold_left].
  - repeat split; [lia| |auto]. intros t Ht. apply elem_of_nil in Ht. contradiction.
  - cbv zeta in IH. destruct (Nat.ltb_spec (String.length (path long)) (String.length (path x))).
    + destruct (IH x) as (H1 & H2 & H3). repeat split; [lia| |].
      * intros t Ht. apply elem_of_cons in Ht as [->|Ht]; auto.
      * right. apply elem_of_cons. destruct H3 as [->|H3]; auto.
    + destruct (IH long) as (H1 & H2 & H3). repeat split; [lia| |].
      * intros t Ht. apply elem_of_cons in Ht as [->|Ht]; [lia|auto].
      * destruct H3 as [H3|H3]; [auto|]. right. apply elem_of_cons. auto.
Qed.

Lemma longestOf_ge (targets : list ResourceIdentifier) (t : ResourceIdentifier) :
  t ∈ targets -> String.length (path t) <= String.length (path (longestOf targets)).
Proof. intros Ht. apply (longest_step targets (mkId "")). exact Ht. Qed.

Lemma longestOf_elem (targets : list ResourceIdentifier) :
  targets <> [] -> longestOf targets ∈ targets.
Proof.
  intros Hne. destruct (longest_step targets (mkId "")) as (_ & Hge & [Heq|Hin]);
    [|exact Hin].
  destruct targets as [|x targets]; [contradiction|].
  fold (longestOf (x :: targets)) in Heq, Hge.
  specialize (Hge x (list_elem_of_here _ _)). rewrite Heq in Hge |- *.
  destruct x as [p]. cbn in Hge. destruct p; [|cbn in Hge; lia].
  apply elem_of_cons. auto.
Qed.

Variable this : t.
Hypothesis Hparent : parent_shorter (identifierStrategy this).

(** The loop of [getAclMatches]: it ends, files every target exactly
    when it returns, leaves the heap alone, and issues one walk per
    iteration. *)
Lemma getAclMatches_spec (fuel : nat) (targets : list ResourceIdentifier)
    (storeMap : list (AclMatch * list ResourceIdentifier)) (w : World) :
  (forall t, t ∈ targets -> String.length (path t) + length targets < fuel) ->
  exists outcome traces,
    getAclMatches this fuel targets storeMap w
    = (outcome, mkWorld (heap w) (fetched w ++ concat traces))
    /\ length traces <= length targets
    /\ walks this traces
    /\ match outcome with
       | Ok sm =>
           (forall id, id ∈ filed sm <-> id ∈ filed storeMap \/ id ∈ targets)
           /\ (Forall (fun e => found_in_store this (fst e)) storeMap ->
               Forall (fun e => found_in_store this (fst e)) sm)
       | Throw e => discovery_error this e
       | OutOfFuel => False
       end.
Proof using Hparent.
  revert targets storeMap w.
  induction fuel as [|fuel IH]; intros targets storeMap w Hfuel.
  - destruct targets as [|x targets].
    + exists (Ok storeMap), []. cbn. rewrite app_nil_r. destruct w.
      repeat split; try constructor; auto.
      * intros [?|H]; [auto|]. apply elem_of_nil in H. contradiction.
    + specialize (Hfuel x (list_elem_of_here _ _)). lia.
  - destruct targets as [|x targets'] eqn:Etargets.
    + exists (Ok storeMap), []. cbn. rewrite app_nil_r. destruct w.
      repeat split; try constructor; auto.
      * intros [?|H]; [auto|]. apply elem_of_nil in H. contradiction.
    + rewrite <- Etargets in *.
      assert (targets <> []) as Hne by (rewrite Etargets; discriminate).
      pose proof (longestOf_elem targets Hne) as Hlong.
      set (longest := longestOf targets) in *.
      assert (getAclMatches this (S fuel) targets storeMap w
              = bind (getAclRecursive this (S fuel) longest)
                  (fun aclMatch =>
                     getAclMatches this fuel
                       (filter (fun target => ¬ claimed longest aclMatch target) targets)
                       (storeMap ++ [(aclMatch,
                          filter (fun target => claimed longest aclMatch target) targets)]))
                  w) as ->.
      { subst longest. clear -Hne. destruct targets; [contradiction|reflexivity]. }
      pose proof (getAclRecursive_outcome this Hparent (S fuel) longest w) as Hout.
      destruct (getAclRecursive_world this Hparent (S fuel) longest w)
        as (trace & Hw & _ & Hnd).
      unfold bind.
      destruct (getAclRecursive this (S fuel) longest w) as [[found|e|] w1] eqn:Erun;
        cbn [fst snd] in Hout, Hw; subst w1.
      * destruct Hout as [Hfound Hlen]; [specialize (Hfuel _ Hlong); lia|].
        assert (claimed longest found longest) as Hclaimed.
        { unfold claimed. rewrite includes_refl. cbn [andb].
          apply Is_true_true. apply Nat.leb_le. exact Hlen. }
        set (rest := filter (fun target => ¬ claimed longest found target) targets).
        assert (length rest < length targets) as Hless.
        { apply (length_filter_lt _ _ longest); [exact Hlong|]. auto. }
        destruct (IH rest
                    (storeMap ++ [(found,
                       filter (fun target => claimed longest found target) targets)])
                    (mkWorld (heap w) (fetched w ++ trace)))
          as (outcome & traces & Hrun & Hcount & Hwalks & Hres).
        { intros t Ht. apply list_elem_of_filter in Ht as [_ Ht].
          specialize (Hfuel t Ht). lia. }
        exists outcome, (trace :: traces). split; [|split; [|split]].
        -- rewrite Hrun. cbn [heap fetched concat]. rewrite <- app_assoc. reflexivity.
        -- cbn [length]. lia.
        -- constructor; [exact Hnd|exact Hwalks].
        -- destruct outcome as [sm|e|]; [|exact Hres|exact Hres].
           destruct Hres as [Hfiled Hstores]. split.
           ++ intros id. rewrite Hfiled. unfold filed. rewrite flat_map_app.
              rewrite elem_of_app. cbn [flat_map snd]. rewrite app_nil_r.
              unfold rest. rewrite !list_elem_of_filter.
              destruct (decide (claimed longest found id)); tauto.
           ++ intros Hall. apply Hstores. apply Forall_app. split; [exact Hall|].
              constructor; [exact Hfound|constructor].
      * exists (Throw e), [trace]. cbn [concat]. rewrite app_nil_r.
        split; [reflexivity|]. split; [rewrite Etargets; cbn; lia|].
        split; [constructor; [exact Hnd|constructor]|].
        apply Hout. specialize (Hfuel _ Hlong). lia.
      * exfalso. apply Hout. specialize (Hfuel _ Hlong). lia.
Qed.
End Grouping.

(** ** WebAclReader: from the grouped targets to the permission map *)

Lemma id_path_eq (k k' : ResourceIdentifier) : path k = path k' -> k = k'.
Proof. destruct k, k'. cbn. congruence. Qed.

Lemma set_keys_elem {V} (k : ResourceIdentifier) (v : V) (m : IdentifierMap V)
    (id : ResourceIdentifier) :
  id ∈ IdentifierMap.keys (IdentifierMap.set k v m) <-> id = k \/ id ∈ IdentifierMap.keys m.
Proof.
  unfold IdentifierMap.keys.
  induction m as [|[k0 v0] m IH]; cbn [IdentifierMap.set map fst].
  - rewrite list_elem_of_singleton. split; [auto|]. intros [?|H]; [auto|].
    apply elem_of_nil in H. contradiction.
  - destruct (decide (path k = path k0)) as [E|Hne]; cbn [map fst].
    + apply id_path_eq in E. subst k0. rewrite !elem_of_cons. tauto.
    + rewrite !elem_of_cons, IH. tauto.
Qed.

Lemma fold_set_keys {V} (ids : list ResourceIdentifier) (v : V) (m : IdentifierMap V)
    (id : ResourceIdentifier) :
  id ∈ IdentifierMap.keys
         (fold_left (fun result identifier => IdentifierMap.set identifier v result) ids m)
  <-> id ∈ ids \/ id ∈ IdentifierMap.keys m.
Proof.
  revert m. induction ids as [|x ids IH]; intros m; cbn [fold_left].
  - split; [auto|]. intros [H|?]; [|auto]. apply elem_of_nil in H. contradiction.
  - rewrite IH, set_keys_elem, elem_of_cons. tauto.
Qed.

Lemma fold_set_wf {V} (ids : list ResourceIdentifier) (v : V) (m : IdentifierMap V) :
  wf_keys m ->
  wf_keys (fold_left (fun result identifier => IdentifierMap.set identifier v result) ids m).
Proof.
  revert m. induction ids as [|x ids IH]; intros m Hwf; cbn [fold_left]; [exact Hwf|].
  apply IH, IdentifierMapFacts.set_wf, Hwf.
Qed.

Lemma fold_set_get {V} (ids : list ResourceIdentifier) (v : V) (m : IdentifierMap V)
    (id : ResourceIdentifier) :
  IdentifierMap.get id
    (fold_left (fun result identifier => IdentifierMap.set identifier v result) ids m)
  = if bool_decide (id ∈ ids) then Some v else IdentifierMap.get id m.
Proof.
  revert m. induction ids as [|x ids IH]; intros m; cbn [fold_left].
  - rewrite bool_decide_eq_false_2; [reflexivity | apply not_elem_of_nil].
  - rewrite IH. destruct (bool_decide (id ∈ ids)) eqn:E.
    + apply bool_decide_eq_true_1 in E.
      rewrite bool_decide_eq_true_2; [reflexivity | apply elem_of_cons; auto].
    + apply bool_decide_eq_false_1 in E. rewrite IdentifierMapFacts.get_set.
      destruct (decide (path id = path x)) as [Ep|Hne].
      * apply id_path_eq in Ep. subst x.
        rewrite bool_decide_eq_true_2; [reflexivity | apply elem_of_cons; auto].
      * rewrite bool_decide_eq_false_2; [reflexivity|].
        rewrite elem_of_cons. intros [->|?]; auto.
Qed.

Section FindPermissions.
Import WebAclReader.
Variable this : t.

Lemma filterAclMap_filed (m : list (AclMatch * list ResourceIdentifier))
    (id : ResourceIdentifier) :
  id ∈ filed (filterAclMap m) <-> id ∈ filed m.
Proof.
  unfold filed, filterAclMap.
  induction m as [|[found targets] m IH]; [reflexivity|].
  cbn [flat_map snd]. rewrite flat_map_app, !elem_of_app, IH.
  assert (id ∈ flat_map snd
            ((if (0 <? length (filter (fun target => path target = path (identifier found)) targets))%nat
              then [(filterStore (store found) (path (identifier found)) true,
                     filter (fun target => path target = path (identifier found)) targets)]
              else [])
             ++ (if (0 <? length (filter (fun target => path target ≠ path (identifier found)) targets))%nat
                 then [(filterStore (store found) (path (identifier found)) false,
                        filter (fun target => path target ≠ path (identifier found)) targets)]
                 else []))
          <-> id ∈ targets) as Hhere.
  { rewrite flat_map_app, elem_of_app.
    assert (forall (P : ResourceIdentifier -> Prop) `{!forall x, Decision (P x)} (s : Store),
               id ∈ flat_map snd
                 (if (0 <? length (filter P targets))%nat then [(s, filter P targets)] else [])
               <-> P id /\ id ∈ targets) as Hpart.
    { intros P HP s. destruct (Nat.ltb_spec 0 (length (filter P targets))) as [Hlt|Hge].
      - cbn [flat_map snd]. rewrite app_nil_r. apply list_elem_of_filter.
      - cbn [flat_map]. split; [intros H; apply elem_of_nil in H; contradiction|].
        intros H. apply (list_elem_of_filter P targets id) in H.
        destruct (filter P targets); [exact H|cbn in Hge; lia]. }
    rewrite !Hpart.
    destruct (decide (path id = path (identifier found))); tauto. }
  rewrite <- Hhere. reflexivity.
Qed.

Lemma filterStore_sub (s : Store) (target : string) (direct : bool) (q : Quad) :
  q ∈ filterStore s target direct -> q ∈ s.
Proof.
  unfold filterStore.
  generalize (getSubjects s (NamedNode (if direct then ACL.accessTo else ACL.default))
                (NamedNode target)).
  intros subjects.
  assert (forall acc, (forall q, q ∈ acc -> q ∈ s) ->
            q ∈ fold_left (fun subjectData subject => addQuads subjectData (getQuads s subject))
                  subjects acc -> q ∈ s) as H.
  { induction subjects as [|x subjects IH]; intros acc Hacc; cbn [fold_left]; [apply Hacc|].
    apply IH. intros q' Hq'. unfold addQuads in Hq'.
    apply elem_of_remove_dups, elem_of_app in Hq' as [Hq'|Hq']; [auto|].
    unfold getQuads in Hq'. apply list_elem_of_filter in Hq' as [_ Hq']. exact Hq'. }
  apply H. intros q' Hq'. apply elem_of_nil in Hq'. contradiction.
Qed.

Lemma filterAclMap_stores (m : list (AclMatch * list ResourceIdentifier))
    (s : Store) (ids : list ResourceIdentifier) :
  (s, ids) ∈ filterAclMap m ->
  exists found targets direct,
    (found, targets) ∈ m /\ s = filterStore (store found) (path (identifier found)) direct.
Proof.
  unfold filterAclMap. rewrite elem_of_flat_map.
  intros ([found targets] & Hin & Hs). exists found, targets.
  apply elem_of_app in Hs as [Hs|Hs]; destruct (_ <? _)%nat;
    try (apply elem_of_nil in Hs; contradiction);
    apply list_elem_of_singleton in Hs; injection Hs as -> _.
  - exists true. auto.
  - exists false. auto.
Qed.

(** [determinePermissions] returns a fresh object or throws the
    [TypeError]. *)
Lemma applyAclMode_loop_outcome (ms : list string) (p : Permission) (w : World) :
  match fst (foldM applyAclMode ms p w) with
  | Ok _ => True
  | Throw e => e = TypeError "modesMap[aclMode] is not iterable"
  | OutOfFuel => False
  end.
Proof.
  apply (foldM_outcome applyAclMode
           (fun o => match o with
                     | Ok _ => True
                     | Throw e => e = TypeError "modesMap[aclMode] is not iterable"
                     | OutOfFuel => False
                     end)); [auto| |].
  - intros p1 s w2 e _. unfold applyAclMode.
    destruct (modesMap s); [discriminate|].
    destruct (bool_decide _); [|discriminate]. cbn. congruence.
  - intros p1 s w2 _. unfold applyAclMode.
    destruct (modesMap s); [discriminate|].
    destruct (bool_decide _); discriminate.
Qed.

Lemma determinePermissions_outcome (acl : Store) (credential : option Credential)
    (w : World) :
  match fst (determinePermissions this acl credential w) with
  | Ok _ => True
  | Throw e => e = TypeError "modesMap[aclMode] is not iterable"
  | OutOfFuel => False
  end.
Proof.
  unfold determinePermissions. cbv zeta. destruct credential as [credential|]; [|exact I].
  unfold bind.
  match goal with
  | |- context [foldM ?b ?l ?s w] =>
      pose proof (foldM_outcome b
        (fun o => match o with
                  | Ok _ => True
                  | Throw e => e = TypeError "modesMap[aclMode] is not iterable"
                  | OutOfFuel => False
                  end) l s w) as H;
      destruct (foldM b l s w) as [[p|e|] w1]
  end; cbn [fst] in *; [exact I| |].
  - apply H; [auto| |].
    + intros p1 rule w2 e' _ He'. destruct (accessChecker this acl rule credential).
      * pose proof (applyAclMode_loop_outcome
                      (map term_value (getObjects acl rule (NamedNode ACL.mode))) p1 w2)
          as Hinner.
        rewrite He' in Hinner. exact Hinner.
      * discriminate.
    + intros p1 rule w2 _ He'. destruct (accessChecker this acl rule credential).
      * pose proof (applyAclMode_loop_outcome
                      (map term_value (getObjects acl rule (NamedNode ACL.mode))) p1 w2)
          as Hinner.
        rewrite He' in Hinner. exact Hinner.
      * discriminate.
  - apply H; [auto| |].
    + intros p1 rule w2 e' _ He'. destruct (accessChecker this acl rule credential).
      * pose proof (applyAclMode_loop_outcome
                      (map term_value (getObjects acl rule (NamedNode ACL.mode))) p1 w2)
          as Hinner.
        rewrite He' in Hinner. exact Hinner.
      * discriminate.
    + intros p1 rule w2 _ He'. destruct (accessChecker this acl rule credential).
      * pose proof (applyAclMode_loop_outcome
                      (map term_value (getObjects acl rule (NamedNode ACL.mode))) p1 w2)
          as Hinner.
        rewrite He' in Hinner. exact Hinner.
      * discriminate.
Qed.
End FindPermissions.

(** A relation between the worlds before and after the body is a relation
    between the worlds before and after the loop. *)
Lemma foldM_world {A S} (body : S -> A -> M S) (R : World -> World -> Prop)
    (l : list A) (s : S) (w : World) :
  (forall w0, R w0 w0) ->
  (forall w0 w1 w2, R w0 w1 -> R w1 w2 -> R w0 w2) ->
  (forall s1 x w1, x ∈ l -> R w1 (snd (body s1 x w1))) ->
  R w (snd (foldM body l s w)).
Proof.
  intros Hrefl Htrans Hbody. revert s w.
  induction l as [|x l IH]; intros s w.
  - apply Hrefl.
  - cbn [foldM]. unfold bind.
    pose proof (Hbody s x w (list_elem_of_here _ _)) as Hx.
    destruct (body s x w) as [[s2| e|] w2]; cbn [snd] in *; [|exact Hx|exact Hx].
    eapply Htrans; [exact Hx|]. apply IH.
    intros s1 y w1 Hy. apply Hbody, elem_of_cons. auto.
Qed.

Section FindPermissionsSpec.
Import WebAclReader.
Variable this : t.

Lemma determinePermissions_fetched (acl : Store) (credential : option Credential)
    (w : World) :
  fetched (snd (determinePermissions this acl credential w)) = fetched w.
Proof.
  unfold determinePermissions. cbv zeta. destruct credential as [credential|]; [|reflexivity].
  unfold bind.
  match goal with
  | |- context [foldM ?b ?l ?s w] =>
      pose proof (foldM_world b (fun w0 w1 => fetched w1 = fetched w0) l s w) as H;
      destruct (foldM b l s w) as [[p|e|] w1]
  end; cbn [snd alloc fetched] in *; apply H; try congruence.
  all: intros p1 rule w2 _; destruct (accessChecker this acl rule credential);
    [|reflexivity];
    apply (foldM_world applyAclMode (fun w0 w1 => fetched w1 = fetched w0));
    try congruence;
    intros p2 s w3 _; unfold applyAclMode;
    destruct (modesMap s); [reflexivity|]; destruct (bool_decide _); reflexivity.
Qed.

(** The loop of [findPermissions], from any map built so far. *)
Lemma findPermissions_loop (aclMap : list (Store * list ResourceIdentifier))
    (credentials : CredentialSet) (result : PermissionMap) (w : World) :
  wf_keys result ->
  (forall id ps, IdentifierMap.get id result = Some ps -> both_groups ps) ->
  exists outcome w',
    foldM
      (fun (result : PermissionMap) '(store, aclIdentifiers) =>
         let* publicPermissions :=
           determinePermissions this store (assoc_get CredentialGroup.public credentials) in
         let* agentPermissions :=
           determinePermissions this store (assoc_get CredentialGroup.agent credentials) in
         ret (fold_left
                (fun (result : PermissionMap) identifier =>
                   IdentifierMap.set identifier
                     [(CredentialGroup.public, publicPermissions);
                      (CredentialGroup.agent, agentPermissions)] result)
                aclIdentifiers result))
      aclMap result w = (outcome, w')
    /\ fetched w' = fetched w
    /\ match outcome with
       | Ok pm =>
           wf_keys pm
           /\ (forall id, id ∈ IdentifierMap.keys pm
                          <-> id ∈ filed aclMap \/ id ∈ IdentifierMap.keys result)
           /\ (forall id ps, IdentifierMap.get id pm = Some ps -> both_groups ps)
       | Throw e => e = TypeError "modesMap[aclMode] is not iterable"
       | OutOfFuel => False
       end
    /\ ((forall s ids credential,
            (s, ids) ∈ aclMap ->
            plain_modes this s credential) ->
        exists pm, outcome = Ok pm).
Proof.
  revert result w. induction aclMap as [|[s ids] aclMap IH]; intros result w Hwf Hboth.
  - exists (Ok result), w. cbn. repeat split; auto.
    + intros [H|?]; [|auto]. apply elem_of_nil in H. contradiction.
    + eauto.
  - cbn [foldM]. unfold bind at 1. unfold bind at 1.
    pose proof (determinePermissions_outcome this s
                  (assoc_get CredentialGroup.public credentials) w) as Ho1.
    pose proof (determinePermissions_fetched s
                  (assoc_get CredentialGroup.public credentials) w) as Hf1.
    assert ((forall credential, plain_modes this s credential) ->
            exists lp w1, determinePermissions this s
                            (assoc_get CredentialGroup.public credentials) w = (Ok lp, w1))
      as Ht1.
    { intros Hplain. destruct (assoc_get CredentialGroup.public credentials) as [c|].
      - destruct (determinePermissions_plain this s c w (Hplain c)) as (p & -> & _). eauto.
      - rewrite determinePermissions_absent. eauto. }
    destruct (determinePermissions this s (assoc_get CredentialGroup.public credentials) w)
      as [[lp|e|] w1]; cbn [fst snd] in *.
    + unfold bind at 1.
      pose proof (determinePermissions_outcome this s
                    (assoc_get CredentialGroup.agent credentials) w1) as Ho2.
      pose proof (determinePermissions_fetched s
                    (assoc_get CredentialGroup.agent credentials) w1) as Hf2.
      assert ((forall credential, plain_modes this s credential) ->
              exists la w2, determinePermissions this s
                              (assoc_get CredentialGroup.agent credentials) w1 = (Ok la, w2))
        as Ht2.
      { intros Hplain. destruct (assoc_get CredentialGroup.agent credentials) as [c|].
        - destruct (determinePermissions_plain this s c w1 (Hplain c)) as (p & -> & _). eauto.
        - rewrite determinePermissions_absent. eauto. }
      destruct (determinePermissions this s (assoc_get CredentialGroup.agent credentials) w1)
        as [[la|e|] w2]; cbn [fst snd] in *.
      * cbn [ret].
        set (result' := fold_left _ ids result).
        destruct (IH result' w2) as (outcome & w' & Hrun & Hf & Hres & Htot).
        { apply fold_set_wf, Hwf. }
        { intros id ps. unfold result'. rewrite fold_set_get.
          destruct (bool_decide (id ∈ ids)); [|apply Hboth].
          intros [= <-]. exists lp, la. reflexivity. }
        exists outcome, w'. split; [exact Hrun|]. split; [congruence|]. split.
        -- destruct outcome as [pm|e|]; [|exact Hres|exact Hres].
           destruct Hres as (Hwf' & Hkeys & Hboth'). repeat split; [exact Hwf'| | |exact Hboth'].
           ++ intros H. apply Hkeys in H as [H|H].
              ** left. unfold filed. cbn [flat_map snd]. apply elem_of_app. auto.
              ** unfold result' in H. apply fold_set_keys in H as [H|H]; [|auto].
                 left. unfold filed. cbn [flat_map snd]. apply elem_of_app. auto.
           ++ intros H. apply Hkeys. unfold result'. rewrite fold_set_keys.
              destruct H as [H|H]; [|auto].
              unfold filed in H. cbn [flat_map snd] in H.
              apply elem_of_app in H as [H|H]; auto.
        -- intros Hplain. apply Htot. intros s0 ids0 c Hin.
           apply (Hplain s0 ids0), elem_of_cons. auto.
      * exists (Throw e), w2. repeat split; [congruence|exact Ho2|].
        intros Hplain. destruct Ht2 as (la & w2' & Hla); [|discriminate].
        intros c. apply (Hplain s ids), elem_of_cons. auto.
      * contradiction.
    + exists (Throw e), w1. repeat split; [congruence|exact Ho1|].
      intros Hplain. destruct Ht1 as (lp & w1' & Hlp); [|discriminate].
      intros c. apply (Hplain s ids), elem_of_cons. auto.
    + contradiction.
Qed.
End FindPermissionsSpec.

Lemma getObjects_elem (s : Store) (rule p o : Term) :
  o ∈ getObjects s rule p ->
  exists q, q ∈ s /\ subject q = rule /\ predicate q = p /\ object q = o.
Proof.
  unfold getObjects. rewrite elem_of_remove_dups. intros H.
  apply list_elem_of_fmap in H as (q & -> & Hq).
  apply list_elem_of_filter in Hq as [[Hs Hp] Hq]. exists q. auto.
Qed.



(** C9 as stated fails: for two resources of the root container, neither
    with an ACL of its own, the ACL of the root is requested twice. *)
Lemma webAclReader_fetches_root_acl_twice :
  let run := WebAclReader.handle (Sample.webAclReader Sample.rootAclStore) 64
               Sample.siblings Sample.emptyWorld in
  (exists pm, fst run = Ok pm)
  /\ fetched (snd run)
     = [ "http://example.com/foo.acl"; "http://example.com/.acl";
         "http://example.com/bar.acl"; "http://example.com/.acl" ]
  /\ ~ NoDup (fetched (snd run)).
Proof.
  cbv zeta.
  assert (fetched (snd (WebAclReader.handle (Sample.webAclReader Sample.rootAclStore) 64
                          Sample.siblings Sample.emptyWorld))
          = [ "http://example.com/foo.acl"; "http://example.com/.acl";
              "http://example.com/bar.acl"; "http://example.com/.acl" ]) as Hf
    by (vm_compute; reflexivity).
  split; [|split].
  - eexists. vm_compute. reflexivity.
  - exact Hf.
  - rewrite Hf. intros Hnd.
    apply list.NoDup_cons in Hnd as [_ Hnd]. apply list.NoDup_cons in Hnd as [Hn _].
    apply Hn. apply elem_of_cons. right. apply elem_of_cons. left. reflexivity.
Qed.

(** ** The collaborators of the unit tests meet the contracts *)

Lemma string_length_app (a b : string) :
  String.length (a +:+ b) = String.length a + String.length b.
Proof. induction a as [|c a IH]; simpl; [reflexivity|]. f_equal. exact IH. Qed.

Lemma string_app_inv_tail (a b c : string) : a +:+ c = b +:+ c -> a = b.
Proof.
  revert b. induction a as [|x a IH]; intros [|y b] H.
  - reflexivity.
  - apply (f_equal String.length) in H. rewrite !string_length_app in H. cbn in H. lia.
  - apply (f_equal String.length) in H. rewrite !string_length_app in H. cbn in H. lia.
  - cbn in H. injection H as -> H. f_equal. apply IH, H.
Qed.

Lemma parentPath_length (s acc cur : string) :
  s <> "" ->
  String.length (Sample.parentPath s acc cur)
  < String.length acc + String.length cur + String.length s.
Proof.
  revert acc cur. induction s as [|c s IH]; intros acc cur Hne; [contradiction|].
  cbn [Sample.parentPath String.length].
  destruct (Ascii.eqb c "/").
  - destruct s as [|c' s']; [lia|].
    specialize (IH (acc +:+ cur +:+ "/") "" ltac:(discriminate)).
    rewrite !string_length_app in IH. cbn [String.length] in *. lia.
  - destruct s as [|c' s']; [cbn; lia|].
    specialize (IH acc (cur +:+ String c "") ltac:(discriminate)).
    rewrite !string_length_app in IH. cbn [String.length] in *. lia.
Qed.

Lemma sample_parent_shorter : parent_shorter Sample.identifierStrategy.
Proof.
  intros [p] Hroot. cbn in *.
  apply orb_false_iff in Hroot as [_ Hne]. apply bool_decide_eq_false_1 in Hne.
  pose proof (parentPath_length p "" "" Hne) as H. cbn in H. exact H.
Qed.

Lemma sample_acl_injective : acl_injective Sample.aclStrategy.
Proof. intros [a] [b] H. cbn in *. exact (string_app_inv_tail _ _ _ H). Qed.

(** ** Concrete runs *)


Lemma union_combine_merge_witness :
  Forall wf_map Sample.twoResults
  /\ exists pm w',
       UnionPermissionReader.combine Sample.twoResults Sample.twoObjects = (Ok pm, w')
       /\ forall id g m,
           view (heap w') pm id g m
           = fold_left merge
               (map (fun r => view (heap Sample.twoObjects) r id g m) Sample.twoResults) None
           /\ view (heap w') pm id g m
              = mergeRule
                  (map (fun r => view (heap Sample.twoObjects) r id g m) Sample.twoResults).
Proof.
  assert (Forall wf_map Sample.twoResults) as H by (repeat constructor; solve_wf).
  split; [exact H|].
  exact (proj1 (union_combine_merge Sample.twoResults Sample.twoObjects H)).
Defined.

Lemma getAclRecursive_errors_witness :
  parent_shorter (WebAclReader.identifierStrategy (Sample.webAclReader Sample.rootAclStore))
  /\ String.length (path (Sample.id "foo")) < S 63
  /\ WebAclReader.getAclRecursive (Sample.webAclReader Sample.rootAclStore) 64
       (Sample.id "foo") Sample.emptyWorld
     = WebAclReader.getAclRecursive (Sample.webAclReader Sample.rootAclStore) 63
         (Sample.id "") 
         (requested Sample.emptyWorld (mkId "http://example.com/foo.acl")).
Proof.
  split; [exact sample_parent_shorter|]. split; [vm_compute; lia|].
  exact (proj1 (getAclRecursive_errors (Sample.webAclReader Sample.rootAclStore) 63
                  (Sample.id "foo") Sample.emptyWorld sample_parent_shorter
                  ltac:(vm_compute; lia)) "" eq_refl).
Defined.

(** ** IntermediateModesExtractor *)

(** C7 (defect of the code). For a create on [/a/b/c/] where only the root
    exists, the extractor adds [/a/b/] and [/a/] with [create] and leaves
    the root out, as the claim says. It reaches the ancestors only through
    the entries the iteration still has ahead of it: when [/a/b/] is
    already in the source map before [/a/b/c/], it receives [create] after
    it has been visited, and the missing container [/a/] above it is not
    added. *)
Theorem intermediateModesExtractor_misses_ancestor :
  let run sourceMap :=
    fst (IntermediateModesExtractor.handle (Sample.extractor sourceMap) 64
           Sample.put Sample.emptyWorld) in
  run [(Sample.id "a/b/c/", [AccessMode.create; AccessMode.write])]
  = Ok [(Sample.id "a/b/c/", [AccessMode.create; AccessMode.write]);
        (Sample.id "a/b/", [AccessMode.create]);
        (Sample.id "a/", [AccessMode.create])]
  /\ run [(Sample.id "a/b/", [AccessMode.read]); (Sample.id "a/b/c/", [AccessMode.create])]
     = Ok [(Sample.id "a/b/", [AccessMode.create; AccessMode.read]);
           (Sample.id "a/b/c/", [AccessMode.create])]
  /\ getParentContainer Sample.identifierStrategy (Sample.id "a/b/") = Sample.id "a/"
  /\ hasResource Sample.onlyRoot (Sample.id "a/") = false.
Proof. repeat split; vm_compute; reflexivity. Qed.

(** ** The keys of the maps the readers return *)

Lemma from_keys_acc {V} (entries : list (ResourceIdentifier * V)) (m : IdentifierMap V)
    (id : ResourceIdentifier) :
  id ∈ IdentifierMap.keys
         (fold_left (fun m kv => IdentifierMap.set (fst kv) (snd kv) m) entries m)
  <-> id ∈ map fst entries \/ id ∈ IdentifierMap.keys m.
Proof.
  revert m. induction entries as [|[k v] entries IH]; intros m; cbn [fold_left map fst snd].
  - split; [auto|]. intros [H|?]; [|auto]. apply elem_of_nil in H. contradiction.
  - rewrite IH, set_keys_elem, elem_of_cons. tauto.
Qed.

Lemma from_keys {V} (entries : list (ResourceIdentifier * V)) (id : ResourceIdentifier) :
  id ∈ IdentifierMap.keys (IdentifierMap.from entries) <-> id ∈ map fst entries.
Proof.
  unfold IdentifierMap.from. rewrite from_keys_acc. split; [|auto].
  intros [?|H]; [auto|]. apply elem_of_nil in H. contradiction.
Qed.

Lemma addAccessModes_keys (k : ResourceIdentifier) (modes : ModeSet) (m : AccessMap)
    (id : ResourceIdentifier) :
  id ∈ IdentifierMap.keys (addAccessModes k modes m) <-> id = k \/ id ∈ IdentifierMap.keys m.
Proof.
  unfold addAccessModes. destruct (IdentifierMap.get k m); apply set_keys_elem.
Qed.

Lemma updateAccessMap_keys (add : list (ResourceIdentifier * ModeSet))
    (remove : list ResourceIdentifier) (m : AccessMap) (id : ResourceIdentifier) :
  id ∈ IdentifierMap.keys (updateAccessMap add remove m)
  <-> id ∈ map fst add \/ (id ∈ IdentifierMap.keys m /\ id ∉ remove).
Proof.
  unfold updateAccessMap.
  assert (forall acc : AccessMap,
            id ∈ IdentifierMap.keys
                   (fold_left (fun (result : AccessMap) '(identifier, modes) =>
                                 if bool_decide (identifier ∈ remove) then result
                                 else IdentifierMap.set identifier modes result) m acc)
            <-> (id ∈ IdentifierMap.keys m /\ id ∉ remove) \/ id ∈ IdentifierMap.keys acc)
    as Hkeep.
  { unfold IdentifierMap.keys at 2.
    induction m as [|[k v] m IH]; intros acc; cbn [fold_left map fst].
    - split; [auto|]. intros [[H _]|?]; [|auto]. apply elem_of_nil in H. contradiction.
    - rewrite IH. rewrite elem_of_cons. destruct (bool_decide (k ∈ remove)) eqn:E.
      + apply bool_decide_eq_true_1 in E. split; [tauto|].
        intros [[[->|H] Hn]|H]; [contradiction|auto|auto].
      + apply bool_decide_eq_false_1 in E. rewrite set_keys_elem.
        split; [|tauto]. intros [H|[Hk|H]]; [tauto|subst; tauto|tauto]. }
  assert (forall acc : AccessMap,
            id ∈ IdentifierMap.keys
                   (fold_left (fun (result : AccessMap) '(identifier, modes) =>
                                 addAccessModes identifier modes result) add acc)
            <-> id ∈ map fst add \/ id ∈ IdentifierMap.keys acc) as Hadd.
  { induction add as [|[k v] add IH]; intros acc; cbn [fold_left map fst].
    - split; [auto|]. intros [H|?]; [|auto]. apply elem_of_nil in H. contradiction.
    - rewrite IH, addAccessModes_keys, elem_of_cons. tauto. }
  rewrite Hadd, Hkeep. split; [|tauto].
  intros [?|[?|H]]; [auto|auto|]. apply elem_of_nil in H. contradiction.
Qed.

(** What a loop over [mapM] returns comes from its body. *)
Lemma mapM_inv {A B} (f : A -> M B) (l : list A) (w : World) (ys : list B) (w' : World) :
  mapM f l w = (Ok ys, w') ->
  Forall2 (fun x y => exists w1 w2, f x w1 = (Ok y, w2)) l ys.
Proof.
  revert w ys. induction l as [|x l IH]; intros w ys H.
  - cbn in H. injection H as <- _. constructor.
  - cbn [mapM] in H. apply bind_inv_Ok in H as (y & w1 & Hy & H).
    apply bind_inv_Ok in H as (ys' & w2 & Hys & H). cbn in H. injection H as <- <-.
    constructor; [eauto|]. eapply IH, Hys.
Qed.


Section UnionKeys.
Import UnionPermissionReader.


Lemma map_allocated_keys (h : list Cell) (base : nat) (b : Building) (pm : PermissionMap) :
  map_allocated h base b pm -> IdentifierMap.keys pm = IdentifierMap.keys b.
Proof.
  unfold IdentifierMap.keys. induction 1 as [|[i s] [i' ps] b pm [Hi _] _ IH]; [reflexivity|].
  cbn in *. congruence.
Qed.


End UnionKeys.

Lemma keys_concat {V} (results : list (IdentifierMap V)) (id : ResourceIdentifier) :
  id ∈ map fst (concat results) -> exists r, r ∈ results /\ id ∈ IdentifierMap.keys r.
Proof.
  induction results as [|r results IH]; cbn [concat map].
  - intros H. apply elem_of_nil in H. contradiction.
  - rewrite map_app, elem_of_app. intros [H|H].
    + exists r. split; [apply elem_of_cons; left; reflexivity|exact H].
    + destruct (IH H) as (r' & Hr' & Hid). exists r'.
      split; [apply elem_of_cons; right; exact Hr'|exact Hid].
Qed.

Section PathBasedKeys.
Import PathBasedReader.
Variable this : t.

Lemma findReader_Some (p : string) (reader : ReaderRef) :
  findReader this p = Some reader ->
  String.prefix (baseUrl this) p = true /\ exists regex, (regex, reader) ∈ paths this.
Proof.
  unfold findReader. destruct (String.prefix (baseUrl this) p); [|discriminate].
  cbv zeta. destruct (List.find _ (paths this)) as [[regex r]|] eqn:E; [|discriminate].
  intros [= ->]. split; [reflexivity|]. exists regex.
  apply find_some in E as [E _]. apply list_elem_of_In. exact E.
Qed.

Lemma rset_elem (r : ReaderRef) (v : AccessMap) (l : list (ReaderRef * AccessMap))
    (x : ReaderRef * AccessMap) :
  x ∈ rset r v l -> x = (r, v) \/ x ∈ l.
Proof.
  induction l as [|[r0 v0] l IH]; cbn [rset].
  - intros H. apply list_elem_of_singleton in H. auto.
  - destruct (decide (rid r = rid r0)).
    + rewrite !elem_of_cons. tauto.
    + rewrite !elem_of_cons. intros [H|H]; [auto|]. apply IH in H. tauto.
Qed.

Lemma rget_elem (r : ReaderRef) (v : AccessMap) (l : list (ReaderRef * AccessMap)) :
  rget r l = Some v -> exists r0, (r0, v) ∈ l.
Proof.
  induction l as [|[r0 v0] l IH]; cbn [rget]; [discriminate|].
  destruct (decide (rid r = rid r0)).
  - intros [= ->]. exists r0. apply elem_of_cons. auto.
  - intros H. destruct (IH H) as (r1 & Hr1). exists r1. apply elem_of_cons. auto.
Qed.

Lemma matchReaders_dispatched (accessMap : AccessMap) (x : ReaderRef * AccessMap) :
  x ∈ matchReaders this accessMap -> dispatched this accessMap x.
Proof.
  unfold matchReaders.
  assert (forall (entries : AccessMap) acc,
            (forall k, k ∈ IdentifierMap.keys entries -> k ∈ IdentifierMap.keys accessMap) ->
            (forall y, y ∈ acc -> dispatched this accessMap y) ->
            forall y,
              y ∈ fold_left
                    (fun result '(identifier, modes) =>
                       match findReader this (path identifier) with
                       | Some reader =>
                           let matches := default [] (rget reader result) in
                           rset reader (IdentifierMap.set identifier modes matches) result
                       | None => result
                       end) entries acc ->
              dispatched this accessMap y) as H.
  { induction entries as [|[identifier modes] entries IH]; intros acc Hsub Hacc y Hy;
      cbn [fold_left] in Hy; [auto|].
    eapply IH; [| |exact Hy].
    - intros k Hk. apply Hsub. apply elem_of_cons. auto.
    - intros z Hz. destruct (findReader this (path identifier)) as [reader|] eqn:E; [|auto].
      cbv zeta in Hz. apply rset_elem in Hz as [->|Hz]; [|auto].
      apply findReader_Some in E as [Hprefix Hreader].
      split; [exact Hreader|]. cbn [snd]. intros k Hk.
      apply set_keys_elem in Hk as [->|Hk].
      + split; [|exact Hprefix]. apply Hsub. apply elem_of_cons. auto.
      + destruct (rget reader acc) as [matches|] eqn:Eg.
        * destruct (rget_elem _ _ _ Eg) as (r0 & Hr0).
          apply (Hacc _ Hr0). exact Hk.
        * apply elem_of_nil in Hk. contradiction. }
  apply H; [auto|]. intros y Hy. apply elem_of_nil in Hy. contradiction.
Qed.

Lemma pathBasedReader_keys (input : PermissionReaderInput) (w : World)
    (pm : PermissionMap) (w' : World) (id : ResourceIdentifier) :
  (forall regex r, (regex, r) ∈ paths this -> keys_within (rhandle r)) ->
  handle this input w = (Ok pm, w') ->
  id ∈ IdentifierMap.keys pm ->
  id ∈ IdentifierMap.keys (accessMap input)
  /\ String.prefix (baseUrl this) (path id) = true.
Proof.
  intros Hreaders Hrun Hid. unfold handle in Hrun.
  apply bind_inv_Ok in Hrun as (results & w1 & Hmap & Hret).
  cbn in Hret. injection Hret as <- _.
  apply from_keys, keys_concat in Hid as (r & Hr & Hid).
  apply mapM_inv in Hmap.
  apply list_elem_of_lookup in Hr as (i & Hi).
  destruct (Forall2_lookup_r _ _ _ _ _ Hmap Hi) as ([reader am] & Hx & (w2 & w3 & Hrun)).
  apply list_elem_of_lookup_2 in Hx.
  destruct (matchReaders_dispatched _ _ Hx) as [(regex & Hreader) Hkeys].
  cbn [fst snd] in *.
  apply Hkeys.
  exact (Hreaders regex reader Hreader _ _ _ _ Hrun id Hid).
Qed.
End PathBasedKeys.

Lemma fold_set_keys_gen {A V} (key : A -> ResourceIdentifier)
    (value : IdentifierMap V -> A -> V) (l : list A) (m : IdentifierMap V)
    (id : ResourceIdentifier) :
  id ∈ IdentifierMap.keys
         (fold_left (fun result x => IdentifierMap.set (key x) (value result x) result) l m)
  <-> id ∈ map key l \/ id ∈ IdentifierMap.keys m.
Proof.
  revert m. induction l as [|x l IH]; intros m; cbn [fold_left map].
  - split; [auto|]. intros [H|?]; [|auto]. apply elem_of_nil in H. contradiction.
  - rewrite IH, set_keys_elem, elem_of_cons. tauto.
Qed.

Section WrapperKeys.
Variable strategy : IdentifierStrategy.
Variable aux : AuxiliaryStrategy.
Variable inner : PermissionReader.
Hypothesis Hinner : keys_within inner.

Lemma findParents_elem (this : ParentContainerReader.t) (accessMap : AccessMap)
    child container modes :
  (child, (container, modes)) ∈ ParentContainerReader.findParents this accessMap ->
  exists required,
    (child, required) ∈ accessMap
    /\ (AccessMode.create ∈ required \/ AccessMode.delete ∈ required)
    /\ container = getParentContainer (ParentContainerReader.identifierStrategy this) child.
Proof.
  unfold ParentContainerReader.findParents. rewrite elem_of_flat_map.
  intros ([c required] & Hin & H).
  unfold mode_has in H.
  destruct (bool_decide (AccessMode.create ∈ required)) eqn:Ec;
    destruct (bool_decide (AccessMode.delete ∈ required)) eqn:Ed;
    cbn [orb] in H;
    try (apply elem_of_nil in H; contradiction);
    apply list_elem_of_singleton in H; injection H as -> -> _;
    exists required; (split; [exact Hin|]); (split; [|reflexivity]);
    try (apply bool_decide_eq_true_1 in Ec; auto; fail);
    apply bool_decide_eq_true_1 in Ed; auto.
Qed.

Lemma entry_key {V} (k : ResourceIdentifier) (v : V) (m : IdentifierMap V) :
  (k, v) ∈ m -> k ∈ IdentifierMap.keys m.
Proof.
  intros H. unfold IdentifierMap.keys. apply list_elem_of_fmap. exists (k, v). auto.
Qed.


Lemma findAuxiliary_elem (this : AuxiliaryReader.t) (accessMap : AccessMap)
    id subject modes :
  (id, (subject, modes)) ∈ AuxiliaryReader.findAuxiliary this accessMap ->
  (id, modes) ∈ accessMap
  /\ isAuxiliaryIdentifier (AuxiliaryReader.auxiliaryStrategy this) id = true
  /\ usesOwnAuthorization (AuxiliaryReader.auxiliaryStrategy this) id = false
  /\ subject = getSubjectIdentifier (AuxiliaryReader.auxiliaryStrategy this) id.
Proof.
  unfold AuxiliaryReader.findAuxiliary. rewrite elem_of_flat_map.
  intros ([c required] & Hin & H).
  destruct (isAuxiliaryIdentifier _ c) eqn:Ea; cbn [andb] in H;
    [|apply elem_of_nil in H; contradiction].
  destruct (usesOwnAuthorization _ c) eqn:Eo; cbn [negb] in H;
    [apply elem_of_nil in H; contradiction|].
  apply list_elem_of_singleton in H. injection H as -> -> ->. auto.
Qed.


Lemma findAcl_elem (this : WebAclAuxiliaryReader.t) (accessMap : AccessMap)
    id subject modes :
  (id, (subject, modes)) ∈ WebAclAuxiliaryReader.findAcl this accessMap ->
  id ∈ IdentifierMap.keys accessMap
  /\ isAuxiliaryIdentifier (WebAclAuxiliaryReader.aclStrategy this) id = true
  /\ subject = getSubjectIdentifier (WebAclAuxiliaryReader.aclStrategy this) id
  /\ modes = [AccessMode.control].
Proof.
  unfold WebAclAuxiliaryReader.findAcl. rewrite elem_of_flat_map.
  intros ([c required] & Hin & H).
  destruct (isAuxiliaryIdentifier _ c) eqn:Ea;
    [|apply elem_of_nil in H; contradiction].
  apply list_elem_of_singleton in H. injection H as -> -> ->.
  split; [exact (entry_key _ _ _ Hin)|]. auto.
Qed.

End WrapperKeys.



(** C10 as stated fails: an identifier of the input outside the base URL
    gets a verdict when a reader behind the [PathBasedReader] reports on
    it, as [ParentContainerReader] does for the parent of a container it
    is asked to delete. *)
Lemma pathBasedReader_verdict_outside_base :
  let this := Sample.pathBased Sample.parentPipeline in
  let input := mkInput Sample.publicOnly
                 [(Sample.id "foo/", [AccessMode.delete]); (Sample.id "", [AccessMode.read])] in
  PathBasedReader.baseUrl this = "http://example.com/foo/"
  /\ String.prefix (PathBasedReader.baseUrl this) (path (Sample.id "")) = false
  /\ exists pm w',
       PathBasedReader.handle this input Sample.allowAllWorld = (Ok pm, w')
       /\ Sample.id "" ∈ IdentifierMap.keys pm
       /\ view (heap w') pm (Sample.id "") CredentialGroup.public AccessMode.read = Some true.
Proof.
  cbv zeta. split; [vm_compute; reflexivity|]. split; [vm_compute; reflexivity|].
  eexists _, _. split; [vm_compute; reflexivity|]. split.
  - apply elem_of_cons. right. apply elem_of_cons. left. reflexivity.
  - vm_compute. reflexivity.
Qed.

(** C10, amended. Whatever the regular expressions, an identifier whose
    path does not start with the base URL (normalized to end in one
    slash) is never handed to a reader: [findReader] finds none for it and
    it is in none of the access maps of [matchReaders]. It is absent from
    the output as long as the readers report on identifiers of their own
    access map only. *)
Theorem pathBasedReader_base_url (baseUrl : string)
    (paths : list (PathBasedReader.RegExp * PathBasedReader.ReaderRef))
    (input : PermissionReaderInput) (w : World) (id : ResourceIdentifier) :
  let this := PathBasedReader.new baseUrl paths in
  String.prefix (ensureTrailingSlash baseUrl) (path id) = false ->
  PathBasedReader.findReader this (path id) = None
  /\ (forall x, x ∈ PathBasedReader.matchReaders this (accessMap input) ->
                id ∉ IdentifierMap.keys (snd x))
  /\ ((forall regex r, (regex, r) ∈ paths -> keys_within (PathBasedReader.rhandle r)) ->
      forall pm w',
        PathBasedReader.handle this input w = (Ok pm, w') ->
        id ∉ IdentifierMap.keys pm).
Proof.
  intros this Hout. split; [|split].
  - unfold PathBasedReader.findReader. cbn [PathBasedReader.baseUrl this PathBasedReader.new].
    rewrite Hout. reflexivity.
  - intros x Hx Hid.
    destruct (matchReaders_dispatched this _ _ Hx) as [_ Hkeys].
    destruct (Hkeys id Hid) as [_ Hprefix].
    cbn [PathBasedReader.baseUrl this PathBasedReader.new] in Hprefix. congruence.
  - intros Hreaders pm w' Hrun Hid.
    destruct (pathBasedReader_keys this input w pm w' id Hreaders Hrun Hid) as [_ Hprefix].
    cbn [PathBasedReader.baseUrl this PathBasedReader.new] in Hprefix. congruence.
Qed.

(** ** Loops, with the position in the list *)

Lemma foldM_invariant_prefix {A S} (body : S -> A -> M S)
    (P : list A -> S -> World -> Prop)
    (l : list A) (s : S) (w : World) (s' : S) (w' : World) :
  P [] s w ->
  (forall done x rest s1 w1 s2 w2,
      l = done ++ x :: rest ->
      P done s1 w1 -> body s1 x w1 = (Ok s2, w2) -> P (done ++ [x]) s2 w2) ->
  foldM body l s w = (Ok s', w') ->
  P l s' w'.
Proof.
  intros Hinit Hstep.
  assert (forall done rest s1 w1,
            l = done ++ rest ->
            P done s1 w1 -> foldM body rest s1 w1 = (Ok s', w') -> P (done ++ rest) s' w') as H.
  { intros done rest. revert done. induction rest as [|x rest IH]; intros done s1 w1 El HP Hrun.
    - cbn in Hrun. injection Hrun as <- <-. rewrite app_nil_r. exact HP.
    - cbn [foldM] in Hrun. apply bind_inv_Ok in Hrun as (s2 & w2 & Hb & Hrun).
      replace (done ++ x :: rest) with ((done ++ [x]) ++ rest)
        by (rewrite <- app_assoc; reflexivity).
      eapply IH; [rewrite <- app_assoc; exact El| |exact Hrun].
      eapply Hstep; eauto. }
  intros Hrun. exact (H [] l s w eq_refl Hinit Hrun).
Qed.

(** ** The access map handed on by the wrappers *)

Lemma newSet_elem (l : list AccessMode.t) (m : AccessMode.t) : m ∈ newSet l <-> m ∈ l.
Proof.
  induction l as [|x l IH]; cbn [newSet]; [reflexivity|].
  rewrite !elem_of_cons, list_elem_of_filter, IH.
  destruct (decide (m = x)); tauto.
Qed.

Lemma get_Some_key {V} (id : ResourceIdentifier) (v : V) (m : IdentifierMap V) :
  IdentifierMap.get id m = Some v -> id ∈ IdentifierMap.keys m.
Proof.
  intros H. apply IdentifierMapFacts.get_Some_elem in H as (k & Hk & Hin).
  apply id_path_eq in Hk. subst k. unfold IdentifierMap.keys.
  apply list_elem_of_fmap. exists (id, v). auto.
Qed.

Lemma get_None_key {V} (id : ResourceIdentifier) (m : IdentifierMap V) :
  IdentifierMap.get id m = None <-> id ∉ IdentifierMap.keys m.
Proof.
  rewrite IdentifierMapFacts.get_None. unfold IdentifierMap.keys.
  rewrite !list_elem_of_fmap. split; intros Hn (x & Hx & Hin); apply Hn.
  - exists x. split; [subst; reflexivity|exact Hin].
  - exists x. split; [apply id_path_eq; exact Hx|exact Hin].
Qed.

(** The entries kept by [updateAccessMap]. *)
Lemma updateAccessMap_kept (remove : list ResourceIdentifier) (m acc : AccessMap)
    (id : ResourceIdentifier) :
  wf_keys m ->
  IdentifierMap.get id
    (fold_left (fun (result : AccessMap) '(identifier, modes) =>
                  if bool_decide (identifier ∈ remove) then result
                  else IdentifierMap.set identifier modes result) m acc)
  = if bool_decide (id ∈ remove) then IdentifierMap.get id acc
    else match IdentifierMap.get id m with
         | Some modes => Some modes
         | None => IdentifierMap.get id acc
         end.
Proof.
  revert acc. induction m as [|[k v] m IH]; intros acc Hwf; cbn [fold_left].
  - cbn. destruct (bool_decide (id ∈ remove)); reflexivity.
  - unfold wf_keys in Hwf. cbn [map fst] in Hwf.
    apply list.NoDup_cons in Hwf as [Hk Hwf]. rewrite IH by exact Hwf.
    cbn [IdentifierMap.get].
    destruct (bool_decide (id ∈ remove)) eqn:Er.
    + destruct (bool_decide (k ∈ remove)) eqn:Ek; [reflexivity|].
      rewrite IdentifierMapFacts.get_set.
      destruct (decide (path id = path k)) as [E|Hne]; [|reflexivity].
      apply id_path_eq in E. subst k. congruence.
    + destruct (decide (path id = path k)) as [E|Hne].
      * assert (IdentifierMap.get id m = None) as ->.
        { apply IdentifierMapFacts.get_None. rewrite E. exact Hk. }
        apply id_path_eq in E. subst k. rewrite Er.
        rewrite IdentifierMapFacts.get_set.
        destruct (decide (path id = path id)); [reflexivity|contradiction].
      * destruct (IdentifierMap.get id m); [reflexivity|].
        destruct (bool_decide (k ∈ remove)); [reflexivity|].
        rewrite IdentifierMapFacts.get_set.
        destruct (decide (path id = path k)); [contradiction|reflexivity].
Qed.

(** The modes of an identifier after the additions of [updateAccessMap]. *)
Lemma updateAccessMap_added (add : list (ResourceIdentifier * ModeSet)) (acc : AccessMap)
    (id : ResourceIdentifier) :
  match IdentifierMap.get id
          (fold_left (fun (result : AccessMap) '(identifier, modes) =>
                        addAccessModes identifier modes result) add acc) with
  | Some modes =>
      (id ∈ map fst add \/ id ∈ IdentifierMap.keys acc)
      /\ forall m, m ∈ modes <->
                   (exists ms, (id, ms) ∈ add /\ m ∈ ms)
                   \/ (exists stored, IdentifierMap.get id acc = Some stored /\ m ∈ stored)
  | None => (id ∉ map fst add) /\ IdentifierMap.get id acc = None
  end.
Proof.
  revert acc. induction add as [|[k ms] add IH]; intros acc; cbn [fold_left map fst].
  - destruct (IdentifierMap.get id acc) as [stored|] eqn:E.
    + split; [right; exact (get_Some_key _ _ _ E)|]. intros m. split.
      * intros H. right. eauto.
      * intros [(? & H & _)|(s & [= <-] & H)]; [|exact H].
        apply elem_of_nil in H. contradiction.
    + split; [apply not_elem_of_nil|reflexivity].
  - specialize (IH (addAccessModes k ms acc)).
    assert (IdentifierMap.get id (addAccessModes k ms acc)
            = if decide (path id = path k)
              then Some (match IdentifierMap.get k acc with
                         | Some stored => newSet (ms ++ stored)
                         | None => ms
                         end)
              else IdentifierMap.get id acc) as Hget.
    { unfold addAccessModes. destruct (IdentifierMap.get k acc);
        rewrite IdentifierMapFacts.get_set; destruct (decide (path id = path k)); reflexivity. }
    destruct (IdentifierMap.get id (fold_left _ add (addAccessModes k ms acc))) as [modes|].
    + destruct IH as [Hdom Hmodes]. split.
      * destruct Hdom as [H|H]; [left; apply elem_of_cons; auto|].
        apply addAccessModes_keys in H as [->|H]; [left; apply elem_of_cons; auto|auto].
      * intros m. rewrite Hmodes, Hget. clear Hmodes Hget.
        destruct (decide (path id = path k)) as [E|Hne].
        -- apply id_path_eq in E. subst k. split.
           ++ intros [(ms' & Hin & Hm)|(stored & [= <-] & Hm)].
              ** left. exists ms'. split; [apply elem_of_cons; auto|exact Hm].
              ** destruct (IdentifierMap.get id acc) as [stored|].
                 --- apply newSet_elem, elem_of_app in Hm as [Hm|Hm].
                     +++ left. exists ms. split; [apply elem_of_cons; auto|exact Hm].
                     +++ right. eauto.
                 --- left. exists ms. split; [apply elem_of_cons; auto|exact Hm].
           ++ intros [(ms' & Hin & Hm)|(stored & Hs & Hm)].
              ** apply elem_of_cons in Hin as [[= <-]|Hin]; [|left; eauto].
                 right. eexists. split; [reflexivity|].
                 destruct (IdentifierMap.get id acc);
                   [apply newSet_elem, elem_of_app; auto|exact Hm].
              ** right. eexists. split; [reflexivity|]. rewrite Hs.
                 apply newSet_elem, elem_of_app. auto.
        -- split.
           ++ intros [(ms' & Hin & Hm)|H]; [|auto].
              left. exists ms'. split; [apply elem_of_cons; auto|exact Hm].
           ++ intros [(ms' & Hin & Hm)|H]; [|auto].
              apply elem_of_cons in Hin as [[= E _]|Hin]; [subst; contradiction|].
              left. eauto.
    + destruct IH as [Hn Hnone]. rewrite Hget in Hnone.
      destruct (decide (path id = path k)) as [E|Hne]; [discriminate|].
      split; [|exact Hnone]. rewrite elem_of_cons. intros [->|H]; [contradiction|auto].
Qed.

(** ** WebAclAuxiliaryReader *)

Lemma assoc_set_fresh {K V} `{EqDecision K} (k : K) (v : V) (l : list (K * V)) :
  k ∉ map fst l -> assoc_set k v l = l ++ [(k, v)].
Proof.
  induction l as [|[k0 v0] l IH]; cbn [assoc_set map fst app]; intros Hn; [reflexivity|].
  apply not_elem_of_cons in Hn as [Hne Hn].
  destruct (decide (k = k0)); [contradiction|]. rewrite IH by exact Hn. reflexivity.
Qed.

Lemma assoc_get_fmap {K V W} `{EqDecision K} (f : V -> W) (k : K) (l : list (K * V)) :
  assoc_get k (map (fun kv => (fst kv, f (snd kv))) l) = option_map f (assoc_get k l).
Proof.
  induction l as [|[k0 v0] l IH]; cbn [assoc_get map fst snd]; [reflexivity|].
  destruct (decide (k = k0)); [reflexivity|exact IH].
Qed.

Section AclControl.
Import WebAclAuxiliaryReader.
Variable this : t.

Lemma findAcl_complete (accessMap : AccessMap) (acl : ResourceIdentifier) (modes : ModeSet) :
  (acl, modes) ∈ accessMap ->
  isAuxiliaryIdentifier (aclStrategy this) acl = true ->
  (acl, (getSubjectIdentifier (aclStrategy this) acl, [AccessMode.control]))
  ∈ findAcl this accessMap.
Proof.
  intros Hin Ha. unfold findAcl. apply elem_of_flat_map.
  exists (acl, modes). split; [exact Hin|]. rewrite Ha. apply list_elem_of_singleton.
  reflexivity.
Qed.

Lemma findAcl_wf (accessMap : AccessMap) :
  wf_keys accessMap -> wf_keys (findAcl this accessMap).
Proof.
  unfold wf_keys, findAcl. induction accessMap as [|[k v] m IH]; intros Hwf; [constructor|].
  cbn [map fst flat_map] in *. apply list.NoDup_cons in Hwf as [Hk Hwf].
  destruct (isAuxiliaryIdentifier (aclStrategy this) k); cbn [app map fst]; [|auto].
  apply list.NoDup_cons. split; [|auto].
  intros Hin. apply Hk. apply list_elem_of_fmap in Hin as ([a [s ms]] & -> & Hin).
  apply findAcl_elem in Hin as (Hin & _). cbn [fst].
  unfold IdentifierMap.keys in Hin. apply list_elem_of_fmap in Hin as (e & -> & Hin).
  apply list_elem_of_fmap. exists e. auto.
Qed.

(** The loop of [updatePermission]: one fresh object per credential
    group of the subject, holding its [control] four times. *)
Lemma controlGroup_loop (ps acc : PermissionSet) (w : World) :
  wf_object ps ->
  (forall g, g ∈ map fst ps -> g ∉ map fst acc) ->
  valid_set (heap w) ps ->
  exists new ext,
    foldM controlGroup ps acc w = (Ok (acc ++ new), mkWorld (heap w ++ ext) (fetched w))
    /\ set_allocated (heap w ++ ext) (length (heap w))
         (map (fun gl => (fst gl, aclPermission (p_control (deref (heap w) (snd gl))))) ps)
         new.
Proof.
  revert acc w. induction ps as [|[g l] ps IH]; intros acc w Hwf Hfresh Hvalid.
  - exists [], []. cbn. rewrite !app_nil_r. destruct w. split; [reflexivity|constructor].
  - unfold wf_object in Hwf. cbn [map fst] in Hwf.
    apply list.NoDup_cons in Hwf as [Hg Hwf].
    apply list.Forall_cons in Hvalid as [Hl Hvalid]. cbn [snd] in Hl.
    set (c := p_control (deref (heap w) l)).
    destruct (IH (acc ++ [(g, length (heap w))])
                 (mkWorld (heap w ++ [mkCell false (aclPermission c)]) (fetched w)))
      as (new & ext & Hrun & Hal).
    { exact Hwf. }
    { intros g' Hg'. rewrite map_app, elem_of_app. cbn [map fst].
      rewrite list_elem_of_singleton. intros [H | ->]; [|contradiction].
      revert H. apply Hfresh. apply elem_of_cons. auto. }
    { cbn [heap]. eapply list.Forall_impl; [exact Hvalid|].
      intros [g' l'] H. cbn [snd] in *. rewrite length_app. lia. }
    exists ((g, length (heap w)) :: new), (mkCell false (aclPermission c) :: ext). split.
    + cbn [foldM]. unfold bind at 1. cbn [controlGroup].
      unfold bind, read_field, alloc, ret. cbn [heap fetched field] in *.
      rewrite assoc_set_fresh
        by (apply Hfresh; apply elem_of_cons; auto).
      unfold aclPermission in Hrun. fold c. rewrite Hrun.
      rewrite <- !app_assoc. reflexivity.
    + cbn [heap] in Hal. rewrite <- app_assoc in Hal. cbn [app] in Hal.
      cbn [map fst snd]. constructor.
      * cbn [fst snd]. repeat split; [lia|].
        rewrite lookup_app_r by lia.
        replace (length (heap w) - length (heap w)) with 0 by lia. reflexivity.
      * eapply set_allocated_weaken with (base := length (heap w ++ [mkCell false (aclPermission c)]));
          [rewrite length_app; lia|].
        unfold set_allocated in *.
        assert (map (fun gl => (fst gl,
                        aclPermission
                          (p_control (deref (heap w ++ [mkCell false (aclPermission c)])
                                       (snd gl))))) ps
                = map (fun gl => (fst gl, aclPermission (p_control (deref (heap w) (snd gl)))))
                      ps) as <-; [|exact Hal].
        apply map_ext_in. intros [g' l'] Hin. cbn [fst snd].
        rewrite deref_app_l; [reflexivity|].
        rewrite list.Forall_forall in Hvalid.
        apply (Hvalid (g', l')). apply list_elem_of_In. exact Hin.
Qed.

Lemma updatePermission_spec (identifier : ResourceIdentifier)
    (permissionSet : option PermissionSet) (w : World) :
  wf_object (default [] permissionSet) ->
  valid_set (heap w) (default [] permissionSet) ->
  exists aclSet ext,
    updatePermission identifier permissionSet w
    = (Ok aclSet, mkWorld (heap w ++ ext) (fetched w))
    /\ set_allocated (heap w ++ ext) (length (heap w))
         (map (fun gl => (fst gl, aclPermission (p_control (deref (heap w) (snd gl)))))
              (default [] permissionSet))
         aclSet.
Proof.
  intros Hwf Hvalid. unfold updatePermission.
  destruct (controlGroup_loop (default [] permissionSet) [] w Hwf) as (new & ext & Hrun & Hal).
  { intros g _. apply not_elem_of_nil. }
  { exact Hvalid. }
  exists new, ext. split; [exact Hrun|exact Hal].
Qed.
End AclControl.

Lemma valid_set_app (h ext : list Cell) (ps : PermissionSet) :
  valid_set h ps -> valid_set (h ++ ext) ps.
Proof.
  unfold valid_set. intros Hv. eapply list.Forall_impl; [exact Hv|].
  intros [g l] H. cbn [snd] in *. rewrite length_app. lia.
Qed.

Lemma valid_map_get (h : list Cell) (pm : PermissionMap) (id : ResourceIdentifier) :
  valid_map h pm -> valid_set h (default [] (IdentifierMap.get id pm)).
Proof.
  intros Hv. destruct (IdentifierMap.get id pm) as [ps|] eqn:E; [|constructor].
  apply IdentifierMapFacts.get_Some_elem in E as (k' & _ & Hin).
  unfold valid_map in Hv. rewrite list.Forall_forall in Hv. exact (Hv _ Hin).
Qed.

Lemma wf_map_get {K V} (pm : IdentifierMap (list (K * V))) (id : ResourceIdentifier) :
  wf_map pm -> wf_object (default [] (IdentifierMap.get id pm)).
Proof.
  intros [_ Hv]. destruct (IdentifierMap.get id pm) as [ps|] eqn:E; [|constructor].
  apply IdentifierMapFacts.get_Some_elem in E as (k' & _ & Hin).
  rewrite list.Forall_forall in Hv. exact (Hv _ Hin).
Qed.

Lemma derived_ext (h ext : list Cell) (ps : PermissionSet) :
  valid_set h ps ->
  map (fun gl => (fst gl, aclPermission (p_control (deref (h ++ ext) (snd gl))))) ps
  = map (fun gl => (fst gl, aclPermission (p_control (deref h (snd gl))))) ps.
Proof.
  intros Hv. apply map_ext_in. intros [g l] Hin. cbn [fst snd].
  rewrite deref_app_l; [reflexivity|].
  unfold valid_set in Hv. rewrite list.Forall_forall in Hv.
  apply (Hv (g, l)). apply list_elem_of_In. exact Hin.
Qed.

Section AclHandle.
Import WebAclAuxiliaryReader.
Variable this : t.
Variable acls : list (ResourceIdentifier * (ResourceIdentifier * ModeSet)).
Variable R : PermissionMap.
Variable w1 : World.
Hypothesis Hwf : wf_keys acls.
Hypothesis Hsep : forall e e', e ∈ acls -> e' ∈ acls -> path (fst (snd e)) <> path (fst e').
Hypothesis HR : wf_map R.
Hypothesis Hvalid : valid_map (heap w1) R.

Lemma acl_loop (rest done : list (ResourceIdentifier * (ResourceIdentifier * ModeSet)))
    (res : PermissionMap) (w : World) :
  acls = done ++ rest ->
  acl_loop_inv R w1 done res w ->
  exists pm w',
    foldM (fun (result : PermissionMap) '(identifier, (subject, _)) =>
             let* aclSet := updatePermission identifier (IdentifierMap.get subject result) in
             ret (IdentifierMap.set identifier aclSet result))
          rest res w = (Ok pm, w')
    /\ acl_loop_inv R w1 (done ++ rest) pm w'.
Proof using Hwf Hsep HR Hvalid.
  revert done res w. induction rest as [|[acl [subject ms]] rest IH];
    intros done res w El Hinv.
  - exists res, w. rewrite app_nil_r. split; [reflexivity|exact Hinv].
  - destruct Hinv as ((ext & Hext) & Hf & Hother & Hdone).
    assert ((acl, (subject, ms)) ∈ acls) as Hx.
    { rewrite El. apply elem_of_app. right. apply elem_of_cons. auto. }
    assert (IdentifierMap.get subject res = IdentifierMap.get subject R) as Hsub.
    { apply Hother. intros Hin. apply list_elem_of_fmap in Hin as (e' & Hp & Hin).
      apply (Hsep (acl, (subject, ms)) e'); [exact Hx| |exact Hp].
      rewrite El. apply elem_of_app. auto. }
    destruct (updatePermission_spec acl (IdentifierMap.get subject res) w)
      as (aclSet & ext' & Hup & Hal).
    { rewrite Hsub. apply wf_map_get. exact HR. }
    { rewrite Hsub, Hext. apply valid_set_app. apply valid_map_get. exact Hvalid. }
    rewrite Hsub, Hext in Hal. rewrite derived_ext in Hal
      by (apply valid_map_get; exact Hvalid).
    fold (derived (heap w1) R subject) in Hal.
    assert (set_allocated (heap w ++ ext') (length (heap w1)) (derived (heap w1) R subject) aclSet)
      as Hal'.
    { rewrite Hext. eapply set_allocated_weaken; [|exact Hal]. rewrite length_app. lia. }
    assert (NoDup (map (fun e : ResourceIdentifier * (ResourceIdentifier * ModeSet) =>
                          path (fst e)) (done ++ (acl, (subject, ms)) :: rest))) as Hnd.
    { rewrite <- El. exact Hwf. }
    rewrite map_app in Hnd. apply list.NoDup_app in Hnd as (_ & Hdisj & _).
    destruct (IH (done ++ [(acl, (subject, ms))]) (IdentifierMap.set acl aclSet res)
                 (mkWorld (heap w ++ ext') (fetched w)))
      as (pm & w' & Hrun & Hfin).
    { rewrite <- app_assoc. exact El. }
    { split; [|split; [|split]].
      - exists (ext ++ ext'). cbn [heap]. rewrite Hext, app_assoc. reflexivity.
      - exact Hf.
      - intros id Hid. rewrite map_app, elem_of_app in Hid. cbn [map fst] in Hid.
        rewrite IdentifierMapFacts.get_set.
        destruct (decide (path id = path acl)) as [E|Hne].
        + exfalso. apply Hid. right. apply list_elem_of_singleton. exact E.
        + apply Hother. tauto.
      - intros e He. apply elem_of_app in He as [He|He].
        + destruct (Hdone e He) as (s & Hg & Hs). exists s. split.
          * rewrite IdentifierMapFacts.get_set.
            destruct (decide (path (fst e) = path acl)) as [E|Hne]; [|exact Hg].
            exfalso. apply (Hdisj (path (fst e))).
            -- apply list_elem_of_fmap. exists e. auto.
            -- cbn [map fst]. rewrite E. apply elem_of_cons. auto.
          * cbn [heap]. apply set_allocated_mono. exact Hs.
        + apply list_elem_of_singleton in He. subst e. cbn [fst snd].
          exists aclSet. split; [|exact Hal'].
          rewrite IdentifierMapFacts.get_set.
          destruct (decide (path acl = path acl)); congruence. }
    exists pm, w'. split.
    + cbn [foldM]. unfold bind at 1. unfold bind at 1. rewrite Hup. cbn [ret].
      unfold ret at 1. exact Hrun.
    + rewrite <- app_assoc in Hfin. exact Hfin.
Qed.
End AclHandle.

Lemma findAcl_nil_length (this : WebAclAuxiliaryReader.t) (accessMap : AccessMap) e :
  e ∈ WebAclAuxiliaryReader.findAcl this accessMap ->
  (length (WebAclAuxiliaryReader.findAcl this accessMap) =? 0)%nat = false.
Proof.
  destruct (WebAclAuxiliaryReader.findAcl this accessMap); [|reflexivity].
  intros H. apply elem_of_nil in H. contradiction.
Qed.

Lemma set_allocated_groups h base s ps :
  set_allocated h base s ps -> map fst ps = map fst s.
Proof.
  induction 1 as [|[g p] [g' l] s ps (E & _) _ IH]; [reflexivity|].
  cbn [map fst] in *. congruence.
Qed.

Lemma derived_get (h : list Cell) (R : PermissionMap) (subject : ResourceIdentifier)
    (g : CredentialGroup.t) :
  assoc_get g (derived h R subject)
  = option_map (fun l => aclPermission (p_control (deref h l)))
      (assoc_get g (default [] (IdentifierMap.get subject R))).
Proof.
  unfold derived.
  exact (assoc_get_fmap (fun l => aclPermission (p_control (deref h l))) g _).
Qed.

(** C4, the counterexample. The source knows [foo] only, and the input
    names [foo.acl] and [foo.acl.acl]. The subject of [foo.acl.acl] is
    [foo.acl], which the result of the source does not hold; [foo.acl] is
    still part of the outgoing access map, and [foo.acl.acl] is assigned a
    set that is not empty: the one the loop has just stored for [foo.acl]. *)
Lemma webAclAuxiliaryReader_acl_of_acl :
  let input := mkInput Sample.publicOnly
                 [(Sample.id "foo.acl", [AccessMode.read]);
                  (Sample.id "foo.acl.acl", [AccessMode.read])] in
  let acls := WebAclAuxiliaryReader.findAcl Sample.aclOverFoo (accessMap input) in
  let updatedMap := updateAccessMap (map snd acls) (map fst acls) (accessMap input) in
  let R := [(Sample.id "foo", [(CredentialGroup.public, 0)])] in
  isAuxiliaryIdentifier Sample.aclStrategy (Sample.id "foo.acl.acl") = true
  /\ getSubjectIdentifier Sample.aclStrategy (Sample.id "foo.acl.acl") = Sample.id "foo.acl"
  /\ IdentifierMap.get (Sample.id "foo.acl") updatedMap = Some [AccessMode.control]
  /\ WebAclAuxiliaryReader.reader Sample.aclOverFoo
       (mkInput (credentials input) updatedMap) Sample.controlWorld
     = (Ok R, Sample.controlWorld)
  /\ IdentifierMap.get (Sample.id "foo.acl") R = None
  /\ exists pm w',
       WebAclAuxiliaryReader.handle Sample.aclOverFoo input Sample.controlWorld = (Ok pm, w')
       /\ IdentifierMap.get (Sample.id "foo.acl.acl") pm = Some [(CredentialGroup.public, 2)]
       /\ view (heap w') pm (Sample.id "foo.acl.acl") CredentialGroup.public AccessMode.read
          = Some true.
Proof.
  cbv zeta. repeat split; try (vm_compute; reflexivity).
  eexists _, _. repeat split; vm_compute; reflexivity.
Qed.

(** C4, amended. Provided no subject of an ACL identifier of the input is
    itself an ACL identifier of the input, every such identifier is absent
    from the outgoing access map, its subject is there with [control]
    merged with the modes the input required on the subject, and after the
    source answered [R] the reader returns a map in which the ACL
    identifier has one fresh object per credential group of the subject's
    set in [R], with [read], [append], [write] and [control] equal to the
    subject's [control] in that group and neither [create] nor [delete];
    the set is empty when [R] does not hold the subject. *)
Theorem webAclAuxiliaryReader_control (this : WebAclAuxiliaryReader.t)
    (input : PermissionReaderInput) (w : World) (R : PermissionMap) (w1 : World)
    (acl : ResourceIdentifier) :
  let aux := WebAclAuxiliaryReader.aclStrategy this in
  let acls := WebAclAuxiliaryReader.findAcl this (accessMap input) in
  let updatedMap := updateAccessMap (map snd acls) (map fst acls) (accessMap input) in
  let subject := getSubjectIdentifier aux acl in
  wf_keys (accessMap input) ->
  (forall a b, a ∈ IdentifierMap.keys (accessMap input) ->
               b ∈ IdentifierMap.keys (accessMap input) ->
               isAuxiliaryIdentifier aux a = true ->
               isAuxiliaryIdentifier aux b = true ->
               path (getSubjectIdentifier aux a) <> path b) ->
  WebAclAuxiliaryReader.reader this (mkInput (credentials input) updatedMap) w = (Ok R, w1) ->
  wf_map R ->
  valid_map (heap w1) R ->
  acl ∈ IdentifierMap.keys (accessMap input) ->
  isAuxiliaryIdentifier aux acl = true ->
  IdentifierMap.get acl updatedMap = None
  /\ (exists modes,
        IdentifierMap.get subject updatedMap = Some modes
        /\ forall m, m ∈ modes <->
                     m = AccessMode.control
                     \/ exists stored,
                          IdentifierMap.get subject (accessMap input) = Some stored
                          /\ m ∈ stored)
  /\ exists pm w' aclSet,
       WebAclAuxiliaryReader.handle this input w = (Ok pm, w')
       /\ IdentifierMap.get acl pm = Some aclSet
       /\ map fst aclSet = map fst (default [] (IdentifierMap.get subject R))
       /\ (IdentifierMap.get subject R = None -> aclSet = [])
       /\ forall g,
            g ∈ map fst aclSet ->
            let c := view (heap w1) R subject g AccessMode.control in
            view (heap w') pm acl g AccessMode.read = c
            /\ view (heap w') pm acl g AccessMode.append = c
            /\ view (heap w') pm acl g AccessMode.write = c
            /\ view (heap w') pm acl g AccessMode.control = c
            /\ view (heap w') pm acl g AccessMode.create = None
            /\ view (heap w') pm acl g AccessMode.delete = None.
Proof.
  intros aux acls updatedMap subject Hwf Hsep Hread HR Hvalid Hk Ha.
  assert (wf_keys acls) as Hwfa by (apply findAcl_wf; exact Hwf).
  assert (forall e e', e ∈ acls -> e' ∈ acls -> path (fst (snd e)) <> path (fst e')) as Hsep'.
  { intros [a [s ms]] [b [s' ms']] Ha' Hb. cbn [fst snd].
    apply findAcl_elem in Ha' as (Ha' & Hauxa & -> & _).
    apply findAcl_elem in Hb as (Hb & Hauxb & _ & _).
    apply Hsep; assumption. }
  assert ((acl, (subject, [AccessMode.control])) ∈ acls) as Hin.
  { unfold IdentifierMap.keys in Hk.
    apply list_elem_of_fmap in Hk as ([k modes] & -> & Hk).
    exact (findAcl_complete this _ _ _ Hk Ha). }
  assert (acl ∈ map fst acls) as Hrem.
  { apply list_elem_of_fmap. exists (acl, (subject, [AccessMode.control])). auto. }
  assert (subject ∉ map fst acls) as Hnrem.
  { intros Hs. apply list_elem_of_fmap in Hs as (e' & Hs & He').
    apply (Hsep' _ _ Hin He'). cbn [fst snd]. rewrite Hs. reflexivity. }
  assert (acl ∉ map fst (map snd acls)) as Hnadd.
  { intros Hs. rewrite map_map in Hs. apply list_elem_of_fmap in Hs as (e' & Hs & He').
    apply (Hsep' _ _ He' Hin). cbn [fst snd]. rewrite <- Hs. reflexivity. }
  split; [|split].
  - subst updatedMap. unfold updateAccessMap.
    pose proof (updateAccessMap_added (map snd acls)
                  (fold_left (fun (result : AccessMap) '(identifier, modes) =>
                     if bool_decide (identifier ∈ map fst acls) then result
                     else IdentifierMap.set identifier modes result) (accessMap input) [])
                  acl) as Hadd.
    destruct (IdentifierMap.get acl _) as [modes|] eqn:E in Hadd |- *; [|reflexivity].
    exfalso. destruct Hadd as ([Hadd|Hadd] & _); [exact (Hnadd Hadd)|].
    apply get_None_key in Hadd; [contradiction|].
    rewrite updateAccessMap_kept by exact Hwf.
    rewrite bool_decide_eq_true_2 by exact Hrem. reflexivity.
  - subst updatedMap. unfold updateAccessMap.
    pose proof (updateAccessMap_added (map snd acls)
                  (fold_left (fun (result : AccessMap) '(identifier, modes) =>
                     if bool_decide (identifier ∈ map fst acls) then result
                     else IdentifierMap.set identifier modes result) (accessMap input) [])
                  subject) as Hadd.
    rewrite updateAccessMap_kept in Hadd by exact Hwf.
    rewrite bool_decide_eq_false_2 in Hadd by exact Hnrem.
    assert (match IdentifierMap.get subject (accessMap input) with
            | Some modes => Some modes
            | None => IdentifierMap.get subject ([] : AccessMap)
            end = IdentifierMap.get subject (accessMap input)) as Eg
      by (destruct (IdentifierMap.get subject (accessMap input)); reflexivity).
    rewrite Eg in Hadd. clear Eg.
    destruct (IdentifierMap.get subject _) as [modes|] eqn:E in Hadd |- *.
    + exists modes. split; [reflexivity|]. destruct Hadd as (_ & Hm).
      intros m. rewrite Hm. split.
      * intros [(ms & Hms & Hmm)|H]; [left|right; exact H].
        apply list_elem_of_fmap in Hms as ([a [s ms']] & [= -> ->] & Hms).
        apply findAcl_elem in Hms as (_ & _ & _ & ->).
        apply list_elem_of_singleton in Hmm. exact Hmm.
      * intros [->|H]; [left|right; exact H].
        exists [AccessMode.control]. split; [|apply list_elem_of_singleton; reflexivity].
        apply list_elem_of_fmap. exists (acl, (subject, [AccessMode.control])). auto.
    + exfalso. destruct Hadd as (Hadd & _). apply Hadd.
      rewrite map_map. apply list_elem_of_fmap.
      exists (acl, (subject, [AccessMode.control])). auto.
  - destruct (acl_loop acls R w1 Hwfa Hsep' HR Hvalid acls [] R w1 eq_refl)
      as (pm & w' & Hloop & (_ & _ & _ & Hdone)).
    { split; [exists []; rewrite app_nil_r; reflexivity|]. split; [reflexivity|].
      split; [reflexivity|]. intros e He. apply elem_of_nil in He. contradiction. }
    cbn [app] in Hdone. destruct (Hdone _ Hin) as (aclSet & Hget & Hal). cbn [fst snd] in *.
    exists pm, w', aclSet. split; [|split; [exact Hget|]].
    { pose proof (findAcl_nil_length this _ _ Hin) as Hlen.
      unfold updatedMap, acls in Hread.
      unfold WebAclAuxiliaryReader.handle. cbv zeta. rewrite Hlen. unfold bind.
      rewrite Hread. exact Hloop. }
    pose proof (set_allocated_groups _ _ _ _ Hal) as Hgroups.
    assert (map fst (derived (heap w1) R subject)
            = map fst (default [] (IdentifierMap.get subject R))) as Hd.
    { unfold derived. rewrite map_map. reflexivity. }
    split; [congruence|]. split.
    { intros HN. rewrite Hd, HN in Hgroups. cbn in Hgroups.
      destruct aclSet; [reflexivity|discriminate]. }
    intros g Hg. cbv zeta.
    pose proof (set_allocated_get _ _ _ _ g Hal) as Hgg.
    rewrite derived_get in Hgg.
    unfold view. rewrite Hget.
    destruct (assoc_get g aclSet) as [l|] eqn:E1.
    + destruct (IdentifierMap.get subject R) as [ps|]; cbn [default from_option id] in Hgg.
      * unfold id in Hgg.
        destruct (assoc_get g ps) as [l0|]; cbn [option_map] in Hgg; [|discriminate].
        injection Hgg as Hgg. rewrite Hgg. cbn. repeat split; reflexivity.
      * cbn in Hgg. discriminate.
    + apply assoc_get_None in E1. contradiction.
Qed.

Lemma webAclAuxiliaryReader_control_witness :
  let input := mkInput Sample.publicOnly [(Sample.id "foo.acl", [AccessMode.read])] in
  let R : PermissionMap := [(Sample.id "foo", [(CredentialGroup.public, 0)])] in
  wf_keys (accessMap input)
  /\ wf_map R
  /\ valid_map (heap Sample.controlWorld) R
  /\ exists pm w' aclSet,
       WebAclAuxiliaryReader.handle Sample.aclOverFoo input Sample.controlWorld = (Ok pm, w')
       /\ IdentifierMap.get (Sample.id "foo.acl") pm = Some aclSet
       /\ map fst aclSet = [CredentialGroup.public]
       /\ view (heap w') pm (Sample.id "foo.acl") CredentialGroup.public AccessMode.read
          = Some true.
Proof.
  cbv zeta.
  assert (wf_keys [(Sample.id "foo.acl", [AccessMode.read])]) as Hwf by solve_wf.
  assert (wf_map [(Sample.id "foo", [(CredentialGroup.public, 0)])]) as HR.
  { split; [solve_wf|]. repeat constructor; solve_wf. }
  assert (valid_map (heap Sample.controlWorld)
            [(Sample.id "foo", [(CredentialGroup.public, 0)])]) as Hvalid.
  { repeat constructor. }
  split; [exact Hwf|]. split; [exact HR|]. split; [exact Hvalid|].
  destruct (webAclAuxiliaryReader_control Sample.aclOverFoo
              (mkInput Sample.publicOnly [(Sample.id "foo.acl", [AccessMode.read])])
              Sample.controlWorld [(Sample.id "foo", [(CredentialGroup.public, 0)])]
              Sample.controlWorld (Sample.id "foo.acl"))
    as (_ & _ & pm & w' & aclSet & Hh & Hg & Hm & _ & Hv).
  - exact Hwf.
  - intros a b Ha Hb _ _. cbn in Ha, Hb.
    apply list_elem_of_singleton in Ha, Hb. subst a b. vm_compute. discriminate.
  - reflexivity.
  - exact HR.
  - exact Hvalid.
  - cbn. apply list_elem_of_singleton. reflexivity.
  - vm_compute. reflexivity.
  - exists pm, w', aclSet. split; [exact Hh|]. split; [exact Hg|]. split; [exact Hm|].
    assert (CredentialGroup.public ∈ map fst aclSet) as Hin.
    { rewrite Hm. apply list_elem_of_singleton. reflexivity. }
    destruct (Hv _ Hin) as (Hread & _). rewrite Hread. vm_compute. reflexivity.
Defined.

(** ** ParentContainerReader *)

Lemma assoc_set_same {K V} `{EqDecision K} (k : K) (v : V) (l : list (K * V)) :
  assoc_get k l = Some v -> assoc_set k v l = l.
Proof.
  induction l as [|[k0 v0] l IH]; cbn [assoc_get assoc_set]; [discriminate|].
  destruct (decide (k = k0)) as [->|Hne].
  - intros [= ->]. reflexivity.
  - intros H. rewrite IH by exact H. reflexivity.
Qed.

Lemma assoc_get_inj {K V} `{EqDecision K} (k k' : K) (v : V) (l : list (K * V)) :
  NoDup (map snd l) -> assoc_get k l = Some v -> assoc_get k' l = Some v -> k = k'.
Proof.
  induction l as [|[k0 v0] l IH]; cbn [assoc_get map snd]; [discriminate|].
  intros Hnd. apply list.NoDup_cons in Hnd as [Hn Hnd].
  destruct (decide (k = k0)) as [->|Hne], (decide (k' = k0)) as [->|Hne'].
  - reflexivity.
  - intros [= ->] H. exfalso. apply Hn. apply assoc_get_Some_elem in H.
    apply list_elem_of_fmap. exists (k', v). auto.
  - intros H [= ->]. exfalso. apply Hn. apply assoc_get_Some_elem in H.
    apply list_elem_of_fmap. exists (k, v). auto.
  - apply IH. exact Hnd.
Qed.

Lemma derive_field (a wr : Tri) (p : Permission) (m : AccessMode.t) :
  m <> AccessMode.create -> m <> AccessMode.delete -> field m (derive a wr p) = field m p.
Proof. destruct m; intros H1 H2; try reflexivity; contradiction. Qed.

Lemma derive_create (a wr : Tri) (p : Permission) :
  p_create (derive a wr p) = js_and a (not_false (p_create p)).
Proof. reflexivity. Qed.

Lemma derive_delete (a wr : Tri) (p : Permission) :
  p_delete (derive a wr p) = js_and (js_and (p_write p) wr) (not_false (p_delete p)).
Proof. reflexivity. Qed.

Section ParentStep.
Import ParentContainerReader.

(** The two assignments, once the object [l] of the group is at hand. *)
Lemma assignments_spec (ps' : PermissionSet) (lc l : loc) (w : World) (c : Cell) :
  heap w !! l = Some c ->
  frozen c = false ->
  (let* c_append := read_field lc AccessMode.append in
   let* p_create := read_field l AccessMode.create in
   let* _ := assign l AccessMode.create (js_and c_append (not_false p_create)) in
   let* p_write := read_field l AccessMode.write in
   let* c_write := read_field lc AccessMode.write in
   let* p_delete := read_field l AccessMode.delete in
   let* _ := assign l AccessMode.delete
               (js_and (js_and p_write c_write) (not_false p_delete)) in
   ret ps') w
  = (Ok ps',
     mkWorld (<[l := mkCell false
                       (derive (p_append (deref (heap w) lc)) (p_write (deref (heap w) lc))
                               (content c))]> (heap w))
             (fetched w)).
Proof.
  intros Hl Hf.
  assert (l < length (heap w)) as Hlt by (eapply lookup_lt_Some; exact Hl).
  assert (deref (heap w) l = content c) as El by (unfold deref; rewrite Hl; reflexivity).
  assert (forall c', deref (<[l:=c']> (heap w)) l = content c') as Ei.
  { intros c'. unfold deref. rewrite list_lookup_insert_eq by exact Hlt. reflexivity. }
  assert (forall c', p_write (content c') = p_write (content c) ->
                     p_write (deref (<[l:=c']> (heap w)) lc) = p_write (deref (heap w) lc))
    as Ew.
  { intros c' Hc'. destruct (decide (lc = l)) as [->|Hne].
    - rewrite Ei, El. exact Hc'.
    - unfold deref. rewrite list_lookup_insert_ne by congruence. reflexivity. }
  unfold bind, read_field, assign, ret. cbn [heap fetched field].
  rewrite Hl, Hf. cbn [heap fetched].
  rewrite list_lookup_insert_eq by exact Hlt. cbn [frozen content].
  rewrite list_insert_insert_eq. rewrite Ew by reflexivity. rewrite !Ei, El.
  reflexivity.
Qed.

(** One round of the loop of [updatePermission]. *)
Lemma updateGroup_spec (ps : PermissionSet) (g : CredentialGroup.t) (lc : loc) (w : World) :
  (forall l, assoc_get g ps = Some l -> live (heap w) l) ->
  lc < length (heap w) ->
  exists lp h',
    updateGroup ps (g, lc) w = (Ok (assoc_set g lp ps), mkWorld h' (fetched w))
    /\ lp = default (length (heap w)) (assoc_get g ps)
    /\ length (heap w) <= length h'
    /\ lp < length h'
    /\ (forall l, l <> lp -> l < length (heap w) -> h' !! l = heap w !! l)
    /\ h' !! lp
       = Some (mkCell false
                 (derive (p_append (deref (heap w) lc)) (p_write (deref (heap w) lc))
                         (object_of (heap w) ps g))).
Proof.
  intros Hlive Hlc. unfold object_of.
  destruct (assoc_get g ps) as [l|] eqn:E.
  - destruct (Hlive l eq_refl) as (c & Hl & Hf).
    assert (l < length (heap w)) as Hlt by (eapply lookup_lt_Some; exact Hl).
    eexists l, _. split; [|split; [reflexivity|]].
    + unfold updateGroup. unfold bind at 1. rewrite E. unfold ret at 1. cbv beta iota.
      apply (assignments_spec _ lc l w c Hl Hf).
    + rewrite length_insert. split; [lia|]. split; [exact Hlt|]. split.
      * intros l' Hne _. apply list_lookup_insert_ne. congruence.
      * rewrite list_lookup_insert_eq by exact Hlt.
        assert (deref (heap w) l = content c) as ->
          by (unfold deref; rewrite Hl; reflexivity).
        reflexivity.
  - set (w0 := mkWorld (heap w ++ [mkCell false emptyPermission]) (fetched w)).
    assert (heap w0 !! length (heap w) = Some (mkCell false emptyPermission)) as Hl.
    { cbn [w0 heap]. rewrite lookup_app_r by lia.
      replace (length (heap w) - length (heap w)) with 0 by lia. reflexivity. }
    eexists (length (heap w)), _. split; [|split; [reflexivity|]].
    + unfold updateGroup. unfold bind at 1. rewrite E. unfold alloc at 1. cbv beta iota.
      fold w0.
      rewrite (assignments_spec _ lc (length (heap w)) w0 _ Hl eq_refl). reflexivity.
    + cbn [w0 heap content]. rewrite length_insert, length_app. cbn [length].
      split; [lia|]. split; [lia|]. split.
      * intros l' Hne Hlt. rewrite list_lookup_insert_ne by congruence.
        apply lookup_app_l. exact Hlt.
      * rewrite list_lookup_insert_eq by (rewrite length_app; cbn [length]; lia).
        rewrite deref_app_l by exact Hlc. reflexivity.
Qed.
End ParentStep.

Section ParentLoop.
Import ParentContainerReader.

Lemma updatePermission_loop (cs : PermissionSet) :
  forall (ps : PermissionSet) (w : World),
    wf_object cs ->
    wf_object ps ->
    (forall g l, assoc_get g ps = Some l -> live (heap w) l) ->
    (forall g g' l, assoc_get g ps = Some l -> assoc_get g' ps = Some l -> g = g') ->
    (forall g lc, (g, lc) ∈ cs -> lc < length (heap w)) ->
    exists ps' h',
      foldM updateGroup cs ps w = (Ok ps', mkWorld h' (fetched w))
      /\ updated_set (heap w) cs ps h' ps'.
Proof.
  induction cs as [|[g0 lc0] rest IH]; intros ps w Hwfc Hwfp Hlive Hinj Hvalid.
  - exists ps, (heap w). split; [destruct w; reflexivity|].
    constructor; auto.
    + intros l c Hl. exists c. auto.
    + intros g lc Hin. apply elem_of_nil in Hin. contradiction.
  - unfold wf_object in Hwfc. cbn [map fst] in Hwfc.
    apply list.NoDup_cons in Hwfc as [Hg0 Hwfr].
    assert (lc0 < length (heap w)) as Hlc0
      by (apply (Hvalid g0); apply elem_of_cons; auto).
    destruct (updateGroup_spec ps g0 lc0 w (Hlive g0) Hlc0)
      as (lp & h1 & Hstep & Elp & Hlen1 & Hlp & Hframe1 & Hval1).
    set (ps1 := assoc_set g0 lp ps) in *.
    assert (forall g, assoc_get g ps1 = if decide (g = g0) then Some lp else assoc_get g ps)
      as Hget1 by (intros g; apply assoc_get_set).
    (* the object of the group is no other group's *)
    assert (forall g l, g <> g0 -> assoc_get g ps = Some l ->
                        l <> lp /\ l < length (heap w)) as Hother.
    { intros g l Hne Hg. destruct (Hlive g l Hg) as (c & Hc & _).
      apply lookup_lt_Some in Hc. split; [|exact Hc].
      intros ->. destruct (assoc_get g0 ps) as [l0|] eqn:E0; cbn in Elp.
      - subst l0. apply Hne. exact (Hinj _ _ _ Hg E0).
      - lia. }
    (* what one round leaves of every object *)
    assert (forall l c, heap w !! l = Some c ->
              exists c', h1 !! l = Some c' /\ frozen c' = frozen c
                         /\ forall m, m <> AccessMode.create -> m <> AccessMode.delete ->
                                      field m (content c') = field m (content c))
      as Hfields1.
    { intros l c Hl. destruct (decide (l = lp)) as [->|Hne].
      - eexists. split; [exact Hval1|].
        assert (lp < length (heap w)) as Hlt by (eapply lookup_lt_Some; exact Hl).
        destruct (assoc_get g0 ps) as [l0|] eqn:E0; cbn in Elp; [subst l0|lia].
        destruct (Hlive g0 lp E0) as (c0 & Hc0 & Hf0).
        assert (c0 = c) as -> by congruence.
        cbn [frozen content]. split; [congruence|].
        intros m H1 H2. rewrite derive_field by assumption.
        unfold object_of. rewrite E0. unfold deref. rewrite Hl. reflexivity.
      - exists c. rewrite Hframe1; [auto|exact Hne|eapply lookup_lt_Some; exact Hl]. }
    destruct (IH ps1 (mkWorld h1 (fetched w))) as (ps' & h' & Hrun & HU).
    + exact Hwfr.
    + apply assoc_set_wf. exact Hwfp.
    + intros g l Hg. rewrite Hget1 in Hg. cbn [heap].
      destruct (decide (g = g0)) as [->|Hne].
      * injection Hg as <-. eexists. split; [exact Hval1|reflexivity].
      * destruct (Hother g l Hne Hg) as (Hl1 & Hl2).
        destruct (Hlive g l Hg) as (c & Hc & Hf). exists c.
        rewrite Hframe1 by assumption. auto.
    + intros g g' l Hg Hg'. rewrite Hget1 in Hg, Hg'.
      destruct (decide (g = g0)) as [->|Hne], (decide (g' = g0)) as [->|Hne'].
      * reflexivity.
      * injection Hg as <-. destruct (Hother g' lp Hne' Hg') as (H & _). contradiction.
      * injection Hg' as <-. destruct (Hother g lp Hne Hg) as (H & _). contradiction.
      * exact (Hinj _ _ _ Hg Hg').
    + intros g lc Hin. cbn [heap].
      assert (lc < length (heap w)) by (apply (Hvalid g); apply elem_of_cons; auto). lia.
    + cbn [heap fetched] in *. exists ps', h'. split.
      { cbn [foldM]. unfold bind at 1. rewrite Hstep. exact Hrun. }
      destruct HU as [U1 U2 Uinj U3 U4 U5 U6 U7].
      assert (assoc_get g0 ps1 = Some lp) as Hg0lp.
      { rewrite Hget1. destruct (decide (g0 = g0)); congruence. }
      constructor.
      * lia.
      * exact U2.
      * exact Uinj.
      * intros g l Hg. apply U3. rewrite Hget1.
        destruct (decide (g = g0)) as [->|Hne]; [|exact Hg].
        rewrite Hg in Elp. cbn in Elp. congruence.
      * intros g l Hg. destruct (U4 g l Hg) as [Hg1|(Hg1 & Hin & Hl)].
        -- rewrite Hget1 in Hg1. destruct (decide (g = g0)) as [->|Hne]; [|auto].
           injection Hg1 as <-.
           destruct (assoc_get g0 ps) as [l0|] eqn:E0; cbn in Elp; [left; congruence|].
           right. split; [reflexivity|]. split; [apply elem_of_cons; auto|]. lia.
        -- rewrite Hget1 in Hg1. destruct (decide (g = g0)) as [->|Hne]; [discriminate|].
           right. split; [exact Hg1|]. split; [apply elem_of_cons; auto|]. lia.
      * intros l Hl Hnot.
        assert (l <> lp) as Hne.
        { intros ->. destruct (assoc_get g0 ps) as [l0|] eqn:E0; cbn in Elp; [|lia].
          subst l0. apply (Hnot g0); [apply elem_of_cons; auto|exact E0]. }
        rewrite U5.
        -- apply Hframe1; assumption.
        -- lia.
        -- intros g Hg Hgl. rewrite Hget1 in Hgl.
           destruct (decide (g = g0)) as [->|Hne']; [contradiction|].
           apply (Hnot g); [apply elem_of_cons; auto|exact Hgl].
      * intros l c Hl. destruct (Hfields1 l c Hl) as (c1 & Hc1 & Hf1 & Hm1).
        destruct (U6 l c1 Hc1) as (c' & Hc' & Hf' & Hm').
        exists c'. split; [exact Hc'|]. split; [congruence|].
        intros m H1 H2. rewrite Hm' by assumption. apply Hm1; assumption.
      * intros g lc Hin. apply elem_of_cons in Hin as [[= -> ->]|Hin].
        -- exists lp. split; [apply U3; exact Hg0lp|].
           rewrite U5; [exact Hval1|exact Hlp|].
           intros g Hg Hgl. rewrite Hget1 in Hgl.
           destruct (decide (g = g0)) as [->|Hne]; [contradiction|].
           destruct (Hother g lp Hne Hgl) as (H & _). contradiction.
        -- assert (g <> g0) as Hne.
           { intros ->. apply Hg0. apply list_elem_of_fmap. exists (g0, lc). auto. }
           destruct (U7 g lc Hin) as (l & Hl & Hv). exists l. split; [exact Hl|].
           rewrite Hv.
           assert (lc < length (heap w)) as Hlt
             by (apply (Hvalid g); apply elem_of_cons; auto).
           assert (p_append (deref h1 lc) = p_append (deref (heap w) lc)
                   /\ p_write (deref h1 lc) = p_write (deref (heap w) lc)) as [-> ->].
           { apply lookup_lt_is_Some_2 in Hlt as [c Hc].
             destruct (Hfields1 lc c Hc) as (c1 & Hc1 & _ & Hm1).
             unfold deref. rewrite Hc, Hc1.
             split; [apply (Hm1 AccessMode.append)|apply (Hm1 AccessMode.write)];
               discriminate. }
           assert (object_of h1 ps1 g = object_of (heap w) ps g) as ->.
           { unfold object_of. rewrite Hget1.
             destruct (decide (g = g0)); [contradiction|].
             destruct (assoc_get g ps) as [l0|] eqn:E; [|reflexivity].
             destruct (Hother g l0 Hne E) as (H1 & H2).
             unfold deref. rewrite Hframe1 by assumption. reflexivity. }
           reflexivity.
Qed.
End ParentLoop.

(** ** Maps that share no object *)

Lemma locs_of_elem (R : PermissionMap) (id : ResourceIdentifier) (s : PermissionSet)
    (g : CredentialGroup.t) (l : loc) :
  IdentifierMap.get id R = Some s -> assoc_get g s = Some l -> l ∈ locs_of R.
Proof.
  intros Hs Hl. apply IdentifierMapFacts.get_Some_elem in Hs as (k & _ & Hin).
  apply assoc_get_Some_elem in Hl.
  unfold locs_of. apply elem_of_flat_map. exists (k, s). split; [exact Hin|].
  cbn [snd]. apply list_elem_of_fmap. exists (g, l). auto.
Qed.

Lemma locs_inj (R : PermissionMap) (id : ResourceIdentifier) (s : PermissionSet) :
  NoDup (locs_of R) -> IdentifierMap.get id R = Some s -> NoDup (map snd s).
Proof.
  induction R as [|[k0 s0] R IH]; cbn [IdentifierMap.get locs_of flat_map snd];
    [discriminate|].
  intros Hnd. apply list.NoDup_app in Hnd as (H0 & _ & HR).
  destruct (decide (path id = path k0)); [intros [= <-]; exact H0|].
  apply IH. exact HR.
Qed.

Lemma locs_disjoint (R : PermissionMap) (a b : ResourceIdentifier) (s s' : PermissionSet)
    (g g' : CredentialGroup.t) (l : loc) :
  NoDup (locs_of R) ->
  path a <> path b ->
  IdentifierMap.get a R = Some s -> IdentifierMap.get b R = Some s' ->
  assoc_get g s = Some l -> assoc_get g' s' = Some l -> False.
Proof.
  induction R as [|[k0 s0] R IH]; cbn [IdentifierMap.get locs_of flat_map snd];
    [discriminate|].
  intros Hnd Hab Ha Hb Hl Hl'. apply list.NoDup_app in Hnd as (H0 & Hdisj & HR).
  fold (locs_of R) in *.
  destruct (decide (path a = path k0)) as [Ea|Na], (decide (path b = path k0)) as [Eb|Nb].
  - congruence.
  - injection Ha as <-. apply (Hdisj l).
    + apply assoc_get_Some_elem in Hl. apply list_elem_of_fmap. exists (g, l). auto.
    + exact (locs_of_elem R b s' g' l Hb Hl').
  - injection Hb as <-. apply (Hdisj l).
    + apply assoc_get_Some_elem in Hl'. apply list_elem_of_fmap. exists (g', l). auto.
    + exact (locs_of_elem R a s g l Ha Hl).
  - exact (IH HR Hab Ha Hb Hl Hl').
Qed.

Lemma get_default_Some {V} (R : IdentifierMap (list (CredentialGroup.t * V)))
    (id : ResourceIdentifier) (g : CredentialGroup.t) (v : V) :
  assoc_get g (default [] (IdentifierMap.get id R)) = Some v ->
  exists s, IdentifierMap.get id R = Some s /\ assoc_get g s = Some v.
Proof.
  destruct (IdentifierMap.get id R) as [s|]; cbn; [eauto|discriminate].
Qed.

Lemma get_path {V} (a b : ResourceIdentifier) (m : IdentifierMap V) :
  path a = path b -> IdentifierMap.get a m = IdentifierMap.get b m.
Proof.
  intros E. induction m as [|[k v] m IH]; cbn [IdentifierMap.get]; [reflexivity|].
  rewrite E, IH. reflexivity.
Qed.

Section ParentHandle.
Import ParentContainerReader.
Variable parents : list (ResourceIdentifier * (ResourceIdentifier * ModeSet)).
Variable R : PermissionMap.
Variable w1 : World.
Hypothesis Hwfp : wf_keys parents.
Hypothesis HR : wf_map R.
Hypothesis Hsep : separated (heap w1) R.

Lemma source_live (id : ResourceIdentifier) (g : CredentialGroup.t) (l : loc) :
  assoc_get g (default [] (IdentifierMap.get id R)) = Some l -> live (heap w1) l.
Proof using Hsep.
  intros H. apply get_default_Some in H as (s & Hs & Hl).
  destruct Hsep as (_ & Hlive). rewrite list.Forall_forall in Hlive.
  apply Hlive. exact (locs_of_elem R id s g l Hs Hl).
Qed.

Lemma source_lt (id : ResourceIdentifier) (g : CredentialGroup.t) (l : loc) :
  assoc_get g (default [] (IdentifierMap.get id R)) = Some l -> l < length (heap w1).
Proof using Hsep.
  intros H. destruct (source_live id g l H) as (c & Hc & _).
  eapply lookup_lt_Some. exact Hc.
Qed.

Lemma source_disjoint (a b : ResourceIdentifier) (g g' : CredentialGroup.t) (l : loc) :
  path a <> path b ->
  assoc_get g (default [] (IdentifierMap.get a R)) = Some l ->
  assoc_get g' (default [] (IdentifierMap.get b R)) = Some l -> False.
Proof using Hsep.
  intros Hab Ha Hb.
  apply get_default_Some in Ha as (s & Hs & Hl).
  apply get_default_Some in Hb as (s' & Hs' & Hl').
  destruct Hsep as (Hnd & _).
  exact (locs_disjoint R a b s s' g g' l Hnd Hab Hs Hs' Hl Hl').
Qed.

Lemma source_inj (id : ResourceIdentifier) (g g' : CredentialGroup.t) (l : loc) :
  assoc_get g (default [] (IdentifierMap.get id R)) = Some l ->
  assoc_get g' (default [] (IdentifierMap.get id R)) = Some l -> g = g'.
Proof using Hsep.
  destruct (IdentifierMap.get id R) as [s|] eqn:E; cbn; [|discriminate].
  destruct Hsep as (Hnd & _). apply assoc_get_inj. exact (locs_inj R id s Hnd E).
Qed.

Lemma parent_loop (rest done : list (ResourceIdentifier * (ResourceIdentifier * ModeSet)))
    (res : PermissionMap) (w : World) :
  parents = done ++ rest ->
  parent_loop_inv R w1 done res w ->
  exists pm w',
    foldM (fun (result : PermissionMap) '(identifier, (container, _)) =>
             let* permissionSet :=
               updatePermission (IdentifierMap.get identifier result)
                                (IdentifierMap.get container result) in
             ret (IdentifierMap.set identifier permissionSet result))
          rest res w = (Ok pm, w')
    /\ parent_loop_inv R w1 (done ++ rest) pm w'.
Proof using Hwfp HR Hsep.
  revert done res w. induction rest as [|[child [parent ms]] rest IH];
    intros done res w El Hinv.
  - exists res, w. rewrite app_nil_r. split; [reflexivity|exact Hinv].
  - destruct Hinv as [G1 Gf G2 G3 G4 G6 G5].
    assert (NoDup (map (fun e : ResourceIdentifier * (ResourceIdentifier * ModeSet) =>
                          path (fst e)) (done ++ (child, (parent, ms)) :: rest))) as Hnd.
    { rewrite <- El. exact Hwfp. }
    rewrite map_app in Hnd. apply list.NoDup_app in Hnd as (_ & Hdisj & _).
    assert (forall e, e ∈ done -> path (fst e) <> path child) as Hfresh.
    { intros e He E. apply (Hdisj (path (fst e))).
      - apply list_elem_of_fmap. exists e. auto.
      - cbn [map fst]. rewrite E. apply elem_of_cons. auto. }
    assert (path child ∉ map (fun e : ResourceIdentifier * (ResourceIdentifier * ModeSet) =>
                                path (fst e)) done) as Hnew.
    { intros Hin. apply list_elem_of_fmap in Hin as (e & E & He).
      exact (Hfresh e He (eq_sym E)). }
    pose proof (G4 child Hnew) as Hps.
    set (Rc := default [] (IdentifierMap.get child R)) in *.
    set (cs := default [] (IdentifierMap.get parent res)) in *.
    assert (wf_object cs /\ forall g l, assoc_get g cs = Some l -> l < length (heap w))
      as (Hwfc & Hvc).
    { subst cs. destruct (IdentifierMap.get parent res) as [s|] eqn:E; cbn.
      - exact (G6 parent s E).
      - split; [constructor|discriminate]. }
    assert (forall g l, assoc_get g Rc = Some l -> heap w !! l = heap w1 !! l) as Hsame.
    { intros g l Hl. apply G3; [exact (source_lt child g l Hl)|].
      intros e g' He Hl'. exact (source_disjoint _ _ _ _ l (Hfresh e He) Hl' Hl). }
    destruct (updatePermission_loop cs Rc w) as (ps' & h' & Hrun & HU).
    { exact Hwfc. }
    { apply wf_map_get. exact HR. }
    { intros g l Hl. destruct (source_live child g l Hl) as (c & Hc & Hf).
      exists c. rewrite (Hsame g l Hl). auto. }
    { intros g g' l. apply source_inj. }
    { intros g lc Hin. apply (Hvc g). apply assoc_get_elem; assumption. }
    destruct HU as [U1 U2 Uinj U3 U4 U5 U6 U7].
    destruct (IH (done ++ [(child, (parent, ms))]) (IdentifierMap.set child ps' res)
                 (mkWorld h' (fetched w))) as (pm & w' & Hloop & Hfin).
    { rewrite <- app_assoc. exact El. }
    { constructor; cbn [heap fetched].
      - lia.
      - exact Gf.
      - intros l c Hl. destruct (G2 l c Hl) as (c1 & Hc1 & Hf1 & Hm1).
        destruct (U6 l c1 Hc1) as (c' & Hc' & Hf' & Hm').
        exists c'. split; [exact Hc'|]. split; [congruence|].
        intros m H1 H2. rewrite Hm' by assumption. apply Hm1; assumption.
      - intros l Hl Hnot. rewrite U5.
        + apply G3; [exact Hl|]. intros e g He. apply Hnot. apply elem_of_app. auto.
        + lia.
        + intros g _. apply (Hnot (child, (parent, ms)) g).
          apply elem_of_app. right. apply list_elem_of_singleton. reflexivity.
      - intros id Hid. rewrite map_app, elem_of_app in Hid. cbn [map fst] in Hid.
        rewrite IdentifierMapFacts.get_set.
        destruct (decide (path id = path child)) as [E|Hne].
        + exfalso. apply Hid. right. apply list_elem_of_singleton. exact E.
        + apply G4. tauto.
      - intros id s. rewrite IdentifierMapFacts.get_set.
        destruct (decide (path id = path child)) as [E|Hne].
        + intros [= <-]. split; [exact U2|]. intros g l Hl.
          destruct (U4 g l Hl) as [Hl0|(_ & _ & Hl0)]; [|lia].
          pose proof (source_lt child g l Hl0). lia.
        + intros Hs. destruct (G6 id s Hs) as (Hw & Hv). split; [exact Hw|].
          intros g l Hl. pose proof (Hv g l Hl). lia.
      - intros e He. apply elem_of_app in He as [He|He].
        + destruct (G5 e He) as (s & Hs & Hkept & Horigin & Hvalues).
          exists s. split; [|split; [exact Hkept|split; [exact Horigin|]]].
          * rewrite IdentifierMapFacts.get_set.
            destruct (decide (path (fst e) = path child)) as [E|Hne]; [|exact Hs].
            exfalso. exact (Hfresh e He E).
          * intros g lc Hlc. destruct (Hvalues g lc Hlc) as (l & Hl & Hv).
            exists l. split; [exact Hl|]. rewrite <- Hv.
            apply U5; [eapply lookup_lt_Some; exact Hv|].
            intros g' _ Hl'. destruct (Horigin g l Hl) as [Hl0|Hl0].
            -- exact (source_disjoint _ _ _ _ l (Hfresh e He) Hl0 Hl').
            -- pose proof (source_lt child g' l Hl'). lia.
        + apply list_elem_of_singleton in He. subst e. cbn [fst snd].
          exists ps'. split; [|split; [exact U3|split]].
          * rewrite IdentifierMapFacts.get_set.
            destruct (decide (path child = path child)); congruence.
          * intros g l Hl. destruct (U4 g l Hl) as [Hl0|(_ & _ & Hl0)]; [auto|].
            right. lia.
          * intros g lc Hlc.
            assert (assoc_get g cs = Some lc) as Hcs.
            { destruct (decide (path parent ∈
                          map (fun e : ResourceIdentifier * (ResourceIdentifier * ModeSet) =>
                                 path (fst e)) done)) as [Hin|Hnin].
              - apply list_elem_of_fmap in Hin as (e & E & He).
                destruct (G5 e He) as (s & Hs & Hkept & _).
                subst cs. rewrite (get_path parent (fst e) res E), Hs. cbn.
                apply Hkept. rewrite <- (get_path parent (fst e) R E). exact Hlc.
              - subst cs. rewrite (G4 parent Hnin). exact Hlc. }
            destruct (U7 g lc (assoc_get_Some_elem _ _ _ Hcs)) as (l & Hl & Hv).
            exists l. split; [exact Hl|]. rewrite Hv.
            destruct (source_live parent g lc Hlc) as (c & Hc & _).
            destruct (G2 lc c Hc) as (c1 & Hc1 & _ & Hm1).
            assert (p_append (deref (heap w) lc) = p_append (deref (heap w1) lc)
                    /\ p_write (deref (heap w) lc) = p_write (deref (heap w1) lc))
              as [-> ->].
            { unfold deref. rewrite Hc, Hc1.
              split; [apply (Hm1 AccessMode.append)|apply (Hm1 AccessMode.write)];
                discriminate. }
            assert (object_of (heap w) Rc g = object_of (heap w1) Rc g) as ->.
            { unfold object_of. destruct (assoc_get g Rc) as [l0|] eqn:E0; [|reflexivity].
              unfold deref. rewrite (Hsame g l0 E0). reflexivity. }
            reflexivity. }
    exists pm, w'. split.
    + cbn [foldM]. unfold bind at 1. unfold bind at 1. unfold updatePermission.
      fold cs. rewrite Hps. fold Rc. rewrite Hrun. unfold ret at 1. exact Hloop.
    + rewrite <- app_assoc in Hfin. exact Hfin.
Qed.
End ParentHandle.

Lemma js_and_true (a b : Tri) : js_and a b = Some true <-> a = Some true /\ b = Some true.
Proof. destruct a as [[|]|]; cbn; intuition congruence. Qed.

Lemma not_false_true (x : Tri) : not_false x = Some true <-> x <> Some false.
Proof. destruct x as [[|]|]; cbn; intuition congruence. Qed.

Lemma view_object_of (h : list Cell) (pm : PermissionMap) (id : ResourceIdentifier)
    (g : CredentialGroup.t) (m : AccessMode.t) :
  view h pm id g m = field m (object_of h (default [] (IdentifierMap.get id pm)) g).
Proof.
  unfold view, object_of. destruct (IdentifierMap.get id pm) as [s|]; cbn.
  - destruct (assoc_get g s); [reflexivity|destruct m; reflexivity].
  - destruct m; reflexivity.
Qed.

Lemma findParents_wf (this : ParentContainerReader.t) (accessMap : AccessMap) :
  wf_keys accessMap -> wf_keys (ParentContainerReader.findParents this accessMap).
Proof.
  unfold wf_keys, ParentContainerReader.findParents.
  induction accessMap as [|[k v] m IH]; intros Hwf; [constructor|].
  cbn [map fst flat_map] in *. apply list.NoDup_cons in Hwf as [Hk Hwf].
  destruct (mode_has AccessMode.create v || mode_has AccessMode.delete v);
    cbn [app map fst]; [|auto].
  apply list.NoDup_cons. split; [|auto].
  intros Hin. apply Hk. apply list_elem_of_fmap in Hin as ([a [s ms]] & -> & Hin).
  apply findParents_elem in Hin as (required & Hin & _). cbn [fst].
  apply list_elem_of_fmap. exists (a, required). auto.
Qed.

Lemma wf_keys_functional {V} (m : IdentifierMap V) (a b : ResourceIdentifier) (x y : V) :
  wf_keys m -> (a, x) ∈ m -> (b, y) ∈ m -> path a = path b -> x = y.
Proof.
  intros Hwf Ha Hb E.
  apply (IdentifierMapFacts.get_elem _ _ _ Hwf) in Ha, Hb.
  rewrite (get_path a b m E) in Ha. congruence.
Qed.

(** The whole reader, in terms of the state of its loop. *)
Lemma parentContainerReader_spec (this : ParentContainerReader.t)
    (input : PermissionReaderInput) (w : World) (R : PermissionMap) (w1 : World) :
  let parents := ParentContainerReader.findParents this (accessMap input) in
  let outgoing :=
    if (length parents =? 0)%nat then accessMap input
    else updateAccessMap (map snd parents) [] (accessMap input) in
  wf_keys (accessMap input) ->
  ParentContainerReader.reader this (mkInput (credentials input) outgoing) w = (Ok R, w1) ->
  wf_map R ->
  separated (heap w1) R ->
  exists pm w',
    ParentContainerReader.handle this input w = (Ok pm, w')
    /\ parent_loop_inv R w1 parents pm w'.
Proof.
  intros parents outgoing Hwf Hread HR Hsep.
  assert (parent_loop_inv R w1 [] R w1) as Hinit.
  { constructor; auto.
    - intros l c Hl. exists c. auto.
    - intros id s Hs. split.
      + pose proof (wf_map_get R id HR) as H. rewrite Hs in H. exact H.
      + intros g l Hl. apply (source_lt R w1 Hsep id g l). rewrite Hs. exact Hl.
    - intros e He. apply elem_of_nil in He. contradiction. }
  unfold ParentContainerReader.handle. cbv zeta. fold parents.
  subst outgoing. destruct (length parents =? 0)%nat eqn:Elen.
  - exists R, w1. destruct input as [cr am]. cbn [credentials accessMap] in *.
    split; [exact Hread|].
    destruct parents; [exact Hinit|discriminate].
  - destruct (parent_loop parents R w1 (findParents_wf this _ Hwf) HR Hsep
                parents [] R w1 eq_refl Hinit) as (pm & w' & Hloop & Hinv).
    exists pm, w'. split; [|exact Hinv].
    unfold bind. rewrite Hread. exact Hloop.
Qed.

(** The value written is [append && create !== false]: when the object of
    [foo] denies [create] explicitly and [append] of its container is
    undefined, [create] of [foo] is undefined afterwards; it is no grant
    either way. *)
Lemma parentContainerReader_loses_explicit_false :
  let input := mkInput Sample.publicOnly [(Sample.id "foo", [AccessMode.create])] in
  let R : PermissionMap := [(Sample.id "foo", [(CredentialGroup.public, 0)]);
                            (Sample.id "", [(CredentialGroup.public, 1)])] in
  getParentContainer Sample.identifierStrategy (Sample.id "foo") = Sample.id ""
  /\ view (heap Sample.denyWorld) R (Sample.id "foo") CredentialGroup.public AccessMode.create
     = Some false
  /\ CredentialGroup.public ∈ map fst (default [] (IdentifierMap.get (Sample.id "") R))
  /\ exists pm w',
       ParentContainerReader.handle Sample.parentOverFoo input Sample.denyWorld = (Ok pm, w')
       /\ view (heap w') pm (Sample.id "foo") CredentialGroup.public AccessMode.create = None.
Proof.
  cbv zeta. split; [reflexivity|]. split; [reflexivity|].
  split; [vm_compute; apply list_elem_of_singleton; reflexivity|].
  eexists _, _. split; vm_compute; reflexivity.
Qed.

(** The objects of [AllStaticReader] are frozen, and this reader assigns to
    the objects of its source: directly over [AllStaticReader] it throws. *)
Lemma parentContainerReader_frozen_source :
  fst (ParentContainerReader.handle Sample.parentOverStatic
         (mkInput Sample.publicOnly [(Sample.id "foo", [AccessMode.create])])
         Sample.allowAllWorld)
  = Throw (TypeError "Cannot assign to read only property").
Proof. vm_compute. reflexivity. Qed.

(** C3 (defect of the code). [updatePermission] assigns [create] and
    [delete] to the [Permission] objects of the result of the source, and
    [WebAclReader] hands out one object per ACL and group, shared by all
    the resources the ACL governs. For the access map of a creation of
    [x/y/z] below the new container [x/y/], over an ACL that allows
    [acl:Append] on [x/] alone, the source answers with the same set for
    [x/y/z] and [x/y/], in which [append] and [create] are undefined for
    the public. The value assigned for [x/y/] (whose container [x/] allows
    [append]) shows on [x/y/z] as well: [create] of [x/y/z] ends up [true]
    although [append] of its container [x/y/] is undefined. *)
Theorem parentContainerReader_shared_objects :
  let this := Sample.parentOverAcl in
  let input := mkInput Sample.bothGroups
                 [(Sample.id "x/y/z", [AccessMode.create]);
                  (Sample.id "x/y/", [AccessMode.create])] in
  let outgoing :=
    updateAccessMap (map snd (ParentContainerReader.findParents this (accessMap input))) []
      (accessMap input) in
  getParentContainer Sample.identifierStrategy (Sample.id "x/y/z") = Sample.id "x/y/"
  /\ (exists R w1,
        ParentContainerReader.reader this (mkInput (credentials input) outgoing)
          Sample.emptyWorld = (Ok R, w1)
        /\ IdentifierMap.get (Sample.id "x/y/z") R = IdentifierMap.get (Sample.id "x/y/") R
        /\ view (heap w1) R (Sample.id "x/y/") CredentialGroup.public AccessMode.append = None
        /\ view (heap w1) R (Sample.id "x/y/z") CredentialGroup.public AccessMode.create
           = None
        /\ CredentialGroup.public
           ∈ map fst (default [] (IdentifierMap.get (Sample.id "x/y/") R)))
  /\ exists pm w',
       ParentContainerReader.handle this input Sample.emptyWorld = (Ok pm, w')
       /\ view (heap w') pm (Sample.id "x/y/") CredentialGroup.public AccessMode.append
          = None
       /\ view (heap w') pm (Sample.id "x/y/z") CredentialGroup.public AccessMode.create
          = Some true.
Proof.
  cbv zeta. split; [reflexivity|]. split.
  - eexists _, _. split; [vm_compute; reflexivity|].
    split; [vm_compute; reflexivity|]. split; [vm_compute; reflexivity|].
    split; [vm_compute; reflexivity|].
    vm_compute. apply elem_of_cons. left. reflexivity.
  - eexists _, _. split; [vm_compute; reflexivity|]. split; vm_compute; reflexivity.
Qed.

(** Where the [Permission] objects of the result [R] of the source are
    not shared and not frozen, the reader returns, and for every entry of
    the input that requires [create] or [delete] and every credential
    group of the container's set in [R]: [create] of the entry is [append]
    of the container [&&] ([create] of the entry [!== false]), [delete] is
    [write] of the entry [&&] [write] of the container [&&] ([delete] of
    the entry [!== false]); the other modes are those of [R]. An entry of
    the input that requires neither mode has the set it has in [R], with
    the same values. *)
Theorem parentContainerReader_create_delete (this : ParentContainerReader.t)
    (input : PermissionReaderInput) (w : World) (R : PermissionMap) (w1 : World) :
  let parents := ParentContainerReader.findParents this (accessMap input) in
  let outgoing :=
    if (length parents =? 0)%nat then accessMap input
    else updateAccessMap (map snd parents) [] (accessMap input) in
  wf_keys (accessMap input) ->
  ParentContainerReader.reader this (mkInput (credentials input) outgoing) w = (Ok R, w1) ->
  wf_map R ->
  separated (heap w1) R ->
  exists pm w',
    ParentContainerReader.handle this input w = (Ok pm, w')
    /\ (forall child container modes g,
          (child, (container, modes)) ∈ parents ->
          g ∈ map fst (default [] (IdentifierMap.get container R)) ->
          let c := view (heap w1) R child g in
          let p := view (heap w1) R container g in
          let r := view (heap w') pm child g in
          r AccessMode.create = js_and (p AccessMode.append) (not_false (c AccessMode.create))
          /\ r AccessMode.delete
             = js_and (js_and (c AccessMode.write) (p AccessMode.write))
                      (not_false (c AccessMode.delete))
          /\ (r AccessMode.create = Some true
              <-> p AccessMode.append = Some true /\ c AccessMode.create <> Some false)
          /\ (r AccessMode.delete = Some true
              <-> c AccessMode.write = Some true /\ p AccessMode.write = Some true
                  /\ c AccessMode.delete <> Some false)
          /\ (c AccessMode.create = Some false ->
              r AccessMode.create
              = if p AccessMode.append is None then None else Some false)
          /\ (c AccessMode.delete = Some false -> r AccessMode.delete <> Some true)
          /\ (forall m, m <> AccessMode.create -> m <> AccessMode.delete -> r m = c m))
    /\ (forall id modes,
          (id, modes) ∈ accessMap input ->
          mode_has AccessMode.create modes || mode_has AccessMode.delete modes = false ->
          IdentifierMap.get id pm = IdentifierMap.get id R
          /\ forall g m, view (heap w') pm id g m = view (heap w1) R id g m).
Proof.
  intros parents outgoing Hwf Hread HR Hsep.
  destruct (parentContainerReader_spec this input w R w1 Hwf Hread HR Hsep)
    as (pm & w' & Hrun & [G1 Gf G2 G3 G4 G6 G5]).
  fold parents in G2, G3, G4, G5.
  exists pm, w'. split; [exact Hrun|]. split.
  - intros child container modes g Hin Hg. cbv zeta.
    destruct (assoc_get g (default [] (IdentifierMap.get container R))) as [lc|] eqn:Elc;
      [|apply assoc_get_None in Elc; contradiction].
    destruct (G5 _ Hin) as (s & Hs & _ & _ & Hvalues). cbn [fst snd] in *.
    destruct (Hvalues g lc Elc) as (l & Hl & Hv).
    assert (forall m, view (heap w') pm child g m
                      = field m (derive (p_append (deref (heap w1) lc))
                                        (p_write (deref (heap w1) lc))
                                        (object_of (heap w1)
                                           (default [] (IdentifierMap.get child R)) g)))
      as Hr.
    { intros m. unfold view. rewrite Hs, Hl. unfold deref. rewrite Hv. reflexivity. }
    assert (forall m, view (heap w1) R container g m = field m (deref (heap w1) lc)) as Hp.
    { intros m. rewrite view_object_of. unfold object_of. rewrite Elc. reflexivity. }
    rewrite !Hr, !Hp. setoid_rewrite Hr. setoid_rewrite view_object_of.
    set (obj := object_of (heap w1) (default [] (IdentifierMap.get child R)) g).
    cbn [field]. rewrite derive_create, derive_delete.
    split; [reflexivity|]. split; [reflexivity|].
    split; [rewrite js_and_true, not_false_true; reflexivity|].
    split; [rewrite !js_and_true, not_false_true; tauto|].
    split; [intros ->; destruct (p_append (deref (heap w1) lc)) as [[|]|]; reflexivity|].
    split.
    + intros ->. rewrite js_and_true. cbn. intros [_ H]. discriminate.
    + intros m H1 H2. apply derive_field; assumption.
  - intros id modes Hin Hmodes.
    assert (forall e, e ∈ parents -> path (fst e) <> path id) as Hne.
    { intros [child [container ms]] He E. cbn [fst] in E.
      apply findParents_elem in He as (required & Hreq & Hmode & _).
      assert (required = modes) as -> by exact (wf_keys_functional _ _ _ _ _ Hwf Hreq Hin E).
      apply orb_false_elim in Hmodes as [Hc Hd]. unfold mode_has in Hc, Hd.
      apply bool_decide_eq_false_1 in Hc, Hd. tauto. }
    assert (IdentifierMap.get id pm = IdentifierMap.get id R) as Hget.
    { apply G4. intros H. apply list_elem_of_fmap in H as (e & E & He).
      exact (Hne e He (eq_sym E)). }
    split; [exact Hget|]. intros g m. unfold view. rewrite Hget.
    destruct (IdentifierMap.get id R) as [s|] eqn:Es; [|reflexivity].
    destruct (assoc_get g s) as [l|] eqn:El; [|reflexivity].
    assert (assoc_get g (default [] (IdentifierMap.get id R)) = Some l) as Hl
      by (rewrite Es; exact El).
    unfold deref. rewrite G3; [reflexivity|exact (source_lt R w1 Hsep id g l Hl)|].
    intros e g' He Hl'. exact (source_disjoint R w1 Hsep _ _ _ _ l (Hne e He) Hl' Hl).
Qed.


Lemma parentContainerReader_create_delete_witness :
  let input := mkInput Sample.publicOnly [(Sample.id "foo", [AccessMode.create])] in
  let R : PermissionMap := [(Sample.id "foo", [(CredentialGroup.public, 0)]);
                            (Sample.id "", [(CredentialGroup.public, 1)])] in
  wf_keys (accessMap input)
  /\ wf_map R
  /\ separated (heap Sample.denyWorld) R
  /\ exists pm w',
       ParentContainerReader.handle Sample.parentOverFoo input Sample.denyWorld = (Ok pm, w')
       /\ view (heap w') pm (Sample.id "foo") CredentialGroup.public AccessMode.create
          = js_and (view (heap Sample.denyWorld) R (Sample.id "") CredentialGroup.public
                      AccessMode.append)
                   (not_false (view (heap Sample.denyWorld) R (Sample.id "foo")
                                 CredentialGroup.public AccessMode.create)).
Proof.
  cbv zeta.
  assert (wf_keys [(Sample.id "foo", [AccessMode.create])]) as Hwf by solve_wf.
  assert (wf_map [(Sample.id "foo", [(CredentialGroup.public, 0)]);
                  (Sample.id "", [(CredentialGroup.public, 1)])]) as HR.
  { split; [solve_wf|]. repeat constructor; solve_wf. }
  assert (separated (heap Sample.denyWorld)
            [(Sample.id "foo", [(CredentialGroup.public, 0)]);
             (Sample.id "", [(CredentialGroup.public, 1)])]) as Hsep.
  { split.
    - apply (bool_decide_unpack _). vm_compute. exact I.
    - repeat constructor; eexists; (split; [reflexivity|reflexivity]). }
  split; [exact Hwf|]. split; [exact HR|]. split; [exact Hsep|].
  destruct (parentContainerReader_create_delete Sample.parentOverFoo
              (mkInput Sample.publicOnly [(Sample.id "foo", [AccessMode.create])])
              Sample.denyWorld
              [(Sample.id "foo", [(CredentialGroup.public, 0)]);
               (Sample.id "", [(CredentialGroup.public, 1)])]
              Sample.denyWorld Hwf eq_refl HR Hsep)
    as (pm & w' & Hrun & Hchild & _).
  exists pm, w'. split; [exact Hrun|].
  refine (proj1 (Hchild (Sample.id "foo") (Sample.id "") [AccessMode.append]
                   CredentialGroup.public _ _)).
  - apply list_elem_of_singleton. reflexivity.
  - apply list_elem_of_singleton. reflexivity.
Defined.


Lemma pathBasedReader_base_url_witness :
  let this := Sample.pathBased (AllStaticReader.handle Sample.allowAll) in
  let input := mkInput Sample.publicOnly
                 [(Sample.id "foo/", [AccessMode.read]); (Sample.id "", [AccessMode.read])] in
  String.prefix (ensureTrailingSlash (Sample.baseUrl +:+ "foo")) (path (Sample.id "")) = false
  /\ PathBasedReader.findReader this (path (Sample.id "")) = None
  /\ (forall x, x ∈ PathBasedReader.matchReaders this (accessMap input) ->
                Sample.id "" ∉ IdentifierMap.keys (snd x))
  /\ ((forall regex r, (regex, r) ∈ PathBasedReader.paths this ->
                       keys_within (PathBasedReader.rhandle r)) ->
      forall pm w',
        PathBasedReader.handle this input Sample.allowAllWorld = (Ok pm, w') ->
        Sample.id "" ∉ IdentifierMap.keys pm).
Proof.
  cbv zeta.
  assert (String.prefix (ensureTrailingSlash (Sample.baseUrl +:+ "foo"))
            (path (Sample.id "")) = false) as Hout by (vm_compute; reflexivity).
  split; [exact Hout|].
  exact (pathBasedReader_base_url (Sample.baseUrl +:+ "foo")
           [ (fun relative => String.prefix "/" relative,
              {| PathBasedReader.rid := 0;
                 PathBasedReader.rhandle := AllStaticReader.handle Sample.allowAll |}) ]
           (mkInput Sample.publicOnly
              [(Sample.id "foo/", [AccessMode.read]); (Sample.id "", [AccessMode.read])])
           Sample.allowAllWorld (Sample.id "") Hout).
Defined.

(* ================================================================== *)
(** * Part III. Further properties of the code                         *)
(* ================================================================== *)

(** ** PermissionUtil.ts *)

Lemma newSet_NoDup (l : list AccessMode.t) : NoDup (newSet l).
Proof.
  induction l as [|x l IH]; cbn [newSet]; [constructor|].
  apply list.NoDup_cons. split.
  - rewrite list_elem_of_filter. intros [H _]. contradiction.
  - apply list.NoDup_filter. exact IH.
Qed.

Lemma set_fresh {V} (k : ResourceIdentifier) (v : V) (m : IdentifierMap V) :
  path k ∉ map (fun kv => path (fst kv)) m -> IdentifierMap.set k v m = m ++ [(k, v)].
Proof.
  induction m as [|[k0 v0] m IH]; cbn [IdentifierMap.set map fst app]; intros Hn;
    [reflexivity|].
  apply not_elem_of_cons in Hn as [Hne Hn].
  destruct (decide (path k = path k0)); [contradiction|]. rewrite IH by exact Hn. reflexivity.
Qed.

Lemma set_elem {V} (k : ResourceIdentifier) (v : V) (m : IdentifierMap V)
    (e : ResourceIdentifier * V) :
  e ∈ IdentifierMap.set k v m -> e = (k, v) \/ e ∈ m.
Proof.
  induction m as [|[k0 v0] m IH]; cbn [IdentifierMap.set].
  - intros H. apply list_elem_of_singleton in H. auto.
  - destruct (decide (path k = path k0)).
    + intros H. apply elem_of_cons in H as [H|H]; [auto|]. right. apply elem_of_cons. auto.
    + intros H. apply elem_of_cons in H as [H|H].
      * right. apply elem_of_cons. auto.
      * apply IH in H as [H|H]; [auto|]. right. apply elem_of_cons. auto.
Qed.

(** X1. [addAccessModes] merges: afterwards the identifier has exactly the
    modes added and the modes it had, as a set without duplicates when the
    inputs are; every other identifier keeps what it had, and the map
    stays a map. *)
Theorem addAccessModes_merges (identifier : ResourceIdentifier) (modes : ModeSet)
    (accessMap : AccessMap) :
  (exists merged,
      IdentifierMap.get identifier (addAccessModes identifier modes accessMap) = Some merged
      /\ (forall m, m ∈ merged <->
                    m ∈ modes
                    \/ exists stored,
                         IdentifierMap.get identifier accessMap = Some stored /\ m ∈ stored)
      /\ (NoDup modes -> NoDup merged))
  /\ (forall other, path other <> path identifier ->
                    IdentifierMap.get other (addAccessModes identifier modes accessMap)
                    = IdentifierMap.get other accessMap)
  /\ (wf_keys accessMap -> wf_keys (addAccessModes identifier modes accessMap)).
Proof.
  unfold addAccessModes. split; [|split].
  - destruct (IdentifierMap.get identifier accessMap) as [stored|] eqn:E;
      rewrite IdentifierMapFacts.get_set;
      (destruct (decide (path identifier = path identifier)); [|contradiction]).
    + eexists. split; [reflexivity|]. split; [|intros _; apply newSet_NoDup].
      intros m. rewrite newSet_elem, elem_of_app. split.
      * intros [H|H]; [auto|right; eauto].
      * intros [H|(s & [= <-] & H)]; auto.
    + exists modes. split; [reflexivity|]. split; [|auto].
      intros m. split; [auto|]. intros [H|(s & Hs & _)]; [exact H|discriminate].
  - intros other Hne.
    destruct (IdentifierMap.get identifier accessMap);
      rewrite IdentifierMapFacts.get_set;
      (destruct (decide (path other = path identifier)); [contradiction|reflexivity]).
  - intros Hwf. destruct (IdentifierMap.get identifier accessMap);
      apply IdentifierMapFacts.set_wf; exact Hwf.
Qed.

Lemma keep_fold_filter (remove : list ResourceIdentifier) (m acc : AccessMap) :
  wf_keys (acc ++ m) ->
  fold_left (fun (result : AccessMap) '(identifier, modes) =>
               if bool_decide (identifier ∈ remove) then result
               else IdentifierMap.set identifier modes result) m acc
  = acc ++ filter (fun e => fst e ∉ remove) (m : list (ResourceIdentifier * ModeSet)).
Proof.
  revert acc. induction m as [|[k v] m IH]; intros acc Hwf; cbn [fold_left].
  - rewrite app_nil_r. reflexivity.
  - unfold wf_keys in Hwf. rewrite map_app in Hwf. cbn [map fst] in Hwf.
    pose proof Hwf as Hwf'. apply list.NoDup_app in Hwf' as (Hacc & Hdisj & Hm).
    apply list.NoDup_cons in Hm as [Hk Hm].
    rewrite list.filter_cons. cbn [fst].
    destruct (bool_decide (k ∈ remove)) eqn:E.
    + apply bool_decide_eq_true_1 in E.
      destruct (decide (k ∉ remove)); [contradiction|].
      apply IH. unfold wf_keys. rewrite map_app. apply list.NoDup_app.
      split; [exact Hacc|]. split; [|exact Hm].
      intros x Hx Hx'. apply (Hdisj x Hx). apply elem_of_cons. auto.
    + apply bool_decide_eq_false_1 in E.
      destruct (decide (k ∉ remove)); [|contradiction].
      rewrite set_fresh.
      * rewrite IH; [rewrite <- app_assoc; reflexivity|].
        unfold wf_keys. rewrite <- app_assoc. cbn [app]. rewrite map_app. exact Hwf.
      * intros Hin. apply (Hdisj _ Hin). apply elem_of_cons. auto.
Qed.

(** By paths: without additions, the entries whose key is not in [remove]. *)
Lemma updateAccessMap_filter_paths (remove : list ResourceIdentifier)
    (mapEntries : AccessMap) :
  wf_keys mapEntries ->
  updateAccessMap [] remove mapEntries
  = filter (fun e => fst e ∉ remove) (mapEntries : list (ResourceIdentifier * ModeSet)).
Proof.
  intros Hwf. unfold updateAccessMap. cbn [fold_left].
  rewrite keep_fold_filter by exact Hwf. reflexivity.
Qed.

Lemma filter_ext_elem {A} (P Q : A -> Prop) `{!forall x, Decision (P x)}
    `{!forall x, Decision (Q x)} (l : list A) :
  (forall x, x ∈ l -> (P x <-> Q x)) -> filter P l = filter Q l.
Proof.
  induction l as [|x l IH]; intros Hext; [reflexivity|].
  rewrite !list.filter_cons.
  assert (filter P l = filter Q l) as ->
    by (apply IH; intros y Hy; apply Hext, elem_of_cons; auto).
  pose proof (Hext x (list_elem_of_here _ _)) as Hx.
  destruct (decide (P x)), (decide (Q x)); tauto.
Qed.

(** In a map, the key of an entry is among the keys of the selected
    entries exactly when the entry is selected. *)
Lemma own_keys_select (sel : ResourceIdentifier * ModeSet -> bool) (m : AccessMap)
    (e : ResourceIdentifier * ModeSet) :
  wf_keys m -> e ∈ m ->
  (fst e ∈ map fst (filter (fun e => sel e = true) (m : list (ResourceIdentifier * ModeSet)))
   <-> sel e = true).
Proof.
  intros Hwf He. split.
  - intros Hin. apply list_elem_of_fmap in Hin as (e' & Efst & He').
    apply list_elem_of_filter in He' as [Hsel He'].
    destruct e as [k v], e' as [k' v']. cbn [fst] in Efst. subst k'.
    rewrite (wf_keys_functional m k k v v' Hwf He He' eq_refl). exact Hsel.
  - intros Hsel. apply list_elem_of_fmap. exists e. split; [reflexivity|].
    apply list_elem_of_filter. auto.
Qed.

(** X2. With nothing to add and a [remove] set made of key objects of the
    map itself (the keys of the entries that [sel] selects),
    [updateAccessMap] returns the other entries of the map, in their
    order; with nothing to remove either, it returns a copy of the map. *)
Theorem updateAccessMap_filters (sel : ResourceIdentifier * ModeSet -> bool)
    (mapEntries : AccessMap) :
  wf_keys mapEntries ->
  let selected :=
    filter (fun e => sel e = true) (mapEntries : list (ResourceIdentifier * ModeSet)) in
  updateAccessMap [] (map fst selected) mapEntries
  = filter (fun e => sel e = false) (mapEntries : list (ResourceIdentifier * ModeSet))
  /\ updateAccessMap [] [] mapEntries = mapEntries.
Proof.
  intros Hwf selected. rewrite !updateAccessMap_filter_paths by exact Hwf. split.
  - apply filter_ext_elem. intros e He. unfold selected.
    rewrite (own_keys_select sel mapEntries e Hwf He). destruct (sel e); split; congruence.
  - clear selected. induction mapEntries as [|e m IH]; [reflexivity|].
    rewrite list.filter_cons. destruct (decide (fst e ∉ [])) as [_|Hn].
    + f_equal. apply IH. unfold wf_keys in *. cbn [map] in Hwf.
      apply list.NoDup_cons in Hwf as [_ Hwf]. exact Hwf.
    + exfalso. apply Hn. apply not_elem_of_nil.
Qed.

(** The modes of an identifier in the map [updateAccessMap] returns. *)
Lemma updateAccessMap_get (add : list (ResourceIdentifier * ModeSet))
    (remove : list ResourceIdentifier) (mapEntries : AccessMap) (id : ResourceIdentifier)
    (modes : ModeSet) :
  wf_keys mapEntries ->
  IdentifierMap.get id (updateAccessMap add remove mapEntries) = Some modes ->
  forall m, m ∈ modes <->
            (exists ms, (id, ms) ∈ add /\ m ∈ ms)
            \/ ((id ∉ remove)
                /\ exists stored, IdentifierMap.get id mapEntries = Some stored
                                  /\ m ∈ stored).
Proof.
  intros Hwf. unfold updateAccessMap.
  pose proof (updateAccessMap_added add
                (fold_left (fun (result : AccessMap) '(identifier, modes) =>
                   if bool_decide (identifier ∈ remove) then result
                   else IdentifierMap.set identifier modes result) mapEntries [])
                id) as Hadd.
  rewrite (updateAccessMap_kept remove mapEntries [] id Hwf) in Hadd.
  intros Hget. rewrite Hget in Hadd.
  destruct Hadd as [_ Hm]. intros m. rewrite Hm. clear Hm.
  destruct (bool_decide (id ∈ remove)) eqn:E.
  - apply bool_decide_eq_true_1 in E. split.
    + intros [H|(s & Hs & _)]; [auto|discriminate].
    + intros [H|(Hn & _)]; [auto|contradiction].
  - apply bool_decide_eq_false_1 in E.
    destruct (IdentifierMap.get id mapEntries) as [stored|]; split.
    + intros [H|(s & [= <-] & H)]; [auto|right; eauto].
    + intros [H|(_ & s & [= <-] & H)]; [auto|right; eauto].
    + intros [H|(s & Hs & _)]; [auto|discriminate].
    + intros [H|(_ & s & Hs & _)]; [auto|discriminate].
Qed.

(** X3. For a [remove] set made of key objects of the map itself (the
    keys of the entries that [sel] selects), the map [updateAccessMap]
    returns has an entry for the identifiers added and for those of the
    entries of the map that are not selected, and for no other; the modes
    of an identifier are those of the entries added for it, together with
    those of its entry in the map unless that entry is selected. *)
Theorem updateAccessMap_lookup (add : list (ResourceIdentifier * ModeSet))
    (sel : ResourceIdentifier * ModeSet -> bool) (mapEntries : AccessMap)
    (id : ResourceIdentifier) :
  wf_keys mapEntries ->
  let selected :=
    filter (fun e => sel e = true) (mapEntries : list (ResourceIdentifier * ModeSet)) in
  let result := updateAccessMap add (map fst selected) mapEntries in
  (id ∈ IdentifierMap.keys result
   <-> id ∈ map fst add
       \/ exists stored, (id, stored) ∈ mapEntries /\ sel (id, stored) = false)
  /\ forall modes,
       IdentifierMap.get id result = Some modes ->
       forall m, m ∈ modes <->
                 (exists ms, (id, ms) ∈ add /\ m ∈ ms)
                 \/ exists stored, (id, stored) ∈ mapEntries /\ sel (id, stored) = false
                                   /\ m ∈ stored.
Proof.
  intros Hwf selected result.
  assert (forall stored, (id, stored) ∈ mapEntries ->
                         (id ∉ map fst selected <-> sel (id, stored) = false)) as Hsel.
  { intros stored Hin. unfold selected.
    pose proof (own_keys_select sel mapEntries (id, stored) Hwf Hin) as H. cbn [fst] in H.
    rewrite H. destruct (sel (id, stored)); split; congruence. }
  split.
  - unfold result. rewrite updateAccessMap_keys. split.
    + intros [H|[Hkey Hn]]; [auto|]. right.
      unfold IdentifierMap.keys in Hkey.
      apply list_elem_of_fmap in Hkey as ([k stored] & -> & Hin). cbn [fst] in *.
      exists stored. split; [exact Hin|]. apply (Hsel stored Hin). exact Hn.
    + intros [H|(stored & Hin & Hs)]; [auto|]. right. split.
      * unfold IdentifierMap.keys. apply list_elem_of_fmap. exists (id, stored). auto.
      * apply (Hsel stored Hin). exact Hs.
  - intros modes Hget m. unfold result in Hget.
    rewrite (updateAccessMap_get _ _ _ id modes Hwf Hget m). split.
    + intros [H|(Hn & stored & Hs & Hm)]; [auto|]. right.
      apply IdentifierMapFacts.get_Some_elem in Hs as (k' & Ek & Hin).
      apply id_path_eq in Ek. subst k'.
      exists stored. split; [exact Hin|]. split; [apply (Hsel stored Hin); exact Hn|exact Hm].
    + intros [H|(stored & Hin & Hs & Hm)]; [auto|]. right.
      split; [apply (Hsel stored Hin); exact Hs|].
      exists stored. split; [|exact Hm].
      exact (IdentifierMapFacts.get_elem _ _ _ Hwf Hin).
Qed.

(** ** AllStaticReader.ts *)

Lemma mapCredentials_get (this : AllStaticReader.t) (credentials : CredentialSet)
    (g : CredentialGroup.t) :
  assoc_get g (AllStaticReader.mapCredentials this credentials)
  = if bool_decide (g ∈ map fst credentials)
    then Some (AllStaticReader.permissions this) else None.
Proof.
  unfold AllStaticReader.mapCredentials.
  assert (forall acc : PermissionSet,
            assoc_get g (fold_left (fun (result : PermissionSet) '(group, _) =>
                                      assoc_set group (AllStaticReader.permissions this) result)
                                   credentials acc)
            = if bool_decide (g ∈ map fst credentials)
              then Some (AllStaticReader.permissions this) else assoc_get g acc) as H.
  { induction credentials as [|[g0 c0] cs IH]; intros acc; cbn [fold_left map fst].
    - rewrite bool_decide_eq_false_2 by apply not_elem_of_nil. reflexivity.
    - rewrite IH. rewrite assoc_get_set.
      destruct (bool_decide (g ∈ map fst cs)) eqn:E.
      + apply bool_decide_eq_true_1 in E.
        rewrite bool_decide_eq_true_2 by (apply elem_of_cons; auto). reflexivity.
      + apply bool_decide_eq_false_1 in E. destruct (decide (g = g0)) as [->|Hne].
        * rewrite bool_decide_eq_true_2 by (apply elem_of_cons; auto). reflexivity.
        * rewrite bool_decide_eq_false_2; [reflexivity|].
          rewrite elem_of_cons. tauto. }
  rewrite H. reflexivity.
Qed.

Lemma from_const_get {V} (ids : list ResourceIdentifier) (v : V) (id : ResourceIdentifier) :
  IdentifierMap.get id (IdentifierMap.from (map (fun identifier => (identifier, v)) ids))
  = if bool_decide (id ∈ ids) then Some v else None.
Proof.
  unfold IdentifierMap.from.
  assert (forall m : IdentifierMap V,
            fold_left (fun m kv => IdentifierMap.set (fst kv) (snd kv) m)
                      (map (fun identifier => (identifier, v)) ids) m
            = fold_left (fun result identifier => IdentifierMap.set identifier v result) ids m)
    as H.
  { induction ids as [|k ids IH]; intros m; cbn [map fold_left fst snd]; [reflexivity|].
    apply IH. }
  rewrite H, fold_set_get. reflexivity.
Qed.

(** X4. [AllStaticReader]: the constructor creates one frozen object with
    [read], [write], [append], [create] and [delete] set to [allow]. In any
    world that still holds it, [handle] changes nothing and returns the
    verdict [allow] on these five modes (and none on [control]) for exactly
    the identifiers of the access map and the groups of the credentials;
    all of them refer to that one object, and assigning to it throws. *)
Theorem allStaticReader_static (allow : bool) (w0 w : World)
    (input : PermissionReaderInput) :
  exists this w1,
    AllStaticReader.new allow w0 = (Ok this, w1)
    /\ heap w1 !! AllStaticReader.permissions this
       = Some (mkCell true (mkPermission (Some allow) (Some allow) (Some allow)
                                         (Some allow) (Some allow) None))
    /\ (heap w !! AllStaticReader.permissions this
        = heap w1 !! AllStaticReader.permissions this ->
        exists pm,
          AllStaticReader.handle this input w = (Ok pm, w)
          /\ (forall id g m,
                view (heap w) pm id g m
                = if bool_decide (id ∈ IdentifierMap.keys (accessMap input))
                     && bool_decide (g ∈ map fst (credentials input))
                     && negb (bool_decide (m = AccessMode.control))
                  then Some allow else None)
          /\ (forall id ps g l,
                IdentifierMap.get id pm = Some ps -> assoc_get g ps = Some l ->
                l = AllStaticReader.permissions this
                /\ forall m v,
                     assign l m v w
                     = (Throw (TypeError "Cannot assign to read only property"), w))).
Proof.
  eexists _, _. split; [reflexivity|]. cbn [AllStaticReader.permissions heap].
  assert ((heap w0 ++ [mkCell true (mkPermission (Some allow) (Some allow) (Some allow)
                                                 (Some allow) (Some allow) None)])
            !! length (heap w0)
          = Some (mkCell true (mkPermission (Some allow) (Some allow) (Some allow)
                                            (Some allow) (Some allow) None))) as Hcell.
  { rewrite lookup_app_r by lia.
    replace (length (heap w0) - length (heap w0)) with 0 by lia. reflexivity. }
  split; [exact Hcell|]. rewrite Hcell. intros Hw.
  set (this := {| AllStaticReader.permissions := length (heap w0) |}).
  eexists. split; [reflexivity|]. split.
  - intros id g m. unfold view. rewrite from_const_get.
    destruct (bool_decide (id ∈ IdentifierMap.keys (accessMap input))); [|reflexivity].
    rewrite mapCredentials_get. cbn [andb].
    destruct (bool_decide (g ∈ map fst (credentials input))); [|reflexivity].
    cbn [andb AllStaticReader.permissions this]. unfold deref. rewrite Hw.
    destruct m; reflexivity.
  - intros id ps g l Hps Hl. rewrite from_const_get in Hps.
    destruct (bool_decide _) in Hps; [|discriminate]. injection Hps as <-.
    rewrite mapCredentials_get in Hl.
    destruct (bool_decide _) in Hl; [|discriminate]. injection Hl as <-.
    split; [reflexivity|]. intros m v. unfold assign.
    cbn [AllStaticReader.permissions this]. rewrite Hw. reflexivity.
Qed.

(** ** UnionPermissionReader.ts *)

Section UnionFresh.
Import UnionPermissionReader.

Lemma allocSet_locs (s : list (CredentialGroup.t * Permission)) (w : World)
    (ps : PermissionSet) (w' : World) :
  allocSet s w = (Ok ps, w') ->
  map snd ps = seq (length (heap w)) (length s)
  /\ map fst ps = map fst s
  /\ length (heap w') = length (heap w) + length s.
Proof.
  revert w ps w'. induction s as [|[g p] s IH]; intros w ps w' Hrun.
  - cbn in Hrun. injection Hrun as <- <-. cbn. repeat split. lia.
  - unfold allocSet in Hrun. cbn [mapM] in Hrun.
    apply bind_inv_Ok in Hrun as ([g' l] & w1 & Hfirst & Hrun).
    apply bind_inv_Ok in Hfirst as (l' & w0 & Halloc & Hret).
    unfold alloc in Halloc. injection Halloc as <- <-.
    cbn in Hret. injection Hret as <- <- <-.
    apply bind_inv_Ok in Hrun as (ps' & w2 & Hrest & Hret).
    cbn in Hret. injection Hret as <- <-.
    apply IH in Hrest as (Hl & Hg & Hlen). cbn [heap] in *.
    rewrite length_app in Hl, Hlen. cbn [length] in *.
    cbn [map fst snd seq]. rewrite Hl, Hg.
    replace (length (heap w) + 1) with (S (length (heap w))) by lia.
    repeat split. lia.
Qed.

Lemma allocMap_locs (b : Building) (w : World) (pm : PermissionMap) (w' : World) :
  allocMap b w = (Ok pm, w') ->
  exists n, locs_of pm = seq (length (heap w)) n
            /\ length (heap w') = length (heap w) + n.
Proof.
  revert w pm w'. induction b as [|[i s] b IH]; intros w pm w' Hrun.
  - cbn in Hrun. injection Hrun as <- <-. exists 0. cbn. split; [reflexivity|lia].
  - unfold allocMap in Hrun. cbn [mapM] in Hrun.
    apply bind_inv_Ok in Hrun as ([i' ps] & w1 & Hfirst & Hrun).
    apply bind_inv_Ok in Hfirst as (ps' & w0 & Hset & Hret).
    cbn in Hret. injection Hret as <- <- <-.
    apply bind_inv_Ok in Hrun as (pm' & w2 & Hrest & Hret).
    cbn in Hret. injection Hret as <- <-.
    apply allocSet_locs in Hset as (Hl & _ & Hlen).
    apply IH in Hrest as (n & Hlocs & Hlen').
    exists (length s + n). cbn [locs_of flat_map snd].
    fold (locs_of pm'). rewrite Hl, Hlocs, Hlen. rewrite seq_app. split; [reflexivity|lia].
Qed.

Lemma building_wf_step (h : list Cell) (identifier : ResourceIdentifier)
    (ps : PermissionSet) (b : Building) :
  wf_map b ->
  wf_map (fold_left
            (fun (result : Building) '(credential, permission) =>
               let resultSet := default [] (IdentifierMap.get identifier result) in
               let old := default emptyPermission (assoc_get credential resultSet) in
               IdentifierMap.set identifier
                 (assoc_set credential (applyPermissions (deref h permission) old)
                            resultSet) result) ps b).
Proof.
  revert b. induction ps as [|[c l] ps IH]; intros b Hb; cbn [fold_left]; [exact Hb|].
  apply IH. cbv zeta. destruct Hb as [Hk Hv]. split.
  - apply IdentifierMapFacts.set_wf. exact Hk.
  - rewrite list.Forall_forall in *. intros e Hin.
    apply set_elem in Hin as [->|Hin]; [|exact (Hv e Hin)].
    cbn [snd]. apply assoc_set_wf.
    destruct (IdentifierMap.get identifier b) as [s0|] eqn:E; [|constructor].
    apply IdentifierMapFacts.get_Some_elem in E as (k' & _ & Hk').
    exact (Hv _ Hk').
Qed.

Lemma building_wf (h : list Cell) (results : list PermissionMap) (b : Building) :
  wf_map b ->
  wf_map (fold_left (fun result permissionMap => applyPermissionMap h permissionMap result)
                    results b).
Proof.
  revert b. induction results as [|pm results IH]; intros b Hb; cbn [fold_left];
    [exact Hb|].
  apply IH. unfold applyPermissionMap. clear IH. revert b Hb.
  induction pm as [|[identifier ps] pm IHpm]; intros b Hb; cbn [fold_left]; [exact Hb|].
  apply IHpm. apply building_wf_step. exact Hb.
Qed.

Lemma map_allocated_wf (h : list Cell) (base : nat) (b : Building) (pm : PermissionMap) :
  map_allocated h base b pm -> wf_map b -> wf_map pm.
Proof.
  intros Hal [Hk Hv]. split.
  - unfold wf_keys in *.
    assert (map (fun kv : ResourceIdentifier * PermissionSet => path (fst kv)) pm
            = map (fun kv : ResourceIdentifier * list (CredentialGroup.t * Permission) =>
                     path (fst kv)) b) as ->; [|exact Hk].
    clear Hk Hv. induction Hal as [|[i s] [i' ps] b pm [Hi _] _ IH]; [reflexivity|].
    cbn in *. congruence.
  - clear Hk. induction Hal as [|[i s] [i' ps] b pm [_ Hs] _ IH]; [constructor|].
    apply list.Forall_cons in Hv as [Hs0 Hv]. constructor; [|exact (IH Hv)].
    cbn [snd] in *. unfold wf_object in *.
    rewrite (set_allocated_groups _ _ _ _ Hs). exact Hs0.
Qed.
End UnionFresh.

(** X5. What [combine] returns is made of new objects only: the objects of
    the child results are left as they were, every [Permission] of the
    merged map is a new, unfrozen object that the map refers to once, and
    the merged map is a map. This is what [ParentContainerReader] needs of
    its source. *)
Theorem union_combine_fresh (results : list PermissionMap) (w : World) :
  exists pm ext,
    UnionPermissionReader.combine results w
    = (Ok pm, mkWorld (heap w ++ ext) (fetched w))
    /\ locs_of pm = seq (length (heap w)) (length ext)
    /\ wf_map pm
    /\ separated (heap w ++ ext) pm.
Proof.
  unfold UnionPermissionReader.combine.
  set (b := fold_left (fun result permissionMap =>
                         UnionPermissionReader.applyPermissionMap (heap w) permissionMap
                           result) results []).
  destruct (allocMap_spec b w) as (pm & ext & Hrun & Hal).
  exists pm, ext. split; [exact Hrun|].
  destruct (allocMap_locs b w pm _ Hrun) as (n & Hlocs & Hlen).
  cbn [heap] in Hlen. rewrite length_app in Hlen.
  assert (n = length ext) as -> by lia.
  split; [exact Hlocs|]. split.
  - apply (map_allocated_wf _ _ _ _ Hal). apply building_wf. split; constructor.
  - split; [rewrite Hlocs; apply NoDup_seq|].
    rewrite list.Forall_forall. intros l Hl. unfold locs_of in Hl.
    apply elem_of_flat_map in Hl as ([i ps] & Hin & Hl). cbn [snd] in Hl.
    apply list_elem_of_fmap in Hl as ([g l'] & -> & Hgl). cbn [snd].
    unfold map_allocated in Hal.
    apply list_elem_of_lookup in Hin as (j & Hj).
    destruct (Forall2_lookup_r _ _ _ _ _ Hal Hj) as ([i0 s] & _ & _ & Hs).
    cbn [snd] in Hs. unfold set_allocated in Hs.
    apply list_elem_of_lookup in Hgl as (k & Hk).
    destruct (Forall2_lookup_r _ _ _ _ _ Hs Hk) as ([g0 p] & _ & _ & _ & Hcell).
    cbn [snd] in Hcell. eexists. split; [exact Hcell|reflexivity].
Qed.

Section UnionKeysExact.
Import UnionPermissionReader.

Lemma applyGroups_keys (h : list Cell) (identifier : ResourceIdentifier)
    (ps : PermissionSet) (b : Building) (id : ResourceIdentifier) :
  id ∈ IdentifierMap.keys
         (fold_left
            (fun (result : Building) '(credential, permission) =>
               let resultSet := default [] (IdentifierMap.get identifier result) in
               let old := default emptyPermission (assoc_get credential resultSet) in
               IdentifierMap.set identifier
                 (assoc_set credential (applyPermissions (deref h permission) old)
                            resultSet) result) ps b)
  <-> (id = identifier /\ ps <> []) \/ id ∈ IdentifierMap.keys b.
Proof.
  revert b. induction ps as [|[c l] ps IH]; intros b; cbn [fold_left].
  - split; [auto|]. intros [[_ H]|H]; [contradiction|exact H].
  - rewrite IH. cbv zeta. rewrite set_keys_elem. split.
    + intros [[-> _]|[->|H]]; [left|left|right; exact H]; split; auto; discriminate.
    + intros [[-> _]|H]; [right; left; reflexivity|right; right; exact H].
Qed.

Lemma applyPermissionMap_keys_iff (h : list Cell) (pm : PermissionMap) (b : Building)
    (id : ResourceIdentifier) :
  id ∈ IdentifierMap.keys (applyPermissionMap h pm b)
  <-> (exists ps, (id, ps) ∈ pm /\ ps <> []) \/ id ∈ IdentifierMap.keys b.
Proof.
  unfold applyPermissionMap. revert b.
  induction pm as [|[identifier ps] pm IH]; intros b; cbn [fold_left].
  - split; [auto|]. intros [(ps & H & _)|H]; [|exact H].
    apply elem_of_nil in H. contradiction.
  - rewrite IH, applyGroups_keys. split.
    + intros [(ps' & Hin & Hne)|[[-> Hne]|H]].
      * left. exists ps'. split; [apply elem_of_cons; auto|exact Hne].
      * left. exists ps. split; [apply elem_of_cons; auto|exact Hne].
      * auto.
    + intros [(ps' & Hin & Hne)|H]; [|auto].
      apply elem_of_cons in Hin as [[= -> ->]|Hin]; [auto|].
      left. exists ps'. auto.
Qed.
End UnionKeysExact.

(** X6. The merged map of [combine] has an entry for exactly the
    identifiers that have, in some child result, a [PermissionSet] with at
    least one credential group: an identifier for which every child
    returned an empty set is dropped. *)
Theorem union_combine_keys (results : list PermissionMap) (w : World)
    (id : ResourceIdentifier) :
  exists pm w',
    UnionPermissionReader.combine results w = (Ok pm, w')
    /\ (id ∈ IdentifierMap.keys pm
        <-> exists r ps, r ∈ results /\ (id, ps) ∈ r /\ ps <> []).
Proof.
  unfold UnionPermissionReader.combine.
  destruct (allocMap_spec
              (fold_left (fun result permissionMap =>
                            UnionPermissionReader.applyPermissionMap (heap w)
                              permissionMap result) results []) w)
    as (pm & ext & Hrun & Hal).
  exists pm, (mkWorld (heap w ++ ext) (fetched w)). split; [exact Hrun|].
  rewrite (map_allocated_keys _ _ _ _ Hal). clear Hrun Hal.
  assert (forall b : UnionPermissionReader.Building,
            id ∈ IdentifierMap.keys
                   (fold_left (fun result permissionMap =>
                                 UnionPermissionReader.applyPermissionMap (heap w)
                                   permissionMap result) results b)
            <-> (exists r ps, r ∈ results /\ (id, ps) ∈ r /\ ps <> [])
                \/ id ∈ IdentifierMap.keys b) as H.
  { induction results as [|r results IH]; intros b; cbn [fold_left].
    - split; [auto|]. intros [(r & ps & H & _)|H]; [|exact H].
      apply elem_of_nil in H. contradiction.
    - rewrite IH, applyPermissionMap_keys_iff. split.
      + intros [(r' & ps & Hr & H)|[(ps & H)|H]].
        * left. exists r', ps. split; [apply elem_of_cons; auto|exact H].
        * left. exists r, ps. split; [apply elem_of_cons; auto|exact H].
        * auto.
      + intros [(r' & ps & Hr & H)|H]; [|auto].
        apply elem_of_cons in Hr as [->|Hr]; [right; left; eauto|].
        left. exists r', ps. auto. }
  rewrite H. split; [|auto]. intros [H'|H']; [exact H'|].
  apply elem_of_nil in H'. contradiction.
Qed.

(** ** AuxiliaryReader.ts *)

Lemma findAuxiliary_complete (this : AuxiliaryReader.t) (accessMap : AccessMap)
    (id : ResourceIdentifier) (modes : ModeSet) :
  (id, modes) ∈ accessMap ->
  isAuxiliaryIdentifier (AuxiliaryReader.auxiliaryStrategy this) id
  && negb (usesOwnAuthorization (AuxiliaryReader.auxiliaryStrategy this) id) = true ->
  (id, (getSubjectIdentifier (AuxiliaryReader.auxiliaryStrategy this) id, modes))
  ∈ AuxiliaryReader.findAuxiliary this accessMap.
Proof.
  intros Hin Ha. unfold AuxiliaryReader.findAuxiliary. apply elem_of_flat_map.
  exists (id, modes). split; [exact Hin|]. rewrite Ha. apply list_elem_of_singleton.
  reflexivity.
Qed.

Lemma findAuxiliary_wf (this : AuxiliaryReader.t) (accessMap : AccessMap) :
  wf_keys accessMap -> wf_keys (AuxiliaryReader.findAuxiliary this accessMap).
Proof.
  unfold wf_keys, AuxiliaryReader.findAuxiliary.
  induction accessMap as [|[k v] m IH]; intros Hwf; [constructor|].
  cbn [map fst flat_map] in *. apply list.NoDup_cons in Hwf as [Hk Hwf].
  destruct (isAuxiliaryIdentifier _ k && negb (usesOwnAuthorization _ k));
    cbn [app map fst]; [|auto].
  apply list.NoDup_cons. split; [|auto].
  intros Hin. apply Hk. apply list_elem_of_fmap in Hin as ([a [s ms]] & -> & Hin).
  apply findAuxiliary_elem in Hin as (Hin & _). cbn [fst].
  apply list_elem_of_fmap. exists (a, ms). auto.
Qed.

(** The loop of [AuxiliaryReader.handle]. *)
Lemma auxiliary_loop (auxMap : list (ResourceIdentifier * (ResourceIdentifier * ModeSet)))
    (R res : PermissionMap) :
  wf_keys auxMap ->
  (forall e e', e ∈ auxMap -> e' ∈ auxMap -> path (fst (snd e)) <> path (fst e')) ->
  (forall e, e ∈ auxMap ->
             IdentifierMap.get (fst (snd e)) res = IdentifierMap.get (fst (snd e)) R) ->
  let pm := fold_left
              (fun (result : PermissionMap) '(identifier, (subject, _)) =>
                 IdentifierMap.set identifier
                   (default [] (IdentifierMap.get subject result)) result)
              auxMap res in
  (forall e, e ∈ auxMap ->
             IdentifierMap.get (fst e) pm
             = Some (default [] (IdentifierMap.get (fst (snd e)) R)))
  /\ (forall id, path id ∉ map (fun e => path (fst e)) auxMap ->
                 IdentifierMap.get id pm = IdentifierMap.get id res).
Proof.
  revert res. induction auxMap as [|[k [s ms]] rest IH]; intros res Hwf Hsep Hsub; cbv zeta.
  - split; [|reflexivity]. intros e He. apply elem_of_nil in He. contradiction.
  - cbn [fold_left]. unfold wf_keys in Hwf. cbn [map fst] in Hwf.
    apply list.NoDup_cons in Hwf as [Hk Hwf].
    assert (IdentifierMap.get s res = IdentifierMap.get s R) as Hs.
    { apply (Hsub (k, (s, ms))). apply elem_of_cons. auto. }
    destruct (IH (IdentifierMap.set k (default [] (IdentifierMap.get s res)) res))
      as (Hdone & Hother).
    { exact Hwf. }
    { intros e e' He He'. apply Hsep; apply elem_of_cons; auto. }
    { intros e He. rewrite IdentifierMapFacts.get_set.
      destruct (decide (path (fst (snd e)) = path k)) as [E|Hne].
      - exfalso. apply (Hsep e (k, (s, ms))); [apply elem_of_cons; auto| |exact E].
        apply elem_of_cons. auto.
      - apply Hsub. apply elem_of_cons. auto. }
    split.
    + intros e He. apply elem_of_cons in He as [->|He]; [|exact (Hdone e He)].
      cbn [fst snd]. rewrite Hother by exact Hk.
      rewrite IdentifierMapFacts.get_set, Hs.
      destruct (decide (path k = path k)); congruence.
    + intros id Hid. cbn [map fst] in Hid. apply not_elem_of_cons in Hid as [Hne Hid].
      rewrite Hother by exact Hid. rewrite IdentifierMapFacts.get_set.
      destruct (decide (path id = path k)); [contradiction|reflexivity].
Qed.

(** X7. [AuxiliaryReader], provided no subject of an auxiliary identifier
    it handles is itself such an identifier of the input: the identifier
    is taken out of the access map handed to the source and its subject
    is asked for the modes of the identifier, together with those the
    input requires of the subject itself; in the result the identifier has
    the set the source returned for the subject (an empty one if it
    returned none), and every other identifier has what the source
    returned for it. The world is the one the source left. *)
Theorem auxiliaryReader_subject (this : AuxiliaryReader.t) (input : PermissionReaderInput)
    (w : World) (R : PermissionMap) (w1 : World)
    (auxiliary : ResourceIdentifier) (modes : ModeSet) :
  let strategy := AuxiliaryReader.auxiliaryStrategy this in
  let handled id :=
    isAuxiliaryIdentifier strategy id && negb (usesOwnAuthorization strategy id) in
  let auxMap := AuxiliaryReader.findAuxiliary this (accessMap input) in
  let updatedMap := updateAccessMap (map snd auxMap) (map fst auxMap) (accessMap input) in
  let subject := getSubjectIdentifier strategy auxiliary in
  wf_keys (accessMap input) ->
  (forall a b, a ∈ IdentifierMap.keys (accessMap input) ->
               b ∈ IdentifierMap.keys (accessMap input) ->
               handled a = true -> handled b = true ->
               path (getSubjectIdentifier strategy a) <> path b) ->
  AuxiliaryReader.reader this (mkInput (credentials input) updatedMap) w = (Ok R, w1) ->
  (auxiliary, modes) ∈ accessMap input ->
  handled auxiliary = true ->
  IdentifierMap.get auxiliary updatedMap = None
  /\ (exists merged,
        IdentifierMap.get subject updatedMap = Some merged
        /\ (forall m, m ∈ modes -> m ∈ merged)
        /\ (forall stored m, IdentifierMap.get subject (accessMap input) = Some stored ->
                             m ∈ stored -> m ∈ merged))
  /\ exists pm,
       AuxiliaryReader.handle this input w = (Ok pm, w1)
       /\ IdentifierMap.get auxiliary pm = Some (default [] (IdentifierMap.get subject R))
       /\ forall id,
            (forall a, a ∈ IdentifierMap.keys (accessMap input) -> handled a = true ->
                       path a <> path id) ->
            IdentifierMap.get id pm = IdentifierMap.get id R.
Proof.
  intros strategy handled auxMap updatedMap subject Hwf Hsep Hread Hin Ha.
  assert (wf_keys auxMap) as Hwfa by (apply findAuxiliary_wf; exact Hwf).
  assert (forall e, e ∈ auxMap ->
            fst e ∈ IdentifierMap.keys (accessMap input) /\ handled (fst e) = true
            /\ fst (snd e) = getSubjectIdentifier strategy (fst e)) as Helem.
  { intros [a [s ms]] He. apply findAuxiliary_elem in He as (He & Hx & Hy & ->).
    cbn [fst snd]. split; [exact (entry_key _ _ _ He)|]. split; [|reflexivity].
    unfold handled. fold strategy in Hx, Hy. rewrite Hx, Hy. reflexivity. }
  assert (forall e e', e ∈ auxMap -> e' ∈ auxMap -> path (fst (snd e)) <> path (fst e'))
    as Hsep'.
  { intros e e' He He'. destruct (Helem e He) as (H1 & H2 & ->).
    destruct (Helem e' He') as (H1' & H2' & _). apply Hsep; assumption. }
  assert ((auxiliary, (subject, modes)) ∈ auxMap) as Hmem
    by exact (findAuxiliary_complete this _ _ _ Hin Ha).
  assert (auxiliary ∈ map fst auxMap) as Hrem.
  { apply list_elem_of_fmap. exists (auxiliary, (subject, modes)). auto. }
  assert (subject ∉ map fst auxMap) as Hnrem.
  { intros Hs. apply list_elem_of_fmap in Hs as (e' & Hs & He').
    apply (Hsep' _ _ Hmem He'). cbn [fst snd]. rewrite Hs. reflexivity. }
  assert (auxiliary ∉ map fst (map snd auxMap)) as Hnadd.
  { intros Hs. rewrite map_map in Hs. apply list_elem_of_fmap in Hs as (e' & Hs & He').
    apply (Hsep' _ _ He' Hmem). cbn [fst snd]. rewrite <- Hs. reflexivity. }
  split; [|split].
  - apply get_None_key. unfold updatedMap. rewrite updateAccessMap_keys.
    intros [H|[_ H]]; contradiction.
  - destruct (IdentifierMap.get subject updatedMap) as [merged|] eqn:E.
    + exists merged. split; [reflexivity|].
      pose proof (updateAccessMap_get _ _ _ _ _ Hwf E) as Hm. split.
      * intros m Hmode. apply Hm. left. exists modes. split; [|exact Hmode].
        apply list_elem_of_fmap. exists (auxiliary, (subject, modes)). auto.
      * intros stored m Hs Hmode. apply Hm. right. split; [exact Hnrem|eauto].
    + exfalso. apply get_None_key in E. apply E. unfold updatedMap.
      rewrite updateAccessMap_keys. left. rewrite map_map.
      apply list_elem_of_fmap. exists (auxiliary, (subject, modes)). auto.
  - destruct (auxiliary_loop auxMap R R Hwfa Hsep') as (Hdone & Hother); [reflexivity|].
    eexists. split; [|split].
    + assert ((length auxMap =? 0)%nat = false) as Hlen.
      { destruct auxMap; [apply elem_of_nil in Hmem; contradiction|reflexivity]. }
      unfold updatedMap, auxMap in Hread, Hlen.
      unfold AuxiliaryReader.handle. cbv zeta. rewrite Hlen. unfold bind.
      rewrite Hread. reflexivity.
    + exact (Hdone _ Hmem).
    + intros id Hid. apply Hother. intros H.
      apply list_elem_of_fmap in H as (e & E & He).
      destruct (Helem e He) as (H1 & H2 & _). exact (Hid _ H1 H2 (eq_sym E)).
Qed.

(** ** PathBasedReader *)

Section PathBasedPartition.
Import PathBasedReader.
Variable this : t.

Lemma rget_rset (r r' : ReaderRef) (v : AccessMap) (l : list (ReaderRef * AccessMap)) :
  rget r (rset r' v l) = if decide (rid r = rid r') then Some v else rget r l.
Proof.
  induction l as [|[r0 v0] l IH]; cbn [rset rget].
  - destruct (decide (rid r = rid r')); reflexivity.
  - destruct (decide (rid r' = rid r0)) as [E|Hne]; cbn [rget].
    + destruct (decide (rid r = rid r')), (decide (rid r = rid r0)); congruence.
    + destruct (decide (rid r = rid r0)) as [E|Hne'].
      * destruct (decide (rid r = rid r')); congruence.
      * apply IH.
Qed.

Lemma rget_Some (r : ReaderRef) (v : AccessMap) (l : list (ReaderRef * AccessMap)) :
  rget r l = Some v -> exists r0, (r0, v) ∈ l /\ rid r0 = rid r.
Proof.
  induction l as [|[r0 v0] l IH]; cbn [rget]; [discriminate|].
  destruct (decide (rid r = rid r0)).
  - intros [= ->]. exists r0. split; [apply elem_of_cons; auto|congruence].
  - intros H. destruct (IH H) as (r1 & Hr1 & E). exists r1.
    split; [apply elem_of_cons; auto|exact E].
Qed.

(** The state of the loop of [matchReaders] after the entries [done]. *)
Lemma matchReaders_loop (entries done : AccessMap) (acc : list (ReaderRef * AccessMap)) :
  wf_keys (done ++ entries) ->
  (forall id modes r,
      (id, modes) ∈ done -> findReader this (path id) = Some r ->
      exists am, rget r acc = Some am /\ IdentifierMap.get id am = Some modes) ->
  (forall x id,
      x ∈ acc -> IdentifierMap.get id (snd x) <> None ->
      id ∈ IdentifierMap.keys done
      /\ exists r, findReader this (path id) = Some r /\ rid r = rid (fst x)) ->
  let result :=
    fold_left
      (fun result '(identifier, modes) =>
         match findReader this (path identifier) with
         | Some reader =>
             let matches := default [] (rget reader result) in
             rset reader (IdentifierMap.set identifier modes matches) result
         | None => result
         end) entries acc in
  (forall id modes r,
      (id, modes) ∈ done ++ entries -> findReader this (path id) = Some r ->
      exists am, rget r result = Some am /\ IdentifierMap.get id am = Some modes)
  /\ (forall x id,
        x ∈ result -> IdentifierMap.get id (snd x) <> None ->
        id ∈ IdentifierMap.keys (done ++ entries)
        /\ exists r, findReader this (path id) = Some r /\ rid r = rid (fst x)).
Proof.
  revert done acc. induction entries as [|[k v] entries IH];
    intros done acc Hwf Hdone Hacc; cbv zeta.
  - rewrite app_nil_r. cbn [fold_left]. split; assumption.
  - cbn [fold_left].
    replace (done ++ (k, v) :: entries) with ((done ++ [(k, v)]) ++ entries) in *
      by (rewrite <- app_assoc; reflexivity).
    assert (forall id modes, (id, modes) ∈ done -> path id <> path k) as Hfresh.
    { intros id modes Hin E. unfold wf_keys in Hwf. rewrite !map_app in Hwf.
      apply list.NoDup_app in Hwf as (Hwf & _ & _).
      apply list.NoDup_app in Hwf as (_ & Hdisj & _).
      apply (Hdisj (path id)).
      - apply list_elem_of_fmap. exists (id, modes). auto.
      - cbn [map fst]. rewrite E. apply list_elem_of_singleton. reflexivity. }
    apply IH; [exact Hwf| |].
    + intros id modes r Hin Hr. apply elem_of_app in Hin as [Hin|Hin].
      * destruct (Hdone id modes r Hin Hr) as (am & Ham & Hget).
        destruct (findReader this (path k)) as [reader|]; [|eauto].
        cbv zeta. rewrite rget_rset.
        destruct (decide (rid r = rid reader)) as [E|Hne]; [|eauto].
        eexists. split; [reflexivity|].
        assert (rget reader acc = rget r acc) as ->.
        { clear -E. induction acc as [|[r0 v0] acc IHa]; cbn [rget]; [reflexivity|].
          rewrite E. destruct (decide (rid reader = rid r0)); [reflexivity|exact IHa]. }
        rewrite Ham. cbn. rewrite IdentifierMapFacts.get_set.
        destruct (decide (path id = path k)) as [Ek|_]; [|exact Hget].
        exfalso. exact (Hfresh id modes Hin Ek).
      * apply list_elem_of_singleton in Hin. injection Hin as -> ->.
        rewrite Hr. cbv zeta. rewrite rget_rset.
        destruct (decide (rid r = rid r)); [|contradiction].
        eexists. split; [reflexivity|]. rewrite IdentifierMapFacts.get_set.
        destruct (decide (path k = path k)); congruence.
    + intros x id Hx Hget.
      assert (x ∈ acc -> id ∈ IdentifierMap.keys (done ++ [(k, v)])
                         /\ exists r, findReader this (path id) = Some r
                                      /\ rid r = rid (fst x)) as Hold.
      { intros Hin. destruct (Hacc x id Hin Hget) as (Hk & Hr). split; [|exact Hr].
        unfold IdentifierMap.keys in *. rewrite map_app. apply elem_of_app. auto. }
      destruct (findReader this (path k)) as [reader|] eqn:Ek; [|auto].
      cbv zeta in Hx. apply rset_elem in Hx as [->|Hx]; [|auto].
      cbn [fst snd] in *. rewrite IdentifierMapFacts.get_set in Hget.
      destruct (decide (path id = path k)) as [E|Hne].
      * apply id_path_eq in E. subst id. split; [|eauto].
        unfold IdentifierMap.keys. rewrite map_app. apply elem_of_app. right.
        apply list_elem_of_singleton. reflexivity.
      * destruct (rget reader acc) as [am|] eqn:Eg; cbn in Hget; [|contradiction].
        destruct (rget_Some _ _ _ Eg) as (r0 & Hr0 & E0).
        destruct (Hacc (r0, am) id Hr0 Hget) as (Hk & r & Hr & Erid). split.
        -- unfold IdentifierMap.keys in *. rewrite map_app. apply elem_of_app. auto.
        -- exists r. split; [exact Hr|]. cbn [fst] in Erid. congruence.
Qed.
End PathBasedPartition.

(** X8. [matchReaders] partitions the access map: an identifier for which
    [findReader] finds a reader is handed to that reader, with its modes,
    and to no other; one for which it finds none is handed to no reader. *)
Theorem pathBasedReader_partition (this : PathBasedReader.t) (accessMap : AccessMap)
    (id : ResourceIdentifier) (modes : ModeSet) :
  wf_keys accessMap ->
  (id, modes) ∈ accessMap ->
  match PathBasedReader.findReader this (path id) with
  | Some r =>
      (exists x, x ∈ PathBasedReader.matchReaders this accessMap
                 /\ PathBasedReader.rid (fst x) = PathBasedReader.rid r
                 /\ IdentifierMap.get id (snd x) = Some modes)
      /\ forall x, x ∈ PathBasedReader.matchReaders this accessMap ->
                   IdentifierMap.get id (snd x) <> None ->
                   PathBasedReader.rid (fst x) = PathBasedReader.rid r
  | None =>
      forall x, x ∈ PathBasedReader.matchReaders this accessMap ->
                IdentifierMap.get id (snd x) = None
  end.
Proof.
  intros Hwf Hin.
  destruct (matchReaders_loop this accessMap [] [] Hwf) as (Hall & Honly).
  { intros ? ? ? H. apply elem_of_nil in H. contradiction. }
  { intros ? ? H. apply elem_of_nil in H. contradiction. }
  cbn [app] in *. fold (PathBasedReader.matchReaders this accessMap) in Hall, Honly.
  destruct (PathBasedReader.findReader this (path id)) as [r|] eqn:E.
  - split.
    + destruct (Hall id modes r Hin E) as (am & Ham & Hget).
      destruct (rget_Some _ _ _ Ham) as (r0 & Hr0 & E0).
      exists (r0, am). auto.
    + intros x Hx Hget. destruct (Honly x id Hx Hget) as (_ & r' & Hr' & E').
      congruence.
  - intros x Hx. destruct (IdentifierMap.get id (snd x)) eqn:Eg; [|reflexivity].
    exfalso. destruct (Honly x id Hx) as (_ & r' & Hr' & _); [congruence|congruence].
Qed.

(** X9. [PathBasedReader.handle] does not fail when no reader matches:
    if [findReader] finds no reader for any identifier of the access map,
    no reader is called and the result is the empty map. *)
Theorem pathBasedReader_no_match (this : PathBasedReader.t)
    (input : PermissionReaderInput) (w : World) :
  (forall id, id ∈ IdentifierMap.keys (accessMap input) ->
              PathBasedReader.findReader this (path id) = None) ->
  PathBasedReader.matchReaders this (accessMap input) = []
  /\ PathBasedReader.handle this input w = (Ok [], w).
Proof.
  intros Hnone.
  assert (forall (entries : AccessMap) (acc : list (PathBasedReader.ReaderRef * AccessMap)),
            (forall id, id ∈ IdentifierMap.keys entries ->
                        PathBasedReader.findReader this (path id) = None) ->
            fold_left
              (fun result '(identifier, modes) =>
                 match PathBasedReader.findReader this (path identifier) with
                 | Some reader =>
                     let matches := default [] (PathBasedReader.rget reader result) in
                     PathBasedReader.rset reader
                       (IdentifierMap.set identifier modes matches) result
                 | None => result
                 end) entries acc = acc) as Hfold.
  { induction entries as [|[k v] m IH]; intros acc Hm; cbn [fold_left]; [reflexivity|].
    rewrite (Hm k) by (apply elem_of_cons; auto).
    apply IH. intros id Hid. apply Hm. apply elem_of_cons. auto. }
  assert (PathBasedReader.matchReaders this (accessMap input) = []) as Hm
    by (apply Hfold; exact Hnone).
  split; [exact Hm|]. unfold PathBasedReader.handle, bind. rewrite Hm. reflexivity.
Qed.

Lemma prefix_app (a p : string) :
  String.prefix a p = true -> exists rest, p = a +:+ rest.
Proof.
  revert p. induction a as [|c a IH]; intros p H.
  - exists p. reflexivity.
  - destruct p as [|c' p]; cbn in H; [discriminate|].
    destruct (ascii_dec c c') as [->|]; [|discriminate].
    destruct (IH p H) as (rest & ->). exists rest. reflexivity.
Qed.

Lemma string_app_assoc (a b c : string) : (a +:+ b) +:+ c = a +:+ (b +:+ c).
Proof.
  induction a as [|x a IH]; [reflexivity|].
  change (String x ((a +:+ b) +:+ c) = String x (a +:+ (b +:+ c))). rewrite IH. reflexivity.
Qed.

Lemma substring_all (s : string) : String.substring 0 (String.length s) s = s.
Proof. induction s as [|c s IH]; cbn; [reflexivity|]. rewrite IH. reflexivity. Qed.

Lemma slice_app (a rest : string) : slice (a +:+ rest) (String.length a) = rest.
Proof.
  unfold slice. rewrite string_length_app.
  replace (String.length a + String.length rest - String.length a)
    with (String.length rest) by lia.
  induction a as [|c a IH]; cbn [String.length String.append String.substring].
  - apply substring_all.
  - exact IH.
Qed.

Lemma trim_app_slash (s : string) :
  trimTrailingSlashes (s +:+ "/") = trimTrailingSlashes s.
Proof.
  induction s as [|c s IH]; [reflexivity|].
  change (trimTrailingSlashes (String c s +:+ "/"))
    with (match trimTrailingSlashes (s +:+ "/") with
          | EmptyString => if Ascii.eqb c "/" then EmptyString else String c EmptyString
          | r' => String c r'
          end).
  rewrite IH. reflexivity.
Qed.

Lemma trim_idempotent (s : string) :
  trimTrailingSlashes (trimTrailingSlashes s) = trimTrailingSlashes s.
Proof.
  induction s as [|c s IH]; [reflexivity|]. cbn [trimTrailingSlashes].
  destruct (trimTrailingSlashes s) as [|c' t] eqn:E.
  - destruct (Ascii.eqb c "/") eqn:Ec; [reflexivity|].
    cbn [trimTrailingSlashes]. rewrite Ec. reflexivity.
  - cbn [trimTrailingSlashes] in *. rewrite IH. reflexivity.
Qed.

Lemma find_first {A} (f : A -> bool) (l : list A) (x : A) :
  List.find f l = Some x ->
  exists before after,
    l = before ++ x :: after /\ f x = true /\ forall y, y ∈ before -> f y = false.
Proof.
  induction l as [|a l IH]; cbn [List.find]; [discriminate|].
  destruct (f a) eqn:E.
  - intros [= ->]. exists [], l. split; [reflexivity|]. split; [exact E|].
    intros y Hy. apply elem_of_nil in Hy. contradiction.
  - intros H. destruct (IH H) as (before & after & -> & Hx & Hb).
    exists (a :: before), after. split; [reflexivity|]. split; [exact Hx|].
    intros y Hy. apply elem_of_cons in Hy as [->|Hy]; auto.
Qed.

(** X10. [findReader] answers for paths below the base URL only, tests the
    expressions on the rest of the path with the slash before it, and
    returns the reader of the first expression that matches, in the order
    of the configuration. *)
Theorem pathBasedReader_first_match (baseUrl : string)
    (paths : list (PathBasedReader.RegExp * PathBasedReader.ReaderRef)) (p : string) :
  let this := PathBasedReader.new baseUrl paths in
  match PathBasedReader.findReader this p with
  | Some reader =>
      exists rest before regex after,
        p = ensureTrailingSlash baseUrl +:+ rest
        /\ paths = before ++ (regex, reader) :: after
        /\ regex ("/" +:+ rest) = true
        /\ forall x, x ∈ before -> fst x ("/" +:+ rest) = false
  | None =>
      String.prefix (ensureTrailingSlash baseUrl) p = false
      \/ exists rest,
           p = ensureTrailingSlash baseUrl +:+ rest
           /\ forall x, x ∈ paths -> fst x ("/" +:+ rest) = false
  end.
Proof.
  cbv zeta. unfold PathBasedReader.findReader.
  cbn [PathBasedReader.baseUrl PathBasedReader.paths PathBasedReader.new].
  destruct (String.prefix (ensureTrailingSlash baseUrl) p) eqn:Hp; [|left; reflexivity].
  destruct (prefix_app _ _ Hp) as (rest & ->).
  assert (slice (ensureTrailingSlash baseUrl +:+ rest)
                (String.length (trimTrailingSlashes (ensureTrailingSlash baseUrl)))
          = "/" +:+ rest) as ->.
  { unfold ensureTrailingSlash. rewrite trim_app_slash, trim_idempotent.
    rewrite string_app_assoc. apply slice_app. }
  destruct (List.find _ paths) as [[regex reader]|] eqn:E.
  - apply find_first in E as (before & after & -> & Hx & Hb).
    exists rest, before, regex, after. repeat split; [exact Hx|].
    intros [rx r] Hin. exact (Hb _ Hin).
  - right. exists rest. split; [reflexivity|]. intros [rx r] Hin.
    apply (find_none _ _ E (rx, r)). apply list_elem_of_In. exact Hin.
Qed.

(** ** The wrapping readers: nothing to do, and failures of the source *)

Lemma flat_map_nil {A B} (f : A -> list B) (l : list A) :
  (forall x, x ∈ l -> f x = []) -> flat_map f l = [].
Proof.
  induction l as [|a l IH]; intros H; cbn [flat_map]; [reflexivity|].
  rewrite (H a) by (apply elem_of_cons; auto). cbn [app].
  apply IH. intros x Hx. apply H. apply elem_of_cons. auto.
Qed.

(** X11. A wrapping reader with nothing to do is transparent: when no
    entry of the access map requires [create] or [delete]
    ([ParentContainerReader]), or no identifier is an auxiliary identifier
    handled by the reader ([AuxiliaryReader], [WebAclAuxiliaryReader]), the
    input goes to the source as it is and the outcome of the source,
    result or failure, is the outcome of the reader. *)
Theorem wrappers_transparent (input : PermissionReaderInput) (w : World) :
  (forall this : ParentContainerReader.t,
      (forall id modes, (id, modes) ∈ accessMap input ->
                        mode_has AccessMode.create modes
                        || mode_has AccessMode.delete modes = false) ->
      ParentContainerReader.handle this input w = ParentContainerReader.reader this input w)
  /\ (forall this : AuxiliaryReader.t,
        (forall id, id ∈ IdentifierMap.keys (accessMap input) ->
                    isAuxiliaryIdentifier (AuxiliaryReader.auxiliaryStrategy this) id
                    && negb (usesOwnAuthorization (AuxiliaryReader.auxiliaryStrategy this) id)
                    = false) ->
        AuxiliaryReader.handle this input w = AuxiliaryReader.reader this input w)
  /\ (forall this : WebAclAuxiliaryReader.t,
        (forall id, id ∈ IdentifierMap.keys (accessMap input) ->
                    isAuxiliaryIdentifier (WebAclAuxiliaryReader.aclStrategy this) id
                    = false) ->
        WebAclAuxiliaryReader.handle this input w
        = WebAclAuxiliaryReader.reader this input w).
Proof.
  split; [|split].
  - intros this Hnone. unfold ParentContainerReader.handle. cbv zeta.
    assert (ParentContainerReader.findParents this (accessMap input) = []) as ->;
      [|reflexivity].
    apply flat_map_nil. intros [id modes] Hin. rewrite (Hnone id modes Hin). reflexivity.
  - intros this Hnone. unfold AuxiliaryReader.handle. cbv zeta.
    assert (AuxiliaryReader.findAuxiliary this (accessMap input) = []) as ->;
      [|reflexivity].
    apply flat_map_nil. intros [id modes] Hin.
    rewrite (Hnone id) by exact (entry_key _ _ _ Hin). reflexivity.
  - intros this Hnone. unfold WebAclAuxiliaryReader.handle. cbv zeta.
    assert (WebAclAuxiliaryReader.findAcl this (accessMap input) = []) as ->;
      [|reflexivity].
    apply flat_map_nil. intros [id modes] Hin.
    rewrite (Hnone id) by exact (entry_key _ _ _ Hin). reflexivity.
Qed.


(** ** WebAclReader: rules and permissions *)

Lemma getSubjects_elem (s : Store) (p o x : Term) :
  x ∈ getSubjects s p o
  <-> exists q, q ∈ s /\ subject q = x /\ predicate q = p /\ object q = o.
Proof.
  unfold getSubjects. rewrite elem_of_remove_dups, list_elem_of_fmap. split.
  - intros (q & -> & Hq). apply list_elem_of_filter in Hq as [[Hp Ho] Hq]. eauto.
  - intros (q & Hq & <- & Hp & Ho). exists q. split; [reflexivity|].
    apply list_elem_of_filter. auto.
Qed.

(** X12. [filterStore] keeps the rules that name the target: a quad is in
    the result exactly when it is a quad of the store about a subject that
    has the target as its [acl:accessTo], for a direct ACL, or as its
    [acl:default] otherwise; whole rules are kept, nothing is added and no
    quad is kept twice. *)
Theorem filterStore_rules (store : Store) (target : string) (directAcl : bool) (q : Quad) :
  (q ∈ WebAclReader.filterStore store target directAcl
   <-> q ∈ store
       /\ exists rule,
            rule ∈ store
            /\ subject rule = subject q
            /\ predicate rule = NamedNode (if directAcl then ACL.accessTo else ACL.default)
            /\ object rule = NamedNode target)
  /\ NoDup (WebAclReader.filterStore store target directAcl).
Proof.
  unfold WebAclReader.filterStore. cbv zeta.
  set (subjects := getSubjects store
                     (NamedNode (if directAcl then ACL.accessTo else ACL.default))
                     (NamedNode target)).
  assert (forall (l : list Term) (acc : Store),
            (q ∈ fold_left (fun subjectData subject =>
                              addQuads subjectData (getQuads store subject)) l acc
             <-> q ∈ acc \/ (q ∈ store /\ subject q ∈ l))
            /\ (NoDup acc ->
                NoDup (fold_left (fun subjectData subject =>
                                    addQuads subjectData (getQuads store subject)) l acc)))
    as H.
  { induction l as [|x l IH]; intros acc; cbn [fold_left].
    - split; [|auto]. split; [auto|]. intros [H|[_ H]]; [exact H|].
      apply elem_of_nil in H. contradiction.
    - destruct (IH (addQuads acc (getQuads store x))) as [Hin Hnd]. split.
      + rewrite Hin. unfold addQuads, getQuads.
        rewrite elem_of_remove_dups, elem_of_app, list_elem_of_filter, elem_of_cons.
        split.
        * intros [[H|[E H]]|[H1 H2]]; auto.
        * intros [H|[H1 [->|H2]]]; auto.
      + intros _. apply Hnd. unfold addQuads. apply NoDup_remove_dups. }
  destruct (H subjects []) as [Hin Hnd]. split.
  - rewrite Hin. unfold subjects. rewrite getSubjects_elem. split.
    + intros [H'|[Hq (rule & Hr)]]; [apply elem_of_nil in H'; contradiction|].
      split; [exact Hq|]. exists rule. exact Hr.
    + intros [Hq (rule & Hr)]. right. split; [exact Hq|]. exists rule. exact Hr.
  - apply Hnd. constructor.
Qed.

(** X13. [determinePermissions]: without a credential the permission is
    empty. With one, and with modes written as IRIs, [read] is [true]
    exactly when a rule the access checker accepts has the mode
    [acl:Read], [append] when one has [acl:Write] or [acl:Append], [write]
    when one has [acl:Write], [control] when one has [acl:Control];
    [create] and [delete] are never set, and no mode is ever [false]. The
    permission is a new object each time. *)
Theorem determinePermissions_table (this : WebAclReader.t) (acl : Store) (w : World) :
  WebAclReader.determinePermissions this acl None w
  = (Ok (length (heap w)), mkWorld (heap w ++ [mkCell false emptyPermission]) (fetched w))
  /\ forall credential,
       (forall q, q ∈ acl -> predicate q = NamedNode ACL.mode ->
                  includes (term_value (object q)) ":" = true) ->
       exists p,
         WebAclReader.determinePermissions this acl (Some credential) w
         = (Ok (length (heap w)), mkWorld (heap w ++ [mkCell false p]) (fetched w))
         /\ (p_read p = Some true <-> granted this acl credential ACL.Read)
         /\ (p_append p = Some true <->
               granted this acl credential ACL.Write
               \/ granted this acl credential ACL.Append)
         /\ (p_write p = Some true <-> granted this acl credential ACL.Write)
         /\ (p_control p = Some true <-> granted this acl credential ACL.Control)
         /\ p_create p = None /\ p_delete p = None
         /\ forall m, field m p <> Some false.
Proof.
  split; [reflexivity|]. intros credential Hiri.
  apply determinePermissions_plain.
  intros rule o _ _ Ho. apply iri_is_plain.
  unfold getObjects in Ho. apply elem_of_remove_dups, list_elem_of_fmap in Ho as (q & -> & Hq).
  apply list_elem_of_filter in Hq as [[_ Hp] Hq]. exact (Hiri q Hq Hp).
Qed.

(** ** WebAclReader: the walk up the hierarchy *)

Lemma ancestor_parent (s : IdentifierStrategy) (n : nat) (id : ResourceIdentifier) :
  ancestor s n (getParentContainer s id) = ancestor s (S n) id.
Proof.
  unfold ancestor. symmetry. apply Nat.iter_succ_r.
Qed.

(** X14. [getAclRecursive] finds the nearest ACL document: with enough
    fuel for the length of the path it ends, and when it returns, the
    match is the identifier itself or a container above it, with the
    document the store holds for its ACL resource; every identifier on
    the way had no ACL document and was not a root container, and the
    store has been asked once for each identifier on the way, from the
    bottom up, and for nothing else. *)
Theorem getAclRecursive_nearest (this : WebAclReader.t) (fuel : nat)
    (id : ResourceIdentifier) (w : World) :
  parent_shorter (WebAclReader.identifierStrategy this) ->
  String.length (path id) < fuel ->
  let up n := ancestor (WebAclReader.identifierStrategy this) n id in
  let acl n := getAuxiliaryIdentifier (WebAclReader.aclStrategy this) (up n) in
  match WebAclReader.getAclRecursive this fuel id w with
  | (Ok found, w') =>
      exists n,
        WebAclReader.identifier found = up n
        /\ getRepresentation (WebAclReader.aclStore this) (acl n)
           = inr (WebAclReader.store found)
        /\ (forall k, k < n ->
              isRootContainer (WebAclReader.identifierStrategy this) (up k) = false
              /\ exists e, getRepresentation (WebAclReader.aclStore this) (acl k) = inl e
                           /\ isNotFound e = true)
        /\ w' = mkWorld (heap w) (fetched w ++ map (fun k => path (acl k)) (seq 0 (S n)))
  | (Throw e, _) => discovery_error this e
  | (OutOfFuel, _) => False
  end.
Proof.
  intros Hparent. revert id w.
  induction fuel as [|fuel IH]; intros id w Hfuel; [lia|]. cbv zeta.
  rewrite getAclRecursive_step. cbv zeta.
  destruct (getRepresentation _ _) as [error|quads] eqn:Eget.
  - destruct (isNotFound error) eqn:Enf.
    + destruct (isRootContainer _ _) eqn:Eroot.
      * left. split; [reflexivity|]. exists id, error. auto.
      * pose proof (Hparent id Eroot) as Hlt.
        specialize (IH (getParentContainer (WebAclReader.identifierStrategy this) id)
                       (requested w (getAuxiliaryIdentifier
                                       (WebAclReader.aclStrategy this) id))).
        cbv zeta in IH.
        destruct (WebAclReader.getAclRecursive this fuel _ _) as [[found|e|] w'].
        -- destruct IH as (n & Hid & Hdoc & Hway & Hw); [lia|].
           exists (S n). rewrite ancestor_parent in Hid, Hdoc.
           split; [exact Hid|]. split; [exact Hdoc|]. split.
           ++ intros k Hk. destruct k as [|k].
              ** split; [exact Eroot|]. exists error. auto.
              ** rewrite <- !ancestor_parent. apply Hway. lia.
           ++ rewrite Hw. unfold requested. cbn [heap fetched].
              rewrite <- app_assoc. f_equal. f_equal.
              change (seq 0 (S (S n))) with (0 :: seq 1 (S n)).
              rewrite <- (seq_shift (S n) 0). cbn [map app]. rewrite map_map.
              f_equal. apply map_ext. intros k. rewrite ancestor_parent. reflexivity.
        -- apply IH. lia.
        -- apply IH. lia.
    + right. exists id, error. auto.
  - exists 0. split; [reflexivity|]. split; [exact Eget|]. split; [lia|]. reflexivity.
Qed.

(** ** WebAclReader: the objects of the result *)

Section PermissionObjects.
Import WebAclReader.
Variable this : t.

Lemma applyAclMode_grants (p : Permission) (s : string) (w : World)
    (p' : Permission) (w' : World) :
  applyAclMode p s w = (Ok p', w') -> grants_only p -> w' = w /\ grants_only p'.
Proof.
  unfold applyAclMode. destruct (modesMap s) as [modes|] eqn:E.
  - intros [= <- <-] (Hf & Hc & Hd). split; [reflexivity|].
    assert (forall m, field m (fold_left (fun p mode => set_field mode (Some true) p)
                                         modes p)
                      = if bool_decide (m ∈ modes) then Some true else field m p) as Hm
      by (intros m; apply set_true_field).
    split; [|split].
    + intros m. rewrite Hm. destruct (bool_decide _); [discriminate|apply Hf].
    + pose proof (Hm AccessMode.create) as H. cbn [field] in H. rewrite H.
      rewrite bool_decide_eq_false_2; [exact Hc|].
      intros Hin. exact (modesMap_table s modes AccessMode.create E Hin).
    + pose proof (Hm AccessMode.delete) as H. cbn [field] in H. rewrite H.
      rewrite bool_decide_eq_false_2; [exact Hd|].
      intros Hin. exact (modesMap_table s modes AccessMode.delete E Hin).
  - destruct (bool_decide _); [discriminate|]. intros [= <- <-]. auto.
Qed.

Lemma determinePermissions_object (acl : Store) (credential : option Credential)
    (w : World) (l : loc) (w' : World) :
  determinePermissions this acl credential w = (Ok l, w') ->
  exists p, l = length (heap w)
            /\ w' = mkWorld (heap w ++ [mkCell false p]) (fetched w)
            /\ grants_only p.
Proof.
  assert (grants_only emptyPermission) as Hempty.
  { split; [intros m; destruct m; discriminate|]. split; reflexivity. }
  unfold determinePermissions. cbv zeta. destruct credential as [credential|].
  - intros Hrun. apply bind_inv_Ok in Hrun as (p & w1 & Hloop & Halloc).
    unfold alloc in Halloc. injection Halloc as <- <-.
    assert (w1 = w /\ grants_only p) as [-> Hp].
    { eapply (foldM_invariant _ (fun _ p0 w0 => w0 = w /\ grants_only p0));
        [| |exact Hloop].
      - auto.
      - cbv beta. intros _ rule p1 w2 p2 w3 [-> Hp1] Hbody.
        destruct (accessChecker this acl rule credential).
        + eapply (foldM_invariant _ (fun _ p0 w0 => w0 = w /\ grants_only p0));
            [| |exact Hbody].
          * auto.
          * cbv beta. intros _ s p3 w4 p4 w5 [-> Hp3] Hstep.
            exact (applyAclMode_grants _ _ _ _ _ Hstep Hp3).
        + injection Hbody as <- <-. auto. }
    exists p. auto.
  - unfold alloc. intros [= <- <-]. exists emptyPermission. auto.
Qed.

Lemma findPermissions_objects (aclMap : list (Store * list ResourceIdentifier))
    (credentials : CredentialSet) (w : World) (pm : PermissionMap) (w' : World) :
  NoDup (map path (filed aclMap)) ->
  findPermissions this aclMap credentials w = (Ok pm, w') ->
  permissions_found (heap w) aclMap pm w'.
Proof.
  intros Hnd Hrun. unfold findPermissions in Hrun.
  eapply (foldM_invariant_prefix _ (fun done res w0 => permissions_found (heap w) done res w0));
    [| |exact Hrun].
  - constructor.
    + exists []. rewrite app_nil_r. reflexivity.
    + intros id ps. discriminate.
    + intros e He. apply elem_of_nil in He. contradiction.
  - cbv beta. intros done [s ids] rest res w1 res2 w2 El [[ext Hext] Hsets Hshared] Hbody.
    apply bind_inv_Ok in Hbody as (lp & w3 & Hp & Hbody).
    apply bind_inv_Ok in Hbody as (la & w4 & Ha & Hret).
    cbn in Hret. injection Hret as <- <-.
    apply determinePermissions_object in Hp as (pp & -> & -> & Hpp).
    apply determinePermissions_object in Ha as (pa & -> & -> & Hpa).
    cbn [heap fetched] in *.
    assert ((heap w1 ++ [mkCell false pp]) ++ [mkCell false pa]
            = heap w ++ (ext ++ [mkCell false pp; mkCell false pa])) as Hheap.
    { rewrite Hext, <- !app_assoc. reflexivity. }
    assert (forall l c, heap w1 !! l = Some c ->
              ((heap w1 ++ [mkCell false pp]) ++ [mkCell false pa]) !! l = Some c) as Hkeep.
    { intros l c Hl. apply lookup_app_l_Some, lookup_app_l_Some. exact Hl. }
    constructor.
    + eexists. exact Hheap.
    + intros id ps. rewrite fold_set_get.
      destruct (bool_decide (id ∈ ids)).
      * intros [= <-]. exists (length (heap w1)), (length (heap w1 ++ [mkCell false pp])),
          pp, pa.
        split; [reflexivity|].
        assert (length (heap w1) = length (heap w) + length ext) as Hlen
          by (rewrite Hext, length_app; reflexivity).
        split; [lia|]. split; [rewrite length_app; lia|].
        split; [|split; [exact Hpp|split]].
        -- apply lookup_app_l_Some. rewrite lookup_app_r by lia.
           replace (length (heap w1) - length (heap w1)) with 0 by lia. reflexivity.
        -- cbn [heap]. rewrite lookup_app_r by lia.
           replace (length (heap w1 ++ [mkCell false pp])
                    - length (heap w1 ++ [mkCell false pp])) with 0 by lia.
           reflexivity.
        -- exact Hpa.
      * intros Hget. destruct (Hsets id ps Hget)
          as (lp & la & pp0 & pa0 & -> & H1 & H2 & H3 & H4 & H5 & H6).
        exists lp, la, pp0, pa0. repeat split; auto; try apply H4; try apply H6.
    + intros e He. apply elem_of_app in He as [He|He].
      * destruct (Hshared e He) as (ps & Hps). exists ps. intros id Hid.
        rewrite fold_set_get. rewrite bool_decide_eq_false_2; [exact (Hps id Hid)|].
        intros Hin. rewrite El in Hnd. unfold filed in Hnd.
        rewrite flat_map_app, map_app in Hnd.
        apply list.NoDup_app in Hnd as (_ & Hdisj & _).
        apply (Hdisj (path id)).
        -- apply list_elem_of_fmap. exists id. split; [reflexivity|].
           apply elem_of_flat_map. exists e. auto.
        -- cbn [flat_map snd]. rewrite map_app. apply elem_of_app. left.
           apply list_elem_of_fmap. exists id. auto.
      * apply list_elem_of_singleton in He. subst e. cbn [snd].
        eexists. intros id Hid. rewrite fold_set_get.
        rewrite bool_decide_eq_true_2 by exact Hid. reflexivity.
Qed.
End PermissionObjects.

Lemma filed_filterAclMap (m : list (WebAclReader.AclMatch * list ResourceIdentifier)) :
  filed (WebAclReader.filterAclMap m) ≡ₚ filed m.
Proof.
  unfold filed, WebAclReader.filterAclMap.
  induction m as [|[found targets] m IH]; [reflexivity|].
  cbn [flat_map snd]. rewrite flat_map_app. apply Permutation_app; [|exact IH].
  rewrite flat_map_app.
  assert (forall (P : ResourceIdentifier -> Prop) `{!forall x, Decision (P x)} (s : Store),
            flat_map snd
              (if (0 <? length (filter P targets))%nat then [(s, filter P targets)] else [])
            = filter P targets) as Hpart.
  { intros P HP s. destruct (Nat.ltb_spec 0 (length (filter P targets))) as [Hlt|Hge].
    - cbn [flat_map snd]. apply app_nil_r.
    - destruct (filter P targets); [reflexivity|cbn in Hge; lia]. }
  rewrite !Hpart. apply filter_app_complement.
Qed.

Lemma getAclMatches_nodup (this : WebAclReader.t) (fuel : nat)
    (targets : list ResourceIdentifier)
    (storeMap sm : list (WebAclReader.AclMatch * list ResourceIdentifier)) (w w' : World) :
  NoDup (map path (filed storeMap ++ targets)) ->
  WebAclReader.getAclMatches this fuel targets storeMap w = (Ok sm, w') ->
  NoDup (map path (filed sm)).
Proof.
  revert targets storeMap w.
  induction fuel as [|fuel IH]; intros targets storeMap w Hnd Hrun.
  - destruct targets as [|x targets]; [|discriminate].
    cbn in Hrun. injection Hrun as <- _. rewrite app_nil_r in Hnd. exact Hnd.
  - destruct targets as [|x targets'].
    + cbn in Hrun. injection Hrun as <- _. rewrite app_nil_r in Hnd. exact Hnd.
    + cbn [WebAclReader.getAclMatches] in Hrun.
      apply bind_inv_Ok in Hrun as (found & w1 & _ & Hrun).
      apply IH in Hrun; [exact Hrun|].
      unfold filed in *. rewrite flat_map_app. cbn [flat_map snd]. rewrite app_nil_r.
      rewrite <- app_assoc.
      eapply NoDup_Permutation_proper; [|exact Hnd].
      apply fmap_Permutation, Permutation_app; [reflexivity|].
      apply filter_app_complement.
Qed.

(** X15. In the map [findPermissions] returns every identifier has a set
    for the public and the agent group whose objects are new, not frozen,
    and hold no [false] and neither [create] nor [delete]; the objects
    that were there before are untouched. The identifiers filed under one
    filtered ACL store all refer to the same two objects. The only
    failure is the [TypeError] of [determinePermissions]. *)
Theorem findPermissions_shares (this : WebAclReader.t)
    (aclMap : list (Store * list ResourceIdentifier)) (credentials : CredentialSet)
    (w : World) :
  NoDup (map path (filed aclMap)) ->
  exists outcome w',
    WebAclReader.findPermissions this aclMap credentials w = (outcome, w')
    /\ match outcome with
       | Ok pm =>
           (exists ext, heap w' = heap w ++ ext)
           /\ (forall id ps,
                 IdentifierMap.get id pm = Some ps ->
                 exists lp la pp pa,
                   ps = [(CredentialGroup.public, lp); (CredentialGroup.agent, la)]
                   /\ length (heap w) <= lp /\ length (heap w) <= la
                   /\ heap w' !! lp = Some (mkCell false pp) /\ grants_only pp
                   /\ heap w' !! la = Some (mkCell false pa) /\ grants_only pa)
           /\ (forall s ids a b,
                 (s, ids) ∈ aclMap -> a ∈ ids -> b ∈ ids ->
                 IdentifierMap.get a pm = IdentifierMap.get b pm
                 /\ IdentifierMap.get a pm <> None)
       | Throw e => e = TypeError "modesMap[aclMode] is not iterable"
       | OutOfFuel => False
       end.
Proof.
  intros Hnd.
  destruct (findPermissions_loop this aclMap credentials [] w)
    as (outcome & w' & Hrun & _ & Hres & _).
  { constructor. }
  { intros id ps. discriminate. }
  fold (WebAclReader.findPermissions this aclMap credentials) in Hrun.
  exists outcome, w'. split; [exact Hrun|].
  destruct outcome as [pm|e|]; [|exact Hres|exact Hres].
  destruct (findPermissions_objects this aclMap credentials w pm w' Hnd Hrun)
    as [Hheap Hsets Hshared].
  split; [exact Hheap|]. split; [exact Hsets|].
  intros s ids a b Hin Ha Hb. destruct (Hshared (s, ids) Hin) as (ps & Hps).
  cbn [snd] in Hps. rewrite (Hps a Ha), (Hps b Hb). split; [reflexivity|discriminate].
Qed.

(** X16. [WebAclReader.handle] never denies: whatever it returns holds
    [true] or nothing for every identifier, group and mode, and nothing
    for [create] and [delete]. It assigns to no object that was there
    before the call, and the objects of its result are new and not
    frozen. *)
Theorem webAclReader_grants_only (this : WebAclReader.t) (fuel : nat)
    (input : PermissionReaderInput) (w : World) :
  parent_shorter (WebAclReader.identifierStrategy this) ->
  (forall id, id ∈ IdentifierMap.keys (accessMap input) ->
              String.length (path id) + length (accessMap input) < fuel) ->
  wf_keys (accessMap input) ->
  exists outcome w',
    WebAclReader.handle this fuel input w = (outcome, w')
    /\ match outcome with
       | Ok pm =>
           (exists ext, heap w' = heap w ++ ext)
           /\ (forall id g m,
                 (view (heap w') pm id g m = Some true \/ view (heap w') pm id g m = None)
                 /\ (m = AccessMode.create \/ m = AccessMode.delete ->
                     view (heap w') pm id g m = None))
           /\ (forall id ps g l,
                 IdentifierMap.get id pm = Some ps -> assoc_get g ps = Some l ->
                 length (heap w) <= l /\ live (heap w') l)
       | Throw e =>
           discovery_error this e \/ e = TypeError "modesMap[aclMode] is not iterable"
       | OutOfFuel => False
       end.
Proof.
  intros Hparent Hfuel Hwf. unfold WebAclReader.handle. cbv zeta.
  destruct (getAclMatches_spec this Hparent fuel
              (IdentifierMap.keys (accessMap input)) [] w)
    as (outcome & traces & Hrun & _ & _ & Hres).
  { intros t Ht. unfold IdentifierMap.keys. rewrite length_map. auto. }
  unfold bind. rewrite Hrun.
  destruct outcome as [sm|e|]; [| |contradiction].
  - assert (NoDup (map path (filed (WebAclReader.filterAclMap sm)))) as Hnd.
    { eapply NoDup_Permutation_proper;
        [apply fmap_Permutation, filed_filterAclMap|].
      eapply (getAclMatches_nodup this fuel _ [] sm w); [|exact Hrun].
      cbn [filed flat_map app]. unfold IdentifierMap.keys. rewrite map_map. exact Hwf. }
    destruct (findPermissions_loop this (WebAclReader.filterAclMap sm)
                (credentials input) []
                (mkWorld (heap w) (fetched w ++ concat traces)))
      as (outcome & w' & Hrun' & _ & Hres' & _).
    { constructor. }
    { intros id ps. discriminate. }
    fold (WebAclReader.findPermissions this (WebAclReader.filterAclMap sm)
            (credentials input)) in Hrun'.
    exists outcome, w'. split; [exact Hrun'|].
    destruct outcome as [pm|e|]; [|right; exact Hres'|exact Hres'].
    destruct (findPermissions_objects this _ _ _ pm w' Hnd Hrun')
      as [Hheap Hsets _]. cbn [heap] in *.
    split; [exact Hheap|]. split.
    + intros id g m. unfold view.
      destruct (IdentifierMap.get id pm) as [ps|] eqn:E; [|split; auto].
      destruct (Hsets id ps E)
        as (lp & la & pp & pa & -> & _ & _ & Hlp & (Hfp & Hcp & Hdp) & Hla & (Hfa & Hca & Hda)).
      cbn [assoc_get]. destruct (decide (g = CredentialGroup.public)).
      * unfold deref. rewrite Hlp. cbn [content]. split.
        -- specialize (Hfp m). destruct (field m pp) as [[|]|]; auto. contradiction.
        -- intros [-> | ->]; assumption.
      * destruct (decide (g = CredentialGroup.agent)); [|split; auto].
        unfold deref. rewrite Hla. cbn [content]. split.
        -- specialize (Hfa m). destruct (field m pa) as [[|]|]; auto. contradiction.
        -- intros [-> | ->]; assumption.
    + intros id ps g l Hps Hl.
      destruct (Hsets id ps Hps)
        as (lp & la & pp & pa & -> & H1 & H2 & Hlp & _ & Hla & _).
      cbn [assoc_get] in Hl. destruct (decide (g = CredentialGroup.public)).
      * injection Hl as <-. split; [exact H1|]. eexists. split; [exact Hlp|reflexivity].
      * destruct (decide (g = CredentialGroup.agent)); [|discriminate].
        injection Hl as <-. split; [exact H2|]. eexists. split; [exact Hla|reflexivity].
  - exists (Throw e), (mkWorld (heap w) (fetched w ++ concat traces)).
    split; [reflexivity|]. left. exact Hres.
Qed.

(** ** IntermediateModesExtractor *)

Lemma set_present_map {V} (k : ResourceIdentifier) (v : V) (m : IdentifierMap V) :
  wf_keys m ->
  IdentifierMap.get k m <> None ->
  IdentifierMap.set k v m
  = map (fun e => if decide (path (fst e) = path k) then (k, v) else e) m.
Proof.
  unfold wf_keys. induction m as [|[k0 v0] m IH]; cbn [IdentifierMap.get IdentifierMap.set map fst];
    intros Hwf Hget; [contradiction|].
  apply list.NoDup_cons in Hwf as [Hk Hwf].
  destruct (decide (path k = path k0)) as [E|Hne].
  - destruct (decide (path k0 = path k)); [|congruence]. f_equal.
    symmetry. rewrite <- (map_id m) at 2. apply map_ext_in. intros [k1 v1] Hin. cbn [fst].
    destruct (decide (path k1 = path k)) as [E1|]; [|reflexivity].
    exfalso. apply Hk. rewrite <- E, <- E1.
    apply list_elem_of_fmap. exists (k1, v1). split; [reflexivity|].
    apply list_elem_of_In. exact Hin.
  - destruct (decide (path k0 = path k)); [congruence|]. f_equal. apply IH; assumption.
Qed.

Lemma lookup_map {A B} (f : A -> B) (l : list A) (j : nat) :
  map f l !! j = f <$> (l !! j).
Proof.
  revert j. induction l as [|a l IH]; intros [|j]; cbn; auto.
Qed.

Lemma weight_step (paths : list string) (i : nat) (p : string) :
  paths !! i = Some p -> weight paths i = S (String.length p) + weight paths (S i).
Proof.
  unfold weight. intros H. rewrite (drop_S _ _ _ H). reflexivity.
Qed.

Lemma weight_app (paths : list string) (i : nat) (p : string) :
  i <= length paths ->
  weight (paths ++ [p]) i = weight paths i + S (String.length p).
Proof.
  unfold weight. intros H. rewrite drop_app_le by exact H.
  rewrite map_app, list_sum_app. cbn. lia.
Qed.

Section Extractor.
Import IntermediateModesExtractor.
Variable this : t.
Hypothesis Hshort : parent_shorter (strategy this).
Hypothesis Hroots : roots_exist this.

(** One call of [addAccessModes] for a missing parent. *)
Lemma add_create_step (m : AccessMap) (parent : ResourceIdentifier) :
  wf_keys m ->
  hasResource (resourceSet this) parent = false ->
  let m1 := addAccessModes parent [AccessMode.create] m in
  wf_keys m1
  /\ (create_below_root (strategy this) m -> create_below_root (strategy this) m1)
  /\ extends_with_create (resourceSet this) m m1
  /\ (exists modes, IdentifierMap.get parent m1 = Some modes /\ AccessMode.create ∈ modes)
  /\ (key_paths m1 = key_paths m \/ key_paths m1 = key_paths m ++ [path parent])
  /\ (forall j key modes,
        m !! j = Some (key, modes) ->
        exists modes1, m1 !! j = Some (key, modes1) /\ forall x, x ∈ modes -> x ∈ modes1).
Proof using Hroots.
  intros Hwf Hmissing. cbv zeta.
  assert (forall v, create_below_root (strategy this) m ->
                    create_below_root (strategy this) (IdentifierMap.set parent v m))
    as Hbelow.
  { intros v Hm id modes Hin Hc.
    apply (IdentifierMapFacts.get_elem _ _ _ (IdentifierMapFacts.set_wf _ _ _ Hwf)) in Hin.
    rewrite IdentifierMapFacts.get_set in Hin.
    destruct (decide (path id = path parent)) as [Ep|Hne].
    - apply id_path_eq in Ep. subst id.
      destruct (isRootContainer (strategy this) parent) eqn:Er; [|reflexivity].
      apply Hroots in Er. congruence.
    - apply IdentifierMapFacts.get_Some_elem in Hin as (k' & Ek & Hin).
      apply id_path_eq in Ek. subst k'. exact (Hm id modes Hin Hc). }
  unfold addAccessModes.
  destruct (IdentifierMap.get parent m) as [stored|] eqn:E.
  - split; [apply IdentifierMapFacts.set_wf; exact Hwf|]. split; [apply Hbelow|].
    split; [|split; [|split]].
    + split.
      * intros id modes Hid. rewrite IdentifierMapFacts.get_set.
        destruct (decide (path id = path parent)) as [Ep|Hne].
        -- rewrite (get_path id parent m Ep), E in Hid. injection Hid as <-.
           eexists. split; [reflexivity|]. split.
           ++ intros x Hx. apply newSet_elem, elem_of_app. auto.
           ++ intros x Hx. apply newSet_elem, elem_of_app in Hx as [Hx|Hx]; [|auto].
              apply list_elem_of_singleton in Hx. auto.
        -- exists modes. auto.
      * intros id modes' Hnone. rewrite IdentifierMapFacts.get_set.
        destruct (decide (path id = path parent)) as [Ep|Hne]; [|congruence].
        rewrite (get_path id parent m Ep), E in Hnone. discriminate.
    + rewrite IdentifierMapFacts.get_set.
      destruct (decide (path parent = path parent)); [|contradiction].
      eexists. split; [reflexivity|]. apply newSet_elem, elem_of_app. left.
      apply list_elem_of_singleton. reflexivity.
    + left. unfold key_paths. rewrite IdentifierMapFacts.set_paths.
      rewrite bool_decide_eq_true_2; [reflexivity|].
      apply IdentifierMapFacts.get_Some_elem in E as (k' & Ek & Hin).
      apply list_elem_of_fmap. exists (k', stored). split; [symmetry; exact Ek|exact Hin].
    + intros j key modes Hj.
      rewrite set_present_map by (try exact Hwf; congruence).
      as_list.
      rewrite lookup_map, Hj. cbn [fmap option_fmap option_map fst].
      destruct (decide (path key = path parent)) as [Ep|Hne].
      * apply id_path_eq in Ep. subst key.
        assert (modes = stored) as ->.
        { apply list_elem_of_lookup_2 in Hj.
          apply (IdentifierMapFacts.get_elem _ _ _ Hwf) in Hj. congruence. }
        eexists. split; [reflexivity|]. intros x Hx. apply newSet_elem, elem_of_app. auto.
      * exists modes. auto.
  - assert (path parent ∉ map (fun kv : ResourceIdentifier * ModeSet => path (fst kv)) m)
      as Hfresh by (apply IdentifierMapFacts.get_None; exact E).
    split; [apply IdentifierMapFacts.set_wf; exact Hwf|]. split; [apply Hbelow|].
    split; [|split; [|split]].
    + split.
      * intros id modes Hid. rewrite IdentifierMapFacts.get_set.
        destruct (decide (path id = path parent)) as [Ep|Hne].
        -- rewrite (get_path id parent m Ep), E in Hid. discriminate.
        -- exists modes. auto.
      * intros id modes' Hnone. rewrite IdentifierMapFacts.get_set.
        destruct (decide (path id = path parent)) as [Ep|Hne]; [|congruence].
        intros [= <-]. apply id_path_eq in Ep. subst id. split; [exact Hmissing|].
        intros x. apply list_elem_of_singleton.
    + rewrite IdentifierMapFacts.get_set.
      destruct (decide (path parent = path parent)); [|contradiction].
      eexists. split; [reflexivity|]. apply list_elem_of_singleton. reflexivity.
    + right. unfold key_paths. rewrite set_fresh by exact Hfresh. rewrite map_app. reflexivity.
    + intros j key modes Hj. rewrite set_fresh by exact Hfresh.
      exists modes. split; [|auto]. apply lookup_app_l_Some. exact Hj.
Qed.

Lemma extends_refl (m : AccessMap) : extends_with_create (resourceSet this) m m.
Proof using Type.
  split.
  - intros id modes H. exists modes. auto.
  - intros id modes' H1 H2. congruence.
Qed.

Lemma extends_trans (m m1 r : AccessMap) :
  extends_with_create (resourceSet this) m m1 ->
  extends_with_create (resourceSet this) m1 r ->
  extends_with_create (resourceSet this) m r.
Proof using Type.
  intros [Ha Hb] [Ha' Hb']. split.
  - intros id modes H. destruct (Ha id modes H) as (modes1 & H1 & Hsub & Hsup).
    destruct (Ha' id modes1 H1) as (modes' & H' & Hsub' & Hsup').
    exists modes'. split; [exact H'|]. split; [auto|].
    intros x Hx. apply Hsup' in Hx as [Hx|Hx]; auto.
  - intros id modes' Hnone Hr.
    destruct (IdentifierMap.get id m1) as [modes1|] eqn:E1.
    + destruct (Hb id modes1 Hnone E1) as (Hmiss & Hm1). split; [exact Hmiss|].
      destruct (Ha' id modes1 E1) as (modes2 & H2 & Hsub & Hsup).
      rewrite Hr in H2. injection H2 as <-. intros x. split.
      * intros Hx. apply Hsup in Hx as [Hx|Hx]; [apply Hm1; exact Hx|exact Hx].
      * intros ->. apply Hsub, Hm1. reflexivity.
    + exact (Hb' id modes' E1 Hr).
Qed.

(** The loop of [handle], from position [i]. *)
Lemma iterate_spec (fuel : nat) :
  forall (i : nat) (m : AccessMap) (w : World),
    wf_keys m ->
    create_below_root (strategy this) m ->
    weight (key_paths m) i <= fuel ->
    i <= length m ->
    exists r,
      iterate this fuel i m w = (Ok r, w)
      /\ wf_keys r
      /\ create_below_root (strategy this) r
      /\ extends_with_create (resourceSet this) m r
      /\ forall j key modes,
           i <= j -> m !! j = Some (key, modes) ->
           AccessMode.create ∈ modes ->
           hasResource (resourceSet this) (getParentContainer (strategy this) key) = false ->
           exists pm,
             IdentifierMap.get (getParentContainer (strategy this) key) r = Some pm
             /\ AccessMode.create ∈ pm.
Proof using Hshort Hroots.
  induction fuel as [|fuel IH]; intros i m w Hwf Hbelow Hfuel Hi.
  - as_list. assert (m !! i = None) as Hend.
    { destruct (m !! i) as [[key modes]|] eqn:E; [|reflexivity].
      assert (key_paths m !! i = Some (path key)) as Hp
        by (unfold key_paths; rewrite lookup_map, E; reflexivity).
      rewrite (weight_step _ _ _ Hp) in Hfuel. lia. }
    exists m. cbn [iterate]. as_list. rewrite Hend. split; [reflexivity|]. split; [exact Hwf|].
    split; [exact Hbelow|]. split; [apply extends_refl|].
    intros j key modes Hj Hlook. apply lookup_ge_None in Hend.
    apply lookup_lt_Some in Hlook. lia.
  - cbn [iterate]. as_list. destruct (m !! i) as [[key modes]|] eqn:E.
    + assert (key_paths m !! i = Some (path key)) as Hp
        by (unfold key_paths; rewrite lookup_map, E; reflexivity).
      rewrite (weight_step _ _ _ Hp) in Hfuel.
      pose proof (lookup_lt_Some _ _ _ E) as Hlt.
      set (parent := getParentContainer (strategy this) key).
      set (m1 := if mode_has AccessMode.create modes then
                   if negb (hasResource (resourceSet this) parent)
                   then addAccessModes parent [AccessMode.create] m else m
                 else m).
      assert (wf_keys m1
              /\ create_below_root (strategy this) m1
              /\ extends_with_create (resourceSet this) m m1
              /\ (AccessMode.create ∈ modes ->
                  hasResource (resourceSet this) parent = false ->
                  exists pm, IdentifierMap.get parent m1 = Some pm
                             /\ AccessMode.create ∈ pm)
              /\ weight (key_paths m1) (S i) <= fuel
              /\ length m <= length m1
              /\ (forall j key' modes',
                    m !! j = Some (key', modes') ->
                    exists modes1, m1 !! j = Some (key', modes1)
                                   /\ forall x, x ∈ modes' -> x ∈ modes1))
        as (Hwf1 & Hbelow1 & Hext1 & Hparent1 & Hfuel1 & Hlen1 & Hpos1).
      { unfold m1, mode_has. destruct (bool_decide (AccessMode.create ∈ modes)) eqn:Ec.
        - destruct (hasResource (resourceSet this) parent) eqn:Eh; cbn [negb].
          + split; [exact Hwf|]. split; [exact Hbelow|]. split; [apply extends_refl|].
            split; [intros _ H; discriminate|]. split; [lia|]. split; [lia|]. eauto.
          + destruct (add_create_step m parent Hwf Eh)
              as (Hw1 & Hb1 & He1 & Hp1 & Hpaths & Hpos).
            split; [exact Hw1|]. split; [exact (Hb1 Hbelow)|]. split; [exact He1|]. split; [auto|]. split; [|split].
            * destruct Hpaths as [-> | ->]; [lia|].
              rewrite weight_app by (unfold key_paths; rewrite length_map; lia).
              apply bool_decide_eq_true_1 in Ec.
              pose proof (Hshort key (Hbelow key modes
                                        (list_elem_of_lookup_2 _ _ _ E) Ec)) as H.
              fold parent in H. lia.
            * assert (length (key_paths m) <= length (key_paths (addAccessModes parent
                                                           [AccessMode.create] m))) as H.
              { destruct Hpaths as [-> | ->]; [lia|]. rewrite length_app. lia. }
              unfold key_paths in H. rewrite !length_map in H. exact H.
            * exact Hpos.
        - apply bool_decide_eq_false_1 in Ec.
          split; [exact Hwf|]. split; [exact Hbelow|]. split; [apply extends_refl|].
          split; [intros H; contradiction|]. split; [lia|]. split; [lia|]. eauto. }
      destruct (IH (S i) m1 w Hwf1 Hbelow1 Hfuel1)
        as (r & Hrun & Hwfr & Hbelowr & Hextr & Hvis); [lia|].
      exists r. split; [exact Hrun|]. split; [exact Hwfr|]. split; [exact Hbelowr|].
      split; [exact (extends_trans _ _ _ Hext1 Hextr)|].
      intros j key' modes' Hj Hlook Hc Hmiss.
      destruct (decide (j = i)) as [->|Hne].
      * rewrite E in Hlook. injection Hlook as <- <-.
        destruct (Hparent1 Hc Hmiss) as (pm1 & Hg1 & Hc1).
        destruct Hextr as [Ha _]. destruct (Ha _ _ Hg1) as (pm & Hg & Hsub & _).
        exists pm. auto.
      * destruct (Hpos1 j key' modes' Hlook) as (modes1 & Hlook1 & Hsub).
        apply (Hvis j key' modes1); [lia|exact Hlook1|auto|exact Hmiss].
    + exists m. split; [reflexivity|]. split; [exact Hwf|]. split; [exact Hbelow|].
      split; [apply extends_refl|].
      intros j key modes Hj Hlook. apply lookup_ge_None in E.
      apply lookup_lt_Some in Hlook. lia.
Qed.
End Extractor.

Lemma handle_iterate (this : IntermediateModesExtractor.t) (fuel : nat) (input : Operation)
    (w w1 : World) (sm : AccessMap) :
  IntermediateModesExtractor.source this input w = (Ok sm, w1) ->
  IntermediateModesExtractor.handle this fuel input w
  = IntermediateModesExtractor.iterate this fuel 0 sm w1.
Proof.
  intros Hsrc. unfold IntermediateModesExtractor.handle, bind. rewrite Hsrc. reflexivity.
Qed.

(** X17. [IntermediateModesExtractor.handle] ends and only adds [create]
    on containers that do not exist. When the root containers exist, the
    parent of a container that is not a root has a shorter path, and the
    source asks for [create] on no root container, the loop over the
    growing map ends (the fuel covers the paths of the source map) and
    returns a map in which every identifier of the source map keeps its
    modes and gains at most [create], every other identifier is a
    container that does not exist with [create] as its only mode, and no
    entry asks for [create] on a root container. *)
Theorem intermediateModesExtractor_extends (this : IntermediateModesExtractor.t)
    (fuel : nat) (input : Operation) (w w1 : World) (sm : AccessMap) :
  parent_shorter (IntermediateModesExtractor.strategy this) ->
  roots_exist this ->
  IntermediateModesExtractor.source this input w = (Ok sm, w1) ->
  wf_keys sm ->
  create_below_root (IntermediateModesExtractor.strategy this) sm ->
  weight (map (fun kv => path (fst kv)) sm) 0 <= fuel ->
  exists r,
    IntermediateModesExtractor.handle this fuel input w = (Ok r, w1)
    /\ wf_keys r
    /\ create_below_root (IntermediateModesExtractor.strategy this) r
    /\ extends_with_create (IntermediateModesExtractor.resourceSet this) sm r.
Proof.
  intros Hshort Hroots Hsrc Hwf Hbelow Hfuel.
  destruct (iterate_spec this Hshort Hroots fuel 0 sm w1 Hwf Hbelow Hfuel)
    as (r & Hrun & Hwfr & Hbelowr & Hext & _); [lia|].
  exists r. rewrite (handle_iterate _ _ _ _ _ _ Hsrc). auto.
Qed.

(** X18. [IntermediateModesExtractor.handle] covers the direct parent:
    when the root containers exist, the parent of a container that is not
    a root has a shorter path, and the source asks for [create] on no root
    container, the result has [create] on the parent container of every
    entry of the source map that requires [create] and whose parent
    container does not exist. *)
Theorem intermediateModesExtractor_direct_parent (this : IntermediateModesExtractor.t)
    (fuel : nat) (input : Operation) (w w1 : World) (sm : AccessMap) :
  parent_shorter (IntermediateModesExtractor.strategy this) ->
  roots_exist this ->
  IntermediateModesExtractor.source this input w = (Ok sm, w1) ->
  wf_keys sm ->
  create_below_root (IntermediateModesExtractor.strategy this) sm ->
  weight (map (fun kv => path (fst kv)) sm) 0 <= fuel ->
  exists r,
    IntermediateModesExtractor.handle this fuel input w = (Ok r, w1)
    /\ forall id modes,
         (id, modes) ∈ sm ->
         AccessMode.create ∈ modes ->
         hasResource (IntermediateModesExtractor.resourceSet this)
           (getParentContainer (IntermediateModesExtractor.strategy this) id) = false ->
         exists pm,
           IdentifierMap.get
             (getParentContainer (IntermediateModesExtractor.strategy this) id) r = Some pm
           /\ AccessMode.create ∈ pm.
Proof.
  intros Hshort Hroots Hsrc Hwf Hbelow Hfuel.
  destruct (iterate_spec this Hshort Hroots fuel 0 sm w1 Hwf Hbelow Hfuel)
    as (r & Hrun & _ & _ & _ & Hvis); [lia|].
  exists r. rewrite (handle_iterate _ _ _ _ _ _ Hsrc). split; [exact Hrun|].
  intros id modes Hin Hc Hmiss.
  apply list_elem_of_lookup in Hin as [j Hj].
  apply (Hvis j id modes); [lia|exact Hj|exact Hc|exact Hmiss].
Qed.

Lemma iterate_unchanged (this : IntermediateModesExtractor.t) (m : AccessMap) (w : World) :
  (forall id modes,
      (id, modes) ∈ m -> AccessMode.create ∈ modes ->
      hasResource (IntermediateModesExtractor.resourceSet this)
        (getParentContainer (IntermediateModesExtractor.strategy this) id) = true) ->
  forall fuel i,
    length m <= i + fuel ->
    IntermediateModesExtractor.iterate this fuel i m w = (Ok m, w).
Proof.
  intros Hex. induction fuel as [|fuel IH]; intros i Hlen; cbn [IntermediateModesExtractor.iterate];
    as_list; destruct (m !! i) as [[key modes]|] eqn:E; try reflexivity.
  - apply lookup_lt_Some in E. lia.
  - unfold mode_has. destruct (bool_decide (AccessMode.create ∈ modes)) eqn:Ec.
    + apply bool_decide_eq_true_1 in Ec.
      rewrite (Hex key modes (list_elem_of_lookup_2 _ _ _ E) Ec). cbn [negb].
      apply IH. lia.
    + apply IH. lia.
Qed.

(** X19. [IntermediateModesExtractor.handle] returns the map of its source
    as it is when the parent container of every entry that requires
    [create] exists, and so when no entry requires [create]; one unit of
    fuel for each entry is enough. *)
Theorem intermediateModesExtractor_unchanged (this : IntermediateModesExtractor.t)
    (fuel : nat) (input : Operation) (w w1 : World) (sm : AccessMap) :
  IntermediateModesExtractor.source this input w = (Ok sm, w1) ->
  (forall id modes,
      (id, modes) ∈ sm -> AccessMode.create ∈ modes ->
      hasResource (IntermediateModesExtractor.resourceSet this)
        (getParentContainer (IntermediateModesExtractor.strategy this) id) = true) ->
  length sm <= fuel ->
  IntermediateModesExtractor.handle this fuel input w = (Ok sm, w1).
Proof.
  intros Hsrc Hex Hfuel. rewrite (handle_iterate _ _ _ _ _ _ Hsrc).
  apply iterate_unchanged; [exact Hex|lia].
Qed.

(** ** ParentContainerReader: the access map of the wrapped reader *)

Lemma elem_of_map_iff {A B} (f : A -> B) (l : list A) (y : B) :
  y ∈ map f l <-> exists x, f x = y /\ x ∈ l.
Proof.
  rewrite list_elem_of_In, in_map_iff.
  split; intros (x & E & H); exists x; (split; [exact E|apply list_elem_of_In; exact H]).
Qed.

Lemma elem_of_flat_map_iff {A B} (f : A -> list B) (l : list A) (y : B) :
  y ∈ flat_map f l <-> exists x, x ∈ l /\ y ∈ f x.
Proof.
  rewrite list_elem_of_In, in_flat_map.
  split; intros (x & H & E); exists x; split; apply list_elem_of_In; assumption.
Qed.

Lemma findParents_entry (this : ParentContainerReader.t) (accessMap : AccessMap)
    (child container : ResourceIdentifier) (ms : ModeSet) :
  (child, (container, ms)) ∈ ParentContainerReader.findParents this accessMap
  <-> exists cm,
        (child, cm) ∈ accessMap
        /\ (AccessMode.create ∈ cm \/ AccessMode.delete ∈ cm)
        /\ container = getParentContainer (ParentContainerReader.identifierStrategy this) child
        /\ ms = (if bool_decide (AccessMode.create ∈ cm) then [AccessMode.append] else [])
                ++ (if bool_decide (AccessMode.delete ∈ cm) then [AccessMode.write] else []).
Proof.
  unfold ParentContainerReader.findParents, mode_has. rewrite elem_of_flat_map_iff. split.
  - intros ([child' cm] & Hin & Hy).
    destruct (bool_decide (AccessMode.create ∈ cm) || bool_decide (AccessMode.delete ∈ cm))
      eqn:E; [|apply elem_of_nil in Hy; contradiction].
    apply list_elem_of_singleton in Hy. injection Hy as -> -> ->.
    exists cm. split; [exact Hin|]. split; [|auto].
    apply orb_true_iff in E as [E|E]; apply bool_decide_eq_true_1 in E; auto.
  - intros (cm & Hin & Hm & -> & ->). exists (child, cm). split; [exact Hin|].
    assert (bool_decide (AccessMode.create ∈ cm) || bool_decide (AccessMode.delete ∈ cm) = true)
      as ->.
    { apply orb_true_iff. destruct Hm as [H|H]; [left|right]; apply bool_decide_eq_true_2, H. }
    apply list_elem_of_singleton. reflexivity.
Qed.

Lemma findParents_modes (this : ParentContainerReader.t) (accessMap : AccessMap)
    (id : ResourceIdentifier) (m : AccessMode.t) :
  (exists ms, (id, ms) ∈ map snd (ParentContainerReader.findParents this accessMap) /\ m ∈ ms)
  <-> exists child cm,
        (child, cm) ∈ accessMap
        /\ getParentContainer (ParentContainerReader.identifierStrategy this) child = id
        /\ ((m = AccessMode.append /\ AccessMode.create ∈ cm)
            \/ (m = AccessMode.write /\ AccessMode.delete ∈ cm)).
Proof.
  split.
  - intros (ms & Hin & Hm).
    apply elem_of_map_iff in Hin as ([child [container ms']] & [= -> ->] & Hin).
    apply findParents_entry in Hin as (cm & Hin & _ & -> & ->).
    exists child, cm. split; [exact Hin|]. split; [reflexivity|].
    apply elem_of_app in Hm as [Hm|Hm].
    + destruct (bool_decide (AccessMode.create ∈ cm)) eqn:Ec;
        [|apply elem_of_nil in Hm; contradiction].
      apply list_elem_of_singleton in Hm as ->. apply bool_decide_eq_true_1 in Ec. auto.
    + destruct (bool_decide (AccessMode.delete ∈ cm)) eqn:Ed;
        [|apply elem_of_nil in Hm; contradiction].
      apply list_elem_of_singleton in Hm as ->. apply bool_decide_eq_true_1 in Ed. auto.
  - intros (child & cm & Hin & <- & Hm).
    exists ((if bool_decide (AccessMode.create ∈ cm) then [AccessMode.append] else [])
            ++ (if bool_decide (AccessMode.delete ∈ cm) then [AccessMode.write] else [])).
    split.
    + apply elem_of_map_iff.
      exists (child, (getParentContainer (ParentContainerReader.identifierStrategy this) child,
                      (if bool_decide (AccessMode.create ∈ cm) then [AccessMode.append] else [])
                      ++ (if bool_decide (AccessMode.delete ∈ cm)
                          then [AccessMode.write] else []))).
      split; [reflexivity|]. apply findParents_entry. exists cm.
      split; [exact Hin|]. split; [|auto]. destruct Hm as [[_ H]|[_ H]]; auto.
    + apply elem_of_app. destruct Hm as [[-> Hc]|[-> Hd]].
      * left. rewrite (bool_decide_eq_true_2 _ Hc). apply list_elem_of_singleton. reflexivity.
      * right. rewrite (bool_decide_eq_true_2 _ Hd). apply list_elem_of_singleton. reflexivity.
Qed.

(** X20. The access map [ParentContainerReader.handle] builds for the
    reader it wraps ([updateAccessMap] over the result of [findParents])
    holds, for an identifier, exactly the modes the incoming map has for
    it, [append] when it is the parent container of an entry that requires
    [create], and [write] when it is the parent container of an entry that
    requires [delete]; its identifiers are those of the incoming map and
    these parent containers. *)
Theorem parentContainerReader_requests (this : ParentContainerReader.t)
    (accessMap : AccessMap) (id : ResourceIdentifier) :
  wf_keys accessMap ->
  let updatedMap :=
    updateAccessMap (map snd (ParentContainerReader.findParents this accessMap)) []
      accessMap in
  (id ∈ IdentifierMap.keys updatedMap
   <-> id ∈ IdentifierMap.keys accessMap
       \/ exists child cm,
            (child, cm) ∈ accessMap
            /\ getParentContainer (ParentContainerReader.identifierStrategy this) child = id
            /\ (AccessMode.create ∈ cm \/ AccessMode.delete ∈ cm))
  /\ forall modes,
       IdentifierMap.get id updatedMap = Some modes ->
       forall m, m ∈ modes <->
                 (exists stored, IdentifierMap.get id accessMap = Some stored /\ m ∈ stored)
                 \/ exists child cm,
                      (child, cm) ∈ accessMap
                      /\ getParentContainer (ParentContainerReader.identifierStrategy this) child
                         = id
                      /\ ((m = AccessMode.append /\ AccessMode.create ∈ cm)
                          \/ (m = AccessMode.write /\ AccessMode.delete ∈ cm)).
Proof.
  intros Hwf. cbv zeta. split.
  - rewrite updateAccessMap_keys. split.
    + intros [Hadd|[Hkey _]]; [right|left; exact Hkey].
      apply elem_of_map_iff in Hadd as ([id' ms] & Eid & Hin). cbn in Eid. subst id'.
      apply elem_of_map_iff in Hin as ([child [container ms']] & [= -> ->] & Hin).
      apply findParents_entry in Hin as (cm & Hin & Hm & -> & _).
      exists child, cm. auto.
    + intros [Hkey|(child & cm & Hin & Hp & Hm)].
      * right. split; [exact Hkey|]. apply not_elem_of_nil.
      * left. apply elem_of_map_iff.
        eexists (id, _). split; [reflexivity|]. apply elem_of_map_iff.
        eexists (child, (id, _)). split; [reflexivity|]. apply findParents_entry.
        exists cm. split; [exact Hin|]. split; [exact Hm|]. split; [auto|reflexivity].
  - intros modes Hget m.
    rewrite (updateAccessMap_get _ _ _ id modes Hwf Hget m), findParents_modes.
    split.
    + intros [H|[_ H]]; auto.
    + intros [H|H]; [right; split; [apply not_elem_of_nil|exact H]|left; exact H].
Qed.

(** ** The properties above on the collaborators of the unit tests *)

Lemma updateAccessMap_filters_witness :
  let sel := fun e : ResourceIdentifier * ModeSet =>
               bool_decide (path (fst e) = path (Sample.id "foo")) in
  let mapEntries := accessMap Sample.siblings in
  let selected :=
    filter (fun e => sel e = true) (mapEntries : list (ResourceIdentifier * ModeSet)) in
  wf_keys mapEntries
  /\ updateAccessMap [] (map fst selected) mapEntries
     = filter (fun e => sel e = false) (mapEntries : list (ResourceIdentifier * ModeSet))
  /\ updateAccessMap [] [] mapEntries = mapEntries.
Proof.
  cbv zeta.
  assert (wf_keys (accessMap Sample.siblings)) as Hwf by solve_wf.
  split; [exact Hwf|].
  exact (updateAccessMap_filters
           (fun e => bool_decide (path (fst e) = path (Sample.id "foo")))
           (accessMap Sample.siblings) Hwf).
Defined.

Lemma updateAccessMap_lookup_witness :
  let add := [(Sample.id "foo", [AccessMode.write])] in
  let sel := fun e : ResourceIdentifier * ModeSet =>
               bool_decide (path (fst e) = path (Sample.id "bar")) in
  let mapEntries := accessMap Sample.siblings in
  let selected :=
    filter (fun e => sel e = true) (mapEntries : list (ResourceIdentifier * ModeSet)) in
  let result := updateAccessMap add (map fst selected) mapEntries in
  wf_keys mapEntries
  /\ (Sample.id "foo" ∈ IdentifierMap.keys result
      <-> Sample.id "foo" ∈ map fst add
          \/ exists stored, (Sample.id "foo", stored) ∈ mapEntries
                            /\ sel (Sample.id "foo", stored) = false).
Proof.
  cbv zeta.
  assert (wf_keys (accessMap Sample.siblings)) as Hwf by solve_wf.
  split; [exact Hwf|].
  exact (proj1 (updateAccessMap_lookup [(Sample.id "foo", [AccessMode.write])]
                  (fun e => bool_decide (path (fst e) = path (Sample.id "bar")))
                  (accessMap Sample.siblings) (Sample.id "foo") Hwf)).
Defined.

Lemma auxiliaryReader_subject_witness :
  let R : PermissionMap := [(Sample.id "foo", [(CredentialGroup.public, 0)])] in
  let this := {| AuxiliaryReader.reader := Sample.constReader R;
                 AuxiliaryReader.auxiliaryStrategy := Sample.aclStrategy |} in
  let input := mkInput Sample.publicOnly [(Sample.id "foo.acl", [AccessMode.read])] in
  exists pm,
    AuxiliaryReader.handle this input Sample.controlWorld = (Ok pm, Sample.controlWorld)
    /\ IdentifierMap.get (Sample.id "foo.acl") pm = Some [(CredentialGroup.public, 0)].
Proof.
  cbv zeta.
  assert (wf_keys [(Sample.id "foo.acl", [AccessMode.read])]) as Hwf by solve_wf.
  destruct (auxiliaryReader_subject
              {| AuxiliaryReader.reader :=
                   Sample.constReader [(Sample.id "foo", [(CredentialGroup.public, 0)])];
                 AuxiliaryReader.auxiliaryStrategy := Sample.aclStrategy |}
              (mkInput Sample.publicOnly [(Sample.id "foo.acl", [AccessMode.read])])
              Sample.controlWorld
              [(Sample.id "foo", [(CredentialGroup.public, 0)])]
              Sample.controlWorld (Sample.id "foo.acl") [AccessMode.read] Hwf)
    as (_ & _ & pm & Hrun & Hget & _).
  - intros a b Ha Hb _ _. cbn in Ha, Hb.
    apply list_elem_of_singleton in Ha as ->. apply list_elem_of_singleton in Hb as ->.
    vm_compute. discriminate.
  - reflexivity.
  - apply list_elem_of_singleton. reflexivity.
  - vm_compute. reflexivity.
  - exists pm. split; [exact Hrun|exact Hget].
Defined.

Lemma pathBasedReader_partition_witness :
  let this := Sample.pathBased (Sample.constReader []) in
  let accessMap : AccessMap := [(Sample.id "foo/x", [AccessMode.read])] in
  exists x, x ∈ PathBasedReader.matchReaders this accessMap
            /\ PathBasedReader.rid (fst x) = 0
            /\ IdentifierMap.get (Sample.id "foo/x") (snd x) = Some [AccessMode.read].
Proof.
  cbv zeta.
  assert (wf_keys [(Sample.id "foo/x", [AccessMode.read])]) as Hwf by solve_wf.
  pose proof (pathBasedReader_partition (Sample.pathBased (Sample.constReader []))
                [(Sample.id "foo/x", [AccessMode.read])] (Sample.id "foo/x")
                [AccessMode.read] Hwf
                ltac:(apply list_elem_of_singleton; reflexivity)) as H.
  exact (proj1 H).
Defined.

Lemma pathBasedReader_no_match_witness :
  let this := Sample.pathBased (Sample.constReader []) in
  PathBasedReader.matchReaders this (accessMap Sample.siblings) = []
  /\ PathBasedReader.handle this Sample.siblings Sample.emptyWorld
     = (Ok [], Sample.emptyWorld).
Proof.
  cbv zeta.
  apply (pathBasedReader_no_match (Sample.pathBased (Sample.constReader []))
           Sample.siblings Sample.emptyWorld).
  intros id Hid. cbn in Hid.
  repeat (apply elem_of_cons in Hid as [->|Hid]; [vm_compute; reflexivity|]).
  apply elem_of_nil in Hid. contradiction.
Defined.

Lemma getAclRecursive_nearest_witness :
  let this := Sample.webAclReader Sample.rootAclStore in
  let id := Sample.id "foo" in
  let up n := ancestor (WebAclReader.identifierStrategy this) n id in
  let acl n := getAuxiliaryIdentifier (WebAclReader.aclStrategy this) (up n) in
  parent_shorter (WebAclReader.identifierStrategy this)
  /\ String.length (path id) < 63
  /\ match WebAclReader.getAclRecursive this 63 id Sample.emptyWorld with
     | (Ok found, w') =>
         exists n,
           WebAclReader.identifier found = up n
           /\ getRepresentation (WebAclReader.aclStore this) (acl n)
              = inr (WebAclReader.store found)
           /\ (forall k, k < n ->
                 isRootContainer (WebAclReader.identifierStrategy this) (up k) = false
                 /\ exists e, getRepresentation (WebAclReader.aclStore this) (acl k) = inl e
                              /\ isNotFound e = true)
           /\ w' = mkWorld (heap Sample.emptyWorld)
                     (fetched Sample.emptyWorld ++ map (fun k => path (acl k)) (seq 0 (S n)))
     | (Throw e, _) => discovery_error this e
     | (OutOfFuel, _) => False
     end.
Proof.
  cbv zeta. split; [exact sample_parent_shorter|]. split; [vm_compute; lia|].
  exact (getAclRecursive_nearest (Sample.webAclReader Sample.rootAclStore) 63
           (Sample.id "foo") Sample.emptyWorld sample_parent_shorter
           ltac:(vm_compute; lia)).
Defined.

Lemma findPermissions_shares_witness :
  let this := Sample.webAclReader Sample.rootAclStore in
  let aclMap := [(Sample.aclWithMode (NamedNode ACL.Read),
                  [Sample.id "foo"; Sample.id "bar"])] in
  NoDup (map path (filed aclMap))
  /\ exists outcome w',
       WebAclReader.findPermissions this aclMap Sample.bothGroups Sample.emptyWorld
       = (outcome, w')
       /\ match outcome with
          | Ok pm =>
              IdentifierMap.get (Sample.id "foo") pm = IdentifierMap.get (Sample.id "bar") pm
              /\ IdentifierMap.get (Sample.id "foo") pm <> None
          | Throw e => e = TypeError "modesMap[aclMode] is not iterable"
          | OutOfFuel => False
          end.
Proof.
  cbv zeta.
  assert (NoDup (map path (filed [(Sample.aclWithMode (NamedNode ACL.Read),
                                   [Sample.id "foo"; Sample.id "bar"])]))) as Hnd.
  { apply (bool_decide_unpack _). vm_compute. exact I. }
  split; [exact Hnd|].
  destruct (findPermissions_shares (Sample.webAclReader Sample.rootAclStore)
              [(Sample.aclWithMode (NamedNode ACL.Read), [Sample.id "foo"; Sample.id "bar"])]
              Sample.bothGroups Sample.emptyWorld Hnd) as (outcome & w' & Hrun & Hout).
  exists outcome, w'. split; [exact Hrun|].
  destruct outcome as [pm|e|]; [|exact Hout|exact Hout].
  destruct Hout as (_ & _ & Hshare).
  apply (Hshare (Sample.aclWithMode (NamedNode ACL.Read))
           [Sample.id "foo"; Sample.id "bar"]).
  - apply list_elem_of_singleton. reflexivity.
  - apply elem_of_cons. left. reflexivity.
  - apply elem_of_cons. right. apply list_elem_of_singleton. reflexivity.
Defined.

Lemma webAclReader_grants_only_witness :
  let this := Sample.webAclReader Sample.rootAclStore in
  let input := Sample.siblings in
  let w := Sample.emptyWorld in
  parent_shorter (WebAclReader.identifierStrategy this)
  /\ wf_keys (accessMap input)
  /\ exists outcome w',
       WebAclReader.handle this 64 input w = (outcome, w')
       /\ match outcome with
          | Ok pm =>
              (exists ext, heap w' = heap w ++ ext)
              /\ (forall id g m,
                    (view (heap w') pm id g m = Some true \/ view (heap w') pm id g m = None)
                    /\ (m = AccessMode.create \/ m = AccessMode.delete ->
                        view (heap w') pm id g m = None))
              /\ (forall id ps g l,
                    IdentifierMap.get id pm = Some ps -> assoc_get g ps = Some l ->
                    length (heap w) <= l /\ live (heap w') l)
          | Throw e =>
              discovery_error this e \/ e = TypeError "modesMap[aclMode] is not iterable"
          | OutOfFuel => False
          end.
Proof.
  cbv zeta.
  assert (wf_keys (accessMap Sample.siblings)) as Hwf by solve_wf.
  split; [exact sample_parent_shorter|]. split; [exact Hwf|].
  apply (webAclReader_grants_only (Sample.webAclReader Sample.rootAclStore) 64
           Sample.siblings Sample.emptyWorld sample_parent_shorter); [|exact Hwf].
  intros id Hid. cbn in Hid.
  repeat (apply elem_of_cons in Hid as [->|Hid]; [vm_compute; lia|]).
  apply elem_of_nil in Hid. contradiction.
Defined.

Lemma sample_roots_exist (sourceMap : AccessMap) :
  roots_exist (Sample.extractorOver Sample.roots sourceMap).
Proof. intros id H. exact H. Qed.

Lemma sample_create_below_root :
  create_below_root Sample.identifierStrategy [(Sample.id "a/b/c/", [AccessMode.create])].
Proof.
  intros id modes Hin _. apply list_elem_of_singleton in Hin. injection Hin as -> _.
  vm_compute. reflexivity.
Qed.

Lemma intermediateModesExtractor_extends_witness :
  let sm : AccessMap := [(Sample.id "a/b/c/", [AccessMode.create])] in
  let this := Sample.extractorOver Sample.roots sm in
  parent_shorter (IntermediateModesExtractor.strategy this)
  /\ roots_exist this
  /\ wf_keys sm
  /\ create_below_root (IntermediateModesExtractor.strategy this) sm
  /\ weight (map (fun kv => path (fst kv)) sm) 0 <= 64
  /\ exists r,
       IntermediateModesExtractor.handle this 64 Sample.put Sample.emptyWorld
       = (Ok r, Sample.emptyWorld)
       /\ wf_keys r
       /\ create_below_root (IntermediateModesExtractor.strategy this) r
       /\ extends_with_create (IntermediateModesExtractor.resourceSet this) sm r.
Proof.
  cbv zeta.
  assert (wf_keys [(Sample.id "a/b/c/", [AccessMode.create])]) as Hwf by solve_wf.
  assert (weight (map (fun kv : ResourceIdentifier * ModeSet => path (fst kv))
                    [(Sample.id "a/b/c/", [AccessMode.create])]) 0 <= 64) as Hfuel
    by (vm_compute; lia).
  split; [exact sample_parent_shorter|]. split; [apply sample_roots_exist|].
  split; [exact Hwf|]. split; [exact sample_create_below_root|]. split; [exact Hfuel|].
  exact (intermediateModesExtractor_extends
           (Sample.extractorOver Sample.roots [(Sample.id "a/b/c/", [AccessMode.create])])
           64 Sample.put Sample.emptyWorld Sample.emptyWorld
           [(Sample.id "a/b/c/", [AccessMode.create])]
           sample_parent_shorter (sample_roots_exist _) eq_refl Hwf
           sample_create_below_root Hfuel).
Defined.

Lemma intermediateModesExtractor_direct_parent_witness :
  let sm : AccessMap := [(Sample.id "a/b/c/", [AccessMode.create])] in
  let this := Sample.extractorOver Sample.roots sm in
  exists r pm,
    IntermediateModesExtractor.handle this 64 Sample.put Sample.emptyWorld
    = (Ok r, Sample.emptyWorld)
    /\ IdentifierMap.get (Sample.id "a/b/") r = Some pm
    /\ AccessMode.create ∈ pm.
Proof.
  cbv zeta.
  assert (wf_keys [(Sample.id "a/b/c/", [AccessMode.create])]) as Hwf by solve_wf.
  assert (weight (map (fun kv : ResourceIdentifier * ModeSet => path (fst kv))
                    [(Sample.id "a/b/c/", [AccessMode.create])]) 0 <= 64) as Hfuel
    by (vm_compute; lia).
  destruct (intermediateModesExtractor_direct_parent
              (Sample.extractorOver Sample.roots [(Sample.id "a/b/c/", [AccessMode.create])])
              64 Sample.put Sample.emptyWorld Sample.emptyWorld
              [(Sample.id "a/b/c/", [AccessMode.create])]
              sample_parent_shorter (sample_roots_exist _) eq_refl Hwf
              sample_create_below_root Hfuel) as (r & Hrun & Hparent).
  destruct (Hparent (Sample.id "a/b/c/") [AccessMode.create]) as (pm & Hget & Hc).
  - apply list_elem_of_singleton. reflexivity.
  - apply list_elem_of_singleton. reflexivity.
  - vm_compute. reflexivity.
  - exists r, pm. split; [exact Hrun|]. split; [exact Hget|exact Hc].
Defined.

Lemma intermediateModesExtractor_unchanged_witness :
  let sm : AccessMap := [(Sample.id "a/", [AccessMode.create; AccessMode.write])] in
  IntermediateModesExtractor.handle (Sample.extractor sm) 1 Sample.put Sample.emptyWorld
  = (Ok sm, Sample.emptyWorld).
Proof.
  cbv zeta.
  apply (intermediateModesExtractor_unchanged
           (Sample.extractor [(Sample.id "a/", [AccessMode.create; AccessMode.write])])
           1 Sample.put Sample.emptyWorld Sample.emptyWorld
           [(Sample.id "a/", [AccessMode.create; AccessMode.write])] eq_refl).
  - intros id modes Hin _. apply list_elem_of_singleton in Hin. injection Hin as -> _.
    vm_compute. reflexivity.
  - cbn. lia.
Defined.

Lemma parentContainerReader_requests_witness :
  let accessMap : AccessMap := [(Sample.id "foo", [AccessMode.create])] in
  let updatedMap :=
    updateAccessMap (map snd (ParentContainerReader.findParents Sample.parentOverFoo accessMap))
      [] accessMap in
  wf_keys accessMap
  /\ (Sample.id "" ∈ IdentifierMap.keys updatedMap
      <-> Sample.id "" ∈ IdentifierMap.keys accessMap
          \/ exists child cm,
               (child, cm) ∈ accessMap
               /\ getParentContainer
                    (ParentContainerReader.identifierStrategy Sample.parentOverFoo) child
                  = Sample.id ""
               /\ (AccessMode.create ∈ cm \/ AccessMode.delete ∈ cm)).
Proof.
  cbv zeta.
  assert (wf_keys [(Sample.id "foo", [AccessMode.create])]) as Hwf by solve_wf.
  split; [exact Hwf|].
  exact (proj1 (parentContainerReader_requests Sample.parentOverFoo
                  [(Sample.id "foo", [AccessMode.create])] (Sample.id "") Hwf)).
Defined.

(** ** WebAclReader: the rounds of the discovery *)

Lemma prefix_iff (t s : string) : String.prefix t s = true <-> exists b, s = t +:+ b.
Proof.
  split; [apply prefix_app|]. intros (b & ->).
  induction t as [|c t IH]; [destruct b; reflexivity|].
  change (String c t +:+ b) with (String c (t +:+ b)). cbn [String.prefix].
  destruct (ascii_dec c c); [exact IH|contradiction].
Qed.

Lemma string_app_empty_r (s : string) : s +:+ "" = s.
Proof.
  induction s as [|c s IH]; [reflexivity|].
  change (String c (s +:+ "") = String c s). rewrite IH. reflexivity.
Qed.

Lemma includes_unfold (s t : string) :
  includes s t
  = String.prefix t s || match s with EmptyString => false | String _ s' => includes s' t end.
Proof. destruct s; reflexivity. Qed.

(** [includes] is the substring test. *)
Lemma includes_substring (s t : string) : includes s t = true <-> substring_of t s.
Proof.
  unfold substring_of. split.
  - induction s as [|c s IH]; rewrite includes_unfold; intros H;
      apply orb_true_iff in H as [H|H]; try discriminate.
    + apply prefix_iff in H as (b & ->). exists "", b. reflexivity.
    + apply prefix_iff in H as (b & ->). exists "", b. reflexivity.
    + destruct (IH H) as (a & b & ->). exists (String c a), b. reflexivity.
  - intros (a & b & ->). induction a as [|c a IH]; rewrite includes_unfold.
    + apply orb_true_iff. left. apply prefix_iff. exists b. reflexivity.
    + apply orb_true_iff. right. exact IH.
Qed.

Lemma claimed_claims (longest : ResourceIdentifier) (found : WebAclReader.AclMatch)
    (target : ResourceIdentifier) :
  WebAclReader.claimed longest found target <-> claims longest found target.
Proof.
  unfold WebAclReader.claimed, claims. rewrite <- includes_substring.
  rewrite Is_true_true, andb_true_iff, Nat.leb_le. reflexivity.
Qed.

Lemma split_by_filter {A} (P Q : A -> Prop) `{!forall x, Decision (Q x)} (l : list A) :
  (forall x, Q x <-> P x) ->
  split_by P l (filter Q l) (filter (fun x => ~ Q x) l).
Proof.
  intros HPQ. induction l as [|x l IH]; [constructor|].
  rewrite !list.filter_cons. destruct (decide (Q x)) as [Hq|Hq].
  - destruct (decide (~ Q x)) as [Hn|_]; [contradiction|].
    apply split_yes; [apply HPQ, Hq|exact IH].
  - destruct (decide (~ Q x)) as [_|Hn]; [|contradiction].
    apply split_no; [rewrite <- HPQ; exact Hq|exact IH].
Qed.

Lemma split_by_elem {A} (P : A -> Prop) (l yes no : list A) :
  split_by P l yes no ->
  (forall x, x ∈ yes <-> x ∈ l /\ P x) /\ (forall x, x ∈ no <-> x ∈ l /\ ~ P x).
Proof.
  induction 1 as [|x l yes no Hx _ [IHy IHn]|x l yes no Hx _ [IHy IHn]].
  - split; intros x; split; try (intros H; apply elem_of_nil in H; contradiction);
      intros [H _]; apply elem_of_nil in H; contradiction.
  - split; intros y; rewrite ?elem_of_cons, ?IHy, ?IHn, ?elem_of_cons.
    + split; [intros [->|[? ?]]; auto|intros [[->|?] ?]; auto].
    + split; [intros [? ?]; auto|intros [[->|?] ?]; [contradiction|auto]].
  - split; intros y; rewrite ?elem_of_cons, ?IHy, ?IHn, ?elem_of_cons.
    + split; [intros [? ?]; auto|intros [[->|?] ?]; [contradiction|auto]].
    + split; [intros [->|[? ?]]; auto|intros [[->|?] ?]; auto].
Qed.

Lemma split_by_length {A} (P : A -> Prop) (l yes no : list A) :
  split_by P l yes no -> length l = length yes + length no.
Proof. induction 1; cbn; lia. Qed.

Section Longest.
Import WebAclReader.

Lemma longest_fold (targets : list ResourceIdentifier) (long : ResourceIdentifier) :
  let r := fold_left (fun long identifier =>
               if (String.length (path long) <? String.length (path identifier))%nat
               then identifier else long) targets long in
  (r = long /\ forall t, t ∈ targets -> String.length (path t) <= String.length (path long))
  \/ (String.length (path long) < String.length (path r)
      /\ is_longest r targets).
Proof.
  revert long. induction targets as [|x targets IH]; intros long; cbn [fold_left].
  - left. split; [reflexivity|]. intros t Ht. apply elem_of_nil in Ht. contradiction.
  - cbv zeta in IH.
    destruct (Nat.ltb_spec (String.length (path long)) (String.length (path x))) as [Hlt|Hge].
    + right. specialize (IH x). revert IH.
      generalize (fold_left (fun long identifier =>
                    if (String.length (path long) <? String.length (path identifier))%nat
                    then identifier else long) targets x).
      intros r [[-> Hall]|[Hlt' (before & after & E & Hb & Ha)]].
      * split; [exact Hlt|]. exists [], targets. split; [reflexivity|].
        split; [|exact Hall]. intros t Ht. apply elem_of_nil in Ht. contradiction.
      * split; [lia|]. exists (x :: before), after. split; [rewrite E; reflexivity|].
        split; [|exact Ha]. intros t Ht.
        apply elem_of_cons in Ht as [->|Ht]; [exact Hlt'|auto].
    + specialize (IH long). revert IH.
      generalize (fold_left (fun long identifier =>
                    if (String.length (path long) <? String.length (path identifier))%nat
                    then identifier else long) targets long).
      intros r [[-> Hall]|[Hlt' (before & after & E & Hb & Ha)]].
      * left. split; [reflexivity|]. intros t Ht.
        apply elem_of_cons in Ht as [->|Ht]; [exact Hge|auto].
      * right. split; [exact Hlt'|]. exists (x :: before), after.
        split; [rewrite E; reflexivity|].
        split; [|exact Ha]. intros t Ht.
        apply elem_of_cons in Ht as [->|Ht]; [lia|auto].
Qed.

(** [longestOf] picks the first of the longest targets. *)
Lemma longestOf_is_longest (targets : list ResourceIdentifier) :
  targets <> [] -> is_longest (longestOf targets) targets.
Proof.
  intros Hne. unfold longestOf.
  destruct (longest_fold targets (mkId "")) as [[Heq Hall]|[_ H]]; [|exact H].
  cbv zeta in Heq. rewrite Heq. clear Heq.
  destruct targets as [|x targets]; [contradiction|].
  assert (x = mkId "") as ->.
  { pose proof (Hall x (list_elem_of_here _ _)) as H. destruct x as [p].
    cbn in H. destruct p; [reflexivity|cbn in H; lia]. }
  exists [], targets. split; [reflexivity|]. split.
  - intros t Ht. apply elem_of_nil in Ht. contradiction.
  - intros t Ht. apply Hall, elem_of_cons. auto.
Qed.
End Longest.

Lemma is_longest_elem (longest : ResourceIdentifier) (targets : list ResourceIdentifier) :
  is_longest longest targets -> longest ∈ targets.
Proof.
  intros (before & after & -> & _). apply elem_of_app. right. apply list_elem_of_here.
Qed.

Section Walks.
Import WebAclReader.
Variable this : t.
Hypothesis Hparent : parent_shorter (identifierStrategy this).

Lemma walk_cons (start : ResourceIdentifier) (n : nat) :
  walk this start (S n)
  = path (getAuxiliaryIdentifier (aclStrategy this) start)
    :: walk this (getParentContainer (identifierStrategy this) start) n.
Proof.
  unfold walk. change (seq 0 (S (S n))) with (0 :: seq 1 (S n)).
  rewrite <- (seq_shift (S n) 0). cbn [map]. rewrite map_map. f_equal.
  apply map_ext. intros k. unfold aclAbove. rewrite ancestor_parent. reflexivity.
Qed.

Lemma climbs_parent (start : ResourceIdentifier) (n : nat) (error : Error) :
  isRootContainer (identifierStrategy this) start = false ->
  getRepresentation (aclStore this) (getAuxiliaryIdentifier (aclStrategy this) start)
  = inl error ->
  isNotFound error = true ->
  climbs this (getParentContainer (identifierStrategy this) start) n ->
  climbs this start (S n).
Proof using Type.
  intros Hroot Hget Hnf Hup k Hk. destruct k as [|k].
  - split; [exact Hroot|]. exists error. auto.
  - unfold aclAbove. rewrite <- !ancestor_parent. apply Hup. lia.
Qed.

(** A walk of [getAclRecursive]: where it ends, and what it requests. *)
Lemma getAclRecursive_walk (fuel : nat) (id : ResourceIdentifier) (w : World) :
  String.length (path id) < fuel ->
  match getAclRecursive this fuel id w with
  | (Ok found, w') =>
      exists n, nearest_acl this id n found
                /\ w' = mkWorld (heap w) (fetched w ++ walk this id n)
  | (Throw e, w') =>
      exists n, walk_fails this id n e
                /\ w' = mkWorld (heap w) (fetched w ++ walk this id n)
  | (OutOfFuel, _) => False
  end.
Proof using Hparent.
  revert id w. induction fuel as [|fuel IH]; intros id w Hfuel; [lia|].
  rewrite getAclRecursive_step. cbv zeta.
  destruct (getRepresentation _ _) as [error|quads] eqn:Eget.
  - destruct (isNotFound error) eqn:Enf.
    + destruct (isRootContainer _ _) eqn:Eroot.
      * exists 0. split; [|reflexivity]. split; [intros k Hk; lia|].
        exists error. split; [exact Eget|]. rewrite Enf. auto.
      * pose proof (Hparent id Eroot) as Hlt.
        specialize (IH (getParentContainer (identifierStrategy this) id)
                       (requested w (getAuxiliaryIdentifier (aclStrategy this) id))).
        destruct (getAclRecursive this fuel _ _) as [[found|e|] w'].
        -- destruct IH as (n & (Hclimb & Hid & Hdoc) & ->); [lia|].
           exists (S n). split.
           ++ split; [exact (climbs_parent id n error Eroot Eget Enf Hclimb)|].
              unfold aclAbove in *. rewrite ancestor_parent in Hid, Hdoc. auto.
           ++ rewrite walk_cons. unfold requested. cbn [heap fetched].
              rewrite <- app_assoc. reflexivity.
        -- destruct IH as (n & (Hclimb & cause & Hcause & He) & ->); [lia|].
           exists (S n). split.
           ++ split; [exact (climbs_parent id n error Eroot Eget Enf Hclimb)|].
              unfold aclAbove in *. rewrite ancestor_parent in Hcause, He.
              exists cause. auto.
           ++ rewrite walk_cons. unfold requested. cbn [heap fetched].
              rewrite <- app_assoc. reflexivity.
        -- apply IH. lia.
    + exists 0. split; [|reflexivity]. split; [intros k Hk; lia|].
      exists error. split; [exact Eget|]. rewrite Enf. reflexivity.
  - exists 0. split; [|reflexivity]. split; [intros k Hk; lia|]. auto.
Qed.

(** The containers of a walk get shorter on the way up. *)
Lemma climbs_shorter (start : ResourceIdentifier) (n : nat) :
  climbs this start n ->
  forall j k, j < k -> k <= n ->
    String.length (path (ancestor (identifierStrategy this) k start))
    < String.length (path (ancestor (identifierStrategy this) j start)).
Proof using Hparent.
  intros Hclimb j k Hjk. induction k as [|k IH]; [lia|]. intros Hk.
  assert (String.length (path (ancestor (identifierStrategy this) (S k) start))
          < String.length (path (ancestor (identifierStrategy this) k start))) as Hstep.
  { destruct (Hclimb k) as [Hroot _]; [lia|]. exact (Hparent _ Hroot). }
  destruct (decide (j = k)) as [->|Hne]; [exact Hstep|].
  etransitivity; [exact Hstep|]. apply IH; lia.
Qed.

(** A walk requests no ACL identifier twice. *)
Lemma walk_NoDup (start : ResourceIdentifier) (n : nat) :
  acl_injective (aclStrategy this) -> climbs this start n -> NoDup (walk this start n).
Proof using Hparent.
  intros Hinj Hclimb. unfold walk.
  apply (NoDup_fmap_2_strong (fun k => path (aclAbove this start k))); [|apply NoDup_seq].
  intros j k Hj Hk E. apply elem_of_seq in Hj, Hk. apply Hinj in E.
  destruct (Nat.lt_trichotomy j k) as [Hlt|[->|Hlt]]; [|reflexivity|].
  - pose proof (climbs_shorter start n Hclimb j k Hlt) as H. rewrite E in H. lia.
  - pose proof (climbs_shorter start n Hclimb k j Hlt) as H. rewrite E in H. lia.
Qed.

(** A walk ends in one way only. *)
Lemma nearest_not_fails (start : ResourceIdentifier) (n n' : nat) (found : AclMatch)
    (e : Error) :
  nearest_acl this start n found -> walk_fails this start n' e -> False.
Proof using Type.
  intros (Hclimb & _ & Hdoc) (Hclimb' & cause & Hcause & He).
  destruct (Nat.lt_trichotomy n n') as [Hlt|[->|Hlt]].
  - destruct (Hclimb' n Hlt) as (_ & e' & He' & _). congruence.
  - congruence.
  - destruct (Hclimb n' Hlt) as (Hroot & e' & He' & Hnf).
    rewrite Hcause in He'. injection He' as <-. rewrite Hnf in He.
    destruct He as [Hr _]. congruence.
Qed.
End Walks.

Section Rounds.
Import WebAclReader.
Variable this : t.
Hypothesis Hparent : parent_shorter (identifierStrategy this).

Lemma rounds_remaining (targets : list ResourceIdentifier)
    (groups : list (AclMatch * list ResourceIdentifier)) (walks : list (list string))
    (remaining : list ResourceIdentifier) :
  rounds this targets groups walks remaining ->
  forall id, id ∈ targets <-> id ∈ filed groups \/ id ∈ remaining.
Proof using Type.
  induction 1 as [targets|targets longest n found ids rest groups walks remaining
                          _ _ Hsplit _ IH]; intros id.
  - unfold filed. cbn [flat_map]. split; [auto|].
    intros [H|H]; [apply elem_of_nil in H; contradiction|exact H].
  - destruct (split_by_elem _ _ _ _ Hsplit) as [Hy Hn].
    specialize (IH id). unfold filed in *. cbn [flat_map snd]. rewrite elem_of_app, Hy.
    rewrite Hn in IH. split.
    + intros Hin. destruct (decide (claimed longest found id)) as [Hd|Hd].
      * left. left. split; [exact Hin|]. apply claimed_claims. exact Hd.
      * rewrite claimed_claims in Hd. destruct (proj1 IH (conj Hin Hd)); auto.
    + intros [[[Hin _]|H]|H]; [exact Hin| |]; apply IH; auto.
Qed.

(** The identifier at which the ACL document is found is not longer
    than the start of the walk. *)
Lemma nearest_length (start : ResourceIdentifier) (n : nat) (found : AclMatch) :
  nearest_acl this start n found ->
  String.length (path (identifier found)) <= String.length (path start).
Proof using Hparent.
  intros (Hclimb & -> & _). destruct n as [|n]; [reflexivity|].
  pose proof (climbs_shorter this Hparent start (S n) Hclimb 0 (S n)
                ltac:(lia) ltac:(lia)) as H.
  change (ancestor (identifierStrategy this) 0 start) with start in H. lia.
Qed.

(** The longest target is claimed by its own round. *)
Lemma longest_claimed (longest : ResourceIdentifier) (n : nat) (found : AclMatch) :
  nearest_acl this longest n found -> claims longest found longest.
Proof using Hparent.
  intros Hnear. split; [|exact (nearest_length _ _ _ Hnear)].
  exists "", "". rewrite string_app_empty_r. reflexivity.
Qed.

Lemma rounds_count (targets : list ResourceIdentifier)
    (groups : list (AclMatch * list ResourceIdentifier)) (walks : list (list string))
    (remaining : list ResourceIdentifier) :
  rounds this targets groups walks remaining ->
  length walks = length groups
  /\ length groups + length remaining <= length targets
  /\ Forall (fun g => snd g <> []) groups.
Proof using Hparent.
  induction 1 as [targets|targets longest n found ids rest groups walks remaining
                          Hlong Hnear Hsplit _ (IH1 & IH2 & IH3)].
  - split; [reflexivity|]. split; [cbn; lia|constructor].
  - assert (longest ∈ ids) as Hin.
    { apply (split_by_elem _ _ _ _ Hsplit). split; [exact (is_longest_elem _ _ Hlong)|].
      exact (longest_claimed _ _ _ Hnear). }
    pose proof (split_by_length _ _ _ _ Hsplit) as Hlen.
    assert (0 < length ids) as Hpos by (destruct ids; [apply elem_of_nil in Hin; contradiction|cbn; lia]).
    split; [cbn; lia|]. split; [cbn; lia|].
    constructor; [|exact IH3]. cbn. intros ->. cbn in Hpos. lia.
Qed.

Lemma rounds_NoDup (targets : list ResourceIdentifier)
    (groups : list (AclMatch * list ResourceIdentifier)) (walks : list (list string))
    (remaining : list ResourceIdentifier) :
  acl_injective (aclStrategy this) ->
  rounds this targets groups walks remaining -> Forall NoDup walks.
Proof using Hparent.
  intros Hinj. induction 1 as [|targets longest n found ids rest groups walks remaining
                                 _ (Hclimb & _) _ _ IH]; constructor; [|exact IH].
  exact (walk_NoDup this Hparent longest n Hinj Hclimb).
Qed.

(** The loop of [getAclMatches] makes the rounds of the discovery. *)
Lemma getAclMatches_rounds (fuel : nat) (targets : list ResourceIdentifier)
    (storeMap : list (AclMatch * list ResourceIdentifier)) (w : World) :
  (forall t, t ∈ targets -> String.length (path t) + length targets < fuel) ->
  match getAclMatches this fuel targets storeMap w with
  | (Ok sm, w') =>
      exists groups walks,
        rounds this targets groups walks []
        /\ sm = storeMap ++ groups
        /\ w' = mkWorld (heap w) (fetched w ++ concat walks)
  | (Throw e, w') =>
      exists groups walks remaining longest n,
        rounds this targets groups walks remaining
        /\ is_longest longest remaining
        /\ walk_fails this longest n e
        /\ w' = mkWorld (heap w) (fetched w ++ concat walks ++ walk this longest n)
  | (OutOfFuel, _) => False
  end.
Proof using Hparent.
  revert targets storeMap w.
  induction fuel as [|fuel IH]; intros targets storeMap w Hfuel.
  - destruct targets as [|x targets].
    + exists [], []. split; [constructor|]. cbn. rewrite !app_nil_r. destruct w. auto.
    + specialize (Hfuel x (list_elem_of_here _ _)). lia.
  - destruct targets as [|x targets'] eqn:Etargets.
    + exists [], []. split; [constructor|]. cbn. rewrite !app_nil_r. destruct w. auto.
    + rewrite <- Etargets in *.
      assert (targets <> []) as Hne by (rewrite Etargets; discriminate).
      pose proof (longestOf_is_longest targets Hne) as Hlong.
      set (longest := longestOf targets) in *.
      assert (getAclMatches this (S fuel) targets storeMap w
              = bind (getAclRecursive this (S fuel) longest)
                  (fun aclMatch =>
                     getAclMatches this fuel
                       (filter (fun target => ¬ claimed longest aclMatch target) targets)
                       (storeMap ++ [(aclMatch,
                          filter (fun target => claimed longest aclMatch target) targets)]))
                  w) as ->.
      { subst longest. clear -Hne. destruct targets; [contradiction|reflexivity]. }
      pose proof (getAclRecursive_walk this Hparent (S fuel) longest w) as Hwalk.
      unfold bind.
      destruct (getAclRecursive this (S fuel) longest w) as [[found|e|] w1].
      * destruct Hwalk as (n & Hnear & ->).
        { specialize (Hfuel _ (is_longest_elem _ _ Hlong)). lia. }
        pose proof (split_by_filter (claims longest found)
                      (fun target => claimed longest found target) targets
                      (claimed_claims longest found)) as Hsplit.
        set (ids := filter (fun target => claimed longest found target) targets) in *.
        set (rest := filter (fun target => ¬ claimed longest found target) targets) in *.
        assert (length rest < length targets) as Hless.
        { pose proof (split_by_length _ _ _ _ Hsplit) as Hlen.
          assert (longest ∈ ids) as Hin.
          { apply (split_by_elem _ _ _ _ Hsplit).
            split; [exact (is_longest_elem _ _ Hlong)|exact (longest_claimed _ _ _ Hnear)]. }
          destruct ids; [apply elem_of_nil in Hin; contradiction|cbn in Hlen; lia]. }
        specialize (IH rest (storeMap ++ [(found, ids)])
                       (mkWorld (heap w) (fetched w ++ walk this longest n))).
        destruct (getAclMatches this fuel rest _ _) as [[sm|e|] w'].
        -- destruct IH as (groups & walks & Hrounds & -> & ->).
           { intros t Ht. apply (split_by_elem _ _ _ _ Hsplit) in Ht as [Ht _].
             specialize (Hfuel t Ht). lia. }
           exists ((found, ids) :: groups), (walk this longest n :: walks).
           split; [exact (rounds_next this _ _ _ _ _ _ _ _ _ Hlong Hnear Hsplit Hrounds)|].
           split; [rewrite <- app_assoc; reflexivity|].
           cbn [heap fetched concat]. rewrite <- app_assoc. reflexivity.
        -- destruct IH as (groups & walks & remaining & l' & n' & Hrounds & Hl' & Hfail & ->).
           { intros t Ht. apply (split_by_elem _ _ _ _ Hsplit) in Ht as [Ht _].
             specialize (Hfuel t Ht). lia. }
           exists ((found, ids) :: groups), (walk this longest n :: walks), remaining, l', n'.
           split; [exact (rounds_next this _ _ _ _ _ _ _ _ _ Hlong Hnear Hsplit Hrounds)|].
           split; [exact Hl'|]. split; [exact Hfail|].
           cbn [heap fetched concat]. rewrite <- !app_assoc. reflexivity.
        -- apply IH. intros t Ht. apply (split_by_elem _ _ _ _ Hsplit) in Ht as [Ht _].
           specialize (Hfuel t Ht). lia.
      * destruct Hwalk as (n & Hfail & ->).
        { specialize (Hfuel _ (is_longest_elem _ _ Hlong)). lia. }
        exists [], [], targets, longest, n. split; [constructor|].
        split; [exact Hlong|]. split; [exact Hfail|]. reflexivity.
      * apply Hwalk. specialize (Hfuel _ (is_longest_elem _ _ Hlong)). lia.
Qed.
End Rounds.

(** ** WebAclReader: the verdicts of the claimed targets *)

Section Verdicts.
Import WebAclReader.
Variable this : t.

Lemma applyAclMode_Ok_plain (p : Permission) (s : string) (w : World)
    (p' : Permission) (w' : World) :
  applyAclMode p s w = (Ok p', w') -> s ∉ objectPrototypeKeys.
Proof using Type.
  unfold applyAclMode. destruct (modesMap s) as [modes|] eqn:E.
  - intros _. unfold modesMap in E.
    repeat (destruct (decide _) as [->|?] in E);
      try discriminate;
      (apply (bool_decide_unpack _); vm_compute; exact I).
  - destruct (bool_decide (s ∈ objectPrototypeKeys)) eqn:Ek; [discriminate|].
    intros _. apply bool_decide_eq_false_1 in Ek. exact Ek.
Qed.

(** A call of [determinePermissions] that returns has met no mode named
    like a member of [Object.prototype]. *)
Lemma determinePermissions_Ok_plain (acl : Store) (credential : Credential)
    (w : World) (l : loc) (w' : World) :
  determinePermissions this acl (Some credential) w = (Ok l, w') ->
  plain_modes this acl credential.
Proof using Type.
  unfold determinePermissions. cbv zeta. intros Hrun.
  apply bind_inv_Ok in Hrun as (p & w1 & Hloop & _).
  unfold plain_modes.
  eapply (foldM_invariant _
            (fun done _ _ =>
               forall rule o, rule ∈ done ->
                 accessChecker this acl rule credential = true ->
                 o ∈ getObjects acl rule (NamedNode ACL.mode) ->
                 term_value o ∉ objectPrototypeKeys)); [| |exact Hloop].
  - intros rule o Hin. apply elem_of_nil in Hin. contradiction.
  - cbv beta. intros done x p1 w2 p2 w3 Hdone Hbody rule o Hin Hacc Ho.
    apply elem_of_app in Hin as [Hin|Hin]; [exact (Hdone rule o Hin Hacc Ho)|].
    apply list_elem_of_singleton in Hin. subst x. rewrite Hacc in Hbody.
    assert (forall s, s ∈ map term_value (getObjects acl rule (NamedNode ACL.mode)) ->
                      s ∉ objectPrototypeKeys) as Hall.
    { eapply (foldM_invariant applyAclMode
                (fun done _ _ => forall s, s ∈ done -> s ∉ objectPrototypeKeys));
        [| |exact Hbody].
      - intros s Hs. apply elem_of_nil in Hs. contradiction.
      - cbv beta. intros done' s p3 w4 p4 w5 Hdone' Hstep s' Hs'.
        apply elem_of_app in Hs' as [Hs'|Hs']; [auto|].
        apply list_elem_of_singleton in Hs'. subst s'.
        exact (applyAclMode_Ok_plain _ _ _ _ _ Hstep). }
    apply Hall. apply list_elem_of_fmap. exists o. auto.
Qed.

(** The object [determinePermissions] returns holds the verdict of the
    document. *)
Lemma determinePermissions_verdict (acl : Store) (credential : option Credential)
    (w : World) (l : loc) (w' : World) :
  determinePermissions this acl credential w = (Ok l, w') ->
  exists p, l = length (heap w)
            /\ w' = mkWorld (heap w ++ [mkCell false p]) (fetched w)
            /\ acl_verdict this acl credential p.
Proof using Type.
  destruct credential as [c|].
  - intros Hrun. pose proof (determinePermissions_Ok_plain acl c w l w' Hrun) as Hplain.
    destruct (determinePermissions_plain this acl c w Hplain) as (p & Hp & Htable).
    rewrite Hp in Hrun. injection Hrun as <- <-. exists p. auto.
  - rewrite determinePermissions_absent. intros [= <- <-].
    exists emptyPermission. split; [reflexivity|]. split; reflexivity.
Qed.

(** In the map of [findPermissions], the identifiers filed under a
    document have the verdict of that document, for both groups. *)
Lemma findPermissions_verdicts (aclMap : list (Store * list ResourceIdentifier))
    (credentials : CredentialSet) (w : World) (pm : PermissionMap) (w' : World) :
  NoDup (map path (filed aclMap)) ->
  findPermissions this aclMap credentials w = (Ok pm, w') ->
  forall s ids id,
    (s, ids) ∈ aclMap -> id ∈ ids ->
    exists lp la pp pa,
      IdentifierMap.get id pm
      = Some [(CredentialGroup.public, lp); (CredentialGroup.agent, la)]
      /\ heap w' !! lp = Some (mkCell false pp)
      /\ acl_verdict this s (assoc_get CredentialGroup.public credentials) pp
      /\ heap w' !! la = Some (mkCell false pa)
      /\ acl_verdict this s (assoc_get CredentialGroup.agent credentials) pa.
Proof using Type.
  intros Hnd Hrun. unfold findPermissions in Hrun.
  eapply (foldM_invariant_prefix _
            (fun done res w0 =>
               forall s ids id,
                 (s, ids) ∈ done -> id ∈ ids ->
                 exists lp la pp pa,
                   IdentifierMap.get id res
                   = Some [(CredentialGroup.public, lp); (CredentialGroup.agent, la)]
                   /\ heap w0 !! lp = Some (mkCell false pp)
                   /\ acl_verdict this s (assoc_get CredentialGroup.public credentials) pp
                   /\ heap w0 !! la = Some (mkCell false pa)
                   /\ acl_verdict this s (assoc_get CredentialGroup.agent credentials) pa));
    [| |exact Hrun].
  - intros s ids id Hin. apply elem_of_nil in Hin. contradiction.
  - cbv beta. intros done [s0 ids0] rest res w1 res2 w2 El Hdone Hbody s ids id Hin Hid.
    apply bind_inv_Ok in Hbody as (lp & w3 & Hp & Hbody).
    apply bind_inv_Ok in Hbody as (la & w4 & Ha & Hret).
    cbn in Hret. injection Hret as <- <-.
    apply determinePermissions_verdict in Hp as (pp & -> & -> & Hpp).
    apply determinePermissions_verdict in Ha as (pa & -> & -> & Hpa).
    cbn [heap fetched] in *.
    rewrite fold_set_get.
    apply elem_of_app in Hin as [Hin|Hin].
    + rewrite bool_decide_eq_false_2.
      * destruct (Hdone s ids id Hin Hid) as (lp & la & pp0 & pa0 & Hg & H1 & H2 & H3 & H4).
        exists lp, la, pp0, pa0. split; [exact Hg|].
        split; [apply lookup_app_l_Some, lookup_app_l_Some; exact H1|].
        split; [exact H2|].
        split; [apply lookup_app_l_Some, lookup_app_l_Some; exact H3|exact H4].
      * intros Hin0. rewrite El in Hnd. unfold filed in Hnd.
        rewrite flat_map_app, map_app in Hnd.
        apply list.NoDup_app in Hnd as (_ & Hdisj & _).
        apply (Hdisj (path id)).
        -- apply list_elem_of_fmap. exists id. split; [reflexivity|].
           apply elem_of_flat_map. exists (s, ids). auto.
        -- cbn [flat_map snd]. rewrite map_app. apply elem_of_app. left.
           apply list_elem_of_fmap. exists id. auto.
    + apply list_elem_of_singleton in Hin. injection Hin as -> ->.
      rewrite bool_decide_eq_true_2 by exact Hid.
      exists (length (heap w1)), (length (heap w1 ++ [mkCell false pp])), pp, pa.
      split; [reflexivity|]. split; [|split; [exact Hpp|split; [|exact Hpa]]].
      * apply lookup_app_l_Some. rewrite lookup_app_r by lia.
        replace (length (heap w1) - length (heap w1)) with 0 by lia. reflexivity.
      * rewrite lookup_app_r by lia.
        replace (length (heap w1 ++ [mkCell false pp])
                 - length (heap w1 ++ [mkCell false pp])) with 0 by lia.
        reflexivity.
Qed.

(** [filterAclMap] files a claimed target under the rules that apply to it. *)
Lemma filterAclMap_rules_for (groups : list (AclMatch * list ResourceIdentifier))
    (found : AclMatch) (ids : list ResourceIdentifier) (id : ResourceIdentifier) :
  (found, ids) ∈ groups -> id ∈ ids ->
  exists ids', (rules_for found id, ids') ∈ filterAclMap groups /\ id ∈ ids'.
Proof using Type.
  intros Hin Hid. unfold filterAclMap, rules_for.
  destruct (decide (path id = path (identifier found))) as [E|Hne].
  - rewrite bool_decide_eq_true_2 by exact E.
    exists (filter (fun target => path target = path (identifier found)) ids).
    assert (id ∈ filter (fun target => path target = path (identifier found)) ids) as Hf
      by (apply list_elem_of_filter; auto).
    split; [|exact Hf]. apply elem_of_flat_map. exists (found, ids).
    split; [exact Hin|]. apply elem_of_app. left.
    destruct (filter (fun target => path target = path (identifier found)) ids) eqn:Ef;
      [apply elem_of_nil in Hf; contradiction|].
    cbn [length Nat.ltb Nat.leb]. apply list_elem_of_singleton. reflexivity.
  - rewrite bool_decide_eq_false_2 by exact Hne.
    exists (filter (fun target => path target ≠ path (identifier found)) ids).
    assert (id ∈ filter (fun target => path target ≠ path (identifier found)) ids) as Hf
      by (apply list_elem_of_filter; auto).
    split; [|exact Hf]. apply elem_of_flat_map. exists (found, ids).
    split; [exact Hin|]. apply elem_of_app. right.
    destruct (filter (fun target => path target ≠ path (identifier found)) ids) eqn:Ef;
      [apply elem_of_nil in Hf; contradiction|].
    cbn [length Nat.ltb Nat.leb]. apply list_elem_of_singleton. reflexivity.
Qed.

(** The ACL of every round is a document of the store. *)
Lemma rounds_found (targets : list ResourceIdentifier)
    (groups : list (AclMatch * list ResourceIdentifier)) (walks : list (list string))
    (remaining : list ResourceIdentifier) :
  rounds this targets groups walks remaining ->
  forall found ids, (found, ids) ∈ groups ->
    exists acl, getRepresentation (aclStore this) acl = inr (store found).
Proof using Type.
  induction 1 as [|targets longest n found0 ids0 rest groups walks remaining
                    _ (_ & _ & Hdoc) _ _ IH]; intros found ids Hin.
  - apply elem_of_nil in Hin. contradiction.
  - apply elem_of_cons in Hin as [[= -> ->]|Hin]; [eauto|exact (IH _ _ Hin)].
Qed.

Lemma walk_fails_error (start : ResourceIdentifier) (n : nat) (e : Error) :
  walk_fails this start n e -> discovery_error this e.
Proof using Type.
  intros (_ & cause & Hcause & He). unfold discovery_error.
  destruct (isNotFound cause) eqn:Enf.
  - destruct He as [Hroot ->]. left. split; [reflexivity|]. eauto.
  - right. eauto.
Qed.
End Verdicts.

(** C6 as stated fails: [WebAclReader.handle] does not return a map for
    every access map. Over a store without any ACL document the discovery
    reaches the root container and throws [ForbiddenHttpError]; over a
    store whose root ACL has a rule with a mode named [constructor] it
    throws the [TypeError] of [determinePermissions]. Both stores answer
    within their contract. *)
Lemma webAclReader_handle_throws :
  fst (WebAclReader.handle (Sample.webAclReader Sample.noStore) 64
         Sample.siblings Sample.emptyWorld)
  = Throw (ForbiddenHttpError "No ACL document found for root container")
  /\ fst (WebAclReader.handle (Sample.webAclReader Sample.constructorStore) 64
            Sample.siblings Sample.emptyWorld)
     = Throw (TypeError "modesMap[aclMode] is not iterable").
Proof. split; vm_compute; reflexivity. Qed.

(** C6, amended. Given an identifier strategy whose parents are strictly
    shorter, [WebAclReader.handle] terminates: it returns a map, or throws
    an error of the discovery or the [TypeError] of [determinePermissions].
    The map it returns has exactly the keys of the access map. The
    discovery went by rounds: each round picked the first of the longest
    targets left, walked up from it to its nearest ACL document, and
    claimed exactly the targets left whose path is a substring of the path
    of the longest one and at least as long as the path of the identifier
    where the ACL was found, the picked target among them; it ended with
    no target left. Every claimed target has a verdict for the public and
    for the agent group, and it is the verdict of the rules of the ACL of
    its round that apply to it. The reader returns whenever the walk up
    from every target meets an ACL document and no [acl:mode] object of a
    document is named like a member of [Object.prototype]. *)
Theorem webAclReader_handle_keys (this : WebAclReader.t) (fuel : nat)
    (input : PermissionReaderInput) (w : World) :
  parent_shorter (WebAclReader.identifierStrategy this) ->
  (forall id, id ∈ IdentifierMap.keys (accessMap input) ->
              String.length (path id) + length (accessMap input) < fuel) ->
  wf_keys (accessMap input) ->
  exists outcome w',
    WebAclReader.handle this fuel input w = (outcome, w')
    /\ match outcome with
       | Ok pm =>
           wf_keys pm
           /\ (forall id, id ∈ IdentifierMap.keys pm
                          <-> id ∈ IdentifierMap.keys (accessMap input))
           /\ exists groups walks,
                rounds this (IdentifierMap.keys (accessMap input)) groups walks []
                /\ Forall (fun g => snd g <> []) groups
                /\ forall found ids id,
                     (found, ids) ∈ groups -> id ∈ ids ->
                     exists lp la pp pa,
                       IdentifierMap.get id pm
                       = Some [(CredentialGroup.public, lp); (CredentialGroup.agent, la)]
                       /\ heap w' !! lp = Some (mkCell false pp)
                       /\ acl_verdict this (rules_for found id)
                            (assoc_get CredentialGroup.public (credentials input)) pp
                       /\ heap w' !! la = Some (mkCell false pa)
                       /\ acl_verdict this (rules_for found id)
                            (assoc_get CredentialGroup.agent (credentials input)) pa
       | Throw e =>
           discovery_error this e \/ e = TypeError "modesMap[aclMode] is not iterable"
       | OutOfFuel => False
       end
    /\ (forall longest n found,
          nearest_acl this longest n found -> claims longest found longest)
    /\ ((forall t, t ∈ IdentifierMap.keys (accessMap input) -> finds_acl this t) ->
        documents_plain this ->
        exists pm, outcome = Ok pm).
Proof.
  intros Hparent Hfuel Hwf.
  assert (forall t, t ∈ IdentifierMap.keys (accessMap input) ->
                    String.length (path t) + length (IdentifierMap.keys (accessMap input))
                    < fuel) as Hfuel'.
  { intros t Ht. unfold IdentifierMap.keys. rewrite length_map. auto. }
  pose proof (getAclMatches_rounds this Hparent fuel
                (IdentifierMap.keys (accessMap input)) [] w Hfuel') as Hr.
  unfold WebAclReader.handle. cbv zeta. unfold bind.
  destruct (WebAclReader.getAclMatches this fuel (IdentifierMap.keys (accessMap input)) [] w)
    as [[sm|e|] w1] eqn:Ematches; [| |contradiction].
  - destruct Hr as (groups & walks & Hrounds & Hsm & ->). cbn [app] in Hsm. subst sm.
    assert (NoDup (map path (filed (WebAclReader.filterAclMap groups)))) as Hnd.
    { eapply NoDup_Permutation_proper;
        [apply fmap_Permutation, filed_filterAclMap|].
      eapply (getAclMatches_nodup this fuel _ [] groups w); [|exact Ematches].
      cbn [filed flat_map app]. unfold IdentifierMap.keys. rewrite map_map. exact Hwf. }
    unfold WebAclReader.findPermissions.
    destruct (findPermissions_loop this (WebAclReader.filterAclMap groups)
                (credentials input) []
                (mkWorld (heap w) (fetched w ++ concat walks)))
      as (outcome & w' & Hrun' & _ & Hres' & Htot).
    { constructor. }
    { intros id ps. discriminate. }
    exists outcome, w'. split; [exact Hrun'|]. split; [|split].
    + destruct outcome as [pm|e|]; [|right; exact Hres'|exact Hres'].
      destruct Hres' as (Hwfpm & Hkeys & _). split; [exact Hwfpm|]. split.
      * intros id. rewrite Hkeys, filterAclMap_filed, (rounds_remaining this _ _ _ _ Hrounds).
        unfold IdentifierMap.keys at 1. cbn [map]. rewrite !elem_of_nil. tauto.
      * exists groups, walks. split; [exact Hrounds|].
        split; [exact (proj2 (proj2 (rounds_count this Hparent _ _ _ _ Hrounds)))|].
        intros found ids id Hin Hid.
        destruct (filterAclMap_rules_for groups found ids id Hin Hid) as (ids' & Hin' & Hid').
        exact (findPermissions_verdicts this _ _ _ _ _ Hnd Hrun' _ _ _ Hin' Hid').
    + intros longest n found. apply (longest_claimed this Hparent).
    + intros _ Hplain. apply Htot. intros s ids c Hin.
      apply filterAclMap_stores in Hin as (found & targets & direct & Hin & ->).
      destruct (rounds_found this _ _ _ _ Hrounds found targets Hin) as (acl & Hacl).
      intros rule o _ _ Ho.
      apply getObjects_elem in Ho as (q & Hq & _ & Hp & <-).
      apply filterStore_sub in Hq.
      exact (Hplain acl _ q Hacl Hq Hp).
  - destruct Hr as (groups & walks & remaining & longest & n & Hrounds & Hlong & Hfail & ->).
    eexists (Throw e), _. split; [reflexivity|]. split; [|split].
    + left. exact (walk_fails_error this _ _ _ Hfail).
    + intros longest' n' found. apply (longest_claimed this Hparent).
    + intros Hfinds _. exfalso.
      assert (longest ∈ IdentifierMap.keys (accessMap input)) as Hin.
      { apply (rounds_remaining this _ _ _ _ Hrounds). right.
        exact (is_longest_elem _ _ Hlong). }
      destruct (Hfinds _ Hin) as (n' & found & Hnear).
      exact (nearest_not_fails this _ _ _ _ _ Hnear Hfail).
Qed.

Lemma sample_documents_plain : documents_plain (Sample.webAclReader Sample.rootAclStore).
Proof.
  intros id quads q Hget Hq Hp. cbn in Hget.
  destruct (bool_decide (path id = Sample.baseUrl +:+ ".acl")); [|discriminate].
  injection Hget as <-.
  repeat (apply elem_of_cons in Hq as [->|Hq]; [try discriminate|]).
  - intros Hin. vm_compute in Hin.
    repeat (apply elem_of_cons in Hin as [Hin|Hin]; [discriminate|]).
    apply elem_of_nil in Hin. exact Hin.
  - apply elem_of_nil in Hq. contradiction.
Qed.

Lemma sample_finds_acl (name : string) :
  name = "foo" \/ name = "bar" ->
  finds_acl (Sample.webAclReader Sample.rootAclStore) (Sample.id name).
Proof.
  intros Hname.
  exists 1, {| WebAclReader.store :=
                 [ Sample.quad "auth" RDF.type ACL.Authorization;
                   Sample.quad "auth" ACL.accessTo Sample.baseUrl;
                   Sample.quad "auth" ACL.default Sample.baseUrl;
                   Sample.quad "auth" ACL.mode ACL.Read ];
               WebAclReader.identifier := Sample.id "" |}.
  destruct Hname as [-> | ->].
  - split; [|split; vm_compute; reflexivity].
    intros k Hk. destruct k as [|k]; [|lia].
    split; [vm_compute; reflexivity|]. eexists. split; vm_compute; reflexivity.
  - split; [|split; vm_compute; reflexivity].
    intros k Hk. destruct k as [|k]; [|lia].
    split; [vm_compute; reflexivity|]. eexists. split; vm_compute; reflexivity.
Qed.

Lemma webAclReader_handle_keys_witness :
  let this := Sample.webAclReader Sample.rootAclStore in
  parent_shorter (WebAclReader.identifierStrategy this)
  /\ (forall id, id ∈ IdentifierMap.keys (accessMap Sample.siblings) ->
                 String.length (path id) + length (accessMap Sample.siblings) < 64)
  /\ wf_keys (accessMap Sample.siblings)
  /\ exists pm w',
       WebAclReader.handle this 64 Sample.siblings Sample.emptyWorld = (Ok pm, w')
       /\ wf_keys pm
       /\ (forall id, id ∈ IdentifierMap.keys pm
                      <-> id ∈ IdentifierMap.keys (accessMap Sample.siblings))
       /\ exists groups walks,
            rounds this (IdentifierMap.keys (accessMap Sample.siblings)) groups walks []
            /\ Forall (fun g => snd g <> []) groups.
Proof.
  cbv zeta.
  assert (forall id, id ∈ IdentifierMap.keys (accessMap Sample.siblings) ->
                 String.length (path id) + length (accessMap Sample.siblings) < 64) as Hfuel.
  { intros id Hid. cbn in Hid.
    repeat (apply elem_of_cons in Hid as [->|Hid]; [vm_compute; lia|]).
    apply elem_of_nil in Hid. contradiction. }
  assert (wf_keys (accessMap Sample.siblings)) as Hwf by solve_wf.
  split; [exact sample_parent_shorter|]. split; [exact Hfuel|]. split; [exact Hwf|].
  destruct (webAclReader_handle_keys (Sample.webAclReader Sample.rootAclStore) 64
              Sample.siblings Sample.emptyWorld sample_parent_shorter Hfuel Hwf)
    as (outcome & w' & Hrun & Hres & _ & Htot).
  destruct Htot as (pm & ->).
  - intros t Ht. cbn in Ht.
    apply elem_of_cons in Ht as [->|Ht]; [apply (sample_finds_acl "foo"); auto|].
    apply list_elem_of_singleton in Ht as ->. apply (sample_finds_acl "bar"). auto.
  - exact sample_documents_plain.
  - destruct Hres as (Hwfpm & Hkeys & groups & walks & Hrounds & Hne & _).
    exists pm, w'. split; [exact Hrun|]. split; [exact Hwfpm|]. split; [exact Hkeys|].
    exists groups, walks. split; [exact Hrounds|exact Hne].
Defined.

(** ** WebAclReader: the requests of a call *)

Lemma rounds_nil_inv (this : WebAclReader.t)
    (groups : list (WebAclReader.AclMatch * list ResourceIdentifier))
    (walks : list (list string)) (remaining : list ResourceIdentifier) :
  rounds this [] groups walks remaining -> groups = [] /\ walks = [] /\ remaining = [].
Proof.
  inversion 1 as [|targets longest n found ids rest groups' walks' remaining' Hlong]; subst.
  - auto.
  - apply is_longest_elem in Hlong. apply elem_of_nil in Hlong. contradiction.
Qed.

(** A round that claims every target is the only one. *)
Lemma rounds_single (this : WebAclReader.t) (targets : list ResourceIdentifier)
    (found : WebAclReader.AclMatch) (ids : list ResourceIdentifier)
    (groups : list (WebAclReader.AclMatch * list ResourceIdentifier))
    (walks : list (list string)) (remaining : list ResourceIdentifier) :
  rounds this targets ((found, ids) :: groups) walks remaining ->
  (forall t, t ∈ targets -> t ∈ ids) ->
  groups = [] /\ remaining = [] /\ exists longest n, walks = [walk this longest n]
                                                   /\ climbs this longest n.
Proof.
  inversion 1 as [|targets' longest n found' ids' rest groups' walks' remaining'
                    Hlong Hnear Hsplit Hrest]; subst.
  intros Hall.
  assert (rest = []) as ->.
  { destruct rest as [|x rest]; [reflexivity|]. exfalso.
    destruct (split_by_elem _ _ _ _ Hsplit) as [Hy Hn].
    destruct (proj1 (Hn x) (list_elem_of_here _ _)) as [Hx Hnot].
    apply Hnot. apply (Hy x). auto. }
  apply rounds_nil_inv in Hrest as (-> & -> & ->).
  split; [reflexivity|]. split; [reflexivity|]. exists longest, n.
  split; [reflexivity|]. exact (proj1 Hnear).
Qed.

(** C9, amended. Within one call of [WebAclReader.handle] the requests to
    the store are those of the rounds of the discovery, in their order:
    each round walks up from the first of the longest targets left, from
    its own ACL to the nearest ACL document, and requests every ACL
    identifier on the way once; the targets the round claims cause no
    request of their own. A call makes at most one walk for each target,
    and when the first round claims every target it makes this walk only,
    so that no ACL identifier is requested twice in the call. When the
    call fails in the discovery, the rounds made are followed by the walk
    that failed. An ACL can be requested again by the walk of a later
    round. *)
Theorem webAclReader_fetches_per_walk (this : WebAclReader.t) (fuel : nat)
    (input : PermissionReaderInput) (w : World) :
  parent_shorter (WebAclReader.identifierStrategy this) ->
  acl_injective (WebAclReader.aclStrategy this) ->
  (forall id, id ∈ IdentifierMap.keys (accessMap input) ->
              String.length (path id) + length (accessMap input) < fuel) ->
  exists outcome w' groups walks remaining,
    WebAclReader.handle this fuel input w = (outcome, w')
    /\ rounds this (IdentifierMap.keys (accessMap input)) groups walks remaining
    /\ Forall NoDup walks
    /\ length walks = length groups
    /\ length groups + length remaining <= length (accessMap input)
    /\ match outcome with
       | Ok _ => remaining = [] /\ fetched w' = fetched w ++ concat walks
       | Throw e =>
           (remaining = [] /\ fetched w' = fetched w ++ concat walks
            /\ e = TypeError "modesMap[aclMode] is not iterable")
           \/ exists longest n,
                is_longest longest remaining
                /\ walk_fails this longest n e
                /\ NoDup (walk this longest n)
                /\ fetched w' = fetched w ++ concat walks ++ walk this longest n
       | OutOfFuel => False
       end
    /\ (forall found ids others,
          groups = (found, ids) :: others ->
          (forall t, t ∈ IdentifierMap.keys (accessMap input) -> t ∈ ids) ->
          others = [] /\ remaining = [] /\ NoDup (concat walks)).
Proof.
  intros Hparent Hinj Hfuel.
  assert (forall t, t ∈ IdentifierMap.keys (accessMap input) ->
                    String.length (path t) + length (IdentifierMap.keys (accessMap input))
                    < fuel) as Hfuel'.
  { intros t Ht. unfold IdentifierMap.keys. rewrite length_map. auto. }
  assert (forall groups walks remaining,
            rounds this (IdentifierMap.keys (accessMap input)) groups walks remaining ->
            Forall NoDup walks
            /\ length walks = length groups
            /\ length groups + length remaining <= length (accessMap input)
            /\ (forall found ids others,
                  groups = (found, ids) :: others ->
                  (forall t, t ∈ IdentifierMap.keys (accessMap input) -> t ∈ ids) ->
                  others = [] /\ remaining = [] /\ NoDup (concat walks))) as Hcommon.
  { intros groups walks remaining Hrounds.
    destruct (rounds_count this Hparent _ _ _ _ Hrounds) as (H1 & H2 & _).
    unfold IdentifierMap.keys in H2. rewrite length_map in H2.
    split; [exact (rounds_NoDup this Hparent _ _ _ _ Hinj Hrounds)|].
    split; [exact H1|]. split; [exact H2|].
    intros found ids others -> Hall.
    destruct (rounds_single this _ _ _ _ _ _ Hrounds Hall)
      as (-> & -> & longest & n & -> & Hclimb).
    split; [reflexivity|]. split; [reflexivity|]. cbn [concat]. rewrite app_nil_r.
    exact (walk_NoDup this Hparent longest n Hinj Hclimb). }
  pose proof (getAclMatches_rounds this Hparent fuel
                (IdentifierMap.keys (accessMap input)) [] w Hfuel') as Hr.
  unfold WebAclReader.handle. cbv zeta. unfold bind.
  destruct (WebAclReader.getAclMatches this fuel (IdentifierMap.keys (accessMap input)) [] w)
    as [[sm|e|] w1]; [| |contradiction].
  - destruct Hr as (groups & walks & Hrounds & Hsm & ->). cbn [app] in Hsm. subst sm.
    unfold WebAclReader.findPermissions.
    destruct (findPermissions_loop this (WebAclReader.filterAclMap groups)
                (credentials input) []
                (mkWorld (heap w) (fetched w ++ concat walks)))
      as (outcome & w' & Hrun' & Hf & Hres' & _).
    { constructor. }
    { intros id ps. discriminate. }
    destruct (Hcommon _ _ _ Hrounds) as (H1 & H2 & H3 & H4).
    exists outcome, w', groups, walks, [].
    split; [exact Hrun'|]. split; [exact Hrounds|]. split; [exact H1|].
    split; [exact H2|]. split; [exact H3|]. split; [|exact H4].
    destruct outcome as [pm|e|]; [auto|left; auto|exact Hres'].
  - destruct Hr as (groups & walks & remaining & longest & n & Hrounds & Hlong & Hfail & ->).
    destruct (Hcommon _ _ _ Hrounds) as (H1 & H2 & H3 & H4).
    eexists (Throw e), _, groups, walks, remaining.
    split; [reflexivity|]. split; [exact Hrounds|]. split; [exact H1|].
    split; [exact H2|]. split; [exact H3|]. split; [|exact H4].
    right. exists longest, n. split; [exact Hlong|]. split; [exact Hfail|].
    split; [exact (walk_NoDup this Hparent longest n Hinj (proj1 Hfail))|reflexivity].
Qed.

(** The unit test "combines ACL requests for resources when possible":
    [bar/baz] and [bar/] are served by one walk, [foo] by another, and the
    store is asked four times. *)
Lemma webAclReader_combines_requests :
  let run := WebAclReader.handle (Sample.webAclReader Sample.twoAclStore) 64
               Sample.threeTargets Sample.emptyWorld in
  (exists pm, fst run = Ok pm)
  /\ fetched (snd run)
     = [ "http://example.com/bar/baz.acl"; "http://example.com/bar/.acl";
         "http://example.com/foo.acl"; "http://example.com/.acl" ].
Proof.
  cbv zeta. split; [eexists; vm_compute; reflexivity|vm_compute; reflexivity].
Qed.

Lemma webAclReader_fetches_per_walk_witness :
  let this := Sample.webAclReader Sample.rootAclStore in
  parent_shorter (WebAclReader.identifierStrategy this)
  /\ acl_injective (WebAclReader.aclStrategy this)
  /\ (forall id, id ∈ IdentifierMap.keys (accessMap Sample.siblings) ->
                 String.length (path id) + length (accessMap Sample.siblings) < 64)
  /\ exists groups walks remaining,
       rounds this (IdentifierMap.keys (accessMap Sample.siblings)) groups walks remaining
       /\ Forall NoDup walks
       /\ length walks = length groups
       /\ length groups + length remaining <= length (accessMap Sample.siblings)
       /\ remaining = []
       /\ fetched (snd (WebAclReader.handle this 64 Sample.siblings Sample.emptyWorld))
          = fetched Sample.emptyWorld ++ concat walks.
Proof.
  cbv zeta.
  assert (forall id, id ∈ IdentifierMap.keys (accessMap Sample.siblings) ->
                 String.length (path id) + length (accessMap Sample.siblings) < 64) as Hfuel.
  { intros id Hid. cbn in Hid.
    repeat (apply elem_of_cons in Hid as [->|Hid]; [vm_compute; lia|]).
    apply elem_of_nil in Hid. contradiction. }
  split; [exact sample_parent_shorter|]. split; [exact sample_acl_injective|].
  split; [exact Hfuel|].
  destruct (webAclReader_fetches_per_walk (Sample.webAclReader Sample.rootAclStore) 64
              Sample.siblings Sample.emptyWorld sample_parent_shorter sample_acl_injective
              Hfuel)
    as (outcome & w' & groups & walks & remaining & Hrun & Hrounds & Hnd & H1 & H2 & Hout & _).
  exists groups, walks, remaining.
  split; [exact Hrounds|]. split; [exact Hnd|]. split; [exact H1|]. split; [exact H2|].
  rewrite Hrun. cbn [snd].
  assert (exists pm, outcome = Ok pm) as (pm & ->).
  { assert (fst (WebAclReader.handle (Sample.webAclReader Sample.rootAclStore) 64
                   Sample.siblings Sample.emptyWorld) = outcome) as <-
      by (rewrite Hrun; reflexivity).
    eexists. vm_compute. reflexivity. }
  exact Hout.
Defined.
